(** * The LET executor of rcl_executor (src/rcl_executor/src/let_executor.c)

    A shallow embedding of the handle table, the wait-set life cycle, the
    two-phase LET scheduling round and the spin drivers, together with the
    properties of the specification that concern them.

    Conventions.
    - The executor struct is passed explicitly: every function takes the
      executor it would receive by pointer and returns the updated one.
    - The rcl/rmw/rcutils functions the executor calls are collaborators that
      live outside this repository.  They are the methods of the class
      [RclApi], acting on an abstract world [W]; every call is appended to a
      log of events, so that "which callback ran, and in which order" is a
      statement about the log.
    - [size_t] values are [nat]: the only increments are [index++], guarded by
      [index < max_handles], and the per-type counts, which never exceed
      [index] (lemma [wf_counts_bound]).  The one product, the byte size of
      the table in [init], is computed modulo 2^64 ([table_bytes]).  64-bit
      time values are [Z] with the wrap-around and the conversions between
      [uint64_t] and [int64_t] written out. *)

From Stdlib Require Import ZArith Lia.
From stdpp Require Import base option list sets.

(** ** Return codes (rcl/types.h) *)

Definition rcl_ret_t := Z.
Definition RCL_RET_OK : rcl_ret_t := 0%Z.
Definition RCL_RET_ERROR : rcl_ret_t := 1%Z.
Definition RCL_RET_TIMEOUT : rcl_ret_t := 2%Z.
Definition RCL_RET_BAD_ALLOC : rcl_ret_t := 10%Z.
Definition RCL_RET_INVALID_ARGUMENT : rcl_ret_t := 11%Z.
Definition RCL_RET_SUBSCRIPTION_TAKE_FAILED : rcl_ret_t := 401%Z.
Definition RCL_RET_WAIT_SET_FULL : rcl_ret_t := 902%Z.

(** [rc != RCL_RET_OK] and friends. *)
Definition ret_is (rc code : rcl_ret_t) : bool := (rc =? code)%Z.

(** default timeout for rcl_wait() *)
Definition DEFAULT_WAIT_TIMEOUT_MS : Z := 100000000%Z.

(** ** Externally owned objects

    The executor only stores and forwards pointers to them; a pointer is the
    identity of the object, [None] is NULL. *)

Definition rcl_subscription_t := nat.
Definition rcl_timer_t := nat.
Definition rcl_context_t := nat.
Definition msg_t := nat.            (* the caller-owned message buffer, void * *)
Definition rcle_callback_t := nat.  (* the callback function *)

(** The allocator: whether its function pointers are set
    (RCL_CHECK_ALLOCATOR), and whether [allocate] returns memory for a
    request of a given size in bytes. *)
Record rcl_allocator_t := {
  allocator_is_valid : bool;
  allocate_ok : Z -> bool;
}.

(** ** Handles (rcl_executor/handle.h) *)

(** [NONE] is the kind of a fresh handle; it stands for every kind other
    than the two the executor serves (the default branch of its switches). *)
Inductive rcle_handle_type_t := SUBSCRIPTION | TIMER | NONE.
Inductive rcle_invocation_t := ON_NEW_DATA | ALWAYS.

(** The fields of [rcle_handle_t]; they carry the prefix [h_] because the
    executor has an [index] of its own. *)
Record rcle_handle_t := {
  h_type : rcle_handle_type_t;
  h_invocation : rcle_invocation_t;
  h_subscription : option rcl_subscription_t;
  h_timer : option rcl_timer_t;
  h_data : option msg_t;
  h_callback : option rcle_callback_t;
  h_index : nat;                 (* slot in the wait set *)
  h_initialized : bool;
  h_data_available : bool;
}.

(** Modelled from the spec: [rcle_handle_init] (handle.c is not among the
    sources).  The spec requires that the entries [index, max_handles) are
    not initialized and that [data_available] is false unless intake sets it;
    a fresh handle has no kind, no resource, and its wait-set slot is the
    out-of-range value [max_handles]. *)
Definition rcle_handle_init (max_handles : nat) : rcle_handle_t :=
  {| h_type := NONE; h_invocation := ON_NEW_DATA;
     h_subscription := None; h_timer := None; h_data := None;
     h_callback := None; h_index := max_handles;
     h_initialized := false; h_data_available := false |}.

#[global] Instance rcle_handle_inhabited : Inhabited rcle_handle_t :=
  populate (rcle_handle_init 0).

#[global] Instance rcle_handle_type_eq_dec : EqDecision rcle_handle_type_t.
Proof. solve_decision. Defined.
#[global] Instance rcle_invocation_eq_dec : EqDecision rcle_invocation_t.
Proof. solve_decision. Defined.

(** Per-type counts, [rcle_handle_size_t]. *)
Record rcle_handle_size_t := {
  number_of_subscriptions : nat;
  number_of_timers : nat;
  number_of_clients : nat;
  number_of_services : nat;
  number_of_guard_conditions : nat;
  number_of_events : nat;
}.

(** Modelled from the spec: [rcle_handle_size_zero_init] (handle.c), which
    resets every count. *)
Definition rcle_handle_size_zero_init : rcle_handle_size_t :=
  {| number_of_subscriptions := 0; number_of_timers := 0;
     number_of_clients := 0; number_of_services := 0;
     number_of_guard_conditions := 0; number_of_events := 0 |}.

(** ** The wait set (rcl/wait.h)

    After [rcl_wait] the entry of a source that is not ready is NULL.  The
    wait set is valid when its [impl] pointer is set. *)
Record rcl_wait_set_t := {
  subscriptions : list (option rcl_subscription_t);
  timers : list (option rcl_timer_t);
  impl : option nat;
}.

Definition rcl_get_zero_initialized_wait_set : rcl_wait_set_t :=
  {| subscriptions := []; timers := []; impl := None |}.

Definition rcl_wait_set_is_valid (ws : rcl_wait_set_t) : bool :=
  bool_decide (is_Some (impl ws)).

(** [wait_set->subscriptions[k]] read as a condition: the slot holds a
    non-NULL pointer.  The slots consulted in a round were handed out by the
    registration calls of the same [spin_some]; a slot outside the array
    reads as NULL here. *)
Definition slot_ready {A} (slots : list (option A)) (k : nat) : bool :=
  match slots !! k with
  | Some (Some _) => true
  | _ => false
  end.

(** ** The executor *)

Record rcle_let_executor_t := {
  context : option rcl_context_t;
  handles : option (list rcle_handle_t);
  max_handles : nat;
  index : nat;
  allocator : option rcl_allocator_t;
  wait_set : rcl_wait_set_t;
  info : rcle_handle_size_t;
  timeout_ns : Z;
  invocation_time : Z;
}.

(** The array behind [executor->handles]; and [executor->handles[i]]. *)
Definition handles_of (ex : rcle_let_executor_t) : list rcle_handle_t :=
  default [] (handles ex).

Definition handle (ex : rcle_let_executor_t) (i : nat) : rcle_handle_t :=
  handles_of ex !!! i.

(** Field updates. *)
Definition set_handles (ex : rcle_let_executor_t) (hs : option (list rcle_handle_t)) :=
  {| context := context ex; handles := hs; max_handles := max_handles ex;
     index := index ex; allocator := allocator ex; wait_set := wait_set ex;
     info := info ex; timeout_ns := timeout_ns ex;
     invocation_time := invocation_time ex |}.

Definition set_index (ex : rcle_let_executor_t) (n : nat) :=
  {| context := context ex; handles := handles ex; max_handles := max_handles ex;
     index := n; allocator := allocator ex; wait_set := wait_set ex;
     info := info ex; timeout_ns := timeout_ns ex;
     invocation_time := invocation_time ex |}.

Definition set_wait_set (ex : rcle_let_executor_t) (ws : rcl_wait_set_t) :=
  {| context := context ex; handles := handles ex; max_handles := max_handles ex;
     index := index ex; allocator := allocator ex; wait_set := ws;
     info := info ex; timeout_ns := timeout_ns ex;
     invocation_time := invocation_time ex |}.

Definition set_info (ex : rcle_let_executor_t) (c : rcle_handle_size_t) :=
  {| context := context ex; handles := handles ex; max_handles := max_handles ex;
     index := index ex; allocator := allocator ex; wait_set := wait_set ex;
     info := c; timeout_ns := timeout_ns ex;
     invocation_time := invocation_time ex |}.

Definition set_timeout_ns (ex : rcle_let_executor_t) (t : Z) :=
  {| context := context ex; handles := handles ex; max_handles := max_handles ex;
     index := index ex; allocator := allocator ex; wait_set := wait_set ex;
     info := info ex; timeout_ns := t;
     invocation_time := invocation_time ex |}.

Definition set_invocation_time (ex : rcle_let_executor_t) (t : Z) :=
  {| context := context ex; handles := handles ex; max_handles := max_handles ex;
     index := index ex; allocator := allocator ex; wait_set := wait_set ex;
     info := info ex; timeout_ns := timeout_ns ex;
     invocation_time := t |}.

(** [executor->handles[i] = f(executor->handles[i])] *)
Definition update_handle (ex : rcle_let_executor_t) (i : nat)
    (f : rcle_handle_t -> rcle_handle_t) : rcle_let_executor_t :=
  set_handles ex (alter f i <$> handles ex).

Definition with_data_available (b : bool) (h : rcle_handle_t) : rcle_handle_t :=
  {| h_type := h_type h; h_invocation := h_invocation h;
     h_subscription := h_subscription h; h_timer := h_timer h;
     h_data := h_data h; h_callback := h_callback h; h_index := h_index h;
     h_initialized := h_initialized h; h_data_available := b |}.

Definition with_index (k : nat) (h : rcle_handle_t) : rcle_handle_t :=
  {| h_type := h_type h; h_invocation := h_invocation h;
     h_subscription := h_subscription h; h_timer := h_timer h;
     h_data := h_data h; h_callback := h_callback h; h_index := k;
     h_initialized := h_initialized h; h_data_available := h_data_available h |}.

(** The assignments of [add_subscription] to the slot. *)
Definition as_subscription (s : rcl_subscription_t) (m : msg_t)
    (cb : rcle_callback_t) (inv : rcle_invocation_t) (h : rcle_handle_t) :=
  {| h_type := SUBSCRIPTION; h_invocation := inv;
     h_subscription := Some s; h_timer := h_timer h;
     h_data := Some m; h_callback := Some cb; h_index := h_index h;
     h_initialized := true; h_data_available := h_data_available h |}.

(** The assignments of [add_timer] to the slot. *)
Definition as_timer (t : rcl_timer_t) (h : rcle_handle_t) :=
  {| h_type := TIMER; h_invocation := ON_NEW_DATA;
     h_subscription := h_subscription h; h_timer := Some t;
     h_data := h_data h; h_callback := h_callback h; h_index := h_index h;
     h_initialized := true; h_data_available := h_data_available h |}.

Definition incr_subscriptions (c : rcle_handle_size_t) : rcle_handle_size_t :=
  {| number_of_subscriptions := S (number_of_subscriptions c);
     number_of_timers := number_of_timers c;
     number_of_clients := number_of_clients c;
     number_of_services := number_of_services c;
     number_of_guard_conditions := number_of_guard_conditions c;
     number_of_events := number_of_events c |}.

Definition incr_timers (c : rcle_handle_size_t) : rcle_handle_size_t :=
  {| number_of_subscriptions := number_of_subscriptions c;
     number_of_timers := S (number_of_timers c);
     number_of_clients := number_of_clients c;
     number_of_services := number_of_services c;
     number_of_guard_conditions := number_of_guard_conditions c;
     number_of_events := number_of_events c |}.

(** ** Events: the calls the executor makes, in order

    Calls made on behalf of a handle carry its position [i] in the table.
    [EvReadInput i] and [EvExecute i] mark the entry of
    [_rcle_read_input_data] and [_rcle_execute] for handle [i]. *)
Inductive event :=
  | EvWaitSetFini (rc : rcl_ret_t)
  | EvWaitSetInit (sizes : rcle_handle_size_t) (ctx : option rcl_context_t) (rc : rcl_ret_t)
  | EvWaitSetClear (rc : rcl_ret_t)
  | EvWaitSetAddSubscription (i : nat) (s : option rcl_subscription_t) (rc : rcl_ret_t) (slot : nat)
  | EvWaitSetAddTimer (i : nat) (t : option rcl_timer_t) (rc : rcl_ret_t) (slot : nat)
  | EvWait (timeout : Z) (rc : rcl_ret_t)
  | EvReadInput (i : nat)
  | EvTake (i : nat) (s : option rcl_subscription_t) (m : option msg_t) (rc : rcl_ret_t)
  | EvTimerIsReady (i : nat) (t : option rcl_timer_t) (rc : rcl_ret_t) (ready : bool)
  | EvExecute (i : nat)
  | EvCallback (i : nat) (cb : option rcle_callback_t) (m : option msg_t)
  | EvTimerCall (i : nat) (t : option rcl_timer_t) (rc : rcl_ret_t)
  | EvNow (rc : rcl_ret_t) (now : Z)
  | EvUsleep (usec : Z).

(** ** The collaborators

    The operations of rcl, rmw and rcutils that the executor calls, as
    functions of the world.  An out-parameter is part of the result.  The one
    law is the contract of [rcl_wait_set_fini]: it releases the resource, so
    the wait set is not valid afterwards. *)
Class RclApi (W : Type) := {
  rcl_wait_set_fini : rcl_wait_set_t -> W -> rcl_ret_t * rcl_wait_set_t * W;
  rcl_wait_set_init :
    rcl_wait_set_t -> rcle_handle_size_t -> option rcl_context_t -> W ->
    rcl_ret_t * rcl_wait_set_t * W;
  rcl_wait_set_clear : rcl_wait_set_t -> W -> rcl_ret_t * rcl_wait_set_t * W;
  rcl_wait_set_add_subscription :
    rcl_wait_set_t -> option rcl_subscription_t -> W ->
    rcl_ret_t * nat * rcl_wait_set_t * W;
  rcl_wait_set_add_timer :
    rcl_wait_set_t -> option rcl_timer_t -> W ->
    rcl_ret_t * nat * rcl_wait_set_t * W;
  rcl_wait : rcl_wait_set_t -> Z -> W -> rcl_ret_t * rcl_wait_set_t * W;
  rcl_take : option rcl_subscription_t -> option msg_t -> W -> rcl_ret_t * W;
  rcl_timer_is_ready : option rcl_timer_t -> W -> rcl_ret_t * bool * W;
  rcl_timer_call : option rcl_timer_t -> W -> rcl_ret_t * W;
  run_callback : option rcle_callback_t -> option msg_t -> W -> W;
  rcutils_system_time_now : W -> rcl_ret_t * Z * W;
  usleep : Z -> W -> W;
  rcl_context_is_valid : option rcl_context_t -> W -> bool;
  rcl_wait_set_fini_invalid :
    forall ws w, rcl_wait_set_is_valid (rcl_wait_set_fini ws w).1.2 = false;
}.

(** ** 64-bit arithmetic of the periodic driver *)

Definition to_uint64 (z : Z) : Z := (z mod 2 ^ 64)%Z.

Definition to_int64 (z : Z) : Z :=
  let u := to_uint64 z in
  if (u <? 2 ^ 63)%Z then u else (u - 2 ^ 64)%Z.

(** [useconds_t], the argument type of [usleep]: 32 bits, unsigned. *)
Definition to_useconds (z : Z) : Z := (z mod 2 ^ 32)%Z.

(** ** The size of the table

    [sizeof(rcle_handle_t)] depends on the platform.  [size_t] is 64 bits
    wide: the size of a table of [n] handles, as [init] computes it for
    the allocator, is the product modulo 2^64. *)
Class Layout := {
  sizeof_rcle_handle_t : Z;
  sizeof_rcle_handle_t_positive : (0 < sizeof_rcle_handle_t)%Z;
}.

Definition table_bytes `{Layout} (number_of_handles : nat) : Z :=
  to_uint64 (Z.of_nat number_of_handles * sizeof_rcle_handle_t).

(** The size of the table does not wrap.  When it does, the block that
    [allocate] returns is too small for the table, and the loop of [init]
    that initializes the handles writes behind it. *)
Definition table_fits `{Layout} (number_of_handles : nat) : Prop :=
  (Z.of_nat number_of_handles * sizeof_rcle_handle_t < 2 ^ 64)%Z.

(** How a loop body or a function prefix ends: with [return rc], or by
    falling through with the local variable [rc] as it stands. *)
Inductive flow :=
  | Return (rc : rcl_ret_t)
  | Next (rc : rcl_ret_t).

Section Executor.

Context {W : Type} `{api : RclApi W} `{layout : Layout}.

(** The world together with the log of the calls made so far. *)
Record env := {
  world : W;
  log : list event;
}.

Definition note (ev : event) (e : env) : env :=
  {| world := world e; log := log e ++ [ev] |}.

(** *** Logged calls *)

Definition call_wait_set_fini (ws : rcl_wait_set_t) (e : env) :=
  let '(rc, ws', w) := rcl_wait_set_fini ws (world e) in
  (rc, ws', {| world := w; log := log e ++ [EvWaitSetFini rc] |}).

Definition call_wait_set_init (ws : rcl_wait_set_t) (sizes : rcle_handle_size_t)
    (ctx : option rcl_context_t) (e : env) :=
  let '(rc, ws', w) := rcl_wait_set_init ws sizes ctx (world e) in
  (rc, ws', {| world := w; log := log e ++ [EvWaitSetInit sizes ctx rc] |}).

Definition call_wait_set_clear (ws : rcl_wait_set_t) (e : env) :=
  let '(rc, ws', w) := rcl_wait_set_clear ws (world e) in
  (rc, ws', {| world := w; log := log e ++ [EvWaitSetClear rc] |}).

Definition call_wait_set_add_subscription (i : nat) (ws : rcl_wait_set_t)
    (s : option rcl_subscription_t) (e : env) :=
  let '(rc, k, ws', w) := rcl_wait_set_add_subscription ws s (world e) in
  (rc, k, ws', {| world := w; log := log e ++ [EvWaitSetAddSubscription i s rc k] |}).

Definition call_wait_set_add_timer (i : nat) (ws : rcl_wait_set_t)
    (t : option rcl_timer_t) (e : env) :=
  let '(rc, k, ws', w) := rcl_wait_set_add_timer ws t (world e) in
  (rc, k, ws', {| world := w; log := log e ++ [EvWaitSetAddTimer i t rc k] |}).

Definition call_wait (ws : rcl_wait_set_t) (timeout : Z) (e : env) :=
  let '(rc, ws', w) := rcl_wait ws timeout (world e) in
  (rc, ws', {| world := w; log := log e ++ [EvWait timeout rc] |}).

Definition call_take (i : nat) (s : option rcl_subscription_t)
    (m : option msg_t) (e : env) :=
  let '(rc, w) := rcl_take s m (world e) in
  (rc, {| world := w; log := log e ++ [EvTake i s m rc] |}).

Definition call_timer_is_ready (i : nat) (t : option rcl_timer_t) (e : env) :=
  let '(rc, ready, w) := rcl_timer_is_ready t (world e) in
  (rc, ready, {| world := w; log := log e ++ [EvTimerIsReady i t rc ready] |}).

Definition call_timer_call (i : nat) (t : option rcl_timer_t) (e : env) :=
  let '(rc, w) := rcl_timer_call t (world e) in
  (rc, {| world := w; log := log e ++ [EvTimerCall i t rc] |}).

Definition call_callback (i : nat) (cb : option rcle_callback_t)
    (m : option msg_t) (e : env) : env :=
  {| world := run_callback cb m (world e); log := log e ++ [EvCallback i cb m] |}.

Definition call_system_time_now (e : env) :=
  let '(rc, now, w) := rcutils_system_time_now (world e) in
  (rc, now, {| world := w; log := log e ++ [EvNow rc now] |}).

Definition call_usleep (usec : Z) (e : env) : env :=
  {| world := usleep usec (world e); log := log e ++ [EvUsleep usec] |}.

(** *** Construction, configuration, destruction *)

Definition _rcle_let_executor_is_valid (ex : rcle_let_executor_t) : bool :=
  match handles ex, allocator ex with
  | Some _, Some _ => negb (max_handles ex =? 0)
  | _, _ => false
  end.

Definition rcle_let_executor_get_zero_initialized_executor : rcle_let_executor_t :=
  {| context := None; handles := None; max_handles := 0; index := 0;
     allocator := None; wait_set := rcl_get_zero_initialized_wait_set;
     info := rcle_handle_size_zero_init; timeout_ns := 0%Z;
     invocation_time := 0%Z |}.

(** [number_of_handles * sizeof(rcle_handle_t)] is a [size_t] product:
    the allocator is asked for [table_bytes number_of_handles] bytes.  The
    table of [number_of_handles] handles that the model goes on with is
    what the source has when the size does not wrap ([table_fits]); when it
    wraps, the loop of the source that initializes the handles leaves the
    block it was given, and what [init] returns says nothing about the
    source. *)
Definition rcle_let_executor_init (ex : rcle_let_executor_t)
    (ctx : option rcl_context_t) (number_of_handles : nat)
    (alloc : option rcl_allocator_t) : rcl_ret_t * rcle_let_executor_t :=
  match ctx, alloc with
  | Some _, Some a =>
    if negb (allocator_is_valid a) then (RCL_RET_INVALID_ARGUMENT, ex)
    else if number_of_handles =? 0 then (RCL_RET_INVALID_ARGUMENT, ex)
    else
      let ex1 :=
        {| context := ctx; handles := handles ex;
           max_handles := number_of_handles; index := 0; allocator := alloc;
           wait_set := rcl_get_zero_initialized_wait_set; info := info ex;
           timeout_ns := DEFAULT_WAIT_TIMEOUT_MS;
           invocation_time := invocation_time ex |} in
      (* allocate memory for the array *)
      if allocate_ok a (table_bytes number_of_handles) then
        (* every slot goes through rcle_handle_init *)
        let ex2 :=
          set_handles ex1
            (Some (replicate number_of_handles (rcle_handle_init number_of_handles))) in
        (RCL_RET_OK, set_info ex2 rcle_handle_size_zero_init)
      else (RCL_RET_BAD_ALLOC, set_handles ex1 None)
  | _, _ => (RCL_RET_INVALID_ARGUMENT, ex)
  end.

(** The parameter is a [uint64_t]: what is stored is a 64-bit unsigned
    value. *)
Definition rcle_let_executor_set_timeout (ex : rcle_let_executor_t)
    (timeout : Z) : rcl_ret_t * rcle_let_executor_t :=
  if _rcle_let_executor_is_valid ex
  then (RCL_RET_OK, set_timeout_ns ex (to_uint64 timeout))
  else (RCL_RET_ERROR, ex).

Definition rcle_let_executor_fini (ex : rcle_let_executor_t) (e : env)
    : rcl_ret_t * rcle_let_executor_t * env :=
  if _rcle_let_executor_is_valid ex then
    let ex1 :=
      {| context := context ex; handles := None; max_handles := 0; index := 0;
         allocator := allocator ex; wait_set := wait_set ex;
         info := rcle_handle_size_zero_init; timeout_ns := timeout_ns ex;
         invocation_time := invocation_time ex |} in
    let '(ex2, e2) :=
      if rcl_wait_set_is_valid (wait_set ex1) then
        let '(_, ws, e') := call_wait_set_fini (wait_set ex1) e in
        (set_wait_set ex1 ws, e')
      else (ex1, e) in
    (RCL_RET_OK, set_timeout_ns ex2 DEFAULT_WAIT_TIMEOUT_MS, e2)
  else (RCL_RET_OK, ex, e).

(** *** Registration *)

(** The block shared by both registration functions: "invalidate wait_set
    so that in next spin_some() call the 'executor->wait_set' is updated". *)
Definition invalidate_wait_set (ex : rcle_let_executor_t) (e : env)
    : rcle_let_executor_t * env :=
  if rcl_wait_set_is_valid (wait_set ex) then
    let '(_, ws, e') := call_wait_set_fini (wait_set ex) e in
    (set_wait_set ex ws, e')
  else (ex, e).

Definition rcle_let_executor_add_subscription (ex : rcle_let_executor_t)
    (subscription : option rcl_subscription_t) (msg : option msg_t)
    (callback : option rcle_callback_t) (invocation : rcle_invocation_t)
    (e : env) : rcl_ret_t * rcle_let_executor_t * env :=
  match subscription, msg, callback with
  | Some s, Some m, Some cb =>
    (* array bound check *)
    if max_handles ex <=? index ex then (RCL_RET_ERROR, ex, e)
    else
      let ex1 := update_handle ex (index ex) (as_subscription s m cb invocation) in
      let ex2 := set_index ex1 (S (index ex1)) in
      let '(ex3, e3) := invalidate_wait_set ex2 e in
      (RCL_RET_OK, set_info ex3 (incr_subscriptions (info ex3)), e3)
  | _, _, _ => (RCL_RET_INVALID_ARGUMENT, ex, e)
  end.

Definition rcle_let_executor_add_timer (ex : rcle_let_executor_t)
    (timer : option rcl_timer_t) (e : env)
    : rcl_ret_t * rcle_let_executor_t * env :=
  match timer with
  | Some t =>
    (* array bound check *)
    if max_handles ex <=? index ex then (RCL_RET_ERROR, ex, e)
    else
      let ex1 := update_handle ex (index ex) (as_timer t) in
      let ex2 := set_index ex1 (S (index ex1)) in
      let '(ex3, e3) := invalidate_wait_set ex2 e in
      (RCL_RET_OK, set_info ex3 (incr_timers (info ex3)), e3)
  | None => (RCL_RET_INVALID_ARGUMENT, ex, e)
  end.

(** *** The LET scheduling round *)

(** get new data from DDS queue for handle i *)
Definition _rcle_read_input_data (ex : rcle_let_executor_t)
    (ws : rcl_wait_set_t) (i : nat) (e : env)
    : rcl_ret_t * rcle_let_executor_t * env :=
  let e0 := note (EvReadInput i) e in
  (* initialize status *)
  let ex0 := update_handle ex i (with_data_available false) in
  let h := handle ex0 i in
  match h_type h with
  | SUBSCRIPTION =>
    if slot_ready (subscriptions ws) (h_index h) then
      let '(rc, e1) := call_take i (h_subscription h) (h_data h) e0 in
      if negb (ret_is rc RCL_RET_OK) then (rc, ex0, e1)
      else (rc, update_handle ex0 i (with_data_available true), e1)
    else (RCL_RET_OK, ex0, e0)
  | TIMER =>
    if slot_ready (timers ws) (h_index h) then
      let '(rc, timer_is_ready, e1) := call_timer_is_ready i (h_timer h) e0 in
      if negb (ret_is rc RCL_RET_OK) then (rc, ex0, e1)
      else if timer_is_ready
        then (rc, update_handle ex0 i (with_data_available true), e1)
        else (RCL_RET_ERROR, ex0, e1)
    else (RCL_RET_OK, ex0, e0)
  | NONE => (RCL_RET_ERROR, ex0, e0)
  end.

(** determine, if callback shall be called *)
Definition invoke_callback (h : rcle_handle_t) : bool :=
  let invoke := false in
  let invoke :=
    if bool_decide (h_invocation h = ON_NEW_DATA) && h_data_available h
    then true else invoke in
  let invoke :=
    if bool_decide (h_invocation h = ALWAYS) then true else invoke in
  invoke.

(** execute callback of handle i *)
Definition _rcle_execute (ex : rcle_let_executor_t) (ws : rcl_wait_set_t)
    (i : nat) (e : env) : rcl_ret_t * env :=
  let e0 := note (EvExecute i) e in
  let h := handle ex i in
  if invoke_callback h then
    match h_type h with
    | SUBSCRIPTION => (RCL_RET_OK, call_callback i (h_callback h) (h_data h) e0)
    | TIMER => call_timer_call i (h_timer h) e0
    | NONE => (RCL_RET_ERROR, e0)
    end
  else (RCL_RET_OK, e0).

(** The loop header shared by the three loops over the table:
    [i < executor->max_handles && executor->handles[i].initialized]. *)
Definition loop_continues (ex : rcle_let_executor_t) (i : nat) : bool :=
  (i <? max_handles ex) && h_initialized (handle ex i).

(** step 1 of the round: the loop from position [i] on.  [fuel] bounds the
    number of iterations; [max_handles] is always enough
    (lemma [read_loop_fuel]). *)
Fixpoint read_loop (fuel i : nat) (rc : rcl_ret_t) (ex : rcle_let_executor_t)
    (ws : rcl_wait_set_t) (e : env) : flow * rcle_let_executor_t * env :=
  match fuel with
  | 0 => (Next rc, ex, e)
  | S fuel' =>
    if loop_continues ex i then
      let '(rc1, ex1, e1) := _rcle_read_input_data ex ws i e in
      if negb (ret_is rc1 RCL_RET_OK)
         && negb (ret_is rc1 RCL_RET_SUBSCRIPTION_TAKE_FAILED)
      then (Return rc1, ex1, e1)
      else read_loop fuel' (S i) rc1 ex1 ws e1
    else (Next rc, ex, e)
  end.

(** step 2 / step 3 of the round: the loop from position [i] on. *)
Fixpoint execute_loop (fuel i : nat) (rc : rcl_ret_t) (ex : rcle_let_executor_t)
    (ws : rcl_wait_set_t) (e : env) : flow * env :=
  match fuel with
  | 0 => (Next rc, e)
  | S fuel' =>
    if loop_continues ex i then
      let '(rc1, e1) := _rcle_execute ex ws i e in
      if negb (ret_is rc1 RCL_RET_OK) then (Return rc1, e1)
      else execute_loop fuel' (S i) rc1 ex ws e1
    else (Next rc, e)
  end.

Definition flow_rc (f : flow) : rcl_ret_t :=
  match f with Return rc => rc | Next rc => rc end.

Definition _rcle_let_scheduling (ex : rcle_let_executor_t)
    (ws : rcl_wait_set_t) (e : env)
    : rcl_ret_t * rcle_let_executor_t * env :=
  match read_loop (max_handles ex) 0 RCL_RET_OK ex ws e with
  | (Return rc, ex1, e1) => (rc, ex1, e1)
  | (Next rc, ex1, e1) =>
    let '(f, e2) := execute_loop (max_handles ex1) 0 rc ex1 ws e1 in
    (flow_rc f, ex1, e2)
  end.

(** *** The spin drivers *)

(** "add handles to wait_set": the loop of [spin_some] from position [i]. *)
Fixpoint register_loop (fuel i : nat) (rc : rcl_ret_t)
    (ex : rcle_let_executor_t) (e : env)
    : flow * rcle_let_executor_t * env :=
  match fuel with
  | 0 => (Next rc, ex, e)
  | S fuel' =>
    if loop_continues ex i then
      let h := handle ex i in
      match h_type h with
      | SUBSCRIPTION =>
        let '(rc1, k, ws, e1) :=
          call_wait_set_add_subscription i (wait_set ex) (h_subscription h) e in
        let ex1 := set_wait_set ex ws in
        if negb (ret_is rc1 RCL_RET_OK) then (Return rc1, ex1, e1)
        else register_loop fuel' (S i) rc1 (update_handle ex1 i (with_index k)) e1
      | TIMER =>
        let '(rc1, k, ws, e1) :=
          call_wait_set_add_timer i (wait_set ex) (h_timer h) e in
        let ex1 := set_wait_set ex ws in
        if negb (ret_is rc1 RCL_RET_OK) then (Return rc1, ex1, e1)
        else register_loop fuel' (S i) rc1 (update_handle ex1 i (with_index k)) e1
      | NONE => (Return RCL_RET_ERROR, ex, e)
      end
    else (Next rc, ex, e)
  end.

(** "initialize wait_set if (1) this is the first invocation ... (2) a new
    timer or subscription has been added to the Executor". *)
Definition ensure_wait_set (ex : rcle_let_executor_t) (e : env)
    : flow * rcle_let_executor_t * env :=
  if negb (rcl_wait_set_is_valid (wait_set ex)) then
    let '(_, ws0, e0) := call_wait_set_fini (wait_set ex) e in
    let ex0 := set_wait_set (set_wait_set ex ws0) rcl_get_zero_initialized_wait_set in
    let '(rc, ws1, e1) :=
      call_wait_set_init (wait_set ex0) (info ex0) (context ex0) e0 in
    let ex1 := set_wait_set ex0 ws1 in
    if negb (ret_is rc RCL_RET_OK) then (Return rc, ex1, e1)
    else (Next RCL_RET_OK, ex1, e1)
  else (Next RCL_RET_OK, ex, e).

(** [spin_some] once the wait set is there: clear it, register the handles,
    wait, run the round.  The timeout is a [uint64_t]; the parameter of
    [rcl_wait] is an [int64_t], so the call converts it. *)
Definition spin_some_prepared (ex1 : rcle_let_executor_t)
    (timeout : Z) (e1 : env) : rcl_ret_t * rcle_let_executor_t * env :=
  (* set rmw fields to NULL *)
  let '(rc2, ws2, e2) := call_wait_set_clear (wait_set ex1) e1 in
  let ex2 := set_wait_set ex1 ws2 in
  if negb (ret_is rc2 RCL_RET_OK) then (rc2, ex2, e2)
  else
    match register_loop (max_handles ex2) 0 rc2 ex2 e2 with
    | (Return rc3, ex3, e3) => (rc3, ex3, e3)
    | (Next _, ex3, e3) =>
      (* rc = rcl_wait(...); rc = _rcle_let_scheduling(...); *)
      let '(_, ws4, e4) := call_wait (wait_set ex3) (to_int64 timeout) e3 in
      let ex4 := set_wait_set ex3 ws4 in
      _rcle_let_scheduling ex4 (wait_set ex4) e4
    end.

Definition rcle_let_executor_spin_some (ex : rcle_let_executor_t)
    (timeout : Z) (e : env) : rcl_ret_t * rcle_let_executor_t * env :=
  match ensure_wait_set ex e with
  | (Return rc, ex1, e1) => (rc, ex1, e1)
  | (Next _, ex1, e1) => spin_some_prepared ex1 timeout e1
  end.

(** [spin]: rounds while the context is valid.  The loop of the source need
    not end; [rounds] bounds the iterations and [None] is "still spinning".
    [ret] is the local variable of the source. *)
Fixpoint spin_loop (rounds : nat) (ret : rcl_ret_t) (ex : rcle_let_executor_t)
    (e : env) : option (rcl_ret_t * rcle_let_executor_t * env) :=
  if rcl_context_is_valid (context ex) (world e) then
    match rounds with
    | 0 => None
    | S rounds' =>
      let '(ret1, ex1, e1) := rcle_let_executor_spin_some ex (timeout_ns ex) e in
      if negb (ret_is ret1 RCL_RET_OK || ret_is ret1 RCL_RET_TIMEOUT)
      then Some (ret1, ex1, e1)
      else spin_loop rounds' ret1 ex1 e1
    end
  else Some (ret, ex, e).

Definition rcle_let_executor_spin (rounds : nat) (ex : rcle_let_executor_t)
    (e : env) : option (rcl_ret_t * rcle_let_executor_t * env) :=
  spin_loop rounds RCL_RET_OK ex e.

(** One iteration of the periodic driver.  [invocation_time + period] is
    computed in 64-bit unsigned arithmetic and stored back as a signed
    value; the sleep is in microseconds. *)
Definition rcle_let_executor_spin_one_period (ex : rcle_let_executor_t)
    (period : Z) (e : env) : rcl_ret_t * rcle_let_executor_t * env :=
  let '(ex0, e0) :=
    if (invocation_time ex =? 0)%Z then
      let '(_, now, e') := call_system_time_now e in
      (set_invocation_time ex now, e')
    else (ex, e) in
  let '(ret, ex1, e1) := rcle_let_executor_spin_some ex0 (timeout_ns ex0) e0 in
  if negb (ret_is ret RCL_RET_OK || ret_is ret RCL_RET_TIMEOUT)
  then (ret, ex1, e1)
  else
    (* sleep until invocation_time plus period *)
    let '(ret2, end_time_point, e2) := call_system_time_now e1 in
    let sleep_time :=
      to_int64 (to_uint64 (to_uint64 (invocation_time ex1) + period)
                - to_uint64 end_time_point) in
    let e3 :=
      if (0 <? sleep_time)%Z
      then call_usleep (to_useconds (sleep_time `quot` 1000)) e2
      else e2 in
    let ex3 :=
      set_invocation_time ex1
        (to_int64 (to_uint64 (invocation_time ex1) + period)) in
    (ret2, ex3, e3).

(** [spin_period]: periods while the context is valid; the result of a
    period is dropped. *)
Fixpoint rcle_let_executor_spin_period (rounds : nat)
    (ex : rcle_let_executor_t) (period : Z) (e : env)
    : option (rcl_ret_t * rcle_let_executor_t * env) :=
  if rcl_context_is_valid (context ex) (world e) then
    match rounds with
    | 0 => None
    | S rounds' =>
      let '(_, ex1, e1) := rcle_let_executor_spin_one_period ex period e in
      rcle_let_executor_spin_period rounds' ex1 period e1
    end
  else Some (RCL_RET_OK, ex, e).

End Executor.

Arguments env W : clear implicits.

(** ** Use of the interface: calls, runs, reachable executors *)

Inductive api_call :=
  | CallInit (ctx : option rcl_context_t) (number_of_handles : nat)
      (alloc : option rcl_allocator_t)
  | CallSetTimeout (timeout : Z)
  | CallFini
  | CallAddSubscription (subscription : option rcl_subscription_t)
      (msg : option msg_t) (callback : option rcle_callback_t)
      (invocation : rcle_invocation_t)
  | CallAddTimer (timer : option rcl_timer_t)
  | CallSpinSome (timeout : Z)
  | CallSpinOnePeriod (period : Z).

Section Runs.

Context {W : Type} `{api : RclApi W} `{layout : Layout}.

Definition do_call (c : api_call) (ex : rcle_let_executor_t) (e : env W)
    : rcl_ret_t * rcle_let_executor_t * env W :=
  match c with
  | CallInit ctx n alloc =>
    let '(rc, ex') := rcle_let_executor_init ex ctx n alloc in (rc, ex', e)
  | CallSetTimeout t =>
    let '(rc, ex') := rcle_let_executor_set_timeout ex t in (rc, ex', e)
  | CallFini => rcle_let_executor_fini ex e
  | CallAddSubscription s m cb inv =>
    rcle_let_executor_add_subscription ex s m cb inv e
  | CallAddTimer t => rcle_let_executor_add_timer ex t e
  | CallSpinSome t => rcle_let_executor_spin_some ex t e
  | CallSpinOnePeriod p => rcle_let_executor_spin_one_period ex p e
  end.

(** A call that is not an [init] of which the allocation failed. *)
Definition allocated (c : api_call) (rc : rcl_ret_t) : Prop :=
  match c with
  | CallInit _ _ _ => rc <> RCL_RET_BAD_ALLOC
  | _ => True
  end.

(** The executors a program can hold: it starts from the zero-initialized
    executor and calls the interface.  An executor whose [init] failed to
    allocate has no table; using it is a NULL dereference in the source, so
    a run ends there. *)
Inductive reachable : rcle_let_executor_t -> Prop :=
  | reachable_zero :
      reachable rcle_let_executor_get_zero_initialized_executor
  | reachable_call c ex e rc ex' e' :
      reachable ex ->
      do_call c ex e = (rc, ex', e') ->
      allocated c rc ->
      reachable ex'.

(** The executors that a sequence of calls of the interface leaves,
    whatever the calls return. *)
Inductive after_calls : rcle_let_executor_t -> Prop :=
  | after_no_call :
      after_calls rcle_let_executor_get_zero_initialized_executor
  | after_call c ex e rc ex' e' :
      after_calls ex ->
      do_call c ex e = (rc, ex', e') ->
      after_calls ex'.

(** The table is well formed: the array has [max_handles] entries, exactly
    the first [index] of them are initialized, each of those is a
    subscription or a timer, and a timer has the policy ON_NEW_DATA. *)
Record wf (ex : rcle_let_executor_t) : Prop := {
  wf_length : length (handles_of ex) = max_handles ex;
  wf_index : index ex <= max_handles ex;
  wf_prefix : forall i, i < index ex -> h_initialized (handle ex i) = true;
  wf_rest : forall i, index ex <= i -> h_initialized (handle ex i) = false;
  wf_kind : forall i, i < index ex -> h_type (handle ex i) <> NONE;
  wf_timer : forall i,
    h_type (handle ex i) = TIMER -> h_invocation (handle ex i) = ON_NEW_DATA;
  wf_counts :
    number_of_subscriptions (info ex) + number_of_timers (info ex) = index ex;
}.

(** *** Reading the log *)

(** The positions for which [_rcle_read_input_data] was entered, in order. *)
Definition read_positions (l : list event) : list nat :=
  omap (fun ev => match ev with EvReadInput i => Some i | _ => None end) l.

(** The positions for which [_rcle_execute] was entered, in order. *)
Definition execute_positions (l : list event) : list nat :=
  omap (fun ev => match ev with EvExecute i => Some i | _ => None end) l.

(** The position an event belongs to, for the calls made on behalf of a
    handle. *)
Definition event_position (ev : event) : option nat :=
  match ev with
  | EvWaitSetAddSubscription i _ _ _ | EvWaitSetAddTimer i _ _ _
  | EvReadInput i | EvTake i _ _ _ | EvTimerIsReady i _ _ _
  | EvExecute i | EvCallback i _ _ | EvTimerCall i _ _ => Some i
  | _ => None
  end.

(** Events of the intake phase, and of the execution phase. *)
Definition is_intake_event (ev : event) : bool :=
  match ev with
  | EvReadInput _ | EvTake _ _ _ _ | EvTimerIsReady _ _ _ _ => true
  | _ => false
  end.

Definition is_execution_event (ev : event) : bool :=
  match ev with
  | EvExecute _ | EvCallback _ _ _ | EvTimerCall _ _ _ => true
  | _ => false
  end.

(** The callback of the handle at position [i] was invoked: the callback of
    a subscription was called, or the call primitive of a timer. *)
Definition invoked (i : nat) (l : list event) : Prop :=
  (exists cb m, EvCallback i cb m ∈ l) \/ (exists t rc, EvTimerCall i t rc ∈ l).

(** The intake phase set [data_available] of handle [h] at position [i]:
    its slot was ready and the fetch, or the expiry check, succeeded. *)
Definition intake_success (ws : rcl_wait_set_t) (i : nat) (h : rcle_handle_t)
    (l : list event) : Prop :=
  (h_type h = SUBSCRIPTION /\ slot_ready (subscriptions ws) (h_index h) = true /\
   EvTake i (h_subscription h) (h_data h) RCL_RET_OK ∈ l) \/
  (h_type h = TIMER /\ slot_ready (timers ws) (h_index h) = true /\
   EvTimerIsReady i (h_timer h) RCL_RET_OK true ∈ l).

(** A return code that ends the intake phase. *)
Definition fatal_for_intake (rc : rcl_ret_t) : bool :=
  negb (ret_is rc RCL_RET_OK) && negb (ret_is rc RCL_RET_SUBSCRIPTION_TAKE_FAILED).

(** The handles in the order of the table, up to the fill mark. *)
Definition registered (ex : rcle_let_executor_t) : list rcle_handle_t :=
  take (index ex) (handles_of ex).

End Runs.

(** ** A simulated middleware

    An instance of the collaborators for concrete runs.  The wait set is
    kept the way rcl keeps it: [init] allocates the arrays, [clear] empties
    them and rewinds the fill marks, a registration stores the pointer in
    the next free slot and reports the slot, and [rcl_wait] nulls the slots
    of the sources that are not ready.  What each source answers is given by
    a script. *)
Module Sim.

Record script := {
  init_rc : rcl_ret_t;
  clear_rc : rcl_ret_t;
  wait_rc : rcl_ret_t;
  add_subscription_rc : rcl_subscription_t -> rcl_ret_t;
  add_timer_rc : rcl_timer_t -> rcl_ret_t;
  subscription_ready : rcl_subscription_t -> bool;
  timer_ready : rcl_timer_t -> bool;
  take_rc : rcl_subscription_t -> rcl_ret_t;
  timer_is_ready : rcl_timer_t -> rcl_ret_t * bool;
  timer_call_rc : rcl_timer_t -> rcl_ret_t;
  tick : Z;                       (* time that passes between two readings *)
}.

Record machine := {
  behaviour : script;
  subscription_index : nat;       (* fill mark of the subscription slots *)
  timer_index : nat;              (* fill mark of the timer slots *)
  now : Z;                        (* the system clock, in nanoseconds *)
  calls : nat;                    (* callbacks and timer calls run so far *)
}.

Definition with_marks (w : machine) (s t : nat) : machine :=
  {| behaviour := behaviour w; subscription_index := s; timer_index := t;
     now := now w; calls := calls w |}.

Definition with_now (w : machine) (t : Z) : machine :=
  {| behaviour := behaviour w; subscription_index := subscription_index w;
     timer_index := timer_index w; now := t; calls := calls w |}.

Definition with_calls (w : machine) (n : nat) : machine :=
  {| behaviour := behaviour w; subscription_index := subscription_index w;
     timer_index := timer_index w; now := now w; calls := n |}.

Definition wait_set_fini (ws : rcl_wait_set_t) (w : machine) :=
  (RCL_RET_OK, rcl_get_zero_initialized_wait_set, w).

Definition wait_set_init (ws : rcl_wait_set_t) (sizes : rcle_handle_size_t)
    (ctx : option rcl_context_t) (w : machine) :=
  if ret_is (init_rc (behaviour w)) RCL_RET_OK then
    (RCL_RET_OK,
     {| subscriptions := replicate (number_of_subscriptions sizes) None;
        timers := replicate (number_of_timers sizes) None;
        impl := Some 1 |},
     with_marks w 0 0)
  else (init_rc (behaviour w), ws, w).

Definition wait_set_clear (ws : rcl_wait_set_t) (w : machine) :=
  if ret_is (clear_rc (behaviour w)) RCL_RET_OK then
    (RCL_RET_OK,
     {| subscriptions := replicate (length (subscriptions ws)) None;
        timers := replicate (length (timers ws)) None;
        impl := impl ws |},
     with_marks w 0 0)
  else (clear_rc (behaviour w), ws, w).

Definition wait_set_add_subscription (ws : rcl_wait_set_t)
    (s : option rcl_subscription_t) (w : machine) :=
  match s with
  | None => (RCL_RET_INVALID_ARGUMENT, 0, ws, w)
  | Some s' =>
    if negb (ret_is (add_subscription_rc (behaviour w) s') RCL_RET_OK)
    then (add_subscription_rc (behaviour w) s', 0, ws, w)
    else if length (subscriptions ws) <=? subscription_index w
    then (RCL_RET_WAIT_SET_FULL, 0, ws, w)
    else
      (RCL_RET_OK, subscription_index w,
       {| subscriptions := <[subscription_index w := Some s']> (subscriptions ws);
          timers := timers ws; impl := impl ws |},
       with_marks w (S (subscription_index w)) (timer_index w))
  end.

Definition wait_set_add_timer (ws : rcl_wait_set_t)
    (t : option rcl_timer_t) (w : machine) :=
  match t with
  | None => (RCL_RET_INVALID_ARGUMENT, 0, ws, w)
  | Some t' =>
    if negb (ret_is (add_timer_rc (behaviour w) t') RCL_RET_OK)
    then (add_timer_rc (behaviour w) t', 0, ws, w)
    else if length (timers ws) <=? timer_index w
    then (RCL_RET_WAIT_SET_FULL, 0, ws, w)
    else
      (RCL_RET_OK, timer_index w,
       {| subscriptions := subscriptions ws;
          timers := <[timer_index w := Some t']> (timers ws); impl := impl ws |},
       with_marks w (subscription_index w) (S (timer_index w)))
  end.

(** NULL the slot of a source that is not ready. *)
Definition keep_ready {A} (ready : A -> bool) (slot : option A) : option A :=
  match slot with
  | Some a => if ready a then Some a else None
  | None => None
  end.

Definition wait (ws : rcl_wait_set_t) (timeout : Z) (w : machine) :=
  (wait_rc (behaviour w),
   {| subscriptions := keep_ready (subscription_ready (behaviour w)) <$> subscriptions ws;
      timers := keep_ready (timer_ready (behaviour w)) <$> timers ws;
      impl := impl ws |},
   w).

Definition take (s : option rcl_subscription_t) (m : option msg_t) (w : machine) :=
  match s with
  | Some s' => (take_rc (behaviour w) s', w)
  | None => (RCL_RET_INVALID_ARGUMENT, w)
  end.

Definition is_ready (t : option rcl_timer_t) (w : machine) :=
  match t with
  | Some t' => (timer_is_ready (behaviour w) t', w)
  | None => (RCL_RET_INVALID_ARGUMENT, false, w)
  end.

Definition call (t : option rcl_timer_t) (w : machine) :=
  match t with
  | Some t' => (timer_call_rc (behaviour w) t', with_calls w (S (calls w)))
  | None => (RCL_RET_INVALID_ARGUMENT, w)
  end.

Definition callback (cb : option rcle_callback_t) (m : option msg_t) (w : machine) :=
  with_calls w (S (calls w)).

Definition system_time_now (w : machine) :=
  (RCL_RET_OK, now w, with_now w (now w + tick (behaviour w))%Z).

Definition sleep (usec : Z) (w : machine) := with_now w (now w + usec * 1000)%Z.

Definition context_is_valid (ctx : option rcl_context_t) (w : machine) : bool :=
  bool_decide (is_Some ctx).

Lemma wait_set_fini_invalid ws w :
  rcl_wait_set_is_valid (wait_set_fini ws w).1.2 = false.
Proof. reflexivity. Qed.

#[global] Instance api : RclApi machine := {|
  rcl_wait_set_fini := wait_set_fini;
  rcl_wait_set_init := wait_set_init;
  rcl_wait_set_clear := wait_set_clear;
  rcl_wait_set_add_subscription := wait_set_add_subscription;
  rcl_wait_set_add_timer := wait_set_add_timer;
  rcl_wait := wait;
  rcl_take := take;
  rcl_timer_is_ready := is_ready;
  rcl_timer_call := call;
  run_callback := callback;
  rcutils_system_time_now := system_time_now;
  usleep := sleep;
  rcl_context_is_valid := context_is_valid;
  rcl_wait_set_fini_invalid := wait_set_fini_invalid;
|}.

(** Every source answers with success; nothing is ready. *)
Definition quiet : script :=
  {| init_rc := RCL_RET_OK; clear_rc := RCL_RET_OK; wait_rc := RCL_RET_TIMEOUT;
     add_subscription_rc := fun _ => RCL_RET_OK;
     add_timer_rc := fun _ => RCL_RET_OK;
     subscription_ready := fun _ => false; timer_ready := fun _ => false;
     take_rc := fun _ => RCL_RET_OK;
     timer_is_ready := fun _ => (RCL_RET_OK, true);
     timer_call_rc := fun _ => RCL_RET_OK;
     tick := 1000%Z |}.

(** Every source is ready and answers with success. *)
Definition busy : script :=
  {| init_rc := RCL_RET_OK; clear_rc := RCL_RET_OK; wait_rc := RCL_RET_OK;
     add_subscription_rc := fun _ => RCL_RET_OK;
     add_timer_rc := fun _ => RCL_RET_OK;
     subscription_ready := fun _ => true; timer_ready := fun _ => true;
     take_rc := fun _ => RCL_RET_OK;
     timer_is_ready := fun _ => (RCL_RET_OK, true);
     timer_call_rc := fun _ => RCL_RET_OK;
     tick := 1000%Z |}.

Definition start (b : script) (t : Z) : env machine :=
  {| world :=
       {| behaviour := b; subscription_index := 0; timer_index := 0;
          now := t; calls := 0 |};
     log := [] |}.

Definition malloc : rcl_allocator_t :=
  {| allocator_is_valid := true; allocate_ok := fun _ => true |}.

(** A platform on which a handle takes 56 bytes. *)
#[global] Instance layout : Layout :=
  {| sizeof_rcle_handle_t := 56; sizeof_rcle_handle_t_positive := eq_refl |}.

(** An executor with room for [n] handles, and the registrations [cs]
    applied to it. *)
Definition fresh (n : nat) : rcle_let_executor_t :=
  (rcle_let_executor_init rcle_let_executor_get_zero_initialized_executor
     (Some 1) n (Some malloc)).2.

Fixpoint run (cs : list api_call) (ex : rcle_let_executor_t) (e : env machine)
    : rcle_let_executor_t * env machine :=
  match cs with
  | [] => (ex, e)
  | c :: cs' => let '(_, ex', e') := do_call c ex e in run cs' ex' e'
  end.

End Sim.

(** ** What one handle contributes to a round *)

(** The outcome of [_rcle_read_input_data] for the handle [h] at position
    [i]: the return code, the value [data_available] is left with, and the
    calls made. *)
Inductive intake (ws : rcl_wait_set_t) (i : nat) (h : rcle_handle_t)
    : rcl_ret_t -> bool -> list event -> Prop :=
  | intake_subscription_idle :
      h_type h = SUBSCRIPTION ->
      slot_ready (subscriptions ws) (h_index h) = false ->
      intake ws i h RCL_RET_OK false []
  | intake_subscription_taken :
      h_type h = SUBSCRIPTION ->
      slot_ready (subscriptions ws) (h_index h) = true ->
      intake ws i h RCL_RET_OK true
        [EvTake i (h_subscription h) (h_data h) RCL_RET_OK]
  | intake_subscription_failed rc :
      h_type h = SUBSCRIPTION ->
      slot_ready (subscriptions ws) (h_index h) = true ->
      rc <> RCL_RET_OK ->
      intake ws i h rc false [EvTake i (h_subscription h) (h_data h) rc]
  | intake_timer_idle :
      h_type h = TIMER ->
      slot_ready (timers ws) (h_index h) = false ->
      intake ws i h RCL_RET_OK false []
  | intake_timer_expired :
      h_type h = TIMER ->
      slot_ready (timers ws) (h_index h) = true ->
      intake ws i h RCL_RET_OK true
        [EvTimerIsReady i (h_timer h) RCL_RET_OK true]
  | intake_timer_denied :
      h_type h = TIMER ->
      slot_ready (timers ws) (h_index h) = true ->
      intake ws i h RCL_RET_ERROR false
        [EvTimerIsReady i (h_timer h) RCL_RET_OK false]
  | intake_timer_failed rc ready :
      h_type h = TIMER ->
      slot_ready (timers ws) (h_index h) = true ->
      rc <> RCL_RET_OK ->
      intake ws i h rc false [EvTimerIsReady i (h_timer h) rc ready]
  | intake_unknown :
      h_type h = NONE ->
      intake ws i h RCL_RET_ERROR false [].

(** The intake phase from position [i] up to the fill mark [n]: how it ends,
    the executor it leaves, and the calls it makes. *)
Inductive intake_phase (ws : rcl_wait_set_t) (n : nat)
    : nat -> rcl_ret_t -> rcle_let_executor_t ->
      flow -> rcle_let_executor_t -> list event -> Prop :=
  | intake_phase_done rc ex :
      intake_phase ws n n rc ex (Next rc) ex []
  | intake_phase_abort i rc ex rc1 b evs :
      i < n ->
      intake ws i (handle ex i) rc1 b evs ->
      fatal_for_intake rc1 = true ->
      intake_phase ws n i rc ex (Return rc1)
        (update_handle ex i (with_data_available b)) (EvReadInput i :: evs)
  | intake_phase_step i rc ex rc1 b evs fl ex2 new :
      i < n ->
      intake ws i (handle ex i) rc1 b evs ->
      fatal_for_intake rc1 = false ->
      intake_phase ws n (S i) rc1
        (update_handle ex i (with_data_available b)) fl ex2 new ->
      intake_phase ws n i rc ex fl ex2 (EvReadInput i :: evs ++ new).

(** The outcome of [_rcle_execute] for the handle [h] at position [i]. *)
Inductive execution (i : nat) (h : rcle_handle_t)
    : rcl_ret_t -> list event -> Prop :=
  | execution_skipped :
      invoke_callback h = false -> execution i h RCL_RET_OK []
  | execution_callback :
      invoke_callback h = true -> h_type h = SUBSCRIPTION ->
      execution i h RCL_RET_OK [EvCallback i (h_callback h) (h_data h)]
  | execution_timer rc :
      invoke_callback h = true -> h_type h = TIMER ->
      execution i h rc [EvTimerCall i (h_timer h) rc]
  | execution_unknown :
      invoke_callback h = true -> h_type h = NONE ->
      execution i h RCL_RET_ERROR [].

(** The execution phase from position [i] up to the fill mark [n]. *)
Inductive execution_phase (ex : rcle_let_executor_t) (n : nat)
    : nat -> rcl_ret_t -> flow -> list event -> Prop :=
  | execution_phase_done rc :
      execution_phase ex n n rc (Next rc) []
  | execution_phase_abort i rc rc1 evs :
      i < n ->
      execution i (handle ex i) rc1 evs ->
      rc1 <> RCL_RET_OK ->
      execution_phase ex n i rc (Return rc1) (EvExecute i :: evs)
  | execution_phase_step i rc evs fl new :
      i < n ->
      execution i (handle ex i) RCL_RET_OK evs ->
      execution_phase ex n (S i) RCL_RET_OK fl new ->
      execution_phase ex n i rc fl (EvExecute i :: evs ++ new).

(** One round: the intake phase, and the execution phase when the intake
    was not aborted. *)
Inductive round (ws : rcl_wait_set_t) (ex : rcle_let_executor_t)
    : rcl_ret_t -> rcle_let_executor_t -> list event -> Prop :=
  | round_aborted_in_intake rc ex1 new1 :
      intake_phase ws (index ex) 0 RCL_RET_OK ex (Return rc) ex1 new1 ->
      round ws ex rc ex1 new1
  | round_executed rc1 ex1 new1 fl new2 :
      intake_phase ws (index ex) 0 RCL_RET_OK ex (Next rc1) ex1 new1 ->
      execution_phase ex1 (index ex) 0 rc1 fl new2 ->
      round ws ex (flow_rc fl) ex1 (new1 ++ new2).

(** The return code with which an intake call ends the round, if it does. *)
Definition abort_code (ev : event) : option rcl_ret_t :=
  match ev with
  | EvTake _ _ _ rc => if fatal_for_intake rc then Some rc else None
  | EvTimerIsReady _ _ rc ready =>
    if ret_is rc RCL_RET_OK then
      if ready then None else Some RCL_RET_ERROR
    else if fatal_for_intake rc then Some rc else None
  | _ => None
  end.

(** ** The statements

    The predicates in which the properties of the executor are stated, and
    the relations that describe a registration phase and a call of
    [spin_some]. *)

Section Statements.

Context {W : Type} `{api : RclApi W} `{layout : Layout}.

Implicit Types (ex : rcle_let_executor_t) (e : env W) (ws : rcl_wait_set_t).
Implicit Types (rc : rcl_ret_t) (h : rcle_handle_t) (i j k n fuel : nat).

(** Every call of the intake is made for the resource of the handle, and
    only when its slot is ready. *)
Definition intake_call_of (ws : rcl_wait_set_t) (h : rcle_handle_t)
    (ev : event) : Prop :=
  match ev with
  | EvTake _ s m _ =>
    h_type h = SUBSCRIPTION /\ slot_ready (subscriptions ws) (h_index h) = true /\
    s = h_subscription h /\ m = h_data h
  | EvTimerIsReady _ t _ _ =>
    h_type h = TIMER /\ slot_ready (timers ws) (h_index h) = true /\
    t = h_timer h
  | _ => True
  end.

(** Every invocation is made with what the handle holds, and only when the
    policy asks for it. *)
Definition execution_call_of (h : rcle_handle_t) (ev : event) : Prop :=
  match ev with
  | EvCallback _ cb m =>
    invoke_callback h = true /\ h_type h = SUBSCRIPTION /\
    cb = h_callback h /\ m = h_data h
  | EvTimerCall _ t _ =>
    invoke_callback h = true /\ h_type h = TIMER /\ t = h_timer h
  | _ => True
  end.

(** What a successful registration with the slot update [f] and the count
    update [g] leaves behind. *)
Definition appended (f : rcle_handle_t -> rcle_handle_t)
    (g : rcle_handle_size_t -> rcle_handle_size_t)
    (ex ex' : rcle_let_executor_t) : Prop :=
  index ex' = S (index ex) /\
  max_handles ex' = max_handles ex /\
  handles_of ex' = alter f (index ex) (handles_of ex) /\
  handle ex' (index ex) = f (handle ex (index ex)) /\
  (forall j, j <> index ex -> handle ex' j = handle ex j) /\
  info ex' = g (info ex) /\
  rcl_wait_set_is_valid (wait_set ex') = false /\
  context ex' = context ex /\ allocator ex' = allocator ex /\
  timeout_ns ex' = timeout_ns ex /\ invocation_time ex' = invocation_time ex.

Definition wf_check (ex : rcle_let_executor_t) : bool :=
  (length (handles_of ex) =? max_handles ex) &&
  (index ex <=? max_handles ex) &&
  forallb
    (fun i =>
       let h := handle ex i in
       (if i <? index ex
        then h_initialized h && negb (bool_decide (h_type h = NONE))
        else negb (h_initialized h)) &&
       (if bool_decide (h_type h = TIMER)
        then bool_decide (h_invocation h = ON_NEW_DATA) else true))
    (seq 0 (max_handles ex)) &&
  (number_of_subscriptions (info ex) + number_of_timers (info ex) =? index ex).

(** No call of the round failed: no fetch and no expiry check ended the
    intake, and every timer call returned [RCL_RET_OK]. *)
Definition no_call_failed (new : list event) : Prop :=
  (forall ev, ev ∈ new -> abort_code ev = None) /\
  (forall i t rc_call, EvTimerCall i t rc_call ∈ new -> rc_call = RCL_RET_OK).

(** The order of a round with the return code [rc], the executor [ex1] it
    leaves and the calls [new] it makes: both phases pass the table from
    position 0 without a gap, the execution phase starts only after the
    intake phase has read every registered handle, and a round that is not
    aborted executes exactly the registered handles, in table order.  A
    round is aborted only by a call that fails: what is ready and what is
    not does not abort it. *)
Definition in_table_order (ex : rcle_let_executor_t) (rc : rcl_ret_t)
    (ex1 : rcle_let_executor_t) (new : list event) : Prop :=
  read_positions new `prefix_of` seq 0 (index ex) /\
  execute_positions new `prefix_of` seq 0 (index ex) /\
  (execute_positions new <> [] -> read_positions new = seq 0 (index ex)) /\
  (no_call_failed new -> rc = RCL_RET_OK) /\
  (rc = RCL_RET_OK ->
   read_positions new = seq 0 (index ex) /\
   execute_positions new = seq 0 (index ex) /\
   handle ex1 <$> execute_positions new = registered ex1).

(** Table order is registration order: a successful registration appends
    the new handle behind the handles registered before, which stay where
    they are. *)
Definition appends_in_order (ex : rcle_let_executor_t) : Prop :=
  (forall s m cb inv e ex' e',
     rcle_let_executor_add_subscription ex s m cb inv e = (RCL_RET_OK, ex', e') ->
     exists h, registered ex' = registered ex ++ [h] /\
       h_type h = SUBSCRIPTION /\ h_subscription h = s /\ h_data h = m /\
       h_callback h = cb /\ h_invocation h = inv) /\
  (forall t e ex' e',
     rcle_let_executor_add_timer ex t e = (RCL_RET_OK, ex', e') ->
     exists h, registered ex' = registered ex ++ [h] /\
       h_type h = TIMER /\ h_timer h = t).

(** The invocation policy in a round with the calls [new]: for a handle
    that the execution phase reaches, [data_available] is what this round's
    intake made of it, and the handle is invoked exactly when its policy is
    ALWAYS, or ON_NEW_DATA with [data_available] set. *)
Definition policy_respected (ws : rcl_wait_set_t)
    (ex ex1 : rcle_let_executor_t) (new : list event) : Prop :=
  forall i, i ∈ execute_positions new ->
    (h_data_available (handle ex1 i) = true <->
     intake_success ws i (handle ex i) new) /\
    (invoked i new <->
     h_invocation (handle ex i) = ALWAYS \/
     (h_invocation (handle ex i) = ON_NEW_DATA /\
      h_data_available (handle ex1 i) = true)).

(** The intake of a round with the calls [new] reads the handle at
    position [i] exactly when no call made for a handle before it has ended
    the round: the first handle is always read, and every handle is read
    when no call fails. *)
Definition intake_reaches (ex : rcle_let_executor_t) (new : list event) : Prop :=
  forall i, i < index ex ->
    EvReadInput i ∈ new <->
    (forall ev j, ev ∈ new -> event_position ev = Some j -> j < i ->
       abort_code ev = None).


(** What a fetch, or an expiry check, makes of [data_available]. *)
Definition call_flag (ev : event) : option bool :=
  match ev with
  | EvTake _ _ _ rc => Some (ret_is rc RCL_RET_OK)
  | EvTimerIsReady _ _ rc ready => Some (ret_is rc RCL_RET_OK && ready)
  | _ => None
  end.

(** What a round with the return code [rc], the final executor [ex1] and
    the calls [new] does for subscriptions: the fetch is made for a
    subscription that is read and whose slot is ready; a successful fetch
    sets [data_available]; a fetch without data leaves it false and the
    round goes on with the next handle, or with the execution phase; any
    other failure leaves it false, is the last call of the round and is
    what the round returns. *)
Definition subscription_intake (ws : rcl_wait_set_t)
    (ex : rcle_let_executor_t) (rc : rcl_ret_t) (ex1 : rcle_let_executor_t)
    (new : list event) : Prop :=
  (forall i, EvReadInput i ∈ new ->
     h_type (handle ex i) = SUBSCRIPTION ->
     slot_ready (subscriptions ws) (h_index (handle ex i)) = true ->
     exists rc_take,
       EvTake i (h_subscription (handle ex i)) (h_data (handle ex i)) rc_take ∈ new) /\
  (forall i s m rc_take, EvTake i s m rc_take ∈ new ->
     (h_type (handle ex i) = SUBSCRIPTION /\
      slot_ready (subscriptions ws) (h_index (handle ex i)) = true) /\
     (rc_take = RCL_RET_OK -> h_data_available (handle ex1 i) = true) /\
     (rc_take = RCL_RET_SUBSCRIPTION_TAKE_FAILED ->
      h_data_available (handle ex1 i) = false /\
      (S i < index ex -> EvReadInput (S i) ∈ new) /\
      (S i = index ex -> EvExecute 0 ∈ new)) /\
     (rc_take <> RCL_RET_OK -> rc_take <> RCL_RET_SUBSCRIPTION_TAKE_FAILED ->
      h_data_available (handle ex1 i) = false /\
      rc = rc_take /\ execute_positions new = [] /\
      exists pre, new = pre ++ [EvTake i s m rc_take])).

(** What a round does for timers: the expiry check is consulted for a timer
    that is read and whose slot is ready, and for no other; a confirmed
    expiry sets [data_available]; a denied expiry leaves it false, ends the
    round and makes it return [RCL_RET_ERROR]; a failed check leaves it
    false, and it ends the round and decides what it returns unless its
    code is [RCL_RET_SUBSCRIPTION_TAKE_FAILED]: that code the loop of the
    round lets pass for every handle, and the round goes on with the next
    handle, or with the execution phase. *)
Definition timer_intake (ws : rcl_wait_set_t)
    (ex : rcle_let_executor_t) (rc : rcl_ret_t) (ex1 : rcle_let_executor_t)
    (new : list event) : Prop :=
  (forall i, EvReadInput i ∈ new ->
     h_type (handle ex i) = TIMER ->
     slot_ready (timers ws) (h_index (handle ex i)) = true ->
     exists rc_check ready,
       EvTimerIsReady i (h_timer (handle ex i)) rc_check ready ∈ new) /\
  (forall i, EvReadInput i ∈ new ->
     h_type (handle ex i) = TIMER ->
     slot_ready (timers ws) (h_index (handle ex i)) = false ->
     h_data_available (handle ex1 i) = false /\
     forall t rc_check ready, EvTimerIsReady i t rc_check ready ∉ new) /\
  (forall i t rc_check ready, EvTimerIsReady i t rc_check ready ∈ new ->
     (h_type (handle ex i) = TIMER /\
      slot_ready (timers ws) (h_index (handle ex i)) = true /\
      t = h_timer (handle ex i)) /\
     (rc_check = RCL_RET_OK -> ready = true ->
      h_data_available (handle ex1 i) = true) /\
     (rc_check = RCL_RET_OK -> ready = false ->
      h_data_available (handle ex1 i) = false /\
      rc = RCL_RET_ERROR /\ execute_positions new = [] /\
      exists pre, new = pre ++ [EvTimerIsReady i t rc_check ready]) /\
     (rc_check <> RCL_RET_OK -> h_data_available (handle ex1 i) = false) /\
     (rc_check <> RCL_RET_OK -> rc_check <> RCL_RET_SUBSCRIPTION_TAKE_FAILED ->
      rc = rc_check /\ execute_positions new = [] /\
      exists pre, new = pre ++ [EvTimerIsReady i t rc_check ready]) /\
     (rc_check = RCL_RET_SUBSCRIPTION_TAKE_FAILED ->
      (S i < index ex -> EvReadInput (S i) ∈ new) /\
      (S i = index ex -> EvExecute 0 ∈ new))).

(** The registration of the handle [h] at position [i]: the call made, with
    its return code and the slot it reports. *)
Inductive registration (i : nat) (h : rcle_handle_t) (rc : rcl_ret_t) (k : nat)
    : event -> Prop :=
  | registration_subscription :
      h_type h = SUBSCRIPTION ->
      registration i h rc k (EvWaitSetAddSubscription i (h_subscription h) rc k)
  | registration_timer :
      h_type h = TIMER ->
      registration i h rc k (EvWaitSetAddTimer i (h_timer h) rc k).

(** The registration loop from position [i] up to the fill mark [n]: the
    code it fails with, if it fails, the executor it leaves and the calls
    it makes. *)
Inductive registration_phase (n : nat)
    : nat -> rcle_let_executor_t -> option rcl_ret_t ->
      rcle_let_executor_t -> list event -> Prop :=
  | registration_done ex :
      registration_phase n n ex None ex []
  | registration_failed i ex rc k ws ev :
      i < n ->
      registration i (handle ex i) rc k ev ->
      rc <> RCL_RET_OK ->
      registration_phase n i ex (Some rc) (set_wait_set ex ws) [ev]
  | registration_unknown i ex :
      i < n ->
      h_type (handle ex i) = NONE ->
      registration_phase n i ex (Some RCL_RET_ERROR) ex []
  | registration_step i ex k ws ev failure ex2 new :
      i < n ->
      registration i (handle ex i) RCL_RET_OK k ev ->
      registration_phase n (S i)
        (update_handle (set_wait_set ex ws) i (with_index k)) failure ex2 new ->
      registration_phase n i ex failure ex2 (ev :: new).

(** The wait set at the start of [spin_some]: kept when it is valid, built
    when it is absent. *)
Inductive prepared (ex : rcle_let_executor_t)
    : rcle_let_executor_t -> list event -> Prop :=
  | prepared_kept :
      rcl_wait_set_is_valid (wait_set ex) = true ->
      prepared ex ex []
  | prepared_built rc0 ws :
      rcl_wait_set_is_valid (wait_set ex) = false ->
      prepared ex (set_wait_set ex ws)
        [EvWaitSetFini rc0; EvWaitSetInit (info ex) (context ex) RCL_RET_OK].

(** The four ways a call of [spin_some] can go; [timeout] is the value
    that [rcl_wait] is called with. *)
Inductive spin_some_run (ex : rcle_let_executor_t) (timeout : Z)
    : rcl_ret_t -> rcle_let_executor_t -> list event -> Prop :=
  | spin_some_init_failed rc0 rc ws :
      rcl_wait_set_is_valid (wait_set ex) = false ->
      rc <> RCL_RET_OK ->
      spin_some_run ex timeout rc (set_wait_set ex ws)
        [EvWaitSetFini rc0; EvWaitSetInit (info ex) (context ex) rc]
  | spin_some_clear_failed exa pre rc ws :
      prepared ex exa pre ->
      rc <> RCL_RET_OK ->
      spin_some_run ex timeout rc (set_wait_set exa ws)
        (pre ++ [EvWaitSetClear rc])
  | spin_some_registration_failed exa pre ws rc ex3 regs :
      prepared ex exa pre ->
      registration_phase (index ex) 0 (set_wait_set exa ws) (Some rc) ex3 regs ->
      spin_some_run ex timeout rc ex3
        (pre ++ EvWaitSetClear RCL_RET_OK :: regs)
  | spin_some_round exa pre ws ex3 regs rc_wait ws4 rc ex5 new :
      prepared ex exa pre ->
      registration_phase (index ex) 0 (set_wait_set exa ws) None ex3 regs ->
      round ws4 (set_wait_set ex3 ws4) rc ex5 new ->
      spin_some_run ex timeout rc ex5
        (pre ++ EvWaitSetClear RCL_RET_OK :: regs ++
         EvWait timeout rc_wait :: new).

Definition flow_failure (fl : flow) : option rcl_ret_t :=
  match fl with Return rc => Some rc | Next _ => None end.

(** What a registration phase keeps: everything but the wait set and the
    slots recorded in the handles. *)
Definition same_table (ex ex' : rcle_let_executor_t) : Prop :=
  max_handles ex' = max_handles ex /\ index ex' = index ex /\
  info ex' = info ex /\ context ex' = context ex /\
  allocator ex' = allocator ex /\ timeout_ns ex' = timeout_ns ex /\
  invocation_time ex' = invocation_time ex /\
  length (handles_of ex') = length (handles_of ex) /\
  (handles ex' = None <-> handles ex = None) /\
  forall j,
    with_index 0 (with_data_available false (handle ex' j)) =
    with_index 0 (with_data_available false (handle ex j)).

(** The call primitive of a timer is called only for a timer whose slot was
    ready and whose expiry was confirmed in the same round. *)
Definition timer_calls_confirmed (ws : rcl_wait_set_t)
    (ex : rcle_let_executor_t) (new : list event) : Prop :=
  forall i t rc_call, EvTimerCall i t rc_call ∈ new ->
    h_type (handle ex i) = TIMER /\ t = h_timer (handle ex i) /\
    slot_ready (timers ws) (h_index (handle ex i)) = true /\
    EvTimerIsReady i (h_timer (handle ex i)) RCL_RET_OK true ∈ new.

(** The handles of [ex'] have the kinds and the policies of those of
    [ex]. *)
Definition same_kinds (ex ex' : rcle_let_executor_t) : Prop :=
  forall j,
    h_type (handle ex' j) = h_type (handle ex j) /\
    h_invocation (handle ex' j) = h_invocation (handle ex j).

(** The call primitive of a timer that the execution phase comes to is
    called when its slot was ready and its expiry was confirmed in the
    round. *)
Definition confirmed_timers_called (ws : rcl_wait_set_t)
    (ex : rcle_let_executor_t) (new : list event) : Prop :=
  forall i, i ∈ execute_positions new ->
    h_type (handle ex i) = TIMER ->
    slot_ready (timers ws) (h_index (handle ex i)) = true ->
    EvTimerIsReady i (h_timer (handle ex i)) RCL_RET_OK true ∈ new ->
    exists rc_call, EvTimerCall i (h_timer (handle ex i)) rc_call ∈ new.

(** Every handle of type TIMER has the policy ON_NEW_DATA. *)
Definition timers_on_new_data (ex : rcle_let_executor_t) : Prop :=
  forall i, h_type (handle ex i) = TIMER ->
    h_invocation (handle ex i) = ON_NEW_DATA.

Definition is_registration_event (ev : event) : bool :=
  match ev with
  | EvWaitSetAddSubscription _ _ _ _ | EvWaitSetAddTimer _ _ _ _ => true
  | _ => false
  end.

(** The positions registered, in order. *)
Definition registration_positions (l : list event) : list nat :=
  omap (fun ev =>
          match ev with
          | EvWaitSetAddSubscription i _ _ _ | EvWaitSetAddTimer i _ _ _ => Some i
          | _ => None
          end) l.

(** The code with which a call that sets the wait set up fails, if it
    does. *)
Definition setup_failure (ev : event) : option rcl_ret_t :=
  match ev with
  | EvWaitSetInit _ _ rc | EvWaitSetClear rc
  | EvWaitSetAddSubscription _ _ rc _ | EvWaitSetAddTimer _ _ rc _ =>
    if ret_is rc RCL_RET_OK then None else Some rc
  | _ => None
  end.

(** *** The log against the collaborators

    [replay_event ev (ws, w)] makes the call that [ev] records on the wait
    set [ws] in the world [w]: it gives the wait set and the world that the
    collaborator leaves, or [None] when the collaborator does not answer
    what [ev] records.  [rcl_wait_set_init] is called on a zero-initialized
    wait set.  The entries of [_rcle_read_input_data] and [_rcle_execute]
    are no calls. *)
Definition replay_event (ev : event) (s : rcl_wait_set_t * W)
    : option (rcl_wait_set_t * W) :=
  match ev with
  | EvWaitSetFini rc =>
    let '(rc', ws', w') := rcl_wait_set_fini s.1 s.2 in
    if bool_decide (rc' = rc) then Some (ws', w') else None
  | EvWaitSetInit sizes ctx rc =>
    let '(rc', ws', w') :=
      rcl_wait_set_init rcl_get_zero_initialized_wait_set sizes ctx s.2 in
    if bool_decide (rc' = rc) then Some (ws', w') else None
  | EvWaitSetClear rc =>
    let '(rc', ws', w') := rcl_wait_set_clear s.1 s.2 in
    if bool_decide (rc' = rc) then Some (ws', w') else None
  | EvWaitSetAddSubscription _ sub rc k =>
    let '(rc', k', ws', w') := rcl_wait_set_add_subscription s.1 sub s.2 in
    if bool_decide (rc' = rc /\ k' = k) then Some (ws', w') else None
  | EvWaitSetAddTimer _ t rc k =>
    let '(rc', k', ws', w') := rcl_wait_set_add_timer s.1 t s.2 in
    if bool_decide (rc' = rc /\ k' = k) then Some (ws', w') else None
  | EvWait timeout rc =>
    let '(rc', ws', w') := rcl_wait s.1 timeout s.2 in
    if bool_decide (rc' = rc) then Some (ws', w') else None
  | EvReadInput _ | EvExecute _ => Some s
  | EvTake _ sub m rc =>
    let '(rc', w') := rcl_take sub m s.2 in
    if bool_decide (rc' = rc) then Some (s.1, w') else None
  | EvTimerIsReady _ t rc ready =>
    let '(rc', ready', w') := rcl_timer_is_ready t s.2 in
    if bool_decide (rc' = rc /\ ready' = ready) then Some (s.1, w') else None
  | EvCallback _ cb m => Some (s.1, run_callback cb m s.2)
  | EvTimerCall _ t rc =>
    let '(rc', w') := rcl_timer_call t s.2 in
    if bool_decide (rc' = rc) then Some (s.1, w') else None
  | EvNow rc now =>
    let '(rc', now', w') := rcutils_system_time_now s.2 in
    if bool_decide (rc' = rc /\ now' = now) then Some (s.1, w') else None
  | EvUsleep usec => Some (s.1, usleep usec s.2)
  end.

(** The calls of a log, one after the other. *)
Fixpoint replay (l : list event) (s : rcl_wait_set_t * W)
    : option (rcl_wait_set_t * W) :=
  match l with
  | [] => Some s
  | ev :: l' =>
    match replay_event ev s with
    | Some s' => replay l' s'
    | None => None
    end
  end.

(** The part of [spin_some] an event belongs to. *)
Inductive stage := Preparing | Clearing | Registering | Waiting | Running | Other.

Definition stage_of (ev : event) : stage :=
  match ev with
  | EvWaitSetFini _ | EvWaitSetInit _ _ _ => Preparing
  | EvWaitSetClear _ => Clearing
  | EvWaitSetAddSubscription _ _ _ _ | EvWaitSetAddTimer _ _ _ _ => Registering
  | EvWait _ _ => Waiting
  | EvReadInput _ | EvTake _ _ _ _ | EvTimerIsReady _ _ _ _
  | EvExecute _ | EvCallback _ _ _ | EvTimerCall _ _ _ => Running
  | EvNow _ _ | EvUsleep _ => Other
  end.

(** A call that sets the wait set up: construction, clearing or
    registration. *)
Definition is_setup_event (ev : event) : bool :=
  match stage_of ev with
  | Preparing | Clearing | Registering => true
  | _ => false
  end.

(** The executor [ex] with other slots in its registered handles from
    position [i] on: what an earlier registration may have left there. *)
Definition with_slots_from (i : nat) (f : nat -> nat)
    (ex : rcle_let_executor_t) : rcle_let_executor_t :=
  set_handles ex
    (imap (fun j h =>
             if bool_decide (i <= j < index ex) then with_index (f j) h else h)
       <$> handles ex).

(** How a call of [spin_some] with the calls [new] goes about the
    registrations: it registers handles of the table only, each with its
    own resource, from the first handle on and in table order; and either
    it comes to wait, after calls that set the wait set up and have all
    succeeded and registered every handle, and only calls of the round
    follow the wait; or a call that sets the wait set up fails: that call
    is the last one, and its code is what [spin_some] returns. *)
Definition registers_from_first (ex : rcle_let_executor_t) (timeout : Z)
    (rc : rcl_ret_t) (new : list event) : Prop :=
  registration_positions new `prefix_of` seq 0 (index ex) /\
  (forall ev, ev ∈ new -> is_registration_event ev = true ->
     exists j rc_ev k, j < index ex /\ registration j (handle ex j) rc_ev k ev) /\
  ((exists setup rc_wait run,
      new = setup ++ EvWait timeout rc_wait :: run /\
      Forall (fun ev => is_setup_event ev = true /\ setup_failure ev = None) setup /\
      registration_positions setup = seq 0 (index ex) /\
      Forall (fun ev => stage_of ev = Running) run) \/
   (rc <> RCL_RET_OK /\
    Forall (fun ev => is_setup_event ev = true) new /\
    exists pre ev, new = pre ++ [ev] /\ setup_failure ev = Some rc /\
      Forall (fun ev' => setup_failure ev' = None) pre)).

(** A call of [spin_some] that starts without a wait set, on the wait set
    and in the world [s0], with the calls [new]: it starts by building a
    wait set and goes about the registrations as [registers_from_first]
    says; and when it comes to wait, it has cleared the new wait set and
    registered every handle of the table, [rcl_wait] is called on the wait
    set that these calls have left, and the round that follows runs on the
    wait set that [rcl_wait] has left, with, in every handle, the slot that
    its registration in this call reported. *)
Definition rebuilt_before_wait (ex : rcle_let_executor_t) (timeout : Z)
    (s0 : rcl_wait_set_t * W) (rc : rcl_ret_t) (ex1 : rcle_let_executor_t)
    (new : list event) : Prop :=
  (exists rc0 rc_init rest,
     new = EvWaitSetFini rc0 ::
           EvWaitSetInit (info ex) (context ex) rc_init :: rest) /\
  registers_from_first ex timeout rc new /\
  (forall t rc_wait, EvWait t rc_wait ∈ new ->
     exists rc0 regs post ex4 w4,
       new = EvWaitSetFini rc0 ::
             EvWaitSetInit (info ex) (context ex) RCL_RET_OK ::
             EvWaitSetClear RCL_RET_OK :: regs ++
             EvWait timeout rc_wait :: post /\
       t = timeout /\
       registration_positions regs = seq 0 (index ex) /\
       Forall (fun ev => is_registration_event ev = true) regs /\
       Forall (fun ev => setup_failure ev = None) regs /\
       (forall j, j < index ex ->
          exists k ev, ev ∈ regs /\ registration j (handle ex j) RCL_RET_OK k ev /\
            h_index (handle ex4 j) = k) /\
       replay (EvWaitSetFini rc0 ::
               EvWaitSetInit (info ex) (context ex) RCL_RET_OK ::
               EvWaitSetClear RCL_RET_OK :: regs ++ [EvWait timeout rc_wait]) s0 =
         Some (wait_set ex4, w4) /\
       same_table ex ex4 /\
       round (wait_set ex4) ex4 rc ex1 post).

(** What a registration leaves for the next [spin_some]: no wait set; so
    the call builds one and registers every handle before it waits, the
    calls it logs are the calls it makes, and it makes the same calls and
    returns the same whatever slots the handles held before. *)
Definition next_spin_rebuilds (ex' : rcle_let_executor_t) : Prop :=
  rcl_wait_set_is_valid (wait_set ex') = false /\
  forall timeout e rc ex1 e1,
    rcle_let_executor_spin_some ex' timeout e = (rc, ex1, e1) ->
    (exists new, log e1 = log e ++ new /\
       replay new (wait_set ex', world e) = Some (wait_set ex1, world e1) /\
       rebuilt_before_wait ex' (to_int64 timeout) (wait_set ex', world e)
         rc ex1 new) /\
    (forall f, exists k,
       rcle_let_executor_spin_some (with_slots_from 0 f ex') timeout e =
         (rc, with_slots_from k f ex1, e1)).

(** What a call of [spin_some] that starts on the wait set and in the world
    [s0] leaves when a call that sets the wait set up has failed: the table
    as it was; and the wait set of the executor [ex1] and the world [w1]
    are those that the failing call, the last call made, has left. *)
Definition setup_failure_leaves (ex : rcle_let_executor_t)
    (s0 : rcl_wait_set_t * W) (ex1 : rcle_let_executor_t) (w1 : W)
    (new : list event) : Prop :=
  same_table ex ex1 /\
  forall ev rc_ev, ev ∈ new -> setup_failure ev = Some rc_ev ->
    exists pre s, new = pre ++ [ev] /\
      replay pre s0 = Some s /\
      replay_event ev s = Some (wait_set ex1, w1).

(** The next call of [spin_some], on the executor [ex1] that a call on
    [ex] has left: when it finds the wait set valid it starts by clearing
    it and neither finalizes nor builds a wait set; when it finds none it
    starts by building one; in both cases it registers the handles of the
    table again from the first. *)
Definition next_spin_some_restarts (ex ex1 : rcle_let_executor_t) : Prop :=
  forall timeout e rc ex2 e2,
    rcle_let_executor_spin_some ex1 timeout e = (rc, ex2, e2) ->
    exists new, log e2 = log e ++ new /\
      replay new (wait_set ex1, world e) = Some (wait_set ex2, world e2) /\
      (rcl_wait_set_is_valid (wait_set ex1) = true ->
       exists rc_clear rest, new = EvWaitSetClear rc_clear :: rest /\
         Forall (fun ev => stage_of ev <> Preparing) new) /\
      (rcl_wait_set_is_valid (wait_set ex1) = false ->
       exists rc0 rc_init rest,
         new = EvWaitSetFini rc0 ::
               EvWaitSetInit (info ex) (context ex) rc_init :: rest) /\
      registers_from_first ex (to_int64 timeout) rc new.

(** In a call of [spin_some] that starts on the wait set and in the world
    [s0], the call primitive of a timer is called only after the wait, for
    a timer that this call has registered, whose slot is ready in the wait
    set that [rcl_wait] has left, and whose expiry was confirmed after the
    wait. *)
Definition spin_timer_calls_confirmed (ex : rcle_let_executor_t)
    (timeout : Z) (s0 : rcl_wait_set_t * W) (ex1 : rcle_let_executor_t)
    (new : list event) : Prop :=
  forall i t rc_call, EvTimerCall i t rc_call ∈ new ->
    h_type (handle ex i) = TIMER /\ t = h_timer (handle ex i) /\
    exists setup rc_wait run k w4,
      new = setup ++ EvWait timeout rc_wait :: run /\
      EvWaitSetAddTimer i t RCL_RET_OK k ∈ setup /\
      replay (setup ++ [EvWait timeout rc_wait]) s0 = Some (wait_set ex1, w4) /\
      slot_ready (timers (wait_set ex1)) k = true /\
      EvTimerIsReady i t RCL_RET_OK true ∈ run.

(** How [spin_some] deals with a failure of the construction, the clearing
    or a registration: the code of the failing call is returned and the
    failing call is the last call made (no wait, no round, and no
    [rcl_wait_set_fini]: the wait set is not torn down).  The wait set is
    finalized and built only at the start of a call that finds it absent;
    a call that finds a valid wait set starts by clearing it. *)
Definition setup_failure_reported (ex : rcle_let_executor_t)
    (rc : rcl_ret_t) (new : list event) : Prop :=
  (forall ev rc_ev, ev ∈ new -> setup_failure ev = Some rc_ev ->
     rc = rc_ev /\ exists pre, new = pre ++ [ev]) /\
  (forall rc0, EvWaitSetFini rc0 ∈ new ->
     rcl_wait_set_is_valid (wait_set ex) = false /\
     exists rest, new = EvWaitSetFini rc0 :: rest /\
       forall rc0', EvWaitSetFini rc0' ∉ rest) /\
  (rcl_wait_set_is_valid (wait_set ex) = true ->
     (exists rc_clear rest, new = EvWaitSetClear rc_clear :: rest) /\
     forall sizes ctx rc_init, EvWaitSetInit sizes ctx rc_init ∉ new).

(** The first step of [spin_one_period]: on the first call the invocation
    time is set to the current time. *)
Definition latched (ex : rcle_let_executor_t) (e : env W)
    : rcle_let_executor_t * env W :=
  if (invocation_time ex =? 0)%Z then
    let '(_, now, e') := call_system_time_now e in
    (set_invocation_time ex now, e')
  else (ex, e).

(** What one call of [spin_one_period] does, given the executor [ex0] and
    the return code [ret] of its round: the invocation time is latched on
    the first call; a round that fails ends the call, with the invocation
    time as it was; otherwise the invocation time moves on by the period,
    and the call sleeps for the time left to the boundary, in whole
    microseconds, when there is time left. *)
Definition period_kept (ex : rcle_let_executor_t) (period : Z) (e : env W)
    (ex0 : rcle_let_executor_t) (ret : rcl_ret_t)
    (ex1 : rcle_let_executor_t) (e1 : env W) : Prop :=
  ((invocation_time ex = 0)%Z ->
   exists rc now w, rcutils_system_time_now (world e) = (rc, now, w) /\
     invocation_time ex0 = now) /\
  ((invocation_time ex <> 0)%Z -> invocation_time ex0 = invocation_time ex) /\
  (ret <> RCL_RET_OK -> ret <> RCL_RET_TIMEOUT ->
   rcle_let_executor_spin_one_period ex period e = (ret, ex1, e1) /\
   invocation_time ex1 = invocation_time ex0) /\
  (ret = RCL_RET_OK \/ ret = RCL_RET_TIMEOUT ->
   forall rc2 end_time w2,
     rcutils_system_time_now (world e1) = (rc2, end_time, w2) ->
     (0 <= invocation_time ex0)%Z -> (0 <= period)%Z ->
     (invocation_time ex0 + period < 2 ^ 63)%Z ->
     (0 <= end_time < 2 ^ 63)%Z ->
     exists ex' e',
       rcle_let_executor_spin_one_period ex period e = (rc2, ex', e') /\
       invocation_time ex' = (invocation_time ex0 + period)%Z /\
       ((end_time < invocation_time ex0 + period)%Z ->
        ((invocation_time ex0 + period - end_time) `quot` 1000 < 2 ^ 32)%Z ->
        log e' = log e1 ++
          [EvNow rc2 end_time;
           EvUsleep ((invocation_time ex0 + period - end_time) `quot` 1000)]) /\
       ((invocation_time ex0 + period <= end_time)%Z ->
        log e' = log e1 ++ [EvNow rc2 end_time])).

End Statements.

(** ** Statements about the life cycle, the table and the drivers *)

Section Usage.

Context {W : Type} `{api : RclApi W} `{layout : Layout}.

Implicit Types (ex : rcle_let_executor_t) (e : env W) (ws : rcl_wait_set_t).
Implicit Types (rc : rcl_ret_t) (h : rcle_handle_t) (i j k n fuel : nat).

(** RCL_CHECK_ALLOCATOR_WITH_MSG lets the allocator pass: the pointer is
    set and the allocator is complete. *)
Definition allocator_accepted (alloc : option rcl_allocator_t) : bool :=
  match alloc with
  | Some a => allocator_is_valid a
  | None => false
  end.

(** [allocate] returns memory for the bytes that a table of [n] handles
    takes. *)
Definition allocation_succeeds (alloc : option rcl_allocator_t) (n : nat) : bool :=
  match alloc with
  | Some a => allocate_ok a (Z.of_nat n * sizeof_rcle_handle_t)
  | None => false
  end.

(** An executor without a table: as [get_zero_initialized_executor] gives
    it, or as [fini] leaves a valid one. *)
Definition released (ex : rcle_let_executor_t) : Prop :=
  ex = rcle_let_executor_get_zero_initialized_executor \/
  exists ex0 e0 e1,
    _rcle_let_executor_is_valid ex0 = true /\
    rcle_let_executor_fini ex0 e0 = (RCL_RET_OK, ex, e1).

(** The kinds of the registered handles, in table order, and the number
    of registered handles of the kind [kind]. *)
Definition kinds (ex : rcle_let_executor_t) : list rcle_handle_type_t :=
  h_type <$> registered ex.

Definition count_kind (kind : rcle_handle_type_t) (ex : rcle_let_executor_t) : nat :=
  length (filter (fun t => t = kind) (kinds ex)).

(** The counts of the executor account for its table: one subscription
    and one timer counted per registered handle of that kind, and nothing
    else counted. *)
Record accounted (ex : rcle_let_executor_t) : Prop := {
  accounted_subscriptions :
    number_of_subscriptions (info ex) = count_kind SUBSCRIPTION ex;
  accounted_timers : number_of_timers (info ex) = count_kind TIMER ex;
  accounted_clients : number_of_clients (info ex) = 0;
  accounted_services : number_of_services (info ex) = 0;
  accounted_guard_conditions : number_of_guard_conditions (info ex) = 0;
  accounted_events : number_of_events (info ex) = 0;
  accounted_allocator : is_Some (handles ex) ->
    is_Some (allocator ex) /\ 0 < max_handles ex;
}.

(** A registration with arguments that pass the NULL checks. *)
Inductive registration_request :=
  | RegisterSubscription (s : rcl_subscription_t) (m : msg_t)
      (cb : rcle_callback_t) (inv : rcle_invocation_t)
  | RegisterTimer (t : rcl_timer_t).

Definition requested_kind (r : registration_request) : rcle_handle_type_t :=
  match r with
  | RegisterSubscription _ _ _ _ => SUBSCRIPTION
  | RegisterTimer _ => TIMER
  end.

Definition register (r : registration_request) (ex : rcle_let_executor_t)
    (e : env W) : rcl_ret_t * rcle_let_executor_t * env W :=
  match r with
  | RegisterSubscription s m cb inv =>
    rcle_let_executor_add_subscription ex (Some s) (Some m) (Some cb) inv e
  | RegisterTimer t => rcle_let_executor_add_timer ex (Some t) e
  end.

(** The registrations [rs] one after the other; the return codes in the
    order of the calls. *)
Fixpoint register_all (rs : list registration_request)
    (ex : rcle_let_executor_t) (e : env W)
    : list rcl_ret_t * rcle_let_executor_t * env W :=
  match rs with
  | [] => ([], ex, e)
  | r :: rs' =>
    let '(rc, ex1, e1) := register r ex e in
    let '(rcs, ex2, e2) := register_all rs' ex1 e1 in
    (rc :: rcs, ex2, e2)
  end.

End Usage.

(** ** Concrete runs on the simulated middleware *)

Module Demo.

Import Sim.

(** A table for two handles with a timer and a subscription, in this
    order; the same after one call of [spin_some] with both sources ready;
    a full table of capacity one; and the first with the invocation time of
    an earlier period. *)
Definition two_handles : rcle_let_executor_t :=
  (run [CallAddTimer (Some 7);
        CallAddSubscription (Some 3) (Some 30) (Some 300) ON_NEW_DATA]
     (fresh 2) (start quiet 0)).1.

Definition after_spin : rcle_let_executor_t :=
  (rcle_let_executor_spin_some two_handles 100 (start busy 0)).1.2.

Definition full : rcle_let_executor_t :=
  (run [CallAddTimer (Some 7)] (fresh 1) (start quiet 0)).1.

Definition in_period : rcle_let_executor_t :=
  set_invocation_time two_handles 5000.

(** The subscription is ready, its fetch reports no data. *)
Definition no_data : script :=
  {| init_rc := RCL_RET_OK; clear_rc := RCL_RET_OK; wait_rc := RCL_RET_OK;
     add_subscription_rc := fun _ => RCL_RET_OK;
     add_timer_rc := fun _ => RCL_RET_OK;
     subscription_ready := fun _ => true; timer_ready := fun _ => false;
     take_rc := fun _ => RCL_RET_SUBSCRIPTION_TAKE_FAILED;
     timer_is_ready := fun _ => (RCL_RET_OK, true);
     timer_call_rc := fun _ => RCL_RET_OK;
     tick := 1000%Z |}.

(** The subscription is ready, its fetch fails. *)
Definition take_fails : script :=
  {| init_rc := RCL_RET_OK; clear_rc := RCL_RET_OK; wait_rc := RCL_RET_OK;
     add_subscription_rc := fun _ => RCL_RET_OK;
     add_timer_rc := fun _ => RCL_RET_OK;
     subscription_ready := fun _ => true; timer_ready := fun _ => false;
     take_rc := fun _ => RCL_RET_ERROR;
     timer_is_ready := fun _ => (RCL_RET_OK, true);
     timer_call_rc := fun _ => RCL_RET_OK;
     tick := 1000%Z |}.

(** The slot of the timer is ready, the timer denies the expiry. *)
Definition timer_denies : script :=
  {| init_rc := RCL_RET_OK; clear_rc := RCL_RET_OK; wait_rc := RCL_RET_OK;
     add_subscription_rc := fun _ => RCL_RET_OK;
     add_timer_rc := fun _ => RCL_RET_OK;
     subscription_ready := fun _ => false; timer_ready := fun _ => true;
     take_rc := fun _ => RCL_RET_OK;
     timer_is_ready := fun _ => (RCL_RET_OK, false);
     timer_call_rc := fun _ => RCL_RET_OK;
     tick := 1000%Z |}.

(** Both slots are ready; the expiry check of the timer fails with the
    code [RCL_RET_SUBSCRIPTION_TAKE_FAILED]. *)
Definition timer_check_take_failed : script :=
  {| init_rc := RCL_RET_OK; clear_rc := RCL_RET_OK; wait_rc := RCL_RET_OK;
     add_subscription_rc := fun _ => RCL_RET_OK;
     add_timer_rc := fun _ => RCL_RET_OK;
     subscription_ready := fun _ => true; timer_ready := fun _ => true;
     take_rc := fun _ => RCL_RET_OK;
     timer_is_ready := fun _ => (RCL_RET_SUBSCRIPTION_TAKE_FAILED, false);
     timer_call_rc := fun _ => RCL_RET_OK;
     tick := 1000%Z |}.

(** The registration of a subscription fails. *)
Definition registration_fails : script :=
  {| init_rc := RCL_RET_OK; clear_rc := RCL_RET_OK; wait_rc := RCL_RET_OK;
     add_subscription_rc := fun _ => RCL_RET_ERROR;
     add_timer_rc := fun _ => RCL_RET_OK;
     subscription_ready := fun _ => false; timer_ready := fun _ => false;
     take_rc := fun _ => RCL_RET_OK;
     timer_is_ready := fun _ => (RCL_RET_OK, true);
     timer_call_rc := fun _ => RCL_RET_OK;
     tick := 1000%Z |}.

(** [rcl_wait] fails; nothing is ready. *)
Definition wait_fails : script :=
  {| init_rc := RCL_RET_OK; clear_rc := RCL_RET_OK; wait_rc := RCL_RET_ERROR;
     add_subscription_rc := fun _ => RCL_RET_OK;
     add_timer_rc := fun _ => RCL_RET_OK;
     subscription_ready := fun _ => false; timer_ready := fun _ => false;
     take_rc := fun _ => RCL_RET_OK;
     timer_is_ready := fun _ => (RCL_RET_OK, true);
     timer_call_rc := fun _ => RCL_RET_OK;
     tick := 1000%Z |}.

(** The round of [after_spin] with its own wait set, in a world [b]. *)
Definition round_of (b : script) :=
  _rcle_let_scheduling after_spin (wait_set after_spin) (start b 0).

(** An allocator that is complete but has no memory to give, and the
    executor that [init] leaves with it. *)
Definition no_memory : rcl_allocator_t :=
  {| allocator_is_valid := true; allocate_ok := fun _ => false |}.

Definition unallocated : rcle_let_executor_t :=
  (rcle_let_executor_init rcle_let_executor_get_zero_initialized_executor
     (Some 1) 2 (Some no_memory)).2.

(** Both sources are ready; the call of the timer fails. *)
Definition timer_call_fails : script :=
  {| init_rc := RCL_RET_OK; clear_rc := RCL_RET_OK; wait_rc := RCL_RET_OK;
     add_subscription_rc := fun _ => RCL_RET_OK;
     add_timer_rc := fun _ => RCL_RET_OK;
     subscription_ready := fun _ => true; timer_ready := fun _ => true;
     take_rc := fun _ => RCL_RET_OK;
     timer_is_ready := fun _ => (RCL_RET_OK, true);
     timer_call_rc := fun _ => RCL_RET_ERROR;
     tick := 1000%Z |}.

(** Three registrations, for a table with room for two. *)
Definition requests : list registration_request :=
  [RegisterTimer 7; RegisterSubscription 3 30 300 ON_NEW_DATA; RegisterTimer 8].

(** [two_handles] with a timeout of 5000 ns. *)
Definition configured : rcle_let_executor_t :=
  (rcle_let_executor_set_timeout two_handles 5000).2.


End Demo.

Section Proofs.

Context {W : Type} `{api : RclApi W} `{layout : Layout}.

Implicit Types (ex : rcle_let_executor_t) (e : env W) (ws : rcl_wait_set_t).
Implicit Types (rc : rcl_ret_t) (h : rcle_handle_t) (i j k n fuel : nat).

(** *** Return codes *)

Lemma ret_is_true rc code : ret_is rc code = true <-> rc = code.
Proof. unfold ret_is. apply Z.eqb_eq. Qed.

Lemma ret_is_false rc code : ret_is rc code = false <-> rc <> code.
Proof. unfold ret_is. apply Z.eqb_neq. Qed.

Lemma fatal_for_intake_true rc :
  fatal_for_intake rc = true <->
  rc <> RCL_RET_OK /\ rc <> RCL_RET_SUBSCRIPTION_TAKE_FAILED.
Proof.
  unfold fatal_for_intake.
  rewrite andb_true_iff, !negb_true_iff, !ret_is_false. tauto.
Qed.

Lemma fatal_for_intake_false rc :
  fatal_for_intake rc = false <->
  rc = RCL_RET_OK \/ rc = RCL_RET_SUBSCRIPTION_TAKE_FAILED.
Proof.
  unfold fatal_for_intake.
  rewrite andb_false_iff, !negb_false_iff, !ret_is_true. tauto.
Qed.

(** *** The table under updates *)

Lemma handles_of_update_handle ex i f :
  handles_of (update_handle ex i f) = alter f i (handles_of ex).
Proof. unfold handles_of, update_handle. simpl. by destruct (handles ex). Qed.

Lemma handle_update_handle ex i f j :
  handle (update_handle ex i f) j =
    if decide (i = j /\ i < length (handles_of ex))
    then f (handle ex i) else handle ex j.
Proof.
  unfold handle. rewrite handles_of_update_handle.
  apply list_lookup_total_alter.
Qed.

Lemma handle_update_handle_ne ex i f j :
  i <> j -> handle (update_handle ex i f) j = handle ex j.
Proof. intros. rewrite handle_update_handle. case_decide; [tauto | done]. Qed.

Lemma handle_update_handle_eq ex i f :
  i < length (handles_of ex) -> handle (update_handle ex i f) i = f (handle ex i).
Proof. intros. rewrite handle_update_handle. case_decide; [done | tauto]. Qed.

Lemma handle_out_of_range ex i :
  length (handles_of ex) <= i -> handle ex i = rcle_handle_init 0.
Proof.
  intros Hi. unfold handle. rewrite list_lookup_total_alt.
  by rewrite (lookup_ge_None_2 _ _ Hi).
Qed.

(** An update that leaves a property of every handle alone leaves it alone
    at every position. *)
Lemma handle_update_handle_field {A} (proj : rcle_handle_t -> A) ex i f j :
  (forall h, proj (f h) = proj h) ->
  proj (handle (update_handle ex i f) j) = proj (handle ex j).
Proof.
  intros Hf. rewrite handle_update_handle.
  case_decide as Hd; [destruct Hd as [-> _]; apply Hf | done].
Qed.

Lemma update_handle_update_handle ex i f g :
  update_handle (update_handle ex i f) i g = update_handle ex i (g ∘ f).
Proof.
  unfold update_handle, set_handles. simpl. f_equal.
  destruct (handles ex) as [hs|]; simpl; [|done].
  f_equal. apply list_alter_alter_eq.
Qed.

Lemma wf_update_handle ex i f :
  wf ex ->
  (forall h, h_initialized (f h) = h_initialized h) ->
  (forall h, h_type (f h) = h_type h) ->
  (forall h, h_invocation (f h) = h_invocation h) ->
  wf (update_handle ex i f).
Proof.
  intros [] Hinit Htype Hinv. split; simpl; intros;
    rewrite ?handles_of_update_handle, ?length_alter,
      ?(handle_update_handle_field h_initialized),
      ?(handle_update_handle_field h_type),
      ?(handle_update_handle_field h_invocation) in *; auto.
Qed.

Lemma wf_set_wait_set ex ws : wf ex -> wf (set_wait_set ex ws).
Proof. intros []. by split. Qed.

Lemma loop_continues_wf ex i :
  wf ex -> loop_continues ex i = bool_decide (i < index ex).
Proof.
  intros Hwf. unfold loop_continues. case_bool_decide as Hi.
  - rewrite (wf_prefix _ Hwf i Hi), andb_true_r. apply Nat.ltb_lt.
    pose proof (wf_index _ Hwf). lia.
  - rewrite (wf_rest _ Hwf i) by lia. apply andb_false_r.
Qed.

Lemma update_handle_ext ex i f g :
  (forall h, f h = g h) -> update_handle ex i f = update_handle ex i g.
Proof.
  intros Hfg. unfold update_handle. f_equal.
  destruct (handles ex) as [hs|]; simpl; [|done].
  f_equal. by apply list_alter_ext.
Qed.

(** *** The two functions that act on one handle *)

Lemma read_input_data_spec ex ws i e :
  exists rc b evs w',
    _rcle_read_input_data ex ws i e =
      (rc, update_handle ex i (with_data_available b),
       {| world := w'; log := log e ++ EvReadInput i :: evs |}) /\
    intake ws i (handle ex i) rc b evs.
Proof.
  unfold _rcle_read_input_data. cbv zeta.
  rewrite (handle_update_handle_field h_type) by done.
  rewrite !(handle_update_handle_field h_index) by done.
  rewrite !(handle_update_handle_field h_subscription) by done.
  rewrite !(handle_update_handle_field h_data) by done.
  rewrite !(handle_update_handle_field h_timer) by done.
  rewrite update_handle_update_handle.
  rewrite (update_handle_ext ex i
             (with_data_available true ∘ with_data_available false)
             (with_data_available true)) by done.
  destruct (h_type (handle ex i)) eqn:Htype.
  - destruct (slot_ready (subscriptions ws) _) eqn:Hready.
    + unfold call_take, note; simpl.
      destruct (rcl_take _ _ _) as [rc w1].
      destruct (ret_is rc RCL_RET_OK) eqn:Hrc; simpl.
      * apply ret_is_true in Hrc as ->.
        eexists _, true, _, _. rewrite <- app_assoc. split; [done|].
        by apply intake_subscription_taken.
      * apply ret_is_false in Hrc.
        eexists _, false, _, _. rewrite <- app_assoc. split; [done|].
        by apply intake_subscription_failed.
    + eexists _, false, [], _. split; [done|].
      by apply intake_subscription_idle.
  - destruct (slot_ready (timers ws) _) eqn:Hready.
    + unfold call_timer_is_ready, note; simpl.
      destruct (rcl_timer_is_ready _ _) as [[rc ready] w1].
      destruct (ret_is rc RCL_RET_OK) eqn:Hrc; simpl.
      * apply ret_is_true in Hrc as ->. destruct ready.
        -- eexists _, true, _, _. rewrite <- app_assoc. split; [done|].
           by apply intake_timer_expired.
        -- eexists _, false, _, _. rewrite <- app_assoc. split; [done|].
           by apply intake_timer_denied.
      * apply ret_is_false in Hrc.
        eexists _, false, _, _. rewrite <- app_assoc. split; [done|].
        by apply intake_timer_failed.
    + eexists _, false, [], _. split; [done|].
      by apply intake_timer_idle.
  - eexists _, false, [], _. split; [done|]. by apply intake_unknown.
Qed.

Lemma execute_spec ex ws i e :
  exists rc evs w',
    _rcle_execute ex ws i e =
      (rc, {| world := w'; log := log e ++ EvExecute i :: evs |}) /\
    execution i (handle ex i) rc evs.
Proof.
  unfold _rcle_execute. cbv zeta.
  destruct (invoke_callback (handle ex i)) eqn:Hinv.
  - destruct (h_type (handle ex i)) eqn:Htype.
    + eexists _, _, _. unfold call_callback, note; simpl.
      rewrite <- app_assoc. split; [done|]. by apply execution_callback.
    + unfold call_timer_call, note; simpl.
      destruct (rcl_timer_call _ _) as [rc w1].
      eexists _, _, _. rewrite <- app_assoc. split; [done|].
      by apply execution_timer.
    + eexists _, [], _. split; [done|]. by apply execution_unknown.
  - eexists _, [], _. split; [done|]. by apply execution_skipped.
Qed.

(** *** The loops end within their bound

    An iteration needs [i < max_handles], and no iteration changes
    [max_handles]: more fuel than [max_handles - i] changes nothing, so the
    loops started with [max_handles] never stop for want of fuel. *)

Lemma read_loop_fuel ws fuel : forall i rc ex e,
  max_handles ex <= fuel + i ->
  read_loop (S fuel) i rc ex ws e = read_loop fuel i rc ex ws e.
Proof.
  induction fuel as [|fuel IH]; intros i rc ex e Hfuel.
  - simpl. unfold loop_continues.
    by rewrite (proj2 (Nat.ltb_ge _ _)) by lia.
  - change (read_loop (S (S fuel)) i rc ex ws e) with
      (if loop_continues ex i then
         let '(rc1, ex1, e1) := _rcle_read_input_data ex ws i e in
         if negb (ret_is rc1 RCL_RET_OK)
            && negb (ret_is rc1 RCL_RET_SUBSCRIPTION_TAKE_FAILED)
         then (Return rc1, ex1, e1)
         else read_loop (S fuel) (S i) rc1 ex1 ws e1
       else (Next rc, ex, e)).
    change (read_loop (S fuel) i rc ex ws e) with
      (if loop_continues ex i then
         let '(rc1, ex1, e1) := _rcle_read_input_data ex ws i e in
         if negb (ret_is rc1 RCL_RET_OK)
            && negb (ret_is rc1 RCL_RET_SUBSCRIPTION_TAKE_FAILED)
         then (Return rc1, ex1, e1)
         else read_loop fuel (S i) rc1 ex1 ws e1
       else (Next rc, ex, e)).
    destruct (loop_continues ex i); [|done].
    destruct (read_input_data_spec ex ws i e) as (rc1 & b & evs & w' & -> & _).
    destruct (_ && _); [done|]. apply IH. simpl. lia.
Qed.

Lemma execute_loop_fuel ws fuel : forall i rc ex e,
  max_handles ex <= fuel + i ->
  execute_loop (S fuel) i rc ex ws e = execute_loop fuel i rc ex ws e.
Proof.
  induction fuel as [|fuel IH]; intros i rc ex e Hfuel.
  - simpl. unfold loop_continues.
    by rewrite (proj2 (Nat.ltb_ge _ _)) by lia.
  - change (execute_loop (S (S fuel)) i rc ex ws e) with
      (if loop_continues ex i then
         let '(rc1, e1) := _rcle_execute ex ws i e in
         if negb (ret_is rc1 RCL_RET_OK) then (Return rc1, e1)
         else execute_loop (S fuel) (S i) rc1 ex ws e1
       else (Next rc, e)).
    change (execute_loop (S fuel) i rc ex ws e) with
      (if loop_continues ex i then
         let '(rc1, e1) := _rcle_execute ex ws i e in
         if negb (ret_is rc1 RCL_RET_OK) then (Return rc1, e1)
         else execute_loop fuel (S i) rc1 ex ws e1
       else (Next rc, e)).
    destruct (loop_continues ex i); [|done].
    destruct (_rcle_execute ex ws i e) as [rc1 e1].
    destruct (negb _); [done|]. apply IH. lia.
Qed.

Lemma register_loop_unfold fuel i rc ex e :
  register_loop (S fuel) i rc ex e =
  if loop_continues ex i then
    let h := handle ex i in
    match h_type h with
    | SUBSCRIPTION =>
      let '(rc1, k, ws, e1) :=
        call_wait_set_add_subscription i (wait_set ex) (h_subscription h) e in
      let ex1 := set_wait_set ex ws in
      if negb (ret_is rc1 RCL_RET_OK) then (Return rc1, ex1, e1)
      else register_loop fuel (S i) rc1 (update_handle ex1 i (with_index k)) e1
    | TIMER =>
      let '(rc1, k, ws, e1) :=
        call_wait_set_add_timer i (wait_set ex) (h_timer h) e in
      let ex1 := set_wait_set ex ws in
      if negb (ret_is rc1 RCL_RET_OK) then (Return rc1, ex1, e1)
      else register_loop fuel (S i) rc1 (update_handle ex1 i (with_index k)) e1
    | NONE => (Return RCL_RET_ERROR, ex, e)
    end
  else (Next rc, ex, e).
Proof. reflexivity. Qed.

Lemma register_loop_fuel fuel : forall i rc ex e,
  max_handles ex <= fuel + i ->
  register_loop (S fuel) i rc ex e = register_loop fuel i rc ex e.
Proof.
  induction fuel as [|fuel IH]; intros i rc ex e Hfuel.
  - simpl. unfold loop_continues.
    by rewrite (proj2 (Nat.ltb_ge _ _)) by lia.
  - rewrite (register_loop_unfold (S fuel)), (register_loop_unfold fuel).
    destruct (loop_continues ex i); [|done]. cbv zeta.
    destruct (h_type (handle ex i)); [| |done].
    + destruct (call_wait_set_add_subscription _ _ _ _) as [[[rc1 k] ws] e1].
      destruct (negb _); [done|]. apply IH. simpl. lia.
    + destruct (call_wait_set_add_timer _ _ _ _) as [[[rc1 k] ws] e1].
      destruct (negb _); [done|]. apply IH. simpl. lia.
Qed.

(** *** The loops of the round *)

Lemma intake_phase_frame ws n i rc ex fl ex1 new :
  intake_phase ws n i rc ex fl ex1 new ->
  max_handles ex1 = max_handles ex /\ index ex1 = index ex /\
  wait_set ex1 = wait_set ex /\ info ex1 = info ex /\
  context ex1 = context ex /\ allocator ex1 = allocator ex /\
  timeout_ns ex1 = timeout_ns ex /\ invocation_time ex1 = invocation_time ex /\
  (wf ex -> wf ex1).
Proof.
  induction 1 as [| |????????????? IH]; simpl in *.
  - by split_and!.
  - split_and!; try done. intros. by apply wf_update_handle.
  - destruct IH as (-> & -> & -> & -> & -> & -> & -> & -> & Hwf).
    split_and!; try done. intros. by apply Hwf, wf_update_handle.
Qed.

Lemma read_loop_sound ws fuel : forall i rc ex e fl ex1 e1,
  wf ex -> i <= index ex -> max_handles ex <= fuel + i ->
  read_loop fuel i rc ex ws e = (fl, ex1, e1) ->
  exists new, log e1 = log e ++ new /\
    intake_phase ws (index ex) i rc ex fl ex1 new.
Proof.
  induction fuel as [|fuel IH]; intros i rc ex e fl ex1 e1 Hwf Hi Hfuel; simpl.
  - intros [= <- <- <-]. exists []. rewrite app_nil_r. split; [done|].
    pose proof (wf_index _ Hwf).
    replace i with (index ex) by lia. constructor.
  - rewrite (loop_continues_wf _ _ Hwf). case_bool_decide as Hlt.
    + destruct (read_input_data_spec ex ws i e) as (rc1 & b & evs & w' & -> & Hin).
      fold (fatal_for_intake rc1).
      destruct (fatal_for_intake rc1) eqn:Hfatal.
      * intros [= <- <- <-]. eexists. split; [done|].
        by apply intake_phase_abort.
      * intros Hloop. apply IH in Hloop as (new & -> & Hphase); simpl; try lia.
        -- eexists. simpl. rewrite <- app_assoc. split; [done|].
           by eapply intake_phase_step.
        -- by apply wf_update_handle.
    + intros [= <- <- <-]. exists []. rewrite app_nil_r. split; [done|].
      replace i with (index ex) by lia. constructor.
Qed.

Lemma execute_loop_sound ws fuel : forall i rc ex e fl e1,
  wf ex -> i <= index ex -> max_handles ex <= fuel + i ->
  execute_loop fuel i rc ex ws e = (fl, e1) ->
  exists new, log e1 = log e ++ new /\
    execution_phase ex (index ex) i rc fl new.
Proof.
  induction fuel as [|fuel IH]; intros i rc ex e fl e1 Hwf Hi Hfuel; simpl.
  - intros [= <- <-]. exists []. rewrite app_nil_r. split; [done|].
    pose proof (wf_index _ Hwf).
    replace i with (index ex) by lia. constructor.
  - rewrite (loop_continues_wf _ _ Hwf). case_bool_decide as Hlt.
    + destruct (execute_spec ex ws i e) as (rc1 & evs & w' & -> & Hex).
      destruct (ret_is rc1 RCL_RET_OK) eqn:Hrc; simpl.
      * apply ret_is_true in Hrc as ->.
        intros Hloop. apply IH in Hloop as (new & -> & Hphase); simpl; try lia; [|done].
        eexists. simpl. rewrite <- app_assoc. split; [done|].
        by eapply execution_phase_step.
      * apply ret_is_false in Hrc.
        intros [= <- <-]. eexists. split; [done|].
        by apply execution_phase_abort.
    + intros [= <- <-]. exists []. rewrite app_nil_r. split; [done|].
      replace i with (index ex) by lia. constructor.
Qed.

(** The round of the source is a round in the sense of [round]. *)
Lemma let_scheduling_sound ex ws e rc ex1 e1 :
  wf ex ->
  _rcle_let_scheduling ex ws e = (rc, ex1, e1) ->
  exists new, log e1 = log e ++ new /\ round ws ex rc ex1 new.
Proof.
  intros Hwf. unfold _rcle_let_scheduling.
  destruct (read_loop _ _ _ _ _ _) as [[fl1 ex2] e2] eqn:Hread.
  apply read_loop_sound in Hread as (new1 & Hlog1 & Hphase1); [|done|lia..].
  destruct fl1 as [rc1|rc1].
  - intros [= <- <- <-]. exists new1. split; [done|].
    by apply round_aborted_in_intake.
  - destruct (execute_loop _ _ _ _ _ _) as [fl e3] eqn:Hexec.
    pose proof (intake_phase_frame _ _ _ _ _ _ _ _ Hphase1)
      as (Hmax & Hidx & _ & _ & _ & _ & _ & _ & Hwf1).
    apply execute_loop_sound in Hexec as (new2 & Hlog2 & Hphase2);
      [|by apply Hwf1|lia..].
    intros [= <- <- <-]. exists (new1 ++ new2).
    rewrite Hlog2, Hlog1, app_assoc. split; [done|].
    rewrite Hidx in Hphase2. by eapply round_executed.
Qed.

(** *** The log records what the collaborators answered *)

Lemma replay_app l1 l2 s :
  replay (l1 ++ l2) s =
  match replay l1 s with Some s' => replay l2 s' | None => None end.
Proof.
  revert s. induction l1 as [|ev l1 IH]; intros s; simpl; [done|].
  by destruct (replay_event ev s).
Qed.

Lemma replay_app_Some l1 l2 s s1 s2 :
  replay l1 s = Some s1 -> replay l2 s1 = Some s2 -> replay (l1 ++ l2) s = Some s2.
Proof. intros H1 H2. by rewrite replay_app, H1. Qed.

Lemma replay_app_inv l1 l2 s s2 :
  replay (l1 ++ l2) s = Some s2 ->
  exists s1, replay l1 s = Some s1 /\ replay l2 s1 = Some s2.
Proof.
  rewrite replay_app. destruct (replay l1 s) as [s1|]; [|done].
  intros Hrest. by exists s1.
Qed.

Lemma replay_singleton ev s : replay [ev] s = replay_event ev s.
Proof. simpl. by destruct (replay_event ev s). Qed.

(** The calls of a round leave the wait set alone. *)
Lemma replay_event_round ev s s' :
  is_intake_event ev || is_execution_event ev = true ->
  replay_event ev s = Some s' -> s'.1 = s.1.
Proof.
  destruct ev; try done; simpl; intros _.
  - by intros [= <-].
  - destruct (rcl_take _ _ _) as [rc' w']. case_bool_decide; [|done].
    by intros [= <-].
  - destruct (rcl_timer_is_ready _ _) as [[rc' ready'] w'].
    case_bool_decide; [|done]. by intros [= <-].
  - by intros [= <-].
  - by intros [= <-].
  - destruct (rcl_timer_call _ _) as [rc' w']. case_bool_decide; [|done].
    by intros [= <-].
Qed.

Lemma replay_round l : forall s s',
  Forall (fun ev => is_intake_event ev || is_execution_event ev = true) l ->
  replay l s = Some s' -> s'.1 = s.1.
Proof.
  induction l as [|ev l IH]; intros s s' Hall; simpl.
  - by intros [= <-].
  - apply Forall_cons in Hall as [Hev Hall].
    destruct (replay_event ev s) as [s1|] eqn:Hstep; [|done].
    intros Hrest. rewrite (IH _ _ Hall Hrest).
    by eapply replay_event_round.
Qed.

Lemma read_input_data_replay ex ws0 ws i e rc ex1 e1 :
  _rcle_read_input_data ex ws i e = (rc, ex1, e1) ->
  exists new, log e1 = log e ++ new /\
    replay new (ws0, world e) = Some (ws0, world e1).
Proof.
  unfold _rcle_read_input_data. cbv zeta.
  destruct (h_type _).
  - destruct (slot_ready _ _).
    + unfold call_take, note; simpl.
      destruct (rcl_take _ _ _) as [rc1 w1] eqn:Hcall.
      destruct (ret_is rc1 RCL_RET_OK); simpl; intros [= <- <- <-]; simpl;
        (eexists; split; [by rewrite <- app_assoc|]); simpl;
        by rewrite Hcall, bool_decide_eq_true_2.
    + intros [= <- <- <-]. by exists [EvReadInput i].
  - destruct (slot_ready _ _).
    + unfold call_timer_is_ready, note; simpl.
      destruct (rcl_timer_is_ready _ _) as [[rc1 ready] w1] eqn:Hcall.
      destruct (ret_is rc1 RCL_RET_OK); simpl; [destruct ready|];
        intros [= <- <- <-]; simpl;
        (eexists; split; [by rewrite <- app_assoc|]); simpl;
        by rewrite Hcall, bool_decide_eq_true_2.
    + intros [= <- <- <-]. by exists [EvReadInput i].
  - intros [= <- <- <-]. by exists [EvReadInput i].
Qed.

Lemma execute_replay ex ws0 ws i e rc e1 :
  _rcle_execute ex ws i e = (rc, e1) ->
  exists new, log e1 = log e ++ new /\
    replay new (ws0, world e) = Some (ws0, world e1).
Proof.
  unfold _rcle_execute. cbv zeta.
  destruct (invoke_callback _).
  - destruct (h_type _).
    + intros [= <- <-]. eexists. split; [simpl; by rewrite <- app_assoc|done].
    + unfold call_timer_call, note; simpl.
      destruct (rcl_timer_call _ _) as [rc1 w1] eqn:Hcall.
      intros [= <- <-]. eexists. split; [simpl; by rewrite <- app_assoc|].
      simpl. by rewrite Hcall, bool_decide_eq_true_2.
    + intros [= <- <-]. by exists [EvExecute i].
  - intros [= <- <-]. by exists [EvExecute i].
Qed.

Lemma read_loop_replay ws0 ws fuel : forall i rc ex e fl ex1 e1,
  read_loop fuel i rc ex ws e = (fl, ex1, e1) ->
  exists new, log e1 = log e ++ new /\
    replay new (ws0, world e) = Some (ws0, world e1).
Proof.
  induction fuel as [|fuel IH]; intros i rc ex e fl ex1 e1; simpl.
  - intros [= <- <- <-]. exists []. by rewrite app_nil_r.
  - destruct (loop_continues ex i).
    + destruct (_rcle_read_input_data ex ws i e) as [[rc1 ex2] e2] eqn:Hread.
      apply (read_input_data_replay _ ws0) in Hread as (new1 & Hlog1 & Hplay1).
      destruct (negb (ret_is rc1 RCL_RET_OK) && _).
      * intros [= <- <- <-]. by exists new1.
      * intros Hloop. apply IH in Hloop as (new2 & Hlog2 & Hplay2).
        exists (new1 ++ new2). split; [by rewrite Hlog2, Hlog1, app_assoc|].
        by eapply replay_app_Some.
    + intros [= <- <- <-]. exists []. by rewrite app_nil_r.
Qed.

Lemma execute_loop_replay ws0 ws fuel : forall i rc ex e fl e1,
  execute_loop fuel i rc ex ws e = (fl, e1) ->
  exists new, log e1 = log e ++ new /\
    replay new (ws0, world e) = Some (ws0, world e1).
Proof.
  induction fuel as [|fuel IH]; intros i rc ex e fl e1; simpl.
  - intros [= <- <-]. exists []. by rewrite app_nil_r.
  - destruct (loop_continues ex i).
    + destruct (_rcle_execute ex ws i e) as [rc1 e2] eqn:Hexec.
      apply (execute_replay _ ws0) in Hexec as (new1 & Hlog1 & Hplay1).
      destruct (negb (ret_is rc1 RCL_RET_OK)).
      * intros [= <- <-]. by exists new1.
      * intros Hloop. apply IH in Hloop as (new2 & Hlog2 & Hplay2).
        exists (new1 ++ new2). split; [by rewrite Hlog2, Hlog1, app_assoc|].
        by eapply replay_app_Some.
    + intros [= <- <-]. exists []. by rewrite app_nil_r.
Qed.

(** The calls that a round logs are the calls it has made: replayed from
    the world in which the round starts, they give the recorded answers and
    lead to the world in which it ends. *)
Lemma let_scheduling_replay ex ws0 ws e rc ex1 e1 :
  _rcle_let_scheduling ex ws e = (rc, ex1, e1) ->
  exists new, log e1 = log e ++ new /\
    replay new (ws0, world e) = Some (ws0, world e1).
Proof.
  unfold _rcle_let_scheduling.
  destruct (read_loop _ _ _ _ _ _) as [[fl ex2] e2] eqn:Hread.
  apply (read_loop_replay ws0) in Hread as (new1 & Hlog1 & Hplay1).
  destruct fl as [rc1|rc1].
  - intros [= <- <- <-]. by exists new1.
  - destruct (execute_loop _ _ _ _ _ _) as [fl2 e3] eqn:Hexec.
    apply (execute_loop_replay ws0) in Hexec as (new2 & Hlog2 & Hplay2).
    intros [= <- <- <-].
    exists (new1 ++ new2). split; [by rewrite Hlog2, Hlog1, app_assoc|].
    by eapply replay_app_Some.
Qed.

Lemma register_loop_replay fuel : forall i rc ex e fl ex1 e1,
  register_loop fuel i rc ex e = (fl, ex1, e1) ->
  exists new, log e1 = log e ++ new /\
    replay new (wait_set ex, world e) = Some (wait_set ex1, world e1).
Proof.
  induction fuel as [|fuel IH]; intros i rc ex e fl ex1 e1.
  - simpl. intros [= <- <- <-]. exists []. by rewrite app_nil_r.
  - rewrite register_loop_unfold. cbv zeta.
    destruct (loop_continues ex i);
      [|intros [= <- <- <-]; exists []; by rewrite app_nil_r].
    destruct (h_type _).
    + unfold call_wait_set_add_subscription.
      destruct (rcl_wait_set_add_subscription _ _ _) as [[[rc1 k] ws1] w1] eqn:Hcall.
      destruct (negb (ret_is rc1 RCL_RET_OK)).
      * intros [= <- <- <-]. eexists. split; [done|]. simpl.
        by rewrite Hcall, bool_decide_eq_true_2.
      * intros Hloop. apply IH in Hloop as (new2 & Hlog2 & Hplay2).
        simpl in Hlog2, Hplay2.
        eexists (_ :: new2). split; [by rewrite Hlog2, <- app_assoc|].
        simpl. by rewrite Hcall, bool_decide_eq_true_2.
    + unfold call_wait_set_add_timer.
      destruct (rcl_wait_set_add_timer _ _ _) as [[[rc1 k] ws1] w1] eqn:Hcall.
      destruct (negb (ret_is rc1 RCL_RET_OK)).
      * intros [= <- <- <-]. eexists. split; [done|]. simpl.
        by rewrite Hcall, bool_decide_eq_true_2.
      * intros Hloop. apply IH in Hloop as (new2 & Hlog2 & Hplay2).
        simpl in Hlog2, Hplay2.
        eexists (_ :: new2). split; [by rewrite Hlog2, <- app_assoc|].
        simpl. by rewrite Hcall, bool_decide_eq_true_2.
    + intros [= <- <- <-]. exists []. by rewrite app_nil_r.
Qed.

Lemma ensure_wait_set_replay ex e fl ex1 e1 :
  ensure_wait_set ex e = (fl, ex1, e1) ->
  exists new, log e1 = log e ++ new /\
    replay new (wait_set ex, world e) = Some (wait_set ex1, world e1).
Proof.
  unfold ensure_wait_set, call_wait_set_fini, call_wait_set_init.
  destruct (negb _).
  - destruct (rcl_wait_set_fini _ _) as [[rc0 ws0] w0] eqn:Hfini. simpl.
    destruct (rcl_wait_set_init _ _ _ _) as [[rc1 ws1] w1] eqn:Hinit. simpl.
    destruct (negb _); intros [= <- <- <-]; simpl;
      (eexists; split; [by rewrite <- app_assoc|]); simpl;
      rewrite Hfini, bool_decide_eq_true_2 by done; simpl;
      by rewrite Hinit, bool_decide_eq_true_2.
  - intros [= <- <- <-]. exists []. by rewrite app_nil_r.
Qed.

Lemma read_loop_wait_set ws fuel : forall i rc ex e fl ex1 e1,
  read_loop fuel i rc ex ws e = (fl, ex1, e1) -> wait_set ex1 = wait_set ex.
Proof.
  induction fuel as [|fuel IH]; intros i rc ex e fl ex1 e1; simpl.
  - by intros [= <- <- <-].
  - destruct (loop_continues ex i); [|by intros [= <- <- <-]].
    destruct (read_input_data_spec ex ws i e) as (rc1 & b & evs & w' & -> & _).
    destruct (negb (ret_is rc1 RCL_RET_OK) && _).
    + by intros [= <- <- <-].
    + intros Hloop. by apply IH in Hloop as ->.
Qed.

Lemma let_scheduling_wait_set ex ws e rc ex1 e1 :
  _rcle_let_scheduling ex ws e = (rc, ex1, e1) -> wait_set ex1 = wait_set ex.
Proof.
  unfold _rcle_let_scheduling.
  destruct (read_loop _ _ _ _ _ _) as [[fl ex2] e2] eqn:Hread.
  apply read_loop_wait_set in Hread.
  destruct fl as [rc1|rc1]; [by intros [= <- <- <-]|].
  destruct (execute_loop _ _ _ _ _ _) as [fl2 e3]. by intros [= <- <- <-].
Qed.

Lemma spin_some_prepared_replay ex timeout e rc ex1 e1 :
  spin_some_prepared ex timeout e = (rc, ex1, e1) ->
  exists new, log e1 = log e ++ new /\
    replay new (wait_set ex, world e) = Some (wait_set ex1, world e1).
Proof.
  unfold spin_some_prepared, call_wait_set_clear.
  destruct (rcl_wait_set_clear _ _) as [[rc2 ws2] w2] eqn:Hclear.
  destruct (negb _).
  - intros [= <- <- <-]. eexists. split; [done|]. simpl.
    by rewrite Hclear, bool_decide_eq_true_2.
  - destruct (register_loop _ _ _ _ _) as [[fl ex3] e3] eqn:Hreg.
    apply register_loop_replay in Hreg as (regs & Hlog3 & Hplay3).
    simpl in Hlog3, Hplay3.
    assert (replay (EvWaitSetClear rc2 :: regs) (wait_set ex, world e) =
              Some (wait_set ex3, world e3)) as Hsetup.
    { simpl. by rewrite Hclear, bool_decide_eq_true_2. }
    destruct fl as [rc3|rc3].
    + intros [= <- <- <-]. eexists. split; [|done]. by rewrite Hlog3, <- app_assoc.
    + unfold call_wait.
      destruct (rcl_wait _ _ _) as [[rc4 ws4] w4] eqn:Hwait.
      intros Hround.
      pose proof (let_scheduling_wait_set _ _ _ _ _ _ Hround) as Hws.
      apply (let_scheduling_replay _ ws4) in Hround as (new & Hlog5 & Hplay5).
      simpl in Hlog5, Hplay5, Hws.
      exists ((EvWaitSetClear rc2 :: regs) ++ [EvWait (to_int64 timeout) rc4] ++ new).
      split; [rewrite Hlog5, Hlog3; simpl; by rewrite <- !app_assoc|].
      eapply replay_app_Some; [done|].
      eapply replay_app_Some; [|by rewrite Hws].
      simpl. by rewrite Hwait, bool_decide_eq_true_2.
Qed.

(** The calls that [spin_some] logs are the calls it has made: replayed on
    the wait set and in the world it starts with, they give the recorded
    answers and lead to the wait set it leaves in the executor and to the
    world in which it ends. *)
Lemma spin_some_replay ex timeout e rc ex1 e1 :
  rcle_let_executor_spin_some ex timeout e = (rc, ex1, e1) ->
  exists new, log e1 = log e ++ new /\
    replay new (wait_set ex, world e) = Some (wait_set ex1, world e1).
Proof.
  unfold rcle_let_executor_spin_some.
  destruct (ensure_wait_set ex e) as [[fl exa] ea] eqn:Hprep.
  apply ensure_wait_set_replay in Hprep as (pre & Hloga & Hplaya).
  destruct fl as [rc0|rc0].
  - intros [= <- <- <-]. by exists pre.
  - intros Hrun. apply spin_some_prepared_replay in Hrun as (new & Hlog & Hplay).
    exists (pre ++ new). split; [by rewrite Hlog, Hloga, app_assoc|].
    by eapply replay_app_Some.
Qed.

(** *** What the intake of one handle logs *)

Lemma intake_events ws i h rc b evs :
  intake ws i h rc b evs ->
  Forall (fun ev => is_intake_event ev = true /\ event_position ev = Some i) evs /\
  read_positions evs = [].
Proof. destruct 1; split; try done; by repeat constructor. Qed.

(** The flag is set exactly when the fetch, or the expiry check, of this
    handle succeeded. *)
Lemma intake_flag ws i h rc b evs :
  intake ws i h rc b evs -> b = true <-> intake_success ws i h evs.
Proof.
  unfold intake_success.
  destruct 1 as [Ht Hr|Ht Hr|rc Ht Hr Hrc|Ht Hr|Ht Hr|Ht Hr|rc ready Ht Hr Hrc|Ht];
    (split; [try done; intros _|]).
  all: try (left; split_and!; try done; by apply list_elem_of_singleton).
  all: try (right; split_and!; try done; by apply list_elem_of_singleton).
  all: intros [(Ht' & Hr' & Hin)|(Ht' & Hr' & Hin)]; try congruence.
  all: try (by apply elem_of_nil in Hin).
  all: apply list_elem_of_singleton in Hin; congruence.
Qed.

Lemma intake_abort_code ws i h rc b evs :
  intake ws i h rc b evs -> h_type h <> NONE ->
  if fatal_for_intake rc
  then exists ev, evs = [ev] /\ abort_code ev = Some rc
  else Forall (fun ev => abort_code ev = None) evs.
Proof.
  destruct 1 as [Ht Hr|Ht Hr|rc Ht Hr Hrc|Ht Hr|Ht Hr|Ht Hr|rc ready Ht Hr Hrc|Ht];
    intros Hkind; try done; try (by repeat constructor).
  - destruct (fatal_for_intake rc) eqn:Hf.
    + eexists. split; [done|]. simpl. by rewrite Hf.
    + repeat constructor. simpl. by rewrite Hf.
  - eexists. by split.
  - apply ret_is_false in Hrc. destruct (fatal_for_intake rc) eqn:Hf.
    + eexists. split; [done|]. simpl. by rewrite Hrc, Hf.
    + repeat constructor. simpl. by rewrite Hrc, Hf.
Qed.

Lemma intake_calls ws i h rc b evs :
  intake ws i h rc b evs -> Forall (intake_call_of ws h) evs.
Proof. destruct 1; by repeat constructor. Qed.

(** *** Properties of the intake phase *)

(** The phase touches nothing but [data_available], and that only at the
    positions it passes. *)
Lemma intake_phase_handles ws n i rc ex fl ex1 new :
  intake_phase ws n i rc ex fl ex1 new ->
  length (handles_of ex1) = length (handles_of ex) /\
  (forall j, with_data_available false (handle ex1 j) =
             with_data_available false (handle ex j)) /\
  (forall j, j < i \/ n <= j -> handle ex1 j = handle ex j).
Proof.
  induction 1 as [|i rc ex rc1 b evs Hi Hin Hf|i rc ex rc1 b evs fl ex2 new Hi Hin Hf _ IH].
  - done.
  - rewrite handles_of_update_handle, length_alter. split_and!; [done|..].
    + intros j. rewrite handle_update_handle. by case_decide as Hd; [destruct Hd as [-> _]|].
    + intros j Hj. apply handle_update_handle_ne. lia.
  - destruct IH as (Hlen & Hsame & Hout).
    rewrite handles_of_update_handle, length_alter in Hlen. split_and!; [done|..].
    + intros j. rewrite Hsame, handle_update_handle.
      by case_decide as Hd; [destruct Hd as [-> _]|].
    + intros j Hj. rewrite Hout by lia. apply handle_update_handle_ne. lia.
Qed.

Lemma intake_phase_events ws n i rc ex fl ex1 new :
  intake_phase ws n i rc ex fl ex1 new ->
  Forall (fun ev => is_intake_event ev = true /\
            exists j, event_position ev = Some j /\ i <= j < n) new.
Proof.
  induction 1 as [|i rc ex rc1 b evs Hi Hin Hf|i rc ex rc1 b evs fl ex2 new Hi Hin Hf _ IH].
  - constructor.
  - constructor; [split; [done|exists i; split; [done|lia]]|].
    eapply Forall_impl; [apply (intake_events _ _ _ _ _ _ Hin)|].
    intros ev [? ?]. split; [done|]. exists i. split; [done|lia].
  - constructor; [split; [done|exists i; split; [done|lia]]|].
    apply Forall_app. split.
    + eapply Forall_impl; [apply (intake_events _ _ _ _ _ _ Hin)|].
      intros ev [? ?]. split; [done|]. exists i. split; [done|lia].
    + eapply Forall_impl; [apply IH|].
      intros ev [? (j & ? & ?)]. split; [done|]. exists j. split; [done|lia].
Qed.

Lemma read_positions_app l1 l2 :
  read_positions (l1 ++ l2) = read_positions l1 ++ read_positions l2.
Proof. apply omap_app. Qed.

Lemma execute_positions_app l1 l2 :
  execute_positions (l1 ++ l2) = execute_positions l1 ++ execute_positions l2.
Proof. apply omap_app. Qed.

(** The positions read are an initial segment of the table, in order, and
    all of it when the phase is not aborted. *)
Lemma intake_phase_positions ws n i rc ex fl ex1 new :
  intake_phase ws n i rc ex fl ex1 new ->
  i <= n ->
  read_positions new `prefix_of` seq i (n - i) /\
  (forall rc', fl = Next rc' -> read_positions new = seq i (n - i)).
Proof.
  induction 1 as [|i rc ex rc1 b evs Hi Hin Hf|i rc ex rc1 b evs fl ex2 new Hi Hin Hf _ IH]; intros Hle.
  - rewrite Nat.sub_diag. done.
  - replace (n - i) with (S (n - S i)) by lia. simpl.
    rewrite (proj2 (intake_events _ _ _ _ _ _ Hin)). split; [|done].
    apply prefix_cons, prefix_nil.
  - replace (n - i) with (S (n - S i)) by lia. simpl.
    rewrite read_positions_app, (proj2 (intake_events _ _ _ _ _ _ Hin)). simpl.
    destruct IH as [Hpre Hall]; [lia|]. split.
    + by apply prefix_cons.
    + intros rc' ->. f_equal. by eapply Hall.
Qed.

Lemma intake_success_same_calls ws j h l l' :
  (forall s m rc, EvTake j s m rc ∈ l <-> EvTake j s m rc ∈ l') ->
  (forall t rc b, EvTimerIsReady j t rc b ∈ l <-> EvTimerIsReady j t rc b ∈ l') ->
  intake_success ws j h l <-> intake_success ws j h l'.
Proof. intros Htake Htimer. unfold intake_success. by rewrite Htake, Htimer. Qed.

(** An event of another position is not among the events of this one. *)
Lemma not_elem_of_other_position j ev l :
  Forall (fun ev' => exists k, event_position ev' = Some k /\ k <> j) l ->
  event_position ev = Some j -> ev ∉ l.
Proof.
  intros Hall Hpos Hin. rewrite Forall_forall in Hall.
  destruct (Hall _ Hin) as (k & Hk & Hne). congruence.
Qed.

Lemma read_position_elem j l : j ∈ read_positions l <-> EvReadInput j ∈ l.
Proof.
  unfold read_positions. rewrite list_elem_of_omap. split.
  - intros (ev & Hin & Hev). by destruct ev; simplify_eq.
  - intros Hin. by exists (EvReadInput j).
Qed.

(** [data_available] of a handle the phase has read tells whether the
    intake of this round succeeded for it. *)
Lemma intake_phase_flags ws n i rc ex fl ex1 new :
  intake_phase ws n i rc ex fl ex1 new ->
  n <= length (handles_of ex) ->
  forall j, EvReadInput j ∈ new ->
    h_data_available (handle ex1 j) = true <->
    intake_success ws j (handle ex j) new.
Proof.
  induction 1 as [|i rc ex rc1 b evs Hi Hin Hf
                  |i rc ex rc1 b evs fl ex2 new Hi Hin Hf Hphase IH];
    intros Hlen j Hj; [by apply elem_of_nil in Hj|..].
  - pose proof (intake_events _ _ _ _ _ _ Hin) as [_ Hnone].
    apply elem_of_cons in Hj as [[= ->]|Hj];
      [|by apply read_position_elem in Hj; rewrite Hnone in Hj;
           apply elem_of_nil in Hj].
    rewrite handle_update_handle_eq by lia. simpl.
    rewrite (intake_flag _ _ _ _ _ _ Hin).
    apply intake_success_same_calls; intros; rewrite elem_of_cons;
      (split; [tauto|by intros [?|?]]).
  - pose proof (intake_phase_handles _ _ _ _ _ _ _ _ Hphase) as (_ & _ & Hout).
    pose proof (intake_phase_events _ _ _ _ _ _ _ _ Hphase) as Hnew.
    pose proof (intake_events _ _ _ _ _ _ Hin) as [Hevs Hnone].
    apply elem_of_cons in Hj as [[= ->]|Hj].
    + rewrite Hout, handle_update_handle_eq by lia. simpl.
      rewrite (intake_flag _ _ _ _ _ _ Hin).
      apply intake_success_same_calls; intros;
        rewrite elem_of_cons, elem_of_app;
        (split; [tauto|intros [?|[?|Hin']]; [done..|]]);
        exfalso; revert Hin';
        (eapply not_elem_of_other_position; [|done]);
        (eapply Forall_impl; [apply Hnew|]);
        intros ev [? (k & ? & ?)]; exists k; (split; [done|lia]).
    + apply elem_of_app in Hj as [Hj|Hj];
        [by apply read_position_elem in Hj; rewrite Hnone in Hj;
            apply elem_of_nil in Hj|].
      assert (S i <= j) as Hlt.
      { rewrite Forall_forall in Hnew.
        destruct (Hnew _ Hj) as (_ & k & [= <-] & ?). lia. }
      rewrite IH by (rewrite ?handles_of_update_handle, ?length_alter; done).
      rewrite handle_update_handle_ne by lia.
      apply intake_success_same_calls; intros;
        rewrite elem_of_cons, elem_of_app;
        (split; [tauto|intros [?|[Hin'|?]]; [done| |done]]);
        exfalso; revert Hin';
        (eapply not_elem_of_other_position; [|done]);
        (eapply Forall_impl; [apply Hevs|]);
        intros ev [? ?]; exists i; (split; [done|lia]).
Qed.

(** Every fetch and every expiry check of the phase is made for the
    resource of the handle at that position, and only for a ready slot. *)
Lemma intake_phase_calls ws n i rc ex fl ex1 new :
  intake_phase ws n i rc ex fl ex1 new ->
  forall ev j, ev ∈ new -> event_position ev = Some j ->
    intake_call_of ws (handle ex j) ev.
Proof.
  induction 1 as [|i rc ex rc1 b evs Hi Hin Hf
                  |i rc ex rc1 b evs fl ex2 new Hi Hin Hf Hphase IH];
    intros ev j Hev Hpos.
  - by apply elem_of_nil in Hev.
  - apply elem_of_cons in Hev as [->|Hev]; [done|].
    pose proof (intake_events _ _ _ _ _ _ Hin) as [Hevs _].
    rewrite Forall_forall in Hevs. destruct (Hevs _ Hev) as [_ Hpos'].
    assert (j = i) as -> by congruence.
    pose proof (intake_calls _ _ _ _ _ _ Hin) as Hcalls.
    rewrite Forall_forall in Hcalls. by apply Hcalls.
  - apply elem_of_cons in Hev as [->|Hev]; [done|].
    apply elem_of_app in Hev as [Hev|Hev].
    + pose proof (intake_events _ _ _ _ _ _ Hin) as [Hevs _].
      rewrite Forall_forall in Hevs. destruct (Hevs _ Hev) as [_ Hpos'].
      assert (j = i) as -> by congruence.
      pose proof (intake_calls _ _ _ _ _ _ Hin) as Hcalls.
      rewrite Forall_forall in Hcalls. by apply Hcalls.
    + pose proof (intake_phase_events _ _ _ _ _ _ _ _ Hphase) as Hnew.
      rewrite Forall_forall in Hnew. destruct (Hnew _ Hev) as (_ & k & Hk & Hrange).
      assert (k = j) as -> by congruence.
      specialize (IH _ _ Hev Hpos).
      by rewrite handle_update_handle_ne in IH by lia.
Qed.

(** A call whose answer ends the round is the last call of the phase, and
    its code is what the phase returns; a phase that is not aborted has no
    such call. *)
Lemma intake_phase_aborts ws n i rc ex fl ex1 new :
  intake_phase ws n i rc ex fl ex1 new ->
  wf ex -> n <= index ex ->
  match fl with
  | Next _ => Forall (fun ev => abort_code ev = None) new
  | Return rc' =>
    fatal_for_intake rc' = true /\
    exists pre ev, new = pre ++ [ev] /\ abort_code ev = Some rc' /\
      Forall (fun ev' => abort_code ev' = None) pre
  end.
Proof.
  induction 1 as [|i rc ex rc1 b evs Hi Hin Hf
                  |i rc ex rc1 b evs fl ex2 new Hi Hin Hf Hphase IH];
    intros Hwf Hn.
  - constructor.
  - split; [done|].
    pose proof (intake_abort_code _ _ _ _ _ _ Hin) as Hcode.
    rewrite Hf in Hcode. destruct Hcode as (ev & -> & Hev).
    { apply (wf_kind _ Hwf). lia. }
    exists [EvReadInput i], ev. split_and!; [done..|]. by repeat constructor.
  - pose proof (intake_abort_code _ _ _ _ _ _ Hin) as Hcode.
    rewrite Hf in Hcode.
    assert (Forall (fun ev => abort_code ev = None) evs) as Hevs.
    { apply Hcode, (wf_kind _ Hwf). lia. }
    assert (wf (update_handle ex i (with_data_available b))) as Hwf'
      by by apply wf_update_handle.
    specialize (IH Hwf' Hn).
    destruct fl as [rc'|rc'].
    + destruct IH as (Hfatal & pre & ev & -> & Hev & Hpre). split; [done|].
      exists (EvReadInput i :: evs ++ pre), ev.
      split_and!; [simpl; by rewrite app_assoc|done|].
      constructor; [done|]. by apply Forall_app.
    + constructor; [done|]. by apply Forall_app.
Qed.

(** *** What the execution of one handle logs *)

Lemma execution_events i h rc evs :
  execution i h rc evs ->
  Forall (fun ev => is_execution_event ev = true /\ event_position ev = Some i /\
                    execution_call_of h ev) evs /\
  execute_positions evs = [].
Proof. destruct 1; split; try done; by repeat constructor. Qed.

Lemma execution_invoked i h rc evs :
  execution i h rc evs -> h_type h <> NONE ->
  invoked i evs <-> invoke_callback h = true.
Proof.
  unfold invoked.
  destruct 1 as [Hinv|Hinv Ht|rc Hinv Ht|Hinv Ht]; intros Hkind; [|..|done].
  - rewrite Hinv. split; [|done].
    intros [(? & ? & Hin)|(? & ? & Hin)]; by apply elem_of_nil in Hin.
  - split; [done|]. intros _. left. eexists _, _. by apply list_elem_of_singleton.
  - split; [done|]. intros _. right. eexists _, _. by apply list_elem_of_singleton.
Qed.

Lemma invoked_same_calls j l l' :
  (forall cb m, EvCallback j cb m ∈ l <-> EvCallback j cb m ∈ l') ->
  (forall t rc, EvTimerCall j t rc ∈ l <-> EvTimerCall j t rc ∈ l') ->
  invoked j l <-> invoked j l'.
Proof.
  intros Hcb Htimer. unfold invoked.
  by setoid_rewrite Hcb; setoid_rewrite Htimer.
Qed.

(** *** Properties of the execution phase *)

Lemma execution_phase_events ex n i rc fl new :
  execution_phase ex n i rc fl new ->
  Forall (fun ev => is_execution_event ev = true /\
            exists j, event_position ev = Some j /\ i <= j < n /\
              execution_call_of (handle ex j) ev) new.
Proof.
  induction 1 as [|i rc rc1 evs Hi Hex Hrc|i rc evs fl new Hi Hex _ IH].
  - constructor.
  - constructor; [split; [done|exists i; split_and!; [done|lia..|done]]|].
    eapply Forall_impl; [apply (execution_events _ _ _ _ Hex)|].
    intros ev (? & ? & ?). split; [done|]. exists i. split_and!; [done|lia..|done].
  - constructor; [split; [done|exists i; split_and!; [done|lia..|done]]|].
    apply Forall_app. split.
    + eapply Forall_impl; [apply (execution_events _ _ _ _ Hex)|].
      intros ev (? & ? & ?). split; [done|]. exists i. split_and!; [done|lia..|done].
    + eapply Forall_impl; [apply IH|].
      intros ev [? (j & ? & ? & ?)]. split; [done|]. exists j. split_and!; [done|lia..|done].
Qed.

(** The positions executed are an initial segment of the table, in order,
    and all of it when the phase is not aborted. *)
Lemma execution_phase_positions ex n i rc fl new :
  execution_phase ex n i rc fl new ->
  i <= n ->
  execute_positions new `prefix_of` seq i (n - i) /\
  (forall rc', fl = Next rc' -> execute_positions new = seq i (n - i)).
Proof.
  induction 1 as [|i rc rc1 evs Hi Hex Hrc|i rc evs fl new Hi Hex _ IH]; intros Hle.
  - rewrite Nat.sub_diag. done.
  - replace (n - i) with (S (n - S i)) by lia. simpl.
    rewrite (proj2 (execution_events _ _ _ _ Hex)). split; [|done].
    apply prefix_cons, prefix_nil.
  - replace (n - i) with (S (n - S i)) by lia. simpl.
    rewrite execute_positions_app, (proj2 (execution_events _ _ _ _ Hex)). simpl.
    destruct IH as [Hpre Hall]; [lia|]. split.
    + by apply prefix_cons.
    + intros rc' ->. f_equal. by eapply Hall.
Qed.

(** The phase ends with [RCL_RET_OK] when it passes every handle, and with
    the code of the failed call when it is aborted. *)
Lemma execution_phase_result ex n i rc fl new :
  execution_phase ex n i rc fl new ->
  match fl with
  | Next rc' => (i = n /\ rc' = rc) \/ (i < n /\ rc' = RCL_RET_OK)
  | Return rc' => rc' <> RCL_RET_OK
  end.
Proof.
  induction 1 as [|i rc rc1 evs Hi Hex Hrc|i rc evs fl new Hi Hex _ IH].
  - by left.
  - done.
  - destruct fl as [rc'|rc']; [done|]. right. split; [done|].
    by destruct IH as [[_ ->]|[_ ->]].
Qed.

Lemma execute_position_elem j l : j ∈ execute_positions l <-> EvExecute j ∈ l.
Proof.
  unfold execute_positions. rewrite list_elem_of_omap. split.
  - intros (ev & Hin & Hev). by destruct ev; simplify_eq.
  - intros Hin. by exists (EvExecute j).
Qed.

(** A handle the phase reaches is invoked exactly when [invoke_callback]
    says so. *)
Lemma execution_phase_invoked ex n i rc fl new :
  execution_phase ex n i rc fl new ->
  forall j, j ∈ execute_positions new -> h_type (handle ex j) <> NONE ->
    invoked j new <-> invoke_callback (handle ex j) = true.
Proof.
  induction 1 as [|i rc rc1 evs Hi Hex Hrc|i rc evs fl new Hi Hex Hphase IH];
    intros j Hj Hkind.
  - by apply elem_of_nil in Hj.
  - simpl in Hj. rewrite (proj2 (execution_events _ _ _ _ Hex)) in Hj.
    apply list_elem_of_singleton in Hj as ->.
    rewrite <- (execution_invoked _ _ _ _ Hex Hkind).
    apply invoked_same_calls; intros; rewrite elem_of_cons;
      (split; [by intros [?|?]|tauto]).
  - pose proof (execution_events _ _ _ _ Hex) as [Hevs Hnone].
    pose proof (execution_phase_events _ _ _ _ _ _ Hphase) as Hnew.
    simpl in Hj. rewrite execute_positions_app, Hnone in Hj. simpl in Hj.
    apply elem_of_cons in Hj as [->|Hj].
    + rewrite <- (execution_invoked _ _ _ _ Hex Hkind).
      apply invoked_same_calls; intros;
        rewrite elem_of_cons, elem_of_app;
        (split; [intros [?|[?|Hin']]; [done..|]|tauto]);
        exfalso; revert Hin';
        (eapply not_elem_of_other_position; [|done]);
        (eapply Forall_impl; [apply Hnew|]);
        intros ev [? (k & ? & ? & ?)]; exists k; (split; [done|lia]).
    + rewrite <- (IH j Hj Hkind).
      apply execute_position_elem in Hj.
      rewrite Forall_forall in Hnew.
      destruct (Hnew _ Hj) as (_ & k & [= <-] & Hrange & _).
      apply invoked_same_calls; intros;
        rewrite elem_of_cons, elem_of_app;
        (split; [intros [?|[Hin'|?]]; [done| |done]|tauto]);
        exfalso; revert Hin';
        (eapply not_elem_of_other_position; [|done]);
        (eapply Forall_impl; [apply Hevs|]);
        intros ev (? & ? & ?); exists i; (split; [done|lia]).
Qed.

(** *** Registration *)

Lemma set_wait_set_same ex : set_wait_set ex (wait_set ex) = ex.
Proof. by destruct ex. Qed.

(** Invalidation changes the wait set only, and leaves it absent. *)
Lemma invalidate_wait_set_spec ex e ex' e' :
  invalidate_wait_set ex e = (ex', e') ->
  ex' = set_wait_set ex (wait_set ex') /\
  rcl_wait_set_is_valid (wait_set ex') = false /\
  exists evs, log e' = log e ++ evs.
Proof.
  unfold invalidate_wait_set, call_wait_set_fini.
  destruct (rcl_wait_set_is_valid (wait_set ex)) eqn:Hvalid.
  - pose proof (rcl_wait_set_fini_invalid (wait_set ex) (world e)) as Hfini.
    destruct (rcl_wait_set_fini _ _) as [[rc ws'] w].
    intros [= <- <-]. simpl in *. split_and!; [done..|]. by eexists.
  - intros [= <- <-]. rewrite set_wait_set_same. split_and!; [done..|].
    exists []. by rewrite app_nil_r.
Qed.

(** A full table: nothing is stored, nothing is called. *)
Lemma add_subscription_full ex s m cb inv e :
  max_handles ex <= index ex ->
  rcle_let_executor_add_subscription ex (Some s) (Some m) (Some cb) inv e =
    (RCL_RET_ERROR, ex, e).
Proof.
  intros Hfull. unfold rcle_let_executor_add_subscription.
  by rewrite (proj2 (Nat.leb_le _ _) Hfull).
Qed.

Lemma add_timer_full ex t e :
  max_handles ex <= index ex ->
  rcle_let_executor_add_timer ex (Some t) e = (RCL_RET_ERROR, ex, e).
Proof.
  intros Hfull. unfold rcle_let_executor_add_timer.
  by rewrite (proj2 (Nat.leb_le _ _) Hfull).
Qed.

Lemma add_subscription_room ex s m cb inv e :
  index ex < max_handles ex ->
  length (handles_of ex) = max_handles ex ->
  exists ex' e',
    rcle_let_executor_add_subscription ex (Some s) (Some m) (Some cb) inv e =
      (RCL_RET_OK, ex', e') /\
    appended (as_subscription s m cb inv) incr_subscriptions ex ex'.
Proof.
  intros Hroom Hlen. unfold rcle_let_executor_add_subscription.
  rewrite (proj2 (Nat.leb_gt _ _) Hroom).
  destruct (invalidate_wait_set _ _) as [ex3 e3] eqn:Hinv.
  apply invalidate_wait_set_spec in Hinv as (Hex3 & Hvalid & _).
  eexists _, _. split; [done|]. rewrite Hex3. unfold appended.
  split_and!; try reflexivity; try done.
  - exact (handles_of_update_handle ex (index ex) _).
  - apply (handle_update_handle_eq ex (index ex) (as_subscription s m cb inv)). lia.
  - intros j Hj. by apply (handle_update_handle_ne ex (index ex) (as_subscription s m cb inv)).
Qed.

Lemma add_timer_room ex t e :
  index ex < max_handles ex ->
  length (handles_of ex) = max_handles ex ->
  exists ex' e',
    rcle_let_executor_add_timer ex (Some t) e = (RCL_RET_OK, ex', e') /\
    appended (as_timer t) incr_timers ex ex'.
Proof.
  intros Hroom Hlen. unfold rcle_let_executor_add_timer.
  rewrite (proj2 (Nat.leb_gt _ _) Hroom).
  destruct (invalidate_wait_set _ _) as [ex3 e3] eqn:Hinv.
  apply invalidate_wait_set_spec in Hinv as (Hex3 & Hvalid & _).
  eexists _, _. split; [done|]. rewrite Hex3. unfold appended.
  split_and!; try reflexivity; try done.
  - exact (handles_of_update_handle ex (index ex) _).
  - apply (handle_update_handle_eq ex (index ex) (as_timer t)). lia.
  - intros j Hj. by apply (handle_update_handle_ne ex (index ex) (as_timer t)).
Qed.

(** A successful registration is one with all arguments and room. *)
Lemma add_subscription_ok ex s m cb inv e ex' e' :
  length (handles_of ex) = max_handles ex ->
  rcle_let_executor_add_subscription ex s m cb inv e = (RCL_RET_OK, ex', e') ->
  exists s' m' cb', s = Some s' /\ m = Some m' /\ cb = Some cb' /\
    index ex < max_handles ex /\
    appended (as_subscription s' m' cb' inv) incr_subscriptions ex ex'.
Proof.
  intros Hlen Hadd. destruct s as [s'|], m as [m'|], cb as [cb'|]; try done.
  destruct (decide (index ex < max_handles ex)) as [Hroom|Hfull].
  - destruct (add_subscription_room ex s' m' cb' inv e Hroom Hlen)
      as (ex2 & e2 & Heq & Happ).
    rewrite Heq in Hadd. injection Hadd as <- <-. by eexists _, _, _.
  - rewrite add_subscription_full in Hadd by lia. done.
Qed.

Lemma add_timer_ok ex t e ex' e' :
  length (handles_of ex) = max_handles ex ->
  rcle_let_executor_add_timer ex t e = (RCL_RET_OK, ex', e') ->
  exists t', t = Some t' /\ index ex < max_handles ex /\
    appended (as_timer t') incr_timers ex ex'.
Proof.
  intros Hlen Hadd. destruct t as [t'|]; try done.
  destruct (decide (index ex < max_handles ex)) as [Hroom|Hfull].
  - destruct (add_timer_room ex t' e Hroom Hlen) as (ex2 & e2 & Heq & Happ).
    rewrite Heq in Hadd. injection Hadd as <- <-. by eexists.
  - rewrite add_timer_full in Hadd by lia. done.
Qed.

(** Appending a subscription or a timer keeps the table well formed. *)
Lemma wf_appended f g ex ex' :
  wf ex -> index ex < max_handles ex ->
  appended f g ex ex' ->
  (forall h, h_initialized (f h) = true) ->
  (forall h, h_type (f h) <> NONE) ->
  (forall h, h_type (f h) = TIMER -> h_invocation (f h) = ON_NEW_DATA) ->
  number_of_subscriptions (g (info ex)) + number_of_timers (g (info ex)) =
    S (number_of_subscriptions (info ex) + number_of_timers (info ex)) ->
  wf ex'.
Proof.
  intros Hwf Hroom (Hidx & Hmax & Hhs & Hnew & Hold & Hinfo & _) Hinit Hkind Hpol Hcount.
  split.
  - rewrite Hhs, length_alter, Hmax. apply Hwf.
  - lia.
  - intros i Hi. destruct (decide (i = index ex)) as [->|Hne].
    + by rewrite Hnew.
    + rewrite Hold by done. apply Hwf. lia.
  - intros i Hi. rewrite Hold by lia. apply Hwf. lia.
  - intros i Hi. destruct (decide (i = index ex)) as [->|Hne].
    + by rewrite Hnew.
    + rewrite Hold by done. apply Hwf. lia.
  - intros i. destruct (decide (i = index ex)) as [->|Hne].
    + rewrite Hnew. apply Hpol.
    + rewrite Hold by done. apply Hwf.
  - rewrite Hinfo, Hcount, Hidx. f_equal. apply Hwf.
Qed.

(** The handles in table order after a registration: the old ones, then
    the new one. *)
Lemma registered_appended f g ex ex' :
  index ex < length (handles_of ex) ->
  appended f g ex ex' ->
  registered ex' = registered ex ++ [f (handle ex (index ex))].
Proof.
  intros Hroom (Hidx & _ & Hhs & _). unfold registered.
  rewrite Hidx, Hhs.
  rewrite (take_S_r _ _ (f (handle ex (index ex)))).
  - by rewrite take_alter_ge.
  - rewrite list_lookup_alter_eq. unfold handle.
    by rewrite (list_lookup_lookup_total_lt (handles_of ex)).
Qed.

(** *** Deciding well-formedness *)

Lemma wf_check_sound ex : wf_check ex = true -> wf ex.
Proof.
  unfold wf_check. rewrite !andb_true_iff, forallb_forall.
  intros [[[Hlen Hidx] Hall] Hcount].
  apply Nat.eqb_eq in Hlen. apply Nat.leb_le in Hidx. apply Nat.eqb_eq in Hcount.
  assert (forall i, i < max_handles ex ->
    (if i <? index ex
     then h_initialized (handle ex i) && negb (bool_decide (h_type (handle ex i) = NONE))
     else negb (h_initialized (handle ex i))) = true /\
    (if bool_decide (h_type (handle ex i) = TIMER)
     then bool_decide (h_invocation (handle ex i) = ON_NEW_DATA) else true) = true)
    as Hin.
  { intros i Hi. apply andb_true_iff, Hall, in_seq. lia. }
  split; try done.
  - intros i Hi. destruct (Hin i) as [H1 _]; [lia|].
    rewrite (proj2 (Nat.ltb_lt _ _) Hi) in H1. by apply andb_true_iff in H1 as [-> _].
  - intros i Hi. destruct (decide (i < max_handles ex)) as [Hlt|Hge].
    + destruct (Hin i Hlt) as [H1 _].
      rewrite (proj2 (Nat.ltb_ge _ _) Hi) in H1. by apply negb_true_iff in H1.
    + by rewrite handle_out_of_range by lia.
  - intros i Hi. destruct (Hin i) as [H1 _]; [lia|].
    rewrite (proj2 (Nat.ltb_lt _ _) Hi) in H1. apply andb_true_iff in H1 as [_ H1].
    apply negb_true_iff in H1. by apply bool_decide_eq_false in H1.
  - intros i Ht. destruct (decide (i < max_handles ex)) as [Hlt|Hge].
    + destruct (Hin i Hlt) as [_ H2].
      rewrite (bool_decide_eq_true_2 _ Ht) in H2. by apply bool_decide_eq_true in H2.
    + by rewrite handle_out_of_range in Ht by lia.
Qed.

(** A function and its three components. *)
Lemma triple_eta {A B C} (r : A * B * C) : r = (r.1.1, r.1.2, r.2).
Proof. by destruct r as [[? ?] ?]. Qed.

(** ** C4: the bound of the table *)

(** C4.  When the table is full ([index == max_handles]) both registration
    functions return the error of the bound check, [RCL_RET_ERROR], and
    neither the executor (handles, index, counts, wait set) nor the world
    changes.  When there is room and every argument is given, the handle is
    stored at position [index] and marked initialized, the other positions
    are kept, the count of its type and [index] grow by one. *)
Theorem add_handle_capacity ex e :
  (forall s m cb inv,
     index ex = max_handles ex ->
     rcle_let_executor_add_subscription ex (Some s) (Some m) (Some cb) inv e =
       (RCL_RET_ERROR, ex, e)) /\
  (forall t,
     index ex = max_handles ex ->
     rcle_let_executor_add_timer ex (Some t) e = (RCL_RET_ERROR, ex, e)) /\
  (forall s m cb inv,
     index ex < max_handles ex -> length (handles_of ex) = max_handles ex ->
     exists ex' e',
       rcle_let_executor_add_subscription ex (Some s) (Some m) (Some cb) inv e =
         (RCL_RET_OK, ex', e') /\
       handle ex' (index ex) = as_subscription s m cb inv (handle ex (index ex)) /\
       h_initialized (handle ex' (index ex)) = true /\
       (forall j, j <> index ex -> handle ex' j = handle ex j) /\
       number_of_subscriptions (info ex') = S (number_of_subscriptions (info ex)) /\
       number_of_timers (info ex') = number_of_timers (info ex) /\
       index ex' = S (index ex) /\ max_handles ex' = max_handles ex) /\
  (forall t,
     index ex < max_handles ex -> length (handles_of ex) = max_handles ex ->
     exists ex' e',
       rcle_let_executor_add_timer ex (Some t) e = (RCL_RET_OK, ex', e') /\
       handle ex' (index ex) = as_timer t (handle ex (index ex)) /\
       h_initialized (handle ex' (index ex)) = true /\
       (forall j, j <> index ex -> handle ex' j = handle ex j) /\
       number_of_timers (info ex') = S (number_of_timers (info ex)) /\
       number_of_subscriptions (info ex') = number_of_subscriptions (info ex) /\
       index ex' = S (index ex) /\ max_handles ex' = max_handles ex).
Proof.
  split_and!.
  - intros s m cb inv Hfull. apply add_subscription_full. lia.
  - intros t Hfull. apply add_timer_full. lia.
  - intros s m cb inv Hroom Hlen.
    destruct (add_subscription_room ex s m cb inv e Hroom Hlen)
      as (ex' & e' & Heq & Hidx & Hmax & _ & Hnew & Hold & Hinfo & _).
    exists ex', e'. rewrite Hnew, Hinfo. by split_and!.
  - intros t Hroom Hlen.
    destruct (add_timer_room ex t e Hroom Hlen)
      as (ex' & e' & Heq & Hidx & Hmax & _ & Hnew & Hold & Hinfo & _).
    exists ex', e'. rewrite Hnew, Hinfo. by split_and!.
Qed.

(** ** The round as a whole *)

Lemma intake_events_execute_positions (P : event -> Prop) l :
  Forall (fun ev => is_intake_event ev = true /\ P ev) l ->
  execute_positions l = [].
Proof.
  induction 1 as [|ev l [Hev _] _ IH]; [done|].
  change (ev :: l) with ([ev] ++ l).
  rewrite execute_positions_app, IH. by destruct ev.
Qed.

Lemma execution_events_read_positions (P : event -> Prop) l :
  Forall (fun ev => is_execution_event ev = true /\ P ev) l ->
  read_positions l = [].
Proof.
  induction 1 as [|ev l [Hev _] _ IH]; [done|].
  change (ev :: l) with ([ev] ++ l).
  rewrite read_positions_app, IH. by destruct ev.
Qed.

Lemma elem_of_kind (P : event -> Prop) (kind : event -> bool) l ev :
  Forall (fun ev' => kind ev' = true /\ P ev') l -> ev ∈ l -> kind ev = true.
Proof. rewrite Forall_forall. intros Hall Hin. by apply Hall. Qed.

Lemma intake_phase_return_fatal ws n i rc ex rc' ex1 new :
  intake_phase ws n i rc ex (Return rc') ex1 new -> fatal_for_intake rc' = true.
Proof.
  intros Hphase. remember (Return rc') as fl eqn:Hfl.
  induction Hphase; simplify_eq; auto.
Qed.

Lemma fmap_handle_seq ex n :
  n <= length (handles_of ex) -> handle ex <$> seq 0 n = take n (handles_of ex).
Proof.
  intros Hn. apply list_eq. intros i. rewrite list_lookup_fmap.
  destruct (decide (i < n)) as [Hi|Hi].
  - rewrite lookup_seq_lt, lookup_take_lt by done. simpl. unfold handle.
    by rewrite (list_lookup_lookup_total_lt (handles_of ex)) by lia.
  - by rewrite lookup_seq_ge, lookup_take_ge by lia.
Qed.

(** An aborted execution phase was aborted by a timer call that failed. *)
Lemma execution_phase_failed_call ex n i rc rc' new :
  execution_phase ex n i rc (Return rc') new ->
  (forall j, j < n -> h_type (handle ex j) <> NONE) ->
  exists j t, EvTimerCall j t rc' ∈ new /\ rc' <> RCL_RET_OK.
Proof.
  intros Hphase Hkind. remember (Return rc') as fl eqn:Hfl.
  induction Hphase as [|i rc rc1 evs Hi Hex Hrc|i rc evs fl new Hi Hex _ IH];
    simplify_eq.
  - destruct Hex as [Hinv|Hinv Ht|rc1 Hinv Ht|Hinv Ht]; try done.
    + exists i, (h_timer (handle ex i)). split; [|done]. right. by left.
    + by apply Hkind in Hi.
  - destruct IH as (j & t & Hin & Hne); [done|].
    exists j, t. split; [|done]. right. apply elem_of_app. by right.
Qed.

(** A round in which no call fails is not aborted. *)
Lemma round_completes ws ex rc ex1 new :
  wf ex -> round ws ex rc ex1 new -> no_call_failed new -> rc = RCL_RET_OK.
Proof.
  intros Hwf Hround [Hintake Hcalls].
  destruct Hround as [rc ex1 new1 Hin|rc1 ex1 new1 fl new2 Hin Hex].
  - destruct (intake_phase_aborts _ _ _ _ _ _ _ _ Hin Hwf (le_n _))
      as (_ & pre & ev & -> & Hev & _).
    rewrite Hintake in Hev; [done|]. apply elem_of_app. right. by left.
  - pose proof (intake_phase_frame _ _ _ _ _ _ _ _ Hin)
      as (_ & Hidx & _ & _ & _ & _ & _ & _ & Hwf1).
    specialize (Hwf1 Hwf).
    pose proof (execution_phase_result _ _ _ _ _ _ Hex) as Hres.
    destruct fl as [rc'|rc'].
    + destruct (execution_phase_failed_call _ _ _ _ _ _ Hex)
        as (j & t & Hcall & Hne).
      { intros j Hj. apply (wf_kind _ Hwf1). lia. }
      exfalso. apply Hne, (Hcalls j t). apply elem_of_app. by right.
    + simpl. destruct Hres as [[Hempty ->]|[_ ->]]; [|done].
      rewrite <- Hempty in Hin. by inversion Hin; subst; [|lia..].
Qed.

Lemma round_in_table_order ws ex rc ex1 new :
  wf ex -> round ws ex rc ex1 new -> in_table_order ex rc ex1 new.
Proof.
  intros Hwf Hround. unfold in_table_order.
  pose proof (round_completes _ _ _ _ _ Hwf Hround) as Hcompletes.
  destruct Hround as [rc ex1 new1 Hin|rc1 ex1 new1 fl new2 Hin Hex].
  - pose proof (intake_phase_positions _ _ _ _ _ _ _ _ Hin (Nat.le_0_l _)) as [Hpre _].
    pose proof (intake_phase_events _ _ _ _ _ _ _ _ Hin) as Hev.
    apply intake_events_execute_positions in Hev.
    apply intake_phase_return_fatal in Hin.
    rewrite Nat.sub_0_r in Hpre. rewrite Hev.
    split_and!; [done|apply prefix_nil|done|done|].
    intros ->. done.
  - pose proof (intake_phase_positions _ _ _ _ _ _ _ _ Hin (Nat.le_0_l _)) as [_ Hall].
    pose proof (intake_phase_events _ _ _ _ _ _ _ _ Hin) as Hev1.
    apply intake_events_execute_positions in Hev1.
    pose proof (execution_phase_positions _ _ _ _ _ _ Hex (Nat.le_0_l _)) as [Hpre2 Hall2].
    pose proof (execution_phase_events _ _ _ _ _ _ Hex) as Hev2.
    apply execution_events_read_positions in Hev2.
    pose proof (intake_phase_frame _ _ _ _ _ _ _ _ Hin)
      as (_ & Hidx & _ & _ & _ & _ & _ & _ & Hwf1).
    specialize (Hwf1 Hwf).
    rewrite Nat.sub_0_r in *.
    rewrite read_positions_app, execute_positions_app, Hev1, Hev2, app_nil_r.
    rewrite (Hall rc1 eq_refl). simpl.
    split_and!; [done..|].
    intros Hrc. pose proof (execution_phase_result _ _ _ _ _ _ Hex) as Hres.
    destruct fl as [rc'|rc']; [done|].
    rewrite (Hall2 rc' eq_refl). split_and!; [done..|].
    unfold registered. rewrite Hidx. apply fmap_handle_seq.
    rewrite (wf_length _ Hwf1), <- Hidx. apply Hwf1.
Qed.

Lemma registrations_append ex : wf ex -> appends_in_order ex.
Proof.
  intros Hwf. split.
  - intros s m cb inv e ex' e' Hadd.
    apply add_subscription_ok in Hadd
      as (s' & m' & cb' & -> & -> & -> & Hroom & Happ); [|apply Hwf].
    eexists.
    split; [eapply registered_appended; [|done]; rewrite (wf_length _ Hwf); lia|done].
  - intros t e ex' e' Hadd.
    apply add_timer_ok in Hadd as (t' & -> & Hroom & Happ); [|apply Hwf].
    eexists.
    split; [eapply registered_appended; [|done]; rewrite (wf_length _ Hwf); lia|done].
Qed.

(** ** C1: table order is execution order *)

(** C1.  In a round of a well-formed executor the intake phase and the
    execution phase pass the initialized prefix of the table in index
    order, whatever the wait set reports as ready: the positions of either
    phase are an initial segment of 0 .. index-1, the execution phase only
    starts after the intake phase has read all of them, and a round that
    returns [RCL_RET_OK] has considered exactly the handles [registered],
    in that order.  A round in which no call fails returns [RCL_RET_OK],
    so readiness alone never shortens the pass.  That order is the order
    of registration. *)
Theorem let_scheduling_in_registration_order ex ws e rc ex1 e1 :
  wf ex ->
  _rcle_let_scheduling ex ws e = (rc, ex1, e1) ->
  (exists new, log e1 = log e ++ new /\ in_table_order ex rc ex1 new) /\
  appends_in_order ex.
Proof.
  intros Hwf Hround. split; [|by apply registrations_append].
  apply (let_scheduling_sound _ _ _ _ _ _ Hwf) in Hround as (new & Hlog & Hround).
  exists new. split; [done|]. by apply (round_in_table_order ws).
Qed.

(** ** The invocation policy *)

Lemma invoke_callback_spec h :
  invoke_callback h = true <->
  h_invocation h = ALWAYS \/
  (h_invocation h = ON_NEW_DATA /\ h_data_available h = true).
Proof.
  unfold invoke_callback.
  destruct (h_invocation h), (h_data_available h); simpl;
    (split; [intros Hb; try done; (by left) || (by right)
            |intros [?|[? ?]]; congruence]).
Qed.

(** The intake phase leaves everything but [data_available] as it was. *)
Lemma intake_phase_same_handle ws n i rc ex fl ex1 new j :
  intake_phase ws n i rc ex fl ex1 new ->
  h_type (handle ex1 j) = h_type (handle ex j) /\
  h_invocation (handle ex1 j) = h_invocation (handle ex j) /\
  h_index (handle ex1 j) = h_index (handle ex j) /\
  h_subscription (handle ex1 j) = h_subscription (handle ex j) /\
  h_timer (handle ex1 j) = h_timer (handle ex j) /\
  h_data (handle ex1 j) = h_data (handle ex j) /\
  h_callback (handle ex1 j) = h_callback (handle ex j) /\
  h_initialized (handle ex1 j) = h_initialized (handle ex j).
Proof.
  intros Hphase.
  pose proof (intake_phase_handles _ _ _ _ _ _ _ _ Hphase) as (_ & Hsame & _).
  specialize (Hsame j).
  split_and!;
    [apply (f_equal h_type) in Hsame | apply (f_equal h_invocation) in Hsame
    |apply (f_equal h_index) in Hsame | apply (f_equal h_subscription) in Hsame
    |apply (f_equal h_timer) in Hsame | apply (f_equal h_data) in Hsame
    |apply (f_equal h_callback) in Hsame | apply (f_equal h_initialized) in Hsame];
    exact Hsame.
Qed.

Lemma round_policy ws ex rc ex1 new :
  wf ex -> round ws ex rc ex1 new -> policy_respected ws ex ex1 new.
Proof.
  intros Hwf Hround i Hi.
  destruct Hround as [rc ex1 new1 Hin|rc1 ex1 new1 fl new2 Hin Hex].
  { pose proof (intake_phase_events _ _ _ _ _ _ _ _ Hin) as Hev.
    apply intake_events_execute_positions in Hev. rewrite Hev in Hi.
    by apply elem_of_nil in Hi. }
  pose proof (intake_phase_positions _ _ _ _ _ _ _ _ Hin (Nat.le_0_l _)) as [_ Hall].
  pose proof (intake_phase_events _ _ _ _ _ _ _ _ Hin) as Hev1.
  pose proof (execution_phase_events _ _ _ _ _ _ Hex) as Hev2.
  pose proof (intake_phase_frame _ _ _ _ _ _ _ _ Hin)
    as (_ & Hidx & _ & _ & _ & _ & _ & _ & Hwf1).
  specialize (Hwf1 Hwf).
  pose proof (intake_phase_same_handle _ _ _ _ _ _ _ _ i Hin) as (Htype & Hinv & _).
  rewrite execute_positions_app,
    (intake_events_execute_positions _ _ Hev1) in Hi. simpl in Hi.
  assert (i < index ex) as Hlt.
  { apply execute_position_elem in Hi. rewrite Forall_forall in Hev2.
    destruct (Hev2 _ Hi) as (_ & k & [= <-] & ? & _). lia. }
  assert (EvReadInput i ∈ new1) as Hread.
  { apply read_position_elem. rewrite (Hall rc1 eq_refl), Nat.sub_0_r.
    apply elem_of_seq. lia. }
  assert (h_data_available (handle ex1 i) = true <->
          intake_success ws i (handle ex i) (new1 ++ new2)) as Hflag.
  { rewrite (intake_phase_flags _ _ _ _ _ _ _ _ Hin) by
      (rewrite ?(wf_length _ Hwf); done || apply Hwf).
    apply intake_success_same_calls; intros; rewrite elem_of_app;
      (split; [tauto|intros [?|Hin']; [done|]]);
      by apply (elem_of_kind _ is_execution_event _ _ Hev2) in Hin'. }
  split; [done|].
  rewrite <- Hinv, <- invoke_callback_spec.
  rewrite <- (execution_phase_invoked _ _ _ _ _ _ Hex i Hi)
    by (apply (wf_kind _ Hwf1); lia).
  apply invoked_same_calls; intros; rewrite elem_of_app;
    (split; [intros [Hin'|?]; [|done]|tauto]);
    by apply (elem_of_kind _ is_intake_event _ _ Hev1) in Hin'.
Qed.

(** ** The intake of subscriptions and timers *)

Lemma intake_call_flag ws i h rc b evs :
  intake ws i h rc b evs ->
  forall ev b', ev ∈ evs -> call_flag ev = Some b' -> b' = b.
Proof.
  destruct 1 as [Ht Hr|Ht Hr|rc Ht Hr Hrc|Ht Hr|Ht Hr|Ht Hr|rc ready Ht Hr Hrc|Ht];
    intros ev b' Hev Hflag;
    try (by apply elem_of_nil in Hev);
    apply list_elem_of_singleton in Hev as ->; simpl in Hflag;
    try apply ret_is_false in Hrc; rewrite ?Hrc in Hflag; by simplify_eq.
Qed.

Lemma intake_attempt ws i h rc b evs :
  intake ws i h rc b evs ->
  (h_type h = SUBSCRIPTION -> slot_ready (subscriptions ws) (h_index h) = true ->
   exists r, EvTake i (h_subscription h) (h_data h) r ∈ evs) /\
  (h_type h = TIMER -> slot_ready (timers ws) (h_index h) = true ->
   exists r ready, EvTimerIsReady i (h_timer h) r ready ∈ evs).
Proof.
  destruct 1; split; intros; try congruence;
    eexists; try eexists; by apply list_elem_of_singleton.
Qed.

(** Whatever is logged for a position is logged after its [EvReadInput]. *)
Lemma intake_phase_read_before ws n i rc ex fl ex1 new :
  intake_phase ws n i rc ex fl ex1 new ->
  forall ev j, ev ∈ new -> event_position ev = Some j -> EvReadInput j ∈ new.
Proof.
  induction 1 as [|i rc ex rc1 b evs Hi Hin Hf
                  |i rc ex rc1 b evs fl ex2 new Hi Hin Hf Hphase IH];
    intros ev j Hev Hpos.
  - by apply elem_of_nil in Hev.
  - pose proof (intake_events _ _ _ _ _ _ Hin) as [Hevs _].
    rewrite Forall_forall in Hevs.
    apply elem_of_cons in Hev as [->|Hev]; simplify_eq/=; [by left|].
    destruct (Hevs _ Hev) as [_ ?]. simplify_eq. by left.
  - pose proof (intake_events _ _ _ _ _ _ Hin) as [Hevs _].
    rewrite Forall_forall in Hevs.
    apply elem_of_cons in Hev as [->|Hev]; simplify_eq/=; [by left|].
    apply elem_of_app in Hev as [Hev|Hev].
    + destruct (Hevs _ Hev) as [_ ?]. simplify_eq. by left.
    + right. apply elem_of_app. right. by eapply IH.
Qed.

Lemma intake_phase_call_flag ws n i rc ex fl ex1 new :
  intake_phase ws n i rc ex fl ex1 new ->
  n <= length (handles_of ex) ->
  forall ev j b, ev ∈ new -> event_position ev = Some j ->
    call_flag ev = Some b -> h_data_available (handle ex1 j) = b.
Proof.
  induction 1 as [|i rc ex rc1 b evs Hi Hin Hf
                  |i rc ex rc1 b evs fl ex2 new Hi Hin Hf Hphase IH];
    intros Hlen ev j b' Hev Hpos Hflag.
  - by apply elem_of_nil in Hev.
  - pose proof (intake_events _ _ _ _ _ _ Hin) as [Hevs _].
    rewrite Forall_forall in Hevs.
    apply elem_of_cons in Hev as [->|Hev]; [done|].
    destruct (Hevs _ Hev) as [_ ?]. simplify_eq.
    rewrite handle_update_handle_eq by lia. simpl.
    symmetry. by eapply intake_call_flag.
  - pose proof (intake_events _ _ _ _ _ _ Hin) as [Hevs _].
    rewrite Forall_forall in Hevs.
    pose proof (intake_phase_handles _ _ _ _ _ _ _ _ Hphase) as (_ & _ & Hout).
    apply elem_of_cons in Hev as [->|Hev]; [done|].
    apply elem_of_app in Hev as [Hev|Hev].
    + destruct (Hevs _ Hev) as [_ ?]. simplify_eq.
      rewrite Hout, handle_update_handle_eq by lia. simpl.
      symmetry. by eapply intake_call_flag.
    + eapply IH; [|done..].
      by rewrite handles_of_update_handle, length_alter.
Qed.

(** For a handle the phase reads whose slot is ready, the fetch is made, or
    the expiry check is consulted. *)
Lemma intake_phase_attempts ws n i rc ex fl ex1 new :
  intake_phase ws n i rc ex fl ex1 new ->
  forall j, EvReadInput j ∈ new ->
    (h_type (handle ex j) = SUBSCRIPTION ->
     slot_ready (subscriptions ws) (h_index (handle ex j)) = true ->
     exists r,
       EvTake j (h_subscription (handle ex j)) (h_data (handle ex j)) r ∈ new) /\
    (h_type (handle ex j) = TIMER ->
     slot_ready (timers ws) (h_index (handle ex j)) = true ->
     exists r ready, EvTimerIsReady j (h_timer (handle ex j)) r ready ∈ new).
Proof.
  induction 1 as [|i rc ex rc1 b evs Hi Hin Hf
                  |i rc ex rc1 b evs fl ex2 new Hi Hin Hf Hphase IH];
    intros j Hj.
  - by apply elem_of_nil in Hj.
  - pose proof (intake_events _ _ _ _ _ _ Hin) as [_ Hnone].
    apply elem_of_cons in Hj as [[= ->]|Hj];
      [|by apply read_position_elem in Hj; rewrite Hnone in Hj;
           apply elem_of_nil in Hj].
    destruct (intake_attempt _ _ _ _ _ _ Hin) as [Hsub Htimer].
    split; intros Ht Hr.
    + destruct (Hsub Ht Hr) as (r & ?). exists r. by right.
    + destruct (Htimer Ht Hr) as (r & ready & ?). exists r, ready. by right.
  - pose proof (intake_events _ _ _ _ _ _ Hin) as [_ Hnone].
    pose proof (intake_phase_events _ _ _ _ _ _ _ _ Hphase) as Hnew.
    rewrite Forall_forall in Hnew.
    apply elem_of_cons in Hj as [[= ->]|Hj].
    + destruct (intake_attempt _ _ _ _ _ _ Hin) as [Hsub Htimer].
      split; intros Ht Hr.
      * destruct (Hsub Ht Hr) as (r & ?). exists r.
        right. apply elem_of_app. by left.
      * destruct (Htimer Ht Hr) as (r & ready & ?). exists r, ready.
        right. apply elem_of_app. by left.
    + apply elem_of_app in Hj as [Hj|Hj];
        [by apply read_position_elem in Hj; rewrite Hnone in Hj;
            apply elem_of_nil in Hj|].
      destruct (Hnew _ Hj) as (_ & k & [= <-] & ?).
      destruct (IH j Hj) as [Hsub Htimer].
      rewrite handle_update_handle_ne in Hsub, Htimer by lia.
      split; intros Ht Hr.
      * destruct (Hsub Ht Hr) as (r & ?). exists r.
        right. apply elem_of_app. by right.
      * destruct (Htimer Ht Hr) as (r & ready & ?). exists r, ready.
        right. apply elem_of_app. by right.
Qed.

(** A call whose answer ends the round: the phase returns its code, and the
    call is the last one. *)
Lemma intake_phase_abort_event ws n i rc ex fl ex1 new ev r :
  intake_phase ws n i rc ex fl ex1 new ->
  wf ex -> n <= index ex ->
  ev ∈ new -> abort_code ev = Some r ->
  fl = Return r /\ exists pre, new = pre ++ [ev].
Proof.
  intros Hphase Hwf Hn Hev Hcode.
  pose proof (intake_phase_aborts _ _ _ _ _ _ _ _ Hphase Hwf Hn) as Habort.
  destruct fl as [rc'|rc'].
  - destruct Habort as (_ & pre & ev' & -> & Hev' & Hpre).
    rewrite Forall_forall in Hpre.
    apply elem_of_app in Hev as [Hev|Hev].
    + specialize (Hpre _ Hev). congruence.
    + apply list_elem_of_singleton in Hev as ->. split; [congruence|by exists pre].
  - rewrite Forall_forall in Habort. specialize (Habort _ Hev). congruence.
Qed.

Lemma intake_phase_head ws n i rc ex fl ex1 new :
  intake_phase ws n i rc ex fl ex1 new -> i < n -> EvReadInput i ∈ new.
Proof. destruct 1; intros; [lia|by left..]. Qed.

Lemma intake_phase_end ws n rc ex fl ex1 new :
  intake_phase ws n n rc ex fl ex1 new -> fl = Next rc /\ new = [].
Proof.
  intros Hphase. remember n as i eqn:Hi in Hphase at 2.
  destruct Hphase; [done|lia..].
Qed.

(** A call whose answer does not end the round is followed by the intake of
    the next handle, or, at the last handle, by the end of the phase. *)
Lemma intake_phase_continues ws n i rc ex fl ex1 new :
  intake_phase ws n i rc ex fl ex1 new ->
  wf ex -> n <= index ex ->
  forall ev j, ev ∈ new -> event_position ev = Some j ->
    ev <> EvReadInput j -> abort_code ev = None ->
    (S j < n -> EvReadInput (S j) ∈ new) /\
    (S j = n -> exists rc', fl = Next rc').
Proof.
  induction 1 as [|i rc ex rc1 b evs Hi Hin Hf
                  |i rc ex rc1 b evs fl ex2 new Hi Hin Hf Hphase IH];
    intros Hwf Hn ev j Hev Hpos Hne Hcode.
  - by apply elem_of_nil in Hev.
  - pose proof (intake_abort_code _ _ _ _ _ _ Hin) as Hcode'.
    rewrite Hf in Hcode'. destruct Hcode' as (ev' & -> & Hev').
    { apply (wf_kind _ Hwf). lia. }
    apply elem_of_cons in Hev as [->|Hev]; [simplify_eq/=; done|].
    apply list_elem_of_singleton in Hev as ->. congruence.
  - pose proof (intake_events _ _ _ _ _ _ Hin) as [Hevs _].
    rewrite Forall_forall in Hevs.
    assert (wf (update_handle ex i (with_data_available b))) as Hwf'
      by by apply wf_update_handle.
    apply elem_of_cons in Hev as [->|Hev]; [simplify_eq/=; done|].
    apply elem_of_app in Hev as [Hev|Hev].
    + destruct (Hevs _ Hev) as [_ ?]. simplify_eq. split.
      * intros Hlt. right. apply elem_of_app. right.
        by eapply intake_phase_head.
      * intros <-. apply intake_phase_end in Hphase as [-> _]. by eexists.
    + destruct (IH Hwf' Hn ev j Hev Hpos Hne Hcode) as [Hnext Hlast].
      split; [|done]. intros Hlt. right. apply elem_of_app. right. by apply Hnext.
Qed.

Lemma execution_phase_head ex n i rc fl new :
  execution_phase ex n i rc fl new -> i < n -> EvExecute i ∈ new.
Proof. destruct 1; intros; [lia|by left..]. Qed.

(** *** The same, for a whole round *)

Lemma execution_event_inert ev :
  is_execution_event ev = true ->
  call_flag ev = None /\ abort_code ev = None /\ is_intake_event ev = false.
Proof. by destruct ev. Qed.

(** The intake phase of a round, and what else the round logs. *)
Lemma round_intake ws ex rc ex1 new :
  round ws ex rc ex1 new ->
  exists fl new1 new2,
    new = new1 ++ new2 /\
    intake_phase ws (index ex) 0 RCL_RET_OK ex fl ex1 new1 /\
    Forall (fun ev => is_execution_event ev = true) new2 /\
    match fl with
    | Return rc1 => rc = rc1 /\ new2 = []
    | Next rc1 =>
      exists fl2, execution_phase ex1 (index ex) 0 rc1 fl2 new2 /\ rc = flow_rc fl2
    end.
Proof.
  destruct 1 as [rc ex1 new1 Hin|rc1 ex1 new1 fl new2 Hin Hex].
  - exists (Return rc), new1, []. rewrite app_nil_r. by split_and!.
  - exists (Next rc1), new1, new2. split_and!; [done..| |by exists fl].
    eapply Forall_impl; [by apply (execution_phase_events _ _ _ _ _ _ Hex)|].
    by intros ev [? _].
Qed.

Lemma round_call_flag ws ex rc ex1 new ev j b :
  wf ex -> round ws ex rc ex1 new ->
  ev ∈ new -> event_position ev = Some j -> call_flag ev = Some b ->
  h_data_available (handle ex1 j) = b.
Proof.
  intros Hwf (fl & new1 & new2 & -> & Hin & Hnew2 & _)%round_intake Hev Hpos Hflag.
  rewrite Forall_forall in Hnew2.
  apply elem_of_app in Hev as [Hev|Hev].
  - eapply intake_phase_call_flag; [done| |done..].
    rewrite (wf_length _ Hwf). apply Hwf.
  - destruct (execution_event_inert _ (Hnew2 _ Hev)) as (? & _). congruence.
Qed.

Lemma round_abort_event ws ex rc ex1 new ev r :
  wf ex -> round ws ex rc ex1 new ->
  ev ∈ new -> abort_code ev = Some r ->
  rc = r /\ execute_positions new = [] /\ exists pre, new = pre ++ [ev].
Proof.
  intros Hwf (fl & new1 & new2 & -> & Hin & Hnew2 & Hfl)%round_intake Hev Hcode.
  rewrite Forall_forall in Hnew2.
  apply elem_of_app in Hev as [Hev|Hev].
  - destruct (intake_phase_abort_event _ _ _ _ _ _ _ _ _ _ Hin Hwf (le_n _) Hev Hcode)
      as (-> & pre & Hpre).
    destruct Hfl as [-> ->]. rewrite app_nil_r. split_and!; [done| |by exists pre].
    eapply intake_events_execute_positions, intake_phase_events, Hin.
  - destruct (execution_event_inert _ (Hnew2 _ Hev)) as (_ & ? & _). congruence.
Qed.

Lemma round_continues ws ex rc ex1 new ev j :
  wf ex -> round ws ex rc ex1 new ->
  ev ∈ new -> event_position ev = Some j ->
  is_intake_event ev = true -> ev <> EvReadInput j -> abort_code ev = None ->
  (S j < index ex -> EvReadInput (S j) ∈ new) /\
  (S j = index ex -> EvExecute 0 ∈ new).
Proof.
  intros Hwf (fl & new1 & new2 & -> & Hin & Hnew2 & Hfl)%round_intake
    Hev Hpos Hkind Hne Hcode.
  rewrite Forall_forall in Hnew2.
  apply elem_of_app in Hev as [Hev|Hev].
  - destruct (intake_phase_continues _ _ _ _ _ _ _ _ Hin Hwf (le_n _)
                _ _ Hev Hpos Hne Hcode) as [Hnext Hlast].
    split.
    + intros Hlt. apply elem_of_app. left. by apply Hnext.
    + intros Hj. destruct (Hlast Hj) as [rc' ->].
      destruct Hfl as (fl2 & Hex & _).
      apply elem_of_app. right.
      apply (execution_phase_head _ _ _ _ _ _ Hex). lia.
  - destruct (execution_event_inert _ (Hnew2 _ Hev)) as (_ & _ & ?). congruence.
Qed.

Lemma round_calls ws ex rc ex1 new ev j :
  round ws ex rc ex1 new ->
  ev ∈ new -> event_position ev = Some j -> intake_call_of ws (handle ex j) ev.
Proof.
  intros (fl & new1 & new2 & -> & Hin & Hnew2 & _)%round_intake Hev Hpos.
  rewrite Forall_forall in Hnew2.
  apply elem_of_app in Hev as [Hev|Hev].
  - by eapply intake_phase_calls.
  - specialize (Hnew2 _ Hev). by destruct ev.
Qed.

Lemma round_read_input ws ex rc ex1 new j :
  round ws ex rc ex1 new -> EvReadInput j ∈ new ->
  exists fl new1 new2, new = new1 ++ new2 /\
    intake_phase ws (index ex) 0 RCL_RET_OK ex fl ex1 new1 /\
    Forall (fun ev => is_execution_event ev = true) new2 /\
    EvReadInput j ∈ new1.
Proof.
  intros (fl & new1 & new2 & -> & Hin & Hnew2 & _)%round_intake Hj.
  exists fl, new1, new2. split_and!; [done..|].
  apply elem_of_app in Hj as [Hj|Hj]; [done|].
  rewrite Forall_forall in Hnew2. by specialize (Hnew2 _ Hj).
Qed.

(** ** The intake of a subscription *)

Lemma round_subscription_intake ws ex rc ex1 new :
  wf ex -> round ws ex rc ex1 new -> subscription_intake ws ex rc ex1 new.
Proof.
  intros Hwf Hround. split.
  - intros i Hi Ht Hr.
    destruct (round_read_input _ _ _ _ _ _ Hround Hi)
      as (fl & new1 & new2 & -> & Hin & _ & Hi1).
    destruct (intake_phase_attempts _ _ _ _ _ _ _ _ Hin i Hi1) as [Hsub _].
    destruct (Hsub Ht Hr) as (r & ?). exists r. apply elem_of_app. by left.
  - intros i s m rc_take Hev.
    pose proof (round_calls _ _ _ _ _ _ i Hround Hev eq_refl) as (Ht & Hr & _).
    split_and!; [done|done|..].
    + intros ->. by apply (round_call_flag _ _ _ _ _ _ i true Hwf Hround Hev).
    + intros ->. split.
      * by apply (round_call_flag _ _ _ _ _ _ i false Hwf Hround Hev).
      * by apply (round_continues _ _ _ _ _ _ i Hwf Hround Hev).
    + intros Hok Hnodata. split.
      * apply (round_call_flag _ _ _ _ _ _ i false Hwf Hround Hev); [done|].
        simpl. by rewrite (proj2 (ret_is_false _ _) Hok).
      * apply (round_abort_event _ _ _ _ _ _ _ Hwf Hround Hev). simpl.
        by rewrite (proj2 (fatal_for_intake_true _) (conj Hok Hnodata)).
Qed.

(** A timer call that fails ends the execution phase on the spot. *)
Lemma execution_phase_failed_timer ex n i0 rc fl new i t rc_call :
  execution_phase ex n i0 rc fl new ->
  EvTimerCall i t rc_call ∈ new -> rc_call <> RCL_RET_OK ->
  fl = Return rc_call /\ i0 <= i /\
  (exists pre, new = pre ++ [EvTimerCall i t rc_call]) /\
  execute_positions new = seq i0 (S i - i0).
Proof.
  induction 1 as [|i0 rc rc1 evs Hi Hex Hrc|i0 rc evs fl new Hi Hex _ IH];
    intros Hin Hfail.
  - by apply elem_of_nil in Hin.
  - apply elem_of_cons in Hin as [[=]|Hin].
    destruct Hex as [Hinv|Hinv Ht|rc1 Hinv Ht|Hinv Ht]; try done.
    + apply list_elem_of_singleton in Hin. injection Hin as -> -> ->.
      split_and!; [done|done|by exists [EvExecute i0]|].
      replace (S i0 - i0) with 1 by lia. done.
    + by apply elem_of_nil in Hin.
  - apply elem_of_cons in Hin as [[=]|Hin].
    destruct (execution_events _ _ _ _ Hex) as [_ Hpos].
    apply elem_of_app in Hin as [Hin|Hin].
    + exfalso. inversion Hex as [Hinv Hevs|Hinv Ht Hevs|rc1 Hinv Ht Hrc1 Hevs|Hinv Ht];
        subst evs.
      * by apply elem_of_nil in Hin.
      * by apply list_elem_of_singleton in Hin.
      * apply list_elem_of_singleton in Hin. by injection Hin as _ _ ->.
    + destruct (IH Hin Hfail) as (-> & Hle & [pre ->] & Hposs).
      split_and!; [done|lia| |].
      * exists (EvExecute i0 :: evs ++ pre). simpl. by rewrite <- app_assoc.
      * change (EvExecute i0 :: evs ++ pre ++ [EvTimerCall i t rc_call])
          with ([EvExecute i0] ++ evs ++ pre ++ [EvTimerCall i t rc_call]).
        rewrite (execute_positions_app [EvExecute i0]), (execute_positions_app evs).
        rewrite Hpos, Hposs.
        replace (S i - i0) with (S (S i - S i0)) by lia. done.
Qed.

(** ** How far a round gets *)

Lemma intake_no_read ws i h rc b evs j :
  intake ws i h rc b evs -> EvReadInput j ∉ evs.
Proof.
  intros Hin Hj. apply read_position_elem in Hj.
  destruct (intake_events _ _ _ _ _ _ Hin) as [_ Hnone].
  rewrite Hnone in Hj. by apply elem_of_nil in Hj.
Qed.

Lemma intake_position ws i h rc b evs ev :
  intake ws i h rc b evs -> ev ∈ evs -> event_position ev = Some i.
Proof.
  intros Hin Hev. destruct (intake_events _ _ _ _ _ _ Hin) as [Hall _].
  rewrite Forall_forall in Hall. by destruct (Hall _ Hev).
Qed.

(** A handle is read when no call for an earlier handle has ended the
    intake. *)
Lemma intake_phase_reaches ws n i rc ex fl ex1 new :
  intake_phase ws n i rc ex fl ex1 new ->
  wf ex -> n <= index ex ->
  forall j, i <= j < n ->
    (forall ev k, ev ∈ new -> event_position ev = Some k -> k < j ->
       abort_code ev = None) ->
    EvReadInput j ∈ new.
Proof.
  induction 1 as [rc ex|i rc ex rc1 b evs Hi Hin Hf
                  |i rc ex rc1 b evs fl ex2 new Hi Hin Hf Hphase IH];
    intros Hwf Hn j Hj Hok.
  - lia.
  - destruct (decide (j = i)) as [->|Hne]; [by left|]. exfalso.
    assert (h_type (handle ex i) <> NONE) as Hkind by (apply (wf_kind _ Hwf); lia).
    pose proof (intake_abort_code _ _ _ _ _ _ Hin Hkind) as Habort.
    rewrite Hf in Habort. destruct Habort as (ev & -> & Hcode).
    assert (abort_code ev = None) as Hnone; [|congruence].
    apply (Hok ev i); [right; by left| |lia].
    eapply intake_position; [done|by left].
  - destruct (decide (j = i)) as [->|Hne]; [by left|].
    right. apply elem_of_app. right.
    apply IH; [by apply wf_update_handle|done|lia|].
    intros ev k Hev. apply Hok. right. apply elem_of_app. by right.
Qed.

(** Nothing is read behind a call that ends the intake. *)
Lemma intake_phase_stops ws n i rc ex fl ex1 new :
  intake_phase ws n i rc ex fl ex1 new ->
  wf ex -> n <= index ex ->
  forall ev k r, ev ∈ new -> event_position ev = Some k ->
    abort_code ev = Some r ->
    forall j, EvReadInput j ∈ new -> j <= k.
Proof.
  induction 1 as [rc ex|i rc ex rc1 b evs Hi Hin Hf
                  |i rc ex rc1 b evs fl ex2 new Hi Hin Hf Hphase IH];
    intros Hwf Hn ev k r Hev Hpos Hcode j Hj.
  - by apply elem_of_nil in Hev.
  - apply elem_of_cons in Hev as [->|Hev]; [done|].
    rewrite (intake_position _ _ _ _ _ _ _ Hin Hev) in Hpos. injection Hpos as <-.
    apply elem_of_cons in Hj as [[= ->]|Hj]; [done|].
    by apply (intake_no_read _ _ _ _ _ _ _ Hin) in Hj.
  - assert (h_type (handle ex i) <> NONE) as Hkind by (apply (wf_kind _ Hwf); lia).
    pose proof (intake_abort_code _ _ _ _ _ _ Hin Hkind) as Habort.
    rewrite Hf, Forall_forall in Habort.
    apply elem_of_cons in Hev as [->|Hev]; [done|].
    apply elem_of_app in Hev as [Hev|Hev];
      [specialize (Habort _ Hev); congruence|].
    apply elem_of_cons in Hj as [[= ->]|Hj].
    + pose proof (intake_phase_events _ _ _ _ _ _ _ _ Hphase) as Hall.
      rewrite Forall_forall in Hall.
      destruct (Hall _ Hev) as (_ & k' & Hpos' & Hk'). simplify_eq. lia.
    + apply elem_of_app in Hj as [Hj|Hj];
        [by apply (intake_no_read _ _ _ _ _ _ _ Hin) in Hj|].
      assert (wf (update_handle ex i (with_data_available b))) as Hwf'
        by (by apply wf_update_handle).
      exact (IH Hwf' Hn ev k r Hev Hpos Hcode j Hj).
Qed.

Lemma round_intake_reaches ws ex rc ex1 new :
  wf ex -> round ws ex rc ex1 new -> intake_reaches ex new.
Proof.
  intros Hwf Hround i Hi.
  apply round_intake in Hround as (fl & new1 & new2 & -> & Hin & Hruns & _).
  rewrite Forall_forall in Hruns. split.
  - intros Hread ev j Hev Hpos Hlt.
    destruct (abort_code ev) as [r|] eqn:Hcode; [exfalso|done].
    apply elem_of_app in Hread as [Hread|Hread]; [|by specialize (Hruns _ Hread)].
    apply elem_of_app in Hev as [Hev|Hev].
    + pose proof (intake_phase_stops _ _ _ _ _ _ _ _ Hin Hwf (le_n _)
                    _ _ _ Hev Hpos Hcode _ Hread). lia.
    + destruct (execution_event_inert _ (Hruns _ Hev)) as (_ & Hnone & _).
      congruence.
  - intros Hok. apply elem_of_app. left.
    apply (intake_phase_reaches _ _ _ _ _ _ _ _ Hin Hwf (le_n _)); [lia|].
    intros ev k Hev. apply Hok. apply elem_of_app. by left.
Qed.


(** A call of the execution phase is made for a handle that the phase has
    entered. *)
Lemma execution_phase_entered ex n i rc fl new :
  execution_phase ex n i rc fl new ->
  forall ev j, ev ∈ new -> event_position ev = Some j ->
    EvExecute j ∈ new /\ i <= j < n.
Proof.
  induction 1 as [rc|i rc rc1 evs Hi Hex Hrc|i rc evs fl new Hi Hex Hphase IH];
    intros ev j Hev Hpos.
  - by apply elem_of_nil in Hev.
  - destruct (execution_events _ _ _ _ Hex) as [Hall _].
    rewrite Forall_forall in Hall.
    apply elem_of_cons in Hev as [->|Hev].
    + injection Hpos as <-. split; [by left|lia].
    + destruct (Hall _ Hev) as (_ & Hpos' & _). simplify_eq.
      split; [by left|lia].
  - destruct (execution_events _ _ _ _ Hex) as [Hall _].
    rewrite Forall_forall in Hall.
    apply elem_of_cons in Hev as [->|Hev].
    + injection Hpos as <-. split; [by left|lia].
    + apply elem_of_app in Hev as [Hev|Hev].
      * destruct (Hall _ Hev) as (_ & Hpos' & _). simplify_eq.
        split; [by left|lia].
      * destruct (IH _ _ Hev Hpos) as [Hin Hrange].
        split; [|lia]. right. apply elem_of_app. by right.
Qed.


(** A callback that is invoked belongs to a handle that the execution
    phase has come to. *)
Lemma round_invoked_executed ws ex rc ex1 new i :
  round ws ex rc ex1 new -> invoked i new ->
  i < index ex /\ i ∈ execute_positions new.
Proof.
  intros Hround Hinv.
  apply round_intake in Hround as (fl & new1 & new2 & -> & Hin & Hruns & Hfl).
  pose proof (intake_phase_events _ _ _ _ _ _ _ _ Hin) as Hreads.
  assert (exists ev, ev ∈ new1 ++ new2 /\ event_position ev = Some i /\
            is_intake_event ev = false) as (ev & Hev & Hpos & Hkind).
  { destruct Hinv as [(cb & m & Hev)|(t & rc' & Hev)]; by eexists. }
  apply elem_of_app in Hev as [Hev|Hev].
  { pose proof (elem_of_kind _ _ _ _ Hreads Hev). congruence. }
  destruct fl as [rc1|rc1];
    [destruct Hfl as [_ ->]; by apply elem_of_nil in Hev|].
  destruct Hfl as (fl2 & Hex & _).
  destruct (execution_phase_entered _ _ _ _ _ _ Hex _ _ Hev Hpos) as [Hentry Hi].
  split; [lia|]. apply execute_position_elem. apply elem_of_app. by right.
Qed.

(** ** C2, C3: the policy and the intake of a subscription *)

(** A round, with the calls it has made. *)
Lemma let_scheduling_run ex ws e rc ex1 e1 :
  wf ex ->
  _rcle_let_scheduling ex ws e = (rc, ex1, e1) ->
  exists new, log e1 = log e ++ new /\
    replay new (ws, world e) = Some (ws, world e1) /\
    round ws ex rc ex1 new.
Proof.
  intros Hwf Hround.
  destruct (let_scheduling_replay _ ws _ _ _ _ _ Hround) as (new' & Hlog' & Hplay).
  apply (let_scheduling_sound _ _ _ _ _ _ Hwf) in Hround as (new & Hlog & Hround).
  rewrite Hlog in Hlog'. apply app_inv_head in Hlog' as <-.
  by exists new.
Qed.


(** C3.  In phase 1 of a round of a well-formed executor every registered
    handle is read, in table order, until a call ends the round; for a
    subscription that is read and whose wait-set slot is ready the fetch is
    made, and: when it reports no data
    ([RCL_RET_SUBSCRIPTION_TAKE_FAILED]), [data_available] stays false and
    the round is not aborted (the next handle is read, and after the last
    handle phase 2 starts); when it succeeds, [data_available] is set; any
    other result aborts the round (no handle is executed, nothing else is
    called) and is what the round, and so [spin_some], returns.  The
    fetches logged are the fetches made, with the results that [rcl_take]
    gave. *)
Theorem let_scheduling_subscription_intake ex ws e rc ex1 e1 :
  wf ex ->
  _rcle_let_scheduling ex ws e = (rc, ex1, e1) ->
  exists new, log e1 = log e ++ new /\
    replay new (ws, world e) = Some (ws, world e1) /\
    intake_reaches ex new /\
    subscription_intake ws ex rc ex1 new.
Proof.
  intros Hwf Hround.
  apply (let_scheduling_run _ _ _ _ _ _ Hwf) in Hround
    as (new & Hlog & Hplay & Hround).
  exists new. split_and!; [done|done| |].
  - by eapply round_intake_reaches.
  - by apply round_subscription_intake.
Qed.

(** ** C6: the intake of a timer *)

Lemma round_timer_intake ws ex rc ex1 new :
  wf ex -> round ws ex rc ex1 new -> timer_intake ws ex rc ex1 new.
Proof.
  intros Hwf Hround. split_and!.
  - intros i Hi Ht Hr.
    destruct (round_read_input _ _ _ _ _ _ Hround Hi)
      as (fl & new1 & new2 & -> & Hin & _ & Hi1).
    destruct (intake_phase_attempts _ _ _ _ _ _ _ _ Hin i Hi1) as [_ Htimer].
    destruct (Htimer Ht Hr) as (r & ready & ?). exists r, ready.
    apply elem_of_app. by left.
  - intros i Hi Ht Hr. split.
    + destruct (round_read_input _ _ _ _ _ _ Hround Hi)
        as (fl & new1 & new2 & -> & Hin & _ & Hi1).
      apply not_true_is_false.
      rewrite (intake_phase_flags _ _ _ _ _ _ _ _ Hin) by
        (rewrite ?(wf_length _ Hwf); done || apply Hwf).
      intros [(? & _)|(_ & ? & _)]; congruence.
    + intros t rc_check ready Hev.
      pose proof (round_calls _ _ _ _ _ _ i Hround Hev eq_refl) as (_ & ? & _).
      congruence.
  - intros i t rc_check ready Hev.
    pose proof (round_calls _ _ _ _ _ _ i Hround Hev eq_refl) as (Ht & Hr & Heq).
    split_and!; [done|done|done|..].
    + intros -> ->. by apply (round_call_flag _ _ _ _ _ _ i true Hwf Hround Hev).
    + intros -> ->. split.
      * by apply (round_call_flag _ _ _ _ _ _ i false Hwf Hround Hev).
      * by apply (round_abort_event _ _ _ _ _ _ _ Hwf Hround Hev).
    + intros Hok.
      apply (round_call_flag _ _ _ _ _ _ i false Hwf Hround Hev); [done|].
      simpl. by rewrite (proj2 (ret_is_false _ _) Hok).
    + intros Hok Hnodata.
      apply (round_abort_event _ _ _ _ _ _ _ Hwf Hround Hev). simpl.
      by rewrite (proj2 (ret_is_false _ _) Hok),
        (proj2 (fatal_for_intake_true _) (conj Hok Hnodata)).
    + intros ->. by apply (round_continues _ _ _ _ _ _ i Hwf Hround Hev).
Qed.

(** C6, as the source has it.  In phase 1 of a round of a well-formed
    executor every registered handle is read, in table order, until a call
    ends the round; for a timer that is read and whose wait-set slot is
    ready the timer's own [rcl_timer_is_ready] is consulted: a confirmed
    expiry sets [data_available]; a denied expiry aborts the round with
    [RCL_RET_ERROR]; a check that fails leaves [data_available] false, and
    it aborts the round with its code unless the code is
    [RCL_RET_SUBSCRIPTION_TAKE_FAILED], which the loop of the round lets
    pass for every handle: then the round goes on.  A timer whose slot is
    not ready is not checked and keeps [data_available] false.  The checks
    logged are the checks made, with the answers that [rcl_timer_is_ready]
    gave. *)
Theorem let_scheduling_timer_intake ex ws e rc ex1 e1 :
  wf ex ->
  _rcle_let_scheduling ex ws e = (rc, ex1, e1) ->
  exists new, log e1 = log e ++ new /\
    replay new (ws, world e) = Some (ws, world e1) /\
    intake_reaches ex new /\
    timer_intake ws ex rc ex1 new.
Proof.
  intros Hwf Hround.
  apply (let_scheduling_run _ _ _ _ _ _ Hwf) in Hround
    as (new & Hlog & Hplay & Hround).
  exists new. split_and!; [done|done| |].
  - by eapply round_intake_reaches.
  - by apply round_timer_intake.
Qed.

(** ** One call of [spin_some] *)

Lemma register_loop_sound fuel : forall i rc ex e fl ex1 e1,
  wf ex -> i <= index ex -> max_handles ex <= fuel + i ->
  register_loop fuel i rc ex e = (fl, ex1, e1) ->
  exists new, log e1 = log e ++ new /\
    registration_phase (index ex) i ex (flow_failure fl) ex1 new.
Proof.
  induction fuel as [|fuel IH]; intros i rc ex e fl ex1 e1 Hwf Hi Hfuel; simpl.
  - intros [= <- <- <-]. exists []. rewrite app_nil_r. split; [done|].
    pose proof (wf_index _ Hwf).
    replace i with (index ex) by lia. constructor.
  - rewrite (loop_continues_wf _ _ Hwf). case_bool_decide as Hlt.
    + destruct (h_type (handle ex i)) eqn:Htype.
      * unfold call_wait_set_add_subscription.
        destruct (rcl_wait_set_add_subscription _ _ _) as [[[rc1 k] ws] w].
        destruct (ret_is rc1 RCL_RET_OK) eqn:Hrc; simpl.
        -- apply ret_is_true in Hrc as ->.
           intros Hloop. apply IH in Hloop as (new & -> & Hphase); simpl; try lia.
           ++ eexists. simpl. rewrite <- app_assoc. split; [done|].
              eapply registration_step; [done|by constructor|done].
           ++ apply wf_update_handle; [by apply wf_set_wait_set|done..].
        -- apply ret_is_false in Hrc.
           intros [= <- <- <-]. eexists. split; [done|].
           eapply registration_failed; [done|by constructor|done].
      * unfold call_wait_set_add_timer.
        destruct (rcl_wait_set_add_timer _ _ _) as [[[rc1 k] ws] w].
        destruct (ret_is rc1 RCL_RET_OK) eqn:Hrc; simpl.
        -- apply ret_is_true in Hrc as ->.
           intros Hloop. apply IH in Hloop as (new & -> & Hphase); simpl; try lia.
           ++ eexists. simpl. rewrite <- app_assoc. split; [done|].
              eapply registration_step; [done|by constructor|done].
           ++ apply wf_update_handle; [by apply wf_set_wait_set|done..].
        -- apply ret_is_false in Hrc.
           intros [= <- <- <-]. eexists. split; [done|].
           eapply registration_failed; [done|by constructor|done].
      * intros [= <- <- <-]. exists []. rewrite app_nil_r. split; [done|].
        by apply registration_unknown.
    + intros [= <- <- <-]. exists []. rewrite app_nil_r. split; [done|].
      replace i with (index ex) by lia. constructor.
Qed.

Lemma same_table_refl ex : same_table ex ex.
Proof. by unfold same_table; split_and!. Qed.

Lemma same_table_trans ex1 ex2 ex3 :
  same_table ex1 ex2 -> same_table ex2 ex3 -> same_table ex1 ex3.
Proof.
  intros (Hm1 & Hi1 & Hf1 & Hc1 & Ha1 & Ht1 & Hv1 & Hl1 & Hn1 & H1)
         (Hm2 & Hi2 & Hf2 & Hc2 & Ha2 & Ht2 & Hv2 & Hl2 & Hn2 & H2).
  unfold same_table. split_and!; try congruence; by rewrite Hn2.
Qed.

Lemma same_table_set_wait_set ex ws : same_table ex (set_wait_set ex ws).
Proof. by unfold same_table; split_and!. Qed.

Lemma same_table_update_handle ex i f :
  (forall h, with_index 0 (with_data_available false (f h)) =
             with_index 0 (with_data_available false h)) ->
  same_table ex (update_handle ex i f).
Proof.
  intros Hf. unfold same_table. rewrite handles_of_update_handle, length_alter.
  split_and!; try done.
  - simpl. by destruct (handles ex).
  - intros j. rewrite handle_update_handle. by case_decide as Hd; [destruct Hd as [-> _]|].
Qed.

Lemma same_table_field {A} (proj : rcle_handle_t -> A) ex ex' j :
  (forall h, proj (with_index 0 (with_data_available false h)) = proj h) ->
  same_table ex ex' -> proj (handle ex' j) = proj (handle ex j).
Proof.
  intros Hproj (_ & _ & _ & _ & _ & _ & _ & _ & _ & Hsame).
  by rewrite <- (Hproj (handle ex' j)), Hsame, Hproj.
Qed.

Lemma wf_same_table ex ex' : wf ex -> same_table ex ex' -> wf ex'.
Proof.
  intros Hwf Hsame.
  pose proof Hsame as (Hmax & Hidx & Hinfo & _ & _ & _ & _ & Hlen & _ & _).
  split; rewrite ?Hmax, ?Hidx, ?Hinfo, ?Hlen; try apply Hwf; intros i;
    rewrite ?(same_table_field h_initialized ex ex') by done;
    rewrite ?(same_table_field h_type ex ex') by done;
    rewrite ?(same_table_field h_invocation ex ex') by done; apply Hwf.
Qed.

Lemma intake_phase_same_table ws n i rc ex fl ex1 new :
  intake_phase ws n i rc ex fl ex1 new -> same_table ex ex1.
Proof.
  induction 1 as [| |????????????? IH].
  - apply same_table_refl.
  - by apply same_table_update_handle.
  - eapply same_table_trans; [|done]. by apply same_table_update_handle.
Qed.

Lemma round_same_table ws ex rc ex1 new :
  round ws ex rc ex1 new -> same_table ex ex1.
Proof. destruct 1; by eapply intake_phase_same_table. Qed.

Lemma registration_phase_same_table n i ex failure ex1 new :
  registration_phase n i ex failure ex1 new -> same_table ex ex1.
Proof.
  induction 1 as [| | |??????????? IH].
  - apply same_table_refl.
  - apply same_table_set_wait_set.
  - apply same_table_refl.
  - eapply same_table_trans; [|done].
    eapply same_table_trans; [apply same_table_set_wait_set|].
    by apply same_table_update_handle.
Qed.

Lemma prepared_same_table ex exa pre : prepared ex exa pre -> same_table ex exa.
Proof. destruct 1; [apply same_table_refl|apply same_table_set_wait_set]. Qed.

Lemma set_wait_set_twice ex ws ws' :
  set_wait_set (set_wait_set ex ws) ws' = set_wait_set ex ws'.
Proof. reflexivity. Qed.

Lemma spin_some_sound ex timeout e rc ex1 e1 :
  wf ex ->
  rcle_let_executor_spin_some ex timeout e = (rc, ex1, e1) ->
  exists new, log e1 = log e ++ new /\
    spin_some_run ex (to_int64 timeout) rc ex1 new.
Proof.
  intros Hwf. unfold rcle_let_executor_spin_some.
  (* the wait set is kept, or built *)
  assert (forall exa ea pre,
    prepared ex exa pre -> log ea = log e ++ pre ->
    spin_some_prepared exa timeout ea = (rc, ex1, e1) ->
    exists new, log e1 = log e ++ new /\
      spin_some_run ex (to_int64 timeout) rc ex1 new)
    as Hrest.
  { intros exa ea pre Hprep Hlog. unfold spin_some_prepared, call_wait_set_clear.
    pose proof (prepared_same_table _ _ _ Hprep) as Hsame.
    pose proof (wf_same_table _ _ Hwf Hsame) as Hwfa.
    destruct Hsame as (Hmax & Hidx & _).
    destruct (rcl_wait_set_clear _ _) as [[rc2 ws2] w2].
    destruct (ret_is rc2 RCL_RET_OK) eqn:Hrc2; simpl.
    - apply ret_is_true in Hrc2 as ->.
      destruct (register_loop _ _ _ _ _) as [[fl ex3] e3] eqn:Hreg.
      apply register_loop_sound in Hreg as (regs & Hlog3 & Hphase);
        [|by apply wf_set_wait_set|simpl; lia..].
      simpl in Hlog3, Hphase. rewrite Hidx in Hphase.
      destruct fl as [rc3|rc3]; simpl in Hphase.
      + intros [= <- <- <-]. eexists. split; [|by eapply spin_some_registration_failed].
        by rewrite Hlog3, Hlog, <- ?app_assoc.
      + unfold call_wait. destruct (rcl_wait _ _ _) as [[rc_wait ws4] w4].
        intros Hround.
        pose proof (registration_phase_same_table _ _ _ _ _ _ Hphase) as Hsame3.
        apply let_scheduling_sound in Hround as (new & Hlog5 & Hround);
          [|apply wf_set_wait_set, (wf_same_table _ _ Hwfa);
            eapply same_table_trans; [apply same_table_set_wait_set|done]].
        simpl in Hlog5, Hround.
        eexists. split; [|by eapply spin_some_round].
        rewrite Hlog5, Hlog3, Hlog, <- ?app_assoc. simpl.
        by rewrite <- ?app_assoc.
    - apply ret_is_false in Hrc2. intros [= <- <- <-].
      eexists. split; [|by eapply spin_some_clear_failed].
      simpl. by rewrite Hlog, <- ?app_assoc. }
  unfold ensure_wait_set, call_wait_set_fini, call_wait_set_init.
  destruct (rcl_wait_set_is_valid (wait_set ex)) eqn:Hvalid; simpl.
  - intros Hrun. apply (Hrest ex e []); [by constructor|by rewrite app_nil_r|done].
  - destruct (rcl_wait_set_fini _ _) as [[rc0 ws0] w0]. simpl.
    destruct (rcl_wait_set_init _ _ _ _) as [[rc_init ws1] w1]. simpl.
    rewrite !set_wait_set_twice.
    destruct (ret_is rc_init RCL_RET_OK) eqn:Hrc; simpl.
    + apply ret_is_true in Hrc as ->. intros Hrun.
      eapply (Hrest (set_wait_set ex ws1)); [by apply (prepared_built _ rc0)| |exact Hrun].
      simpl. by rewrite <- ?app_assoc.
    + apply ret_is_false in Hrc. intros [= <- <- <-].
      eexists. split; [|by apply (spin_some_init_failed _ _ rc0)].
      simpl. by rewrite <- ?app_assoc.
Qed.

Lemma spin_some_run_same_table ex timeout rc ex1 new :
  spin_some_run ex timeout rc ex1 new -> same_table ex ex1.
Proof.
  destruct 1 as [| exa pre rc ws Hprep| exa pre ws rc ex3 regs Hprep Hreg
                 | exa pre ws ex3 regs rc_wait ws4 rc ex5 new Hprep Hreg Hround].
  - apply same_table_set_wait_set.
  - eapply same_table_trans; [by eapply prepared_same_table|].
    apply same_table_set_wait_set.
  - eapply same_table_trans; [by eapply prepared_same_table|].
    eapply same_table_trans; [apply same_table_set_wait_set|].
    by eapply registration_phase_same_table.
  - eapply same_table_trans; [by eapply prepared_same_table|].
    eapply same_table_trans; [apply same_table_set_wait_set|].
    eapply same_table_trans; [by eapply registration_phase_same_table|].
    eapply same_table_trans; [apply same_table_set_wait_set|].
    by eapply round_same_table.
Qed.

Lemma spin_some_same_table ex timeout e rc ex1 e1 :
  wf ex ->
  rcle_let_executor_spin_some ex timeout e = (rc, ex1, e1) ->
  same_table ex ex1.
Proof.
  intros Hwf Hrun.
  apply (spin_some_sound _ _ _ _ _ _ Hwf) in Hrun as (new & _ & Hrun).
  by eapply spin_some_run_same_table.
Qed.

(** ** Well-formedness is kept by every call *)

Lemma wf_zero : wf rcle_let_executor_get_zero_initialized_executor.
Proof. by apply wf_check_sound. Qed.

Lemma wf_init ex ctx n alloc rc ex' :
  wf ex ->
  rcle_let_executor_init ex ctx n alloc = (rc, ex') ->
  rc <> RCL_RET_BAD_ALLOC -> wf ex'.
Proof.
  intros Hwf. unfold rcle_let_executor_init.
  destruct ctx as [c|], alloc as [a|]; try (by intros [= <- <-]).
  destruct (allocator_is_valid a); simpl; [|by intros [= <- <-]].
  destruct (n =? 0) eqn:Hn; [by intros [= <- <-]|].
  destruct (allocate_ok a (table_bytes n)); [|by intros [= <- <-]].
  intros [= <- <-] _.
  assert (forall i, handle
    (set_info
       (set_handles
          {| context := Some c; handles := handles ex; max_handles := n;
             index := 0; allocator := Some a;
             wait_set := rcl_get_zero_initialized_wait_set; info := info ex;
             timeout_ns := DEFAULT_WAIT_TIMEOUT_MS;
             invocation_time := invocation_time ex |}
          (Some (replicate n (rcle_handle_init n))))
       rcle_handle_size_zero_init) i = rcle_handle_init n \/
    handle
    (set_info
       (set_handles
          {| context := Some c; handles := handles ex; max_handles := n;
             index := 0; allocator := Some a;
             wait_set := rcl_get_zero_initialized_wait_set; info := info ex;
             timeout_ns := DEFAULT_WAIT_TIMEOUT_MS;
             invocation_time := invocation_time ex |}
          (Some (replicate n (rcle_handle_init n))))
       rcle_handle_size_zero_init) i = rcle_handle_init 0) as Hh.
  { intros i. unfold handle, handles_of. simpl.
    destruct (decide (i < n)) as [Hi|Hi].
    - left. by apply lookup_total_replicate_2.
    - right. rewrite list_lookup_total_alt.
      by rewrite (proj1 (lookup_replicate_None _ _ _)) by lia. }
  split; simpl; try lia.
  - unfold handles_of. simpl. apply length_replicate.
  - intros i _. by destruct (Hh i) as [-> | ->].
  - intros i. by destruct (Hh i) as [-> | ->].
Qed.

Lemma wf_set_timeout_ns ex t : wf ex -> wf (set_timeout_ns ex t).
Proof. intros []. by split. Qed.

Lemma wf_set_invocation_time ex t : wf ex -> wf (set_invocation_time ex t).
Proof. intros []. by split. Qed.

Lemma wf_set_timeout ex t rc ex' :
  wf ex -> rcle_let_executor_set_timeout ex t = (rc, ex') -> wf ex'.
Proof.
  intros Hwf. unfold rcle_let_executor_set_timeout.
  destruct (_rcle_let_executor_is_valid ex); intros [= <- <-]; [|done].
  by apply wf_set_timeout_ns.
Qed.

Lemma wf_fini ex e rc ex' e' :
  wf ex -> rcle_let_executor_fini ex e = (rc, ex', e') -> wf ex'.
Proof.
  intros Hwf. unfold rcle_let_executor_fini.
  destruct (_rcle_let_executor_is_valid ex); [|by intros [= <- <- <-]].
  simpl. destruct (rcl_wait_set_is_valid (wait_set ex)).
  - destruct (call_wait_set_fini _ _) as [[rc0 ws] e0].
    intros [= <- <- <-]. by apply wf_check_sound.
  - intros [= <- <- <-]. by apply wf_check_sound.
Qed.

(** A registration that does not succeed changes nothing. *)
Lemma add_subscription_cases ex s m cb inv e rc ex' e' :
  rcle_let_executor_add_subscription ex s m cb inv e = (rc, ex', e') ->
  rc = RCL_RET_OK \/ (ex' = ex /\ e' = e).
Proof.
  unfold rcle_let_executor_add_subscription.
  destruct s, m, cb; try (intros [= <- <- <-]; by right).
  destruct (max_handles ex <=? index ex); [intros [= <- <- <-]; by right|].
  destruct (invalidate_wait_set _ _). intros [= <- <- <-]. by left.
Qed.

Lemma add_timer_cases ex t e rc ex' e' :
  rcle_let_executor_add_timer ex t e = (rc, ex', e') ->
  rc = RCL_RET_OK \/ (ex' = ex /\ e' = e).
Proof.
  unfold rcle_let_executor_add_timer.
  destruct t; try (intros [= <- <- <-]; by right).
  destruct (max_handles ex <=? index ex); [intros [= <- <- <-]; by right|].
  destruct (invalidate_wait_set _ _). intros [= <- <- <-]. by left.
Qed.

Lemma wf_add_subscription ex s m cb inv e rc ex' e' :
  wf ex ->
  rcle_let_executor_add_subscription ex s m cb inv e = (rc, ex', e') -> wf ex'.
Proof.
  intros Hwf Hadd.
  destruct (add_subscription_cases _ _ _ _ _ _ _ _ _ Hadd) as [->|[-> _]]; [|done].
  apply add_subscription_ok in Hadd
    as (s' & m' & cb' & -> & -> & -> & Hroom & Happ); [|apply Hwf].
  eapply wf_appended; try done; simpl; lia.
Qed.

Lemma wf_add_timer ex t e rc ex' e' :
  wf ex -> rcle_let_executor_add_timer ex t e = (rc, ex', e') -> wf ex'.
Proof.
  intros Hwf Hadd.
  destruct (add_timer_cases _ _ _ _ _ _ Hadd) as [->|[-> _]]; [|done].
  apply add_timer_ok in Hadd as (t' & -> & Hroom & Happ); [|apply Hwf].
  eapply wf_appended; try done; simpl; lia.
Qed.

Lemma wf_spin_some ex timeout e rc ex' e' :
  wf ex -> rcle_let_executor_spin_some ex timeout e = (rc, ex', e') -> wf ex'.
Proof.
  intros Hwf Hrun. eapply wf_same_table; [done|].
  by eapply spin_some_same_table.
Qed.

Lemma wf_spin_one_period ex period e rc ex' e' :
  wf ex ->
  rcle_let_executor_spin_one_period ex period e = (rc, ex', e') -> wf ex'.
Proof.
  intros Hwf. unfold rcle_let_executor_spin_one_period.
  destruct (if (invocation_time ex =? 0)%Z then _ else _) as [ex0 e0] eqn:Hlatch.
  assert (wf ex0) as Hwf0.
  { destruct (invocation_time ex =? 0)%Z.
    - destruct (call_system_time_now e) as [[? now] ?].
      injection Hlatch as <- <-. by apply wf_set_invocation_time.
    - by injection Hlatch as <- <-. }
  destruct (rcle_let_executor_spin_some _ _ _) as [[ret ex1] e1] eqn:Hrun.
  apply (wf_spin_some _ _ _ _ _ _ Hwf0) in Hrun.
  destruct (negb _); [by intros [= <- <- <-]|].
  destruct (call_system_time_now e1) as [[ret2 end_time_point] e2].
  intros [= <- <- <-]. by apply wf_set_invocation_time.
Qed.

Lemma wf_do_call c ex e rc ex' e' :
  wf ex -> do_call c ex e = (rc, ex', e') -> allocated c rc -> wf ex'.
Proof.
  intros Hwf. destruct c; simpl.
  - destruct (rcle_let_executor_init _ _ _ _) as [rc0 ex0] eqn:Hinit.
    intros [= <- <- <-]. by eapply wf_init.
  - destruct (rcle_let_executor_set_timeout _ _) as [rc0 ex0] eqn:Hset.
    intros [= <- <- <-] _. by eapply wf_set_timeout.
  - intros Hcall _. by eapply wf_fini.
  - intros Hcall _. by eapply wf_add_subscription.
  - intros Hcall _. by eapply wf_add_timer.
  - intros Hcall _. by eapply wf_spin_some.
  - intros Hcall _. by eapply wf_spin_one_period.
Qed.

(** Every executor a program can hold is well formed. *)
Lemma reachable_wf ex : reachable ex -> wf ex.
Proof.
  induction 1 as [|c ex e rc ex' e' _ IH Hcall Hrc]; [apply wf_zero|].
  by eapply wf_do_call.
Qed.

(** The counts never exceed the fill mark, which is bounded by the
    capacity: the increments of the source cannot wrap. *)
Lemma wf_counts_bound ex :
  wf ex ->
  number_of_subscriptions (info ex) <= max_handles ex /\
  number_of_timers (info ex) <= max_handles ex.
Proof. intros Hwf. pose proof (wf_counts _ Hwf). pose proof (wf_index _ Hwf). lia. Qed.

(** ** Timer calls in a round *)

Lemma round_timer_calls ws ex rc ex1 new :
  wf ex -> round ws ex rc ex1 new -> timer_calls_confirmed ws ex new.
Proof.
  intros Hwf Hround i t rc_call Hev.
  pose proof (wf_same_table _ _ Hwf (round_same_table _ _ _ _ _ Hround)) as Hwf1.
  destruct (round_intake _ _ _ _ _ Hround)
    as (fl & new1 & new2 & -> & Hin & _ & Hfl).
  pose proof (intake_phase_events _ _ _ _ _ _ _ _ Hin) as Hev1.
  pose proof (intake_phase_same_handle _ _ _ _ _ _ _ _ i Hin)
    as (Htype & _ & _ & _ & Htimer & _).
  apply elem_of_app in Hev as [Hev|Hev];
    [by apply (elem_of_kind _ is_intake_event _ _ Hev1) in Hev|].
  destruct fl as [rc1|rc1];
    [destruct Hfl as [_ ->]; by apply elem_of_nil in Hev|].
  destruct Hfl as (fl2 & Hex & _).
  pose proof (execution_phase_events _ _ _ _ _ _ Hex) as Hev2.
  rewrite Forall_forall in Hev2.
  destruct (Hev2 _ Hev) as (_ & k & [= <-] & Hrange & Hinvoke & Hkind & ->).
  apply invoke_callback_spec in Hinvoke as [Halways|[_ Hflag]];
    [by rewrite (wf_timer _ Hwf1 i Hkind) in Halways|].
  assert (EvReadInput i ∈ new1) as Hread.
  { apply read_position_elem.
    destruct (intake_phase_positions _ _ _ _ _ _ _ _ Hin (Nat.le_0_l _)) as [_ Hall].
    rewrite (Hall rc1 eq_refl), Nat.sub_0_r. apply elem_of_seq. lia. }
  apply (intake_phase_flags _ _ _ _ _ _ _ _ Hin) in Hflag;
    [|rewrite (wf_length _ Hwf); apply Hwf|done].
  destruct Hflag as [(Hsub & _)|(_ & Hready & Hcheck)]; [congruence|].
  split_and!; [congruence|done|done|]. apply elem_of_app. by left.
Qed.

Lemma round_confirmed_timers_called ws ex rc ex1 new :
  wf ex -> round ws ex rc ex1 new -> confirmed_timers_called ws ex new.
Proof.
  intros Hwf Hround i Hi Htype Hready Hcheck.
  pose proof (wf_same_table _ _ Hwf (round_same_table _ _ _ _ _ Hround)) as Hwf1.
  destruct (round_policy _ _ _ _ _ Hwf Hround i Hi) as [Hflag Hinv].
  assert (invoked i new) as [(cb & m & Hev)|(t & rc_call & Hev)].
  { apply Hinv. right. split; [by apply (wf_timer _ Hwf)|].
    apply Hflag. right. by split_and!. }
  - exfalso.
    apply round_intake in Hround as (fl & new1 & new2 & -> & Hin & _ & Hfl).
    pose proof (intake_phase_events _ _ _ _ _ _ _ _ Hin) as Hev1.
    pose proof (intake_phase_same_handle _ _ _ _ _ _ _ _ i Hin) as (Htype1 & _).
    apply elem_of_app in Hev as [Hev|Hev];
      [by apply (elem_of_kind _ is_intake_event _ _ Hev1) in Hev|].
    destruct fl as [rc1|rc1];
      [destruct Hfl as [_ ->]; by apply elem_of_nil in Hev|].
    destruct Hfl as (fl2 & Hex & _).
    pose proof (execution_phase_events _ _ _ _ _ _ Hex) as Hev2.
    rewrite Forall_forall in Hev2.
    destruct (Hev2 _ Hev) as (_ & k & [= <-] & _ & _ & Hkind & _).
    congruence.
  - destruct (round_timer_calls _ _ _ _ _ Hwf Hround _ _ _ Hev) as (_ & -> & _).
    by exists rc_call.
Qed.

(** ** The registration phase *)

Lemma registration_event i h rc k ev :
  registration i h rc k ev ->
  is_registration_event ev = true /\ registration_positions [ev] = [i] /\
  setup_failure ev = (if ret_is rc RCL_RET_OK then None else Some rc).
Proof. by destruct 1. Qed.

Lemma registration_phase_events n i ex failure ex1 new :
  registration_phase n i ex failure ex1 new ->
  Forall (fun ev => is_registration_event ev = true) new.
Proof.
  induction 1 as [|i ex rc k ws ev Hi Hreg Hrc| |i ex k ws ev failure ex2 new Hi Hreg _ IH].
  - constructor.
  - repeat constructor. by apply (registration_event _ _ _ _ _ Hreg).
  - constructor.
  - constructor; [|done]. by apply (registration_event _ _ _ _ _ Hreg).
Qed.

Lemma handle_set_wait_set ex ws j : handle (set_wait_set ex ws) j = handle ex j.
Proof. reflexivity. Qed.

Lemma handles_of_set_wait_set ex ws :
  handles_of (set_wait_set ex ws) = handles_of ex.
Proof. reflexivity. Qed.

(** The phase leaves the handles before its starting position alone. *)
Lemma registration_phase_earlier n i ex failure ex1 new :
  registration_phase n i ex failure ex1 new ->
  forall j, j < i -> handle ex1 j = handle ex j.
Proof.
  induction 1 as [| | |i ex k ws ev failure ex2 new Hi Hreg _ IH];
    intros j Hj; try done.
  rewrite IH by lia. rewrite handle_update_handle_ne by lia.
  apply handle_set_wait_set.
Qed.

(** A registration phase that does not fail registers every handle of the
    table once, in table order, and each handle holds the slot its
    registration reported. *)
Lemma registration_phase_complete n i ex ex1 new :
  registration_phase n i ex None ex1 new ->
  i <= n -> n <= length (handles_of ex) ->
  registration_positions new = seq i (n - i) /\
  Forall (fun ev => setup_failure ev = None) new /\
  forall j, i <= j < n ->
    exists k ev, ev ∈ new /\ registration j (handle ex j) RCL_RET_OK k ev /\
      h_index (handle ex1 j) = k.
Proof.
  intros Hphase. remember None as failure eqn:Hnone.
  induction Hphase
    as [|i ex rc k ws ev Hi Hreg Hrc| |i ex k ws ev failure ex2 new Hi Hreg Hphase IH];
    intros Hle Hlen; try done.
  - rewrite Nat.sub_diag. split_and!; [done|constructor|]. intros j Hj. lia.
  - destruct (registration_event _ _ _ _ _ Hreg) as (_ & Hpos & Hfail).
    destruct IH as (Hposs & Hok & Hslots);
      [done|lia|by rewrite handles_of_update_handle, length_alter|].
    split_and!.
    + replace (n - i) with (S (n - S i)) by lia.
      change (ev :: new) with ([ev] ++ new).
      unfold registration_positions in *. by rewrite omap_app, Hpos, Hposs.
    + constructor; [by rewrite Hfail|done].
    + intros j Hj. destruct (decide (j = i)) as [->|Hne].
      * exists k, ev. split_and!; [by left|done|].
        rewrite (registration_phase_earlier _ _ _ _ _ _ Hphase) by lia.
        by rewrite handle_update_handle_eq
          by (rewrite handles_of_set_wait_set; lia).
      * destruct (Hslots j) as (k' & ev' & Hev' & Hreg' & Hidx); [lia|].
        exists k', ev'. split_and!; [by right| |done].
        by rewrite handle_update_handle_ne, handle_set_wait_set in Hreg' by done.
Qed.

(** A registration phase that fails: the failing call is the last one, and
    its code is the code of the phase. *)
Lemma registration_phase_failure n i ex rc ex1 new :
  registration_phase n i ex (Some rc) ex1 new ->
  wf ex -> n <= index ex ->
  exists pre ev, new = pre ++ [ev] /\ setup_failure ev = Some rc /\
    Forall (fun ev' => setup_failure ev' = None) pre.
Proof.
  intros Hphase. remember (Some rc) as failure eqn:Hfail.
  induction Hphase
    as [|i ex rc' k ws ev Hi Hreg Hrc|i ex Hi Hnone
        |i ex k ws ev failure ex2 new Hi Hreg Hphase IH];
    intros Hwf Hn; simplify_eq.
  - destruct (registration_event _ _ _ _ _ Hreg) as (_ & _ & Hcode).
    rewrite (proj2 (ret_is_false _ _) Hrc) in Hcode.
    exists [], ev. by split_and!.
  - exfalso. by apply (wf_kind _ Hwf i); [lia|].
  - destruct (registration_event _ _ _ _ _ Hreg) as (_ & _ & Hcode).
    destruct IH as (pre & ev' & -> & Hev' & Hpre); [done| |done|].
    { apply wf_update_handle; [by apply wf_set_wait_set|done..]. }
    exists (ev :: pre), ev'. split_and!; [done..|]. by constructor.
Qed.

Lemma round_events ws ex rc ex1 new :
  round ws ex rc ex1 new ->
  Forall (fun ev => is_intake_event ev || is_execution_event ev = true) new.
Proof.
  intros (fl & new1 & new2 & -> & Hin & Hnew2 & _)%round_intake.
  apply Forall_app. split.
  - eapply Forall_impl; [by apply (intake_phase_events _ _ _ _ _ _ _ _ Hin)|].
    by intros ev [-> _].
  - eapply Forall_impl; [done|]. intros ev Hev. simpl in Hev. rewrite Hev.
    apply orb_true_r.
Qed.

(** What [spin_some] logs, in order: the calls that prepare the wait set,
    the clearing, the registrations, the wait, the round. *)
Lemma spin_some_run_shape ex timeout rc ex1 new :
  spin_some_run ex timeout rc ex1 new ->
  wf ex ->
  (exists exa pre rc_clear regs rest,
    new = pre ++ EvWaitSetClear rc_clear :: regs ++ rest /\
    (prepared ex exa pre /\
     Forall (fun ev => is_registration_event ev = true) regs /\
     ((rc_clear <> RCL_RET_OK /\ rc = rc_clear /\ regs = [] /\ rest = []) \/
      (rc_clear = RCL_RET_OK /\ rest = [] /\
       exists pre' ev, regs = pre' ++ [ev] /\ setup_failure ev = Some rc /\
         Forall (fun ev' => setup_failure ev' = None) pre') \/
      (rc_clear = RCL_RET_OK /\
       registration_positions regs = seq 0 (index ex) /\
       Forall (fun ev => setup_failure ev = None) regs /\
       exists rc_wait ws4 ex4 post,
         rest = EvWait timeout rc_wait :: post /\
         round ws4 ex4 rc ex1 post /\ index ex4 = index ex /\
         (forall j, j < index ex ->
            exists k ev, ev ∈ regs /\ registration j (handle ex j) RCL_RET_OK k ev /\
              h_index (handle ex4 j) = k) /\
         wait_set ex4 = ws4 /\ same_table ex ex4)))) \/
  (rcl_wait_set_is_valid (wait_set ex) = false /\ rc <> RCL_RET_OK /\
   exists rc0, new = [EvWaitSetFini rc0; EvWaitSetInit (info ex) (context ex) rc]).
Proof.
  destruct 1 as [rc0 rc ws Hvalid Hrc| exa pre rc ws Hprep Hrc
                 | exa pre ws rc ex3 regs Hprep Hreg
                 | exa pre ws ex3 regs rc_wait ws4 rc ex5 new Hprep Hreg Hround];
    intros Hwf.
  - right. split; [done|]. split; [done|]. by exists rc0.
  - left. exists exa, pre, rc, [], [].
    split; [done|]. split; [done|]. split; [constructor|].
    left. by split_and!.
  - pose proof (prepared_same_table _ _ _ Hprep) as Hsame.
    pose proof (wf_same_table _ _ Hwf Hsame) as Hwfa.
    destruct Hsame as (_ & Hidx & _).
    left. exists exa, pre, RCL_RET_OK, regs, []. rewrite app_nil_r.
    split; [done|]. split; [done|].
    split; [by eapply registration_phase_events|].
    right. left. split; [done|]. split; [done|].
    eapply registration_phase_failure; [done|by apply wf_set_wait_set|simpl; lia].
  - pose proof (prepared_same_table _ _ _ Hprep) as Hsame.
    pose proof (wf_same_table _ _ Hwf Hsame) as Hwfa.
    destruct Hsame as (_ & Hidx & _).
    pose proof (registration_phase_same_table _ _ _ _ _ _ Hreg) as Hsame3.
    pose proof Hsame3 as (_ & Hidx3 & _).
    destruct (registration_phase_complete _ _ _ _ _ Hreg) as (Hpos & Hok & Hslots);
      [lia|rewrite handles_of_set_wait_set, (wf_length _ Hwfa), <- Hidx; apply Hwfa|].
    rewrite Nat.sub_0_r in Hpos.
    left. exists exa, pre, RCL_RET_OK, regs, (EvWait timeout rc_wait :: new).
    split; [done|]. split; [done|].
    split; [by eapply registration_phase_events|].
    right. right. split; [done|]. split; [done|]. split; [done|].
    exists rc_wait, ws4, (set_wait_set ex3 ws4), new.
    split; [done|]. split; [done|]. split; [simpl in *; congruence|].
    split; [|split; [done|]].
    + intros j Hj. destruct (Hslots j) as (k & ev & Hev & Hregj & Hk); [lia|].
      exists k, ev. split; [done|]. split; [|done].
      rewrite handle_set_wait_set in Hregj.
      destruct Hprep; [done|by rewrite handle_set_wait_set in Hregj].
    + eapply same_table_trans; [by eapply prepared_same_table|].
      eapply same_table_trans; [apply same_table_set_wait_set|].
      eapply same_table_trans; [exact Hsame3|].
      apply same_table_set_wait_set.
Qed.

Lemma prepared_absent ex exa pre :
  prepared ex exa pre -> rcl_wait_set_is_valid (wait_set ex) = false ->
  exists rc0,
    pre = [EvWaitSetFini rc0; EvWaitSetInit (info ex) (context ex) RCL_RET_OK].
Proof. destruct 1; [congruence|]. intros _. by eexists. Qed.

Lemma prepared_valid ex exa pre :
  prepared ex exa pre -> rcl_wait_set_is_valid (wait_set ex) = true -> pre = [].
Proof. destruct 1; [done|congruence]. Qed.

Lemma registration_event_not regs ev :
  Forall (fun ev' => is_registration_event ev' = true) regs ->
  ev ∈ regs -> is_registration_event ev = false -> False.
Proof. rewrite Forall_forall. intros Hall Hin Hev. specialize (Hall _ Hin). congruence. Qed.

Lemma round_event_not ws ex rc ex1 new ev :
  round ws ex rc ex1 new -> ev ∈ new ->
  is_intake_event ev || is_execution_event ev = false -> False.
Proof.
  intros Hround%round_events Hin Hev. rewrite Forall_forall in Hround.
  specialize (Hround _ Hin). congruence.
Qed.

(** ** The stages of a call of [spin_some] *)

Lemma registration_stage regs :
  Forall (fun ev => is_registration_event ev = true) regs ->
  Forall (fun ev => stage_of ev = Registering) regs.
Proof. intros Hall. eapply Forall_impl; [done|]. by intros []. Qed.

Lemma round_stage ws ex rc ex1 new :
  round ws ex rc ex1 new -> Forall (fun ev => stage_of ev = Running) new.
Proof. intros Hround%round_events. eapply Forall_impl; [done|]. by intros []. Qed.

Lemma elem_of_stage st l ev :
  Forall (fun ev' => stage_of ev' = st) l -> ev ∈ l -> stage_of ev = st.
Proof. rewrite Forall_forall. auto. Qed.

Lemma setup_failure_code ev rc : setup_failure ev = Some rc -> rc <> RCL_RET_OK.
Proof.
  destruct ev; simpl; try done;
    (destruct (ret_is _ RCL_RET_OK) eqn:Hrc; [done|];
     intros [= <-]; by apply ret_is_false).
Qed.

Lemma prepared_setup ex exa pre :
  prepared ex exa pre ->
  Forall (fun ev => is_setup_event ev = true /\ setup_failure ev = None) pre /\
  Forall (fun ev => stage_of ev = Preparing) pre.
Proof. destruct 1; split; by repeat constructor. Qed.

Lemma registration_setup regs :
  Forall (fun ev => is_registration_event ev = true) regs ->
  Forall (fun ev => is_setup_event ev = true) regs.
Proof. intros Hall. eapply Forall_impl; [done|]. by intros []. Qed.

Lemma registration_positions_app l1 l2 :
  registration_positions (l1 ++ l2) =
  registration_positions l1 ++ registration_positions l2.
Proof. apply omap_app. Qed.

Lemma registration_positions_other l :
  Forall (fun ev => is_registration_event ev = false) l ->
  registration_positions l = [].
Proof.
  induction 1 as [|ev l Hev _ IH]; [done|].
  change (ev :: l) with ([ev] ++ l).
  rewrite registration_positions_app, IH. by destruct ev.
Qed.

(** ** The calls of [spin_some] *)

Lemma registration_same_resource i h h' rc k ev :
  h_type h' = h_type h -> h_subscription h' = h_subscription h ->
  h_timer h' = h_timer h ->
  registration i h rc k ev -> registration i h' rc k ev.
Proof.
  intros Htype Hsub Htimer [Hkind|Hkind].
  - rewrite <- Hsub. constructor. congruence.
  - rewrite <- Htimer. constructor. congruence.
Qed.

(** The registrations of a phase are those of the handles from its
    starting position on, in table order, each with the resource of its
    handle. *)
Lemma registration_phase_calls n i ex failure ex1 new :
  registration_phase n i ex failure ex1 new ->
  registration_positions new `prefix_of` seq i (n - i) /\
  Forall (fun ev => exists j rc_ev k,
            i <= j < n /\ registration j (handle ex j) rc_ev k ev) new.
Proof.
  induction 1 as [ex|i ex rc k ws ev Hi Hreg Hrc|i ex Hi Hnone
                  |i ex k ws ev failure ex2 new Hi Hreg Hphase IH].
  - split; [apply prefix_nil|constructor].
  - destruct (registration_event _ _ _ _ _ Hreg) as (_ & Hpos & _). split.
    + rewrite Hpos. replace (n - i) with (S (n - S i)) by lia.
      simpl. apply prefix_cons, prefix_nil.
    + repeat constructor. exists i, rc, k. split; [lia|done].
  - split; [apply prefix_nil|constructor].
  - destruct IH as [Hpre Hall].
    destruct (registration_event _ _ _ _ _ Hreg) as (_ & Hpos & _). split.
    + change (ev :: new) with ([ev] ++ new).
      rewrite registration_positions_app, Hpos.
      replace (n - i) with (S (n - S i)) by lia. simpl. by apply prefix_cons.
    + constructor; [exists i, RCL_RET_OK, k; split; [lia|done]|].
      eapply Forall_impl; [exact Hall|].
      intros ev' (j & rc_ev & k' & Hj & Hreg').
      exists j, rc_ev, k'. split; [lia|].
      eapply registration_same_resource; [..|exact Hreg']; symmetry;
        by apply (handle_update_handle_field _ (set_wait_set ex ws)).
Qed.

Lemma round_wait_set ws ex rc ex1 new :
  round ws ex rc ex1 new -> wait_set ex1 = wait_set ex.
Proof.
  intros (fl & new1 & new2 & _ & Hin & _)%round_intake.
  by destruct (intake_phase_frame _ _ _ _ _ _ _ _ Hin) as (_ & _ & ? & _).
Qed.

(** A call of [spin_some], with the calls it has made. *)
Lemma spin_some_calls ex timeout e rc ex1 e1 :
  wf ex ->
  rcle_let_executor_spin_some ex timeout e = (rc, ex1, e1) ->
  exists new, log e1 = log e ++ new /\
    replay new (wait_set ex, world e) = Some (wait_set ex1, world e1) /\
    spin_some_run ex (to_int64 timeout) rc ex1 new.
Proof.
  intros Hwf Hspin.
  destruct (spin_some_replay _ _ _ _ _ _ Hspin) as (new' & Hlog' & Hplay).
  apply (spin_some_sound _ _ _ _ _ _ Hwf) in Hspin as (new & Hlog & Hrun).
  rewrite Hlog in Hlog'. apply app_inv_head in Hlog' as <-.
  by exists new.
Qed.

Lemma prepared_calls ex exa pre :
  prepared ex exa pre ->
  registration_positions pre = [] /\
  Forall (fun ev => is_registration_event ev = false) pre.
Proof. destruct 1; split; by repeat constructor. Qed.

Lemma spin_some_run_registrations ex timeout rc ex1 new :
  spin_some_run ex timeout rc ex1 new -> wf ex ->
  registration_positions new `prefix_of` seq 0 (index ex) /\
  (forall ev, ev ∈ new -> is_registration_event ev = true ->
     exists j rc_ev k, j < index ex /\ registration j (handle ex j) rc_ev k ev).
Proof.
  assert (forall exa pre ws failure ex3 regs,
    prepared ex exa pre ->
    registration_phase (index ex) 0 (set_wait_set exa ws) failure ex3 regs ->
    registration_positions (pre ++ EvWaitSetClear RCL_RET_OK :: regs)
      `prefix_of` seq 0 (index ex) /\
    (forall ev, ev ∈ pre ++ EvWaitSetClear RCL_RET_OK :: regs ->
       is_registration_event ev = true ->
       exists j rc_ev k, j < index ex /\ registration j (handle ex j) rc_ev k ev))
    as Hregs.
  { intros exa pre ws failure ex3 regs Hprep Hphase.
    destruct (prepared_calls _ _ _ Hprep) as [Hnone Hother].
    destruct (registration_phase_calls _ _ _ _ _ _ Hphase) as [Hpre Hall].
    rewrite Nat.sub_0_r in Hpre. rewrite Forall_forall in Hall, Hother. split.
    - change (EvWaitSetClear RCL_RET_OK :: regs)
        with ([EvWaitSetClear RCL_RET_OK] ++ regs).
      by rewrite !registration_positions_app, Hnone.
    - intros ev Hev Hkind.
      apply elem_of_app in Hev as [Hev|Hev];
        [specialize (Hother _ Hev); congruence|].
      apply elem_of_cons in Hev as [->|Hev]; [done|].
      destruct (Hall _ Hev) as (j & rc_ev & k & Hj & Hreg).
      exists j, rc_ev, k. split; [lia|].
      rewrite handle_set_wait_set in Hreg.
      destruct Hprep; [done|by rewrite handle_set_wait_set in Hreg]. }
  destruct 1 as [rc0 rc ws Hvalid Hrc| exa pre rc ws Hprep Hrc
                 | exa pre ws rc ex3 regs Hprep Hreg
                 | exa pre ws ex3 regs rc_wait ws4 rc ex5 new Hprep Hreg Hround];
    intros Hwf.
  - split; [apply prefix_nil|].
    intros ev Hev Hkind. rewrite !elem_of_cons, elem_of_nil in Hev.
    by destruct Hev as [->|[->|?]].
  - destruct (prepared_calls _ _ _ Hprep) as [Hnone Hother].
    rewrite Forall_forall in Hother. split.
    + rewrite registration_positions_app, Hnone. apply prefix_nil.
    + intros ev Hev Hkind.
      apply elem_of_app in Hev as [Hev|Hev];
        [specialize (Hother _ Hev); congruence|].
      by apply list_elem_of_singleton in Hev as ->.
  - by eapply Hregs.
  - destruct (Hregs _ _ _ _ _ _ Hprep Hreg) as [Hpre Hall].
    pose proof (round_events _ _ _ _ _ Hround) as Hrun.
    assert (Forall (fun ev => is_registration_event ev = false)
              (EvWait timeout rc_wait :: new)) as Hrest.
    { constructor; [done|]. eapply Forall_impl; [exact Hrun|]. by intros []. }
    replace (pre ++ EvWaitSetClear RCL_RET_OK :: regs ++ EvWait timeout rc_wait :: new)
      with ((pre ++ EvWaitSetClear RCL_RET_OK :: regs) ++ EvWait timeout rc_wait :: new)
      by (by rewrite <- app_assoc).
    split.
    + by rewrite registration_positions_app,
        (registration_positions_other _ Hrest), app_nil_r.
    + intros ev Hev Hkind. apply elem_of_app in Hev as [Hev|Hev]; [by apply Hall|].
      rewrite Forall_forall in Hrest. specialize (Hrest _ Hev). congruence.
Qed.

(** The two ways a call of [spin_some] can go: it waits and runs the
    round, or a call that sets the wait set up fails. *)
Lemma spin_some_run_outcome ex timeout rc ex1 new s0 w1 :
  spin_some_run ex timeout rc ex1 new -> wf ex ->
  replay new s0 = Some (wait_set ex1, w1) ->
  (exists exa pre regs rc_wait post ex4 w4,
     prepared ex exa pre /\
     new = pre ++ EvWaitSetClear RCL_RET_OK :: regs ++
           EvWait timeout rc_wait :: post /\
     registration_positions regs = seq 0 (index ex) /\
     Forall (fun ev => is_registration_event ev = true) regs /\
     Forall (fun ev => setup_failure ev = None) regs /\
     (forall j, j < index ex ->
        exists k ev, ev ∈ regs /\ registration j (handle ex j) RCL_RET_OK k ev /\
          h_index (handle ex4 j) = k) /\
     replay (pre ++ EvWaitSetClear RCL_RET_OK :: regs ++
             [EvWait timeout rc_wait]) s0 = Some (wait_set ex4, w4) /\
     same_table ex ex4 /\
     round (wait_set ex4) ex4 rc ex1 post) \/
  (rc <> RCL_RET_OK /\
   Forall (fun ev => is_setup_event ev = true) new /\
   (forall t rc_wait, EvWait t rc_wait ∉ new) /\
   exists pre ev, new = pre ++ [ev] /\ setup_failure ev = Some rc /\
     Forall (fun ev' => setup_failure ev' = None) pre).
Proof.
  intros Hrun Hwf Hplay.
  assert (forall l, Forall (fun ev => is_setup_event ev = true) l ->
            forall t rc_wait, EvWait t rc_wait ∉ l) as Hnowait.
  { intros l Hall t rc_wait Hin. rewrite Forall_forall in Hall.
    by specialize (Hall _ Hin). }
  destruct (spin_some_run_shape _ _ _ _ _ Hrun Hwf)
    as [(exa & pre & rc_clear & regs & rest & -> & Hpre & Hregs & Hcases)
       |(Hws & Hrc & rc0 & ->)].
  - destruct (prepared_setup _ _ _ Hpre) as [Hsetup Hstage].
    assert (Forall (fun ev => is_setup_event ev = true) pre) as Hsetup'.
    { eapply Forall_impl; [exact Hsetup|]. by intros ev [? _]. }
    assert (Forall (fun ev => setup_failure ev = None) pre) as Hfine.
    { eapply Forall_impl; [exact Hsetup|]. by intros ev [_ ?]. }
    destruct Hcases as [(Hclear & -> & -> & ->)
                       |[(-> & -> & pre' & ev & -> & Hev & Hpre')
                        |(-> & Hpos & Hok & rc_wait & ws4 & ex4 & post & -> & Hround
                          & Hidx & Hslots & Hws4 & Hsame)]].
    + right.
      assert (Forall (fun ev => is_setup_event ev = true)
                (pre ++ [EvWaitSetClear rc_clear])) as Hall.
      { apply Forall_app. split; [done|by repeat constructor]. }
      split_and!; [done|done|by apply Hnowait|].
      exists pre, (EvWaitSetClear rc_clear). split_and!; [done| |done].
      simpl. by rewrite (proj2 (ret_is_false _ _) Hclear).
    + right. rewrite app_nil_r.
      assert (Forall (fun ev => is_setup_event ev = true)
                (pre ++ EvWaitSetClear RCL_RET_OK :: pre' ++ [ev])) as Hall.
      { apply Forall_app. split; [done|]. constructor; [done|].
        by apply registration_setup. }
      split_and!; [by eapply setup_failure_code|done|by apply Hnowait|].
      exists (pre ++ EvWaitSetClear RCL_RET_OK :: pre'), ev.
      split_and!; [by rewrite <- app_assoc|done|].
      apply Forall_app. split; [done|]. by constructor.
    + left. subst ws4.
      replace (pre ++ EvWaitSetClear RCL_RET_OK :: regs ++
               EvWait timeout rc_wait :: post)
        with ((pre ++ EvWaitSetClear RCL_RET_OK :: regs ++
               [EvWait timeout rc_wait]) ++ post) in Hplay
        by (rewrite <- !app_assoc; simpl; by rewrite <- app_assoc).
      apply replay_app_inv in Hplay as ([ws4 w4] & Hsetup4 & Hpost).
      apply replay_round in Hpost; [|by eapply round_events].
      simpl in Hpost. rewrite (round_wait_set _ _ _ _ _ Hround) in Hpost.
      subst ws4.
      exists exa, pre, regs, rc_wait, post, ex4, w4. by split_and!.
  - right.
    assert (Forall (fun ev => is_setup_event ev = true)
              [EvWaitSetFini rc0; EvWaitSetInit (info ex) (context ex) rc]) as Hall
      by (by repeat constructor).
    split_and!; [done|done|by apply Hnowait|].
    exists [EvWaitSetFini rc0], (EvWaitSetInit (info ex) (context ex) rc).
    split_and!; [done| |by repeat constructor].
    simpl. by rewrite (proj2 (ret_is_false _ _) Hrc).
Qed.

Lemma spin_some_run_registers_from_first ex timeout rc ex1 new s0 w1 :
  spin_some_run ex timeout rc ex1 new -> wf ex ->
  replay new s0 = Some (wait_set ex1, w1) ->
  registers_from_first ex timeout rc new.
Proof.
  intros Hrun Hwf Hplay.
  destruct (spin_some_run_registrations _ _ _ _ _ Hrun Hwf) as [Hpre Hall].
  split; [done|]. split; [done|].
  destruct (spin_some_run_outcome _ _ _ _ _ _ _ Hrun Hwf Hplay)
    as [(exa & pre & regs & rc_wait & post & ex4 & w4 & Hprep & -> & Hpos & Hregs
         & Hok & _ & _ & _ & Hround)
       |(Hrc & Hsetup & _ & Hlast)].
  - left. destruct (prepared_setup _ _ _ Hprep) as [Hsetup Hstage].
    exists (pre ++ EvWaitSetClear RCL_RET_OK :: regs), rc_wait, post.
    split_and!.
    + by rewrite <- app_assoc.
    + apply Forall_app. split; [done|]. constructor; [done|].
      apply Forall_and. split; [by apply registration_setup|done].
    + change (EvWaitSetClear RCL_RET_OK :: regs)
        with ([EvWaitSetClear RCL_RET_OK] ++ regs).
      rewrite !registration_positions_app, Hpos.
      rewrite (registration_positions_other pre); [done|].
      eapply Forall_impl; [exact Hstage|]. by intros [].
    + by eapply round_stage.
  - right. by split_and!.
Qed.

(** ** C5: a registration forces the wait set to be rebuilt *)

Lemma spin_some_run_rebuilt ex timeout rc ex1 new s0 w1 :
  spin_some_run ex timeout rc ex1 new ->
  wf ex -> rcl_wait_set_is_valid (wait_set ex) = false ->
  replay new s0 = Some (wait_set ex1, w1) ->
  rebuilt_before_wait ex timeout s0 rc ex1 new.
Proof.
  intros Hrun Hwf Hvalid Hplay. split_and!.
  - destruct (spin_some_run_shape _ _ _ _ _ Hrun Hwf)
      as [(exa & pre & rc_clear & regs & rest & -> & Hprep & _)
         |(_ & Hrc & rc0 & ->)]; [|by eexists _, _, _].
    destruct (prepared_absent _ _ _ Hprep Hvalid) as [rc0 ->]. by eexists _, _, _.
  - by eapply spin_some_run_registers_from_first.
  - intros t rc_wait Hwait.
    destruct (spin_some_run_outcome _ _ _ _ _ _ _ Hrun Hwf Hplay)
      as [(exa & pre & regs & rc_wait' & post & ex4 & w4 & Hprep & -> & Hpos & Hregs
           & Hok & Hslots & Hplay4 & Hsame & Hround)
         |(_ & _ & Hnowait & _)]; [|by apply Hnowait in Hwait].
    destruct (prepared_absent _ _ _ Hprep Hvalid) as [rc0 ->].
    simpl in Hwait. rewrite !elem_of_cons, elem_of_app in Hwait.
    destruct Hwait as [?|[?|[?|[Hwait|Hwait]]]]; try done.
    { exfalso. by eapply registration_event_not. }
    apply elem_of_cons in Hwait as [[= -> ->]|Hwait];
      [|exfalso; by eapply round_event_not].
    exists rc0, regs, post, ex4, w4. by split_and!.
Qed.

(** *** Slots recorded before the call do not matter *)

Lemma lookup_with_slots_from i f ex j :
  handles_of (with_slots_from i f ex) !! j =
  (fun h => if bool_decide (i <= j < index ex) then with_index (f j) h else h)
    <$> handles_of ex !! j.
Proof.
  unfold handles_of, with_slots_from. simpl.
  destruct (handles ex) as [hs|]; simpl; [|done].
  apply list_lookup_imap.
Qed.

Lemma handle_with_slots_from i f ex j :
  index ex <= length (handles_of ex) ->
  handle (with_slots_from i f ex) j =
  if bool_decide (i <= j < index ex)
  then with_index (f j) (handle ex j) else handle ex j.
Proof.
  intros Hlen. unfold handle. rewrite !list_lookup_total_alt, lookup_with_slots_from.
  destruct (handles_of ex !! j) as [h|] eqn:Hj; simpl; [done|].
  apply lookup_ge_None in Hj. case_bool_decide; [lia|done].
Qed.

Lemma length_with_slots_from i f ex :
  length (handles_of (with_slots_from i f ex)) = length (handles_of ex).
Proof.
  unfold handles_of, with_slots_from. simpl.
  destruct (handles ex) as [hs|]; simpl; [|done]. apply length_imap.
Qed.

Lemma with_slots_from_index f ex : with_slots_from (index ex) f ex = ex.
Proof.
  unfold with_slots_from. destruct ex as [? hs ? n ? ? ? ? ?]; unfold set_handles; simpl.
  f_equal. destruct hs as [hs|]; simpl; [|done]. f_equal.
  apply list_eq. intros j. rewrite list_lookup_imap.
  destruct (hs !! j); simpl; [|done]. case_bool_decide; [lia|done].
Qed.

Lemma same_table_with_slots_from i f ex :
  index ex <= length (handles_of ex) -> same_table ex (with_slots_from i f ex).
Proof.
  intros Hlen. unfold same_table. rewrite length_with_slots_from.
  split_and!; try done.
  - unfold with_slots_from. simpl. by destruct (handles ex).
  - intros j. rewrite handle_with_slots_from by done. by case_bool_decide.
Qed.

(** Registering position [i] overwrites what was recorded there. *)
Lemma with_slots_from_register i f ex ws k :
  i < index ex ->
  update_handle (set_wait_set (with_slots_from i f ex) ws) i (with_index k) =
  with_slots_from (S i) f (update_handle (set_wait_set ex ws) i (with_index k)).
Proof.
  intros Hi. unfold with_slots_from, update_handle, set_wait_set, set_handles. simpl.
  f_equal. destruct (handles ex) as [hs|]; simpl; [|done]. f_equal.
  apply list_eq. intros j. destruct (decide (i = j)) as [<-|Hne].
  - rewrite list_lookup_alter_eq, !list_lookup_imap, list_lookup_alter_eq.
    destruct (hs !! i) as [h|]; simpl; [|done].
    rewrite bool_decide_eq_true_2 by lia.
    rewrite bool_decide_eq_false_2 by lia. done.
  - rewrite list_lookup_alter_ne by done.
    rewrite !list_lookup_imap, list_lookup_alter_ne by done.
    destruct (hs !! j) as [h|]; simpl; [|done].
    f_equal. case_bool_decide; case_bool_decide; try done; lia.
Qed.

(** The registration loop on an executor with other recorded slots makes
    the same calls and returns the same; when it does not fail the
    executors it leaves are the same, too. *)
Lemma register_loop_stale f fuel : forall i rc ex e fl ex1 e1,
  wf ex -> i <= index ex -> max_handles ex <= fuel + i ->
  register_loop fuel i rc ex e = (fl, ex1, e1) ->
  exists k,
    register_loop fuel i rc (with_slots_from i f ex) e =
      (fl, with_slots_from k f ex1, e1) /\
    index ex1 = index ex /\
    (flow_failure fl = None -> k = index ex).
Proof.
  induction fuel as [|fuel IH]; intros i rc ex e fl ex1 e1 Hwf Hi Hfuel.
  - simpl. intros [= <- <- <-]. exists i. split_and!; [done..|].
    intros _. pose proof (wf_index _ Hwf). lia.
  - assert (index ex <= length (handles_of ex)) as Hlen
      by (rewrite (wf_length _ Hwf); apply Hwf).
    pose proof (wf_same_table _ _ Hwf (same_table_with_slots_from i f ex Hlen)) as Hwf'.
    simpl. rewrite (loop_continues_wf _ _ Hwf), (loop_continues_wf _ _ Hwf').
    change (index (with_slots_from i f ex)) with (index ex).
    case_bool_decide as Hlt.
    + rewrite (handle_with_slots_from i f ex i Hlen).
      rewrite bool_decide_eq_true_2 by lia. simpl.
      change (wait_set (with_slots_from i f ex)) with (wait_set ex).
      destruct (h_type (handle ex i)) eqn:Htype.
      * destruct (call_wait_set_add_subscription _ _ _ _) as [[[rc1 k] ws] e2].
        destruct (ret_is rc1 RCL_RET_OK); simpl.
        -- rewrite with_slots_from_register by done. intros Hloop.
           apply IH in Hloop as (k' & Hloop & Hidx & Hk); simpl; try lia.
           ++ exists k'. by split_and!.
           ++ apply wf_update_handle; [by apply wf_set_wait_set|done..].
        -- intros [= <- <- <-]. exists i. by split_and!.
      * destruct (call_wait_set_add_timer _ _ _ _) as [[[rc1 k] ws] e2].
        destruct (ret_is rc1 RCL_RET_OK); simpl.
        -- rewrite with_slots_from_register by done. intros Hloop.
           apply IH in Hloop as (k' & Hloop & Hidx & Hk); simpl; try lia.
           ++ exists k'. by split_and!.
           ++ apply wf_update_handle; [by apply wf_set_wait_set|done..].
        -- intros [= <- <- <-]. exists i. by split_and!.
      * intros [= <- <- <-]. exists i. by split_and!.
    + intros [= <- <- <-]. exists i. split_and!; [done..|]. intros _. lia.
Qed.

Lemma with_slots_from_set_wait_set i f ex ws :
  set_wait_set (with_slots_from i f ex) ws = with_slots_from i f (set_wait_set ex ws).
Proof. reflexivity. Qed.

Lemma spin_some_prepared_stale f ex timeout e rc ex1 e1 :
  wf ex ->
  spin_some_prepared ex timeout e = (rc, ex1, e1) ->
  exists k,
    spin_some_prepared (with_slots_from 0 f ex) timeout e =
      (rc, with_slots_from k f ex1, e1).
Proof.
  intros Hwf. unfold spin_some_prepared.
  change (wait_set (with_slots_from 0 f ex)) with (wait_set ex).
  destruct (call_wait_set_clear _ _) as [[rc2 ws2] e2].
  rewrite with_slots_from_set_wait_set.
  change (max_handles (with_slots_from 0 f (set_wait_set ex ws2)))
    with (max_handles (set_wait_set ex ws2)).
  destruct (ret_is rc2 RCL_RET_OK); simpl negb; cbv iota.
  - destruct (register_loop _ _ _ (set_wait_set ex ws2) _) as [[fl ex3] e3] eqn:Hreg.
    apply (register_loop_stale f) in Hreg as (k & -> & Hidx & Hk);
      [|by apply wf_set_wait_set|simpl; lia..].
    destruct fl as [rc3|rc3].
    + intros [= <- <- <-]. by exists k.
    + rewrite Hk by done.
      replace (index (set_wait_set ex ws2)) with (index ex3) by done.
      rewrite with_slots_from_index.
      intros Hround. exists (index ex1). by rewrite with_slots_from_index.
  - intros [= <- <- <-]. by exists 0.
Qed.

(** Whatever slots the registered handles hold when [spin_some] is called,
    the call makes the same calls, in the same world, and returns the
    same. *)
Lemma spin_some_stale f ex timeout e rc ex1 e1 :
  wf ex ->
  rcle_let_executor_spin_some ex timeout e = (rc, ex1, e1) ->
  exists k,
    rcle_let_executor_spin_some (with_slots_from 0 f ex) timeout e =
      (rc, with_slots_from k f ex1, e1).
Proof.
  intros Hwf. unfold rcle_let_executor_spin_some, ensure_wait_set.
  change (wait_set (with_slots_from 0 f ex)) with (wait_set ex).
  destruct (rcl_wait_set_is_valid (wait_set ex)); simpl negb; cbv iota.
  - by apply spin_some_prepared_stale.
  - destruct (call_wait_set_fini _ _) as [[rc0 ws0] e0].
    rewrite !set_wait_set_twice, !with_slots_from_set_wait_set.
    change (info (with_slots_from 0 f (set_wait_set ex rcl_get_zero_initialized_wait_set)))
      with (info (set_wait_set ex rcl_get_zero_initialized_wait_set)).
    change (context (with_slots_from 0 f (set_wait_set ex rcl_get_zero_initialized_wait_set)))
      with (context (set_wait_set ex rcl_get_zero_initialized_wait_set)).
    change (wait_set (with_slots_from 0 f (set_wait_set ex rcl_get_zero_initialized_wait_set)))
      with (wait_set (set_wait_set ex rcl_get_zero_initialized_wait_set)).
    destruct (call_wait_set_init _ _ _ _) as [[rc_init ws1] e1'].
    rewrite !with_slots_from_set_wait_set, !set_wait_set_twice.
    destruct (ret_is rc_init RCL_RET_OK); simpl negb; cbv iota.
    + apply spin_some_prepared_stale. by apply wf_set_wait_set.
    + intros [= <- <- <-]. by exists 0.
Qed.

Lemma absent_wait_set_rebuilt ex :
  wf ex -> rcl_wait_set_is_valid (wait_set ex) = false -> next_spin_rebuilds ex.
Proof.
  intros Hwf Hvalid. split; [done|].
  intros timeout e rc ex1 e1 Hrun. split.
  - apply (spin_some_calls _ _ _ _ _ _ Hwf) in Hrun as (new & Hlog & Hplay & Hrun).
    exists new. split; [done|]. split; [done|]. by eapply spin_some_run_rebuilt.
  - intros f. by apply spin_some_stale.
Qed.

(** C5.  A successful [add_subscription] or [add_timer] leaves the wait set
    absent.  The next [spin_some] therefore starts by building a new wait
    set, and it registers the initialized handles again, from the first
    and in table order, each with its own resource: either all of them,
    and then it waits, or up to a call that fails, which ends it.  The
    round after the wait runs on the wait set that [rcl_wait] has left,
    with the slots reported by these registrations in every registered
    handle; the calls logged are the calls made; and the call does not
    depend on the slots recorded before the registration. *)
Theorem registration_forces_rebuild ex :
  wf ex ->
  (forall s m cb inv e ex' e',
     rcle_let_executor_add_subscription ex s m cb inv e = (RCL_RET_OK, ex', e') ->
     next_spin_rebuilds ex') /\
  (forall t e ex' e',
     rcle_let_executor_add_timer ex t e = (RCL_RET_OK, ex', e') ->
     next_spin_rebuilds ex').
Proof.
  intros Hwf. split.
  - intros s m cb inv e ex' e' Hadd.
    apply absent_wait_set_rebuilt; [by eapply wf_add_subscription|].
    apply add_subscription_ok in Hadd
      as (s' & m' & cb' & _ & _ & _ & _ & Happ); [|apply Hwf].
    apply Happ.
  - intros t e ex' e' Hadd.
    apply absent_wait_set_rebuilt; [by eapply wf_add_timer|].
    apply add_timer_ok in Hadd as (t' & _ & _ & Happ); [|apply Hwf].
    apply Happ.
Qed.

(** ** C7: failures while the wait set is set up *)

Lemma spin_some_run_setup_failure ex timeout rc ex1 new :
  spin_some_run ex timeout rc ex1 new -> wf ex ->
  setup_failure_reported ex rc new.
Proof.
  intros Hrun Hwf.
  destruct (spin_some_run_shape _ _ _ _ _ Hrun Hwf)
    as [(exa & pre & rc_clear & regs & rest & -> & Hprep & Hregs%registration_stage & Hcases)
       |(Hvalid & Hrc & rc0 & ->)].
  - assert (Forall (fun ev => stage_of ev = Waiting \/ stage_of ev = Running) rest
            /\ Forall (fun ev => setup_failure ev = None) rest) as [Hrest Hrest'].
    { destruct Hcases as [(_ & _ & _ & ->)|[(_ & -> & _)
        |(_ & _ & _ & rc_wait & ws4 & ex4 & post & -> & Hround & _)]];
        [by split; constructor..|].
      pose proof (round_stage _ _ _ _ _ Hround) as Hpost. split.
      - constructor; [by left|]. eapply Forall_impl; [done|]. by right.
      - constructor; [done|]. eapply Forall_impl; [done|]. by intros []. }
    rewrite Forall_forall in Hrest, Hrest'.
    split_and!.
    + intros ev rc_ev Hev Hcode.
      apply elem_of_app in Hev as [Hev|Hev].
      { destruct Hprep; [by apply elem_of_nil in Hev|].
        rewrite !elem_of_cons, elem_of_nil in Hev.
        by destruct Hev as [->|[->|?]]. }
      apply elem_of_cons in Hev as [->|Hev].
      { simpl in Hcode. destruct (ret_is rc_clear RCL_RET_OK) eqn:Hclear; [done|].
        apply ret_is_false in Hclear. simplify_eq.
        destruct Hcases as [(_ & -> & -> & ->)|[(? & _)|(? & _)]]; [|done..].
        split; [done|]. by exists pre. }
      apply elem_of_app in Hev as [Hev|Hev];
        [|specialize (Hrest' _ Hev); congruence].
      destruct Hcases as [(_ & _ & -> & _)|[(-> & -> & pre' & evf & -> & Hevf & Hpre')
                         |(_ & _ & Hok & _)]].
      * by apply elem_of_nil in Hev.
      * rewrite Forall_forall in Hpre'.
        apply elem_of_app in Hev as [Hev|Hev];
          [specialize (Hpre' _ Hev); congruence|].
        apply list_elem_of_singleton in Hev as ->. split; [congruence|].
        exists (pre ++ EvWaitSetClear RCL_RET_OK :: pre').
        by rewrite app_nil_r, <- app_assoc.
      * rewrite Forall_forall in Hok. specialize (Hok _ Hev). congruence.
    + intros rc0 Hev.
      assert (forall rc0', EvWaitSetFini rc0' ∉
                EvWaitSetClear rc_clear :: regs ++ rest) as Hnot.
      { intros rc0' Hin. apply elem_of_cons in Hin as [?|Hin]; [done|].
        apply elem_of_app in Hin as [Hin|Hin].
        - by apply (elem_of_stage _ _ _ Hregs) in Hin.
        - by destruct (Hrest _ Hin). }
      apply elem_of_app in Hev as [Hev|Hev]; [|by apply Hnot in Hev].
      destruct Hprep as [|rc0' ws Hvalid]; [by apply elem_of_nil in Hev|].
      rewrite !elem_of_cons, elem_of_nil in Hev.
      destruct Hev as [[= ->]|[?|?]]; try done.
      split; [done|]. eexists. split; [done|].
      intros rc1 Hin. apply elem_of_cons in Hin as [?|Hin]; [done|].
      by apply Hnot in Hin.
    + intros Hvalid. rewrite (prepared_valid _ _ _ Hprep Hvalid). simpl.
      split; [by eexists _, _|].
      intros sizes ctx rc_init Hin.
      apply elem_of_cons in Hin as [?|Hin]; [done|].
      apply elem_of_app in Hin as [Hin|Hin].
      * by apply (elem_of_stage _ _ _ Hregs) in Hin.
      * by destruct (Hrest _ Hin).
  - split_and!.
    + intros ev rc_ev Hev Hcode.
      rewrite !elem_of_cons, elem_of_nil in Hev.
      destruct Hev as [->|[->|?]]; try done.
      simpl in Hcode. rewrite (proj2 (ret_is_false _ _) Hrc) in Hcode.
      split; [congruence|]. by exists [EvWaitSetFini rc0].
    + intros rc1 Hev.
      rewrite !elem_of_cons, elem_of_nil in Hev.
      destruct Hev as [[= ->]|[?|?]]; try done.
      split; [done|]. eexists. split; [done|].
      intros rc2 Hin. rewrite !elem_of_cons, elem_of_nil in Hin.
      by destruct Hin as [?|?].
    + congruence.
Qed.

Lemma spin_some_run_leaves ex timeout rc ex1 new s0 w1 :
  spin_some_run ex timeout rc ex1 new -> wf ex ->
  replay new s0 = Some (wait_set ex1, w1) ->
  setup_failure_leaves ex s0 ex1 w1 new.
Proof.
  intros Hrun Hwf Hplay.
  split; [by eapply spin_some_run_same_table|].
  intros ev rc_ev Hev Hcode.
  destruct (spin_some_run_setup_failure _ _ _ _ _ Hrun Hwf) as (Hlast & _).
  destruct (Hlast _ _ Hev Hcode) as (_ & pre & ->).
  apply replay_app_inv in Hplay as (s & Hpre & Hfail).
  rewrite replay_singleton in Hfail. by exists pre, s.
Qed.

Lemma spin_some_restarts ex ex1 :
  wf ex -> same_table ex ex1 -> next_spin_some_restarts ex ex1.
Proof.
  intros Hwf Hsame timeout e rc ex2 e2 Hspin.
  pose proof (wf_same_table _ _ Hwf Hsame) as Hwf1.
  pose proof Hsame as (_ & Hidx & Hinfo & Hctx & _).
  apply (spin_some_calls _ _ _ _ _ _ Hwf1) in Hspin as (new & Hlog & Hplay & Hrun).
  exists new. split; [done|]. split; [done|].
  destruct (spin_some_run_setup_failure _ _ _ _ _ Hrun Hwf1) as (_ & Hfini & Hkept).
  destruct (spin_some_run_registers_from_first _ _ _ _ _ _ _ Hrun Hwf1 Hplay)
    as (Hpre & Hall & Hcases).
  split_and!.
  - intros Hvalid. destruct (Hkept Hvalid) as [(rc_clear & rest & ->) Hinit].
    exists rc_clear, rest. split; [done|].
    apply Forall_forall. intros ev Hev Hstage.
    destruct ev; try done.
    + destruct (Hfini _ Hev) as [? _]. congruence.
    + by apply Hinit in Hev.
  - intros Hvalid.
    destruct (spin_some_run_shape _ _ _ _ _ Hrun Hwf1)
      as [(exa & pre & rc_clear & regs & rest & -> & Hprep & _)
         |(_ & Hrc & rc0 & ->)].
    + destruct (prepared_absent _ _ _ Hprep Hvalid) as [rc0 ->].
      rewrite Hinfo, Hctx. by eexists _, _, _.
    + rewrite Hinfo, Hctx. by eexists _, _, _.
  - split; [by rewrite <- Hidx|]. split; [|by rewrite <- Hidx].
    intros ev Hev Hkind.
    destruct (Hall _ Hev Hkind) as (j & rc_ev & k & Hj & Hreg).
    exists j, rc_ev, k. split; [lia|].
    eapply registration_same_resource; [..|exact Hreg]; symmetry;
      by apply (same_table_field _ ex ex1 j).
Qed.

(** C7, as the source has it.  If the construction of the wait set, its
    clearing or the registration of a handle fails during [spin_some], the
    code of the failing call is returned to the caller and nothing is
    called after it: there is no wait and no round, and the wait set is not
    finalized.  The executor keeps its table, and its wait set is the one
    that the failing call has left.  The next [spin_some] builds a wait set
    only when it finds none; when it finds a valid one it starts by
    clearing it, without finalizing or building one; in both cases it
    registers the handles again from the first. *)
Theorem spin_some_setup_failure ex timeout e rc ex1 e1 :
  wf ex ->
  rcle_let_executor_spin_some ex timeout e = (rc, ex1, e1) ->
  exists new, log e1 = log e ++ new /\
    setup_failure_reported ex rc new /\
    setup_failure_leaves ex (wait_set ex, world e) ex1 (world e1) new /\
    next_spin_some_restarts ex ex1.
Proof.
  intros Hwf Hrun.
  apply (spin_some_calls _ _ _ _ _ _ Hwf) in Hrun as (new & Hlog & Hplay & Hrun).
  exists new. split_and!; [done| | |].
  - by eapply spin_some_run_setup_failure.
  - by eapply spin_some_run_leaves.
  - apply spin_some_restarts; [done|]. by eapply spin_some_run_same_table.
Qed.

(** ** C10: timers run on expiry only *)

Lemma spin_some_run_timer_calls ex timeout rc ex1 new s0 w1 :
  spin_some_run ex timeout rc ex1 new -> wf ex ->
  replay new s0 = Some (wait_set ex1, w1) ->
  spin_timer_calls_confirmed ex timeout s0 ex1 new.
Proof.
  intros Hrun Hwf Hplay i t rc_call Hcall.
  destruct (spin_some_run_outcome _ _ _ _ _ _ _ Hrun Hwf Hplay)
    as [(exa & pre & regs & rc_wait & post & ex4 & w4 & Hprep & -> & Hpos & Hregs
         & Hok & Hslots & Hplay4 & Hsame & Hround)
       |(_ & Hsetup & _)].
  2: { rewrite Forall_forall in Hsetup. by specialize (Hsetup _ Hcall). }
  pose proof (wf_same_table _ _ Hwf Hsame) as Hwf4.
  pose proof Hsame as (_ & Hidx & _).
  destruct (prepared_setup _ _ _ Hprep) as [_ Hstage].
  assert (EvTimerCall i t rc_call ∈ post) as Hcall'.
  { apply elem_of_app in Hcall as [Hcall|Hcall].
    { by apply (elem_of_stage _ _ _ Hstage) in Hcall. }
    apply elem_of_cons in Hcall as [?|Hcall]; [done|].
    apply elem_of_app in Hcall as [Hcall|Hcall].
    { by apply (elem_of_stage _ _ _ (registration_stage _ Hregs)) in Hcall. }
    by apply elem_of_cons in Hcall as [?|Hcall]. }
  destruct (round_timer_calls _ _ _ _ _ Hwf4 Hround _ _ _ Hcall')
    as (Htype & -> & Hready & Hcheck).
  destruct (round_invoked_executed _ _ _ _ _ i Hround) as [Hi _].
  { right. by eexists _, _. }
  rewrite (same_table_field h_type ex ex4 i) in Htype by done.
  rewrite (same_table_field h_timer ex ex4 i) in * by done.
  destruct (Hslots i) as (k & ev & Hev & Hreg & Hk); [lia|].
  split; [done|]. split; [done|].
  exists (pre ++ EvWaitSetClear RCL_RET_OK :: regs), rc_wait, post, k, w4.
  rewrite (round_wait_set _ _ _ _ _ Hround).
  split_and!.
  - by rewrite <- app_assoc.
  - apply elem_of_app. right. right.
    destruct Hreg as [Hkind|Hkind]; [congruence|done].
  - by rewrite <- app_assoc.
  - by rewrite <- Hk.
  - done.
Qed.

(** *** The policy of a timer after any sequence of calls *)

Lemma same_kinds_refl ex : same_kinds ex ex.
Proof. by intros j. Qed.

Lemma same_kinds_trans ex1 ex2 ex3 :
  same_kinds ex1 ex2 -> same_kinds ex2 ex3 -> same_kinds ex1 ex3.
Proof.
  intros H12 H23 j. destruct (H12 j) as [? ?], (H23 j) as [? ?].
  split; congruence.
Qed.

Lemma same_kinds_update_handle ex i f :
  (forall h, h_type (f h) = h_type h) ->
  (forall h, h_invocation (f h) = h_invocation h) ->
  same_kinds ex (update_handle ex i f).
Proof. intros Ht Hi j. split; by apply handle_update_handle_field. Qed.

Lemma same_kinds_timers ex ex' :
  same_kinds ex ex' -> timers_on_new_data ex -> timers_on_new_data ex'.
Proof.
  intros Hsame Htimers j Htype. destruct (Hsame j) as [Ht Hi].
  rewrite Hi. apply Htimers. congruence.
Qed.

Lemma read_loop_same_kinds ws fuel : forall i rc ex e fl ex1 e1,
  read_loop fuel i rc ex ws e = (fl, ex1, e1) -> same_kinds ex ex1.
Proof.
  induction fuel as [|fuel IH]; intros i rc ex e fl ex1 e1; simpl.
  - intros [= <- <- <-]. apply same_kinds_refl.
  - destruct (loop_continues ex i);
      [|intros [= <- <- <-]; apply same_kinds_refl].
    destruct (read_input_data_spec ex ws i e) as (rc1 & b & evs & w' & -> & _).
    assert (same_kinds ex (update_handle ex i (with_data_available b))) as Hstep
      by (by apply same_kinds_update_handle).
    destruct (negb (ret_is rc1 RCL_RET_OK) && _).
    + by intros [= <- <- <-].
    + intros Hloop. eapply same_kinds_trans; [exact Hstep|by eapply IH].
Qed.

Lemma let_scheduling_same_kinds ex ws e rc ex1 e1 :
  _rcle_let_scheduling ex ws e = (rc, ex1, e1) -> same_kinds ex ex1.
Proof.
  unfold _rcle_let_scheduling.
  destruct (read_loop _ _ _ _ _ _) as [[fl ex2] e2] eqn:Hread.
  apply read_loop_same_kinds in Hread.
  destruct fl as [rc1|rc1]; [by intros [= <- <- <-]|].
  destruct (execute_loop _ _ _ _ _ _) as [fl2 e3]. by intros [= <- <- <-].
Qed.

Lemma register_loop_same_kinds fuel : forall i rc ex e fl ex1 e1,
  register_loop fuel i rc ex e = (fl, ex1, e1) -> same_kinds ex ex1.
Proof.
  induction fuel as [|fuel IH]; intros i rc ex e fl ex1 e1.
  - simpl. intros [= <- <- <-]. apply same_kinds_refl.
  - rewrite register_loop_unfold. cbv zeta.
    destruct (loop_continues ex i);
      [|intros [= <- <- <-]; apply same_kinds_refl].
    destruct (h_type _).
    + destruct (call_wait_set_add_subscription _ _ _ _) as [[[rc1 k] ws1] e2].
      destruct (negb (ret_is rc1 RCL_RET_OK)); [by intros [= <- <- <-]|].
      intros Hloop. apply IH in Hloop.
      eapply same_kinds_trans; [|exact Hloop].
      by apply (same_kinds_update_handle (set_wait_set ex ws1)).
    + destruct (call_wait_set_add_timer _ _ _ _) as [[[rc1 k] ws1] e2].
      destruct (negb (ret_is rc1 RCL_RET_OK)); [by intros [= <- <- <-]|].
      intros Hloop. apply IH in Hloop.
      eapply same_kinds_trans; [|exact Hloop].
      by apply (same_kinds_update_handle (set_wait_set ex ws1)).
    + intros [= <- <- <-]. apply same_kinds_refl.
Qed.

Lemma spin_some_same_kinds ex timeout e rc ex1 e1 :
  rcle_let_executor_spin_some ex timeout e = (rc, ex1, e1) -> same_kinds ex ex1.
Proof.
  assert (forall exa ea, spin_some_prepared exa timeout ea = (rc, ex1, e1) ->
            same_kinds exa ex1) as Hprepared.
  { intros exa ea. unfold spin_some_prepared.
    destruct (call_wait_set_clear _ _) as [[rc2 ws2] e2].
    destruct (negb _); [by intros [= <- <- <-]|].
    destruct (register_loop _ _ _ _ _) as [[fl ex3] e3] eqn:Hreg.
    apply register_loop_same_kinds in Hreg.
    destruct fl as [rc3|rc3]; [by intros [= <- <- <-]|].
    destruct (call_wait _ _ _) as [[rc4 ws4] e4].
    intros Hround%let_scheduling_same_kinds.
    eapply same_kinds_trans; [exact Hreg|exact Hround]. }
  unfold rcle_let_executor_spin_some, ensure_wait_set.
  destruct (negb _); [|by apply Hprepared].
  destruct (call_wait_set_fini _ _) as [[rc0 ws0] e0].
  destruct (call_wait_set_init _ _ _ _) as [[rc1 ws1] e1'].
  destruct (negb _); [by intros [= <- <- <-]|].
  intros Hrun%Hprepared. exact Hrun.
Qed.

Lemma spin_one_period_same_kinds ex period e rc ex1 e1 :
  rcle_let_executor_spin_one_period ex period e = (rc, ex1, e1) ->
  same_kinds ex ex1.
Proof.
  unfold rcle_let_executor_spin_one_period.
  destruct (if (invocation_time ex =? 0)%Z then _ else _) as [ex0 e0] eqn:Hlatch.
  assert (same_kinds ex ex0) as Hsame0.
  { destruct (invocation_time ex =? 0)%Z.
    - destruct (call_system_time_now e) as [[? now] ?].
      by injection Hlatch as <- <-.
    - by injection Hlatch as <- <-. }
  destruct (rcle_let_executor_spin_some _ _ _) as [[ret ex2] e2] eqn:Hrun.
  apply spin_some_same_kinds in Hrun.
  pose proof (same_kinds_trans _ _ _ Hsame0 Hrun) as Hsame.
  destruct (negb _); [by intros [= <- <- <-]|].
  destruct (call_system_time_now e2) as [[ret2 end_time_point] e3].
  by intros [= <- <- <-].
Qed.

Lemma timers_on_new_data_no_table ex :
  handles ex = None -> timers_on_new_data ex.
Proof. intros Hnone j. unfold handle, handles_of. by rewrite Hnone. Qed.

Lemma timers_on_new_data_do_call c ex e rc ex' e' :
  timers_on_new_data ex -> do_call c ex e = (rc, ex', e') ->
  timers_on_new_data ex'.
Proof.
  intros Htimers. destruct c; simpl.
  - unfold rcle_let_executor_init.
    destruct ctx as [c|], alloc as [a|]; try (by intros [= <- <- <-]).
    destruct (allocator_is_valid a); simpl; [|by intros [= <- <- <-]].
    destruct (number_of_handles =? 0); [by intros [= <- <- <-]|].
    destruct (allocate_ok a _); intros [= <- <- <-];
      [|by apply timers_on_new_data_no_table].
    intros j. unfold handle, handles_of. simpl.
    destruct (decide (j < number_of_handles)) as [Hj|Hj].
    + by rewrite lookup_total_replicate_2.
    + rewrite list_lookup_total_alt.
      by rewrite (proj1 (lookup_replicate_None _ _ _)) by lia.
  - unfold rcle_let_executor_set_timeout.
    destruct (_rcle_let_executor_is_valid ex); by intros [= <- <- <-].
  - unfold rcle_let_executor_fini.
    destruct (_rcle_let_executor_is_valid ex); [|by intros [= <- <- <-]].
    simpl. destruct (rcl_wait_set_is_valid (wait_set ex)).
    + destruct (call_wait_set_fini _ _) as [[rc0 ws0] e0].
      intros [= <- <- <-]. by apply timers_on_new_data_no_table.
    + intros [= <- <- <-]. by apply timers_on_new_data_no_table.
  - unfold rcle_let_executor_add_subscription.
    destruct subscription as [s|], msg as [m|], callback as [cb|];
      try (by intros [= <- <- <-]).
    destruct (max_handles ex <=? index ex); [by intros [= <- <- <-]|].
    destruct (invalidate_wait_set _ _) as [ex3 e3] eqn:Hinv.
    apply invalidate_wait_set_spec in Hinv as (-> & _).
    intros [= <- <- <-] j. simpl.
    change (handle (set_info (set_wait_set (set_index ?x _) _) _) j)
      with (handle x j).
    rewrite handle_update_handle. case_decide as Hd; [done|]. apply Htimers.
  - unfold rcle_let_executor_add_timer.
    destruct timer as [t|]; [|by intros [= <- <- <-]].
    destruct (max_handles ex <=? index ex); [by intros [= <- <- <-]|].
    destruct (invalidate_wait_set _ _) as [ex3 e3] eqn:Hinv.
    apply invalidate_wait_set_spec in Hinv as (-> & _).
    intros [= <- <- <-] j. simpl.
    change (handle (set_info (set_wait_set (set_index ?x _) _) _) j)
      with (handle x j).
    rewrite handle_update_handle. case_decide as Hd; [done|]. apply Htimers.
  - intros Hspin%spin_some_same_kinds. by eapply same_kinds_timers.
  - intros Hspin%spin_one_period_same_kinds. by eapply same_kinds_timers.
Qed.

(** Whatever calls of the interface are made and whatever they return,
    every handle of type TIMER has the policy ON_NEW_DATA. *)
Lemma after_calls_timers ex : after_calls ex -> timers_on_new_data ex.
Proof.
  induction 1 as [|c ex e rc ex' e' _ IH Hcall].
  - by apply timers_on_new_data_no_table.
  - by eapply timers_on_new_data_do_call.
Qed.

Lemma reachable_after_calls ex : reachable ex -> after_calls ex.
Proof.
  induction 1 as [|c ex e rc ex' e' _ IH Hcall _]; [constructor|].
  by eapply after_call.
Qed.

(** *** An executor with a table is well formed *)

Lemma init_outcome ex ctx n alloc rc ex' :
  rcle_let_executor_init ex ctx n alloc = (rc, ex') ->
  ex' = ex \/ handles ex' = None \/ wf ex'.
Proof.
  unfold rcle_let_executor_init.
  destruct ctx as [c|], alloc as [a|]; try (intros [= <- <-]; by left).
  destruct (allocator_is_valid a); simpl; [|intros [= <- <-]; by left].
  destruct (n =? 0) eqn:Hn; [intros [= <- <-]; by left|].
  destruct (allocate_ok a (table_bytes n)); intros [= <- <-];
    [|right; by left].
  right. right.
  assert (forall i, handle
    (set_info
       (set_handles
          {| context := Some c; handles := handles ex; max_handles := n;
             index := 0; allocator := Some a;
             wait_set := rcl_get_zero_initialized_wait_set; info := info ex;
             timeout_ns := DEFAULT_WAIT_TIMEOUT_MS;
             invocation_time := invocation_time ex |}
          (Some (replicate n (rcle_handle_init n))))
       rcle_handle_size_zero_init) i = rcle_handle_init n \/
    handle
    (set_info
       (set_handles
          {| context := Some c; handles := handles ex; max_handles := n;
             index := 0; allocator := Some a;
             wait_set := rcl_get_zero_initialized_wait_set; info := info ex;
             timeout_ns := DEFAULT_WAIT_TIMEOUT_MS;
             invocation_time := invocation_time ex |}
          (Some (replicate n (rcle_handle_init n))))
       rcle_handle_size_zero_init) i = rcle_handle_init 0) as Hh.
  { intros i. unfold handle, handles_of. simpl.
    destruct (decide (i < n)) as [Hi|Hi].
    - left. by apply lookup_total_replicate_2.
    - right. rewrite list_lookup_total_alt.
      by rewrite (proj1 (lookup_replicate_None _ _ _)) by lia. }
  split; simpl; try lia.
  - unfold handles_of. simpl. apply length_replicate.
  - intros i _. by destruct (Hh i) as [-> | ->].
  - intros i. by destruct (Hh i) as [-> | ->].
Qed.

Lemma loop_continues_no_table ex i :
  handles ex = None -> loop_continues ex i = false.
Proof.
  intros Hnone. unfold loop_continues, handle, handles_of. rewrite Hnone.
  apply andb_false_r.
Qed.

Lemma register_loop_no_table fuel i rc ex e :
  handles ex = None -> register_loop fuel i rc ex e = (Next rc, ex, e).
Proof.
  intros Hnone. destruct fuel as [|fuel]; [done|].
  by rewrite register_loop_unfold, loop_continues_no_table.
Qed.

Lemma read_loop_no_table ws fuel i rc ex e :
  handles ex = None -> read_loop fuel i rc ex ws e = (Next rc, ex, e).
Proof.
  intros Hnone. destruct fuel as [|fuel]; [done|].
  simpl. by rewrite loop_continues_no_table.
Qed.

Lemma execute_loop_no_table ws fuel i rc ex e :
  handles ex = None -> execute_loop fuel i rc ex ws e = (Next rc, e).
Proof.
  intros Hnone. destruct fuel as [|fuel]; [done|].
  simpl. by rewrite loop_continues_no_table.
Qed.

Lemma spin_some_no_table ex timeout e rc ex1 e1 :
  handles ex = None ->
  rcle_let_executor_spin_some ex timeout e = (rc, ex1, e1) ->
  handles ex1 = None.
Proof.
  intros Hnone.
  assert (forall exa ea, handles exa = None ->
            spin_some_prepared exa timeout ea = (rc, ex1, e1) ->
            handles ex1 = None) as Hprepared.
  { intros exa ea Ha. unfold spin_some_prepared.
    destruct (call_wait_set_clear _ _) as [[rc2 ws2] e2].
    destruct (negb _); [by intros [= <- <- <-]|].
    rewrite register_loop_no_table by done.
    destruct (call_wait _ _ _) as [[rc4 ws4] e4].
    unfold _rcle_let_scheduling.
    rewrite read_loop_no_table by done.
    rewrite execute_loop_no_table by done.
    by intros [= <- <- <-]. }
  unfold rcle_let_executor_spin_some, ensure_wait_set.
  destruct (negb _); [|by apply Hprepared].
  destruct (call_wait_set_fini _ _) as [[rc0 ws0] e0].
  destruct (call_wait_set_init _ _ _ _) as [[rc1 ws1] e1'].
  destruct (negb _); [by intros [= <- <- <-]|].
  by apply Hprepared.
Qed.

Lemma do_call_no_table c ex e rc ex' e' :
  handles ex = None -> do_call c ex e = (rc, ex', e') ->
  handles ex' = None \/ wf ex'.
Proof.
  intros Hnone. destruct c; simpl.
  - destruct (rcle_let_executor_init _ _ _ _) as [rc0 ex0] eqn:Hinit.
    intros [= <- <- <-].
    destruct (init_outcome _ _ _ _ _ _ Hinit) as [->|[?|?]]; auto.
  - unfold rcle_let_executor_set_timeout.
    destruct (_rcle_let_executor_is_valid ex); intros [= <- <- <-]; by left.
  - unfold rcle_let_executor_fini, _rcle_let_executor_is_valid.
    rewrite Hnone. intros [= <- <- <-]. by left.
  - unfold rcle_let_executor_add_subscription.
    destruct subscription as [s|], msg as [m|], callback as [cb|];
      try (intros [= <- <- <-]; by left).
    destruct (max_handles ex <=? index ex); [intros [= <- <- <-]; by left|].
    destruct (invalidate_wait_set _ _) as [ex3 e3] eqn:Hinv.
    apply invalidate_wait_set_spec in Hinv as (-> & _).
    intros [= <- <- <-]. left. simpl. by rewrite Hnone.
  - unfold rcle_let_executor_add_timer.
    destruct timer as [t|]; [|intros [= <- <- <-]; by left].
    destruct (max_handles ex <=? index ex); [intros [= <- <- <-]; by left|].
    destruct (invalidate_wait_set _ _) as [ex3 e3] eqn:Hinv.
    apply invalidate_wait_set_spec in Hinv as (-> & _).
    intros [= <- <- <-]. left. simpl. by rewrite Hnone.
  - intros Hspin. left. by eapply spin_some_no_table.
  - unfold rcle_let_executor_spin_one_period.
    destruct (if (invocation_time ex =? 0)%Z then _ else _) as [ex0 e0] eqn:Hlatch.
    assert (handles ex0 = None) as Hnone0.
    { destruct (invocation_time ex =? 0)%Z.
      - destruct (call_system_time_now e) as [[? now] ?].
        by injection Hlatch as <- <-.
      - by injection Hlatch as <- <-. }
    destruct (rcle_let_executor_spin_some _ _ _) as [[ret ex2] e2] eqn:Hrun.
    apply (spin_some_no_table _ _ _ _ _ _ Hnone0) in Hrun.
    destruct (negb _); [intros [= <- <- <-]; by left|].
    destruct (call_system_time_now e2) as [[ret2 end_time_point] e3].
    intros [= <- <- <-]. by left.
Qed.

(** Whatever calls of the interface are made and whatever they return, an
    executor that has a table is well formed. *)
Lemma after_calls_wf ex : after_calls ex -> is_Some (handles ex) -> wf ex.
Proof.
  intros Hcalls.
  assert (handles ex = None \/ wf ex) as [Hnone|Hwf]; [|by rewrite Hnone; intros []|done].
  induction Hcalls as [|c ex e rc ex' e' _ IH Hcall]; [by left|].
  destruct IH as [Hnone|Hwf]; [by eapply do_call_no_table|].
  destruct c; try (right; by eapply (wf_do_call _ ex)).
  simpl in Hcall.
  destruct (rcle_let_executor_init _ _ _ _) as [rc0 ex0] eqn:Hinit.
  injection Hcall as <- <- <-.
  destruct (init_outcome _ _ _ _ _ _ Hinit) as [->|[?|?]]; auto.
Qed.

(** C10.  [add_timer] takes no policy and stores ON_NEW_DATA; after any
    sequence of calls of the interface, whatever they return, each handle
    of type TIMER has the policy ON_NEW_DATA, and an executor that has a
    table is well formed.  So in a round on a well-formed table, whatever
    flags and slots the handles hold and whatever the wait set says, the
    call primitive of a timer is called only when its wait-set slot was
    ready and [rcl_timer_is_ready] confirmed the expiry in that round, and
    it is called then, when the execution phase comes to the timer.  In a
    call of [spin_some] the timer called has been registered by this call,
    its slot is ready in the wait set that [rcl_wait] has left, and its
    expiry was confirmed after the wait. *)
Theorem timers_run_on_expiry_only :
  (forall ex, after_calls ex ->
     timers_on_new_data ex /\ (is_Some (handles ex) -> wf ex)) /\
  (forall ex, reachable ex -> after_calls ex /\ wf ex) /\
  (forall ex t e ex' e',
     wf ex ->
     rcle_let_executor_add_timer ex t e = (RCL_RET_OK, ex', e') ->
     h_type (handle ex' (index ex)) = TIMER /\
     h_invocation (handle ex' (index ex)) = ON_NEW_DATA /\
     timers_on_new_data ex') /\
  (forall ex ws e rc ex1 e1,
     wf ex ->
     _rcle_let_scheduling ex ws e = (rc, ex1, e1) ->
     exists new, log e1 = log e ++ new /\
       replay new (ws, world e) = Some (ws, world e1) /\
       timer_calls_confirmed ws ex new /\
       confirmed_timers_called ws ex new) /\
  (forall ex timeout e rc ex1 e1,
     wf ex ->
     rcle_let_executor_spin_some ex timeout e = (rc, ex1, e1) ->
     exists new, log e1 = log e ++ new /\
       replay new (wait_set ex, world e) = Some (wait_set ex1, world e1) /\
       spin_timer_calls_confirmed ex (to_int64 timeout) (wait_set ex, world e)
         ex1 new).
Proof.
  split_and!.
  - intros ex Hcalls. split; [by apply after_calls_timers|].
    by apply after_calls_wf.
  - intros ex Hreach. split; [by apply reachable_after_calls|].
    by apply reachable_wf.
  - intros ex t e ex' e' Hwf Hadd.
    pose proof (wf_add_timer _ _ _ _ _ _ Hwf Hadd) as Hwf'.
    apply add_timer_ok in Hadd as (t' & -> & _ & _ & _ & _ & -> & _);
      [|apply Hwf].
    split_and!; [done|done|exact (wf_timer _ Hwf')].
  - intros ex ws e rc ex1 e1 Hwf Hround.
    apply (let_scheduling_run _ _ _ _ _ _ Hwf) in Hround
      as (new & Hlog & Hplay & Hround).
    exists new. split_and!; [done|done| |].
    + by eapply round_timer_calls.
    + by eapply round_confirmed_timers_called.
  - intros ex timeout e rc ex1 e1 Hwf Hspin.
    apply (spin_some_calls _ _ _ _ _ _ Hwf) in Hspin
      as (new & Hlog & Hplay & Hrun).
    exists new. split_and!; [done|done|].
    by eapply spin_some_run_timer_calls.
Qed.

(** ** C8: the result of the wait *)

Lemma round_empty ws ex rc ex1 new :
  round ws ex rc ex1 new -> index ex = 0 -> rc = RCL_RET_OK /\ new = [].
Proof.
  intros Hround Hidx.
  destruct Hround as [rc ex1 new1 Hin|rc1 ex1 new1 fl new2 Hin Hex];
    rewrite Hidx in *.
  - by apply intake_phase_end in Hin as [? _].
  - apply intake_phase_end in Hin as [[= <-] ->].
    remember 0 as n eqn:Hn in Hex at 2.
    destruct Hex; [done|lia..].
Qed.

(** Once [spin_some] has waited, what it returns is what the round
    returns: the code of [rcl_wait] is replaced by it.  With an empty table
    the call returns [RCL_RET_OK] whatever the wait reported. *)
Lemma spin_some_drops_wait_result ex timeout e rc ex1 e1 :
  wf ex ->
  rcle_let_executor_spin_some ex timeout e = (rc, ex1, e1) ->
  exists new, log e1 = log e ++ new /\
    forall t rc_wait, EvWait t rc_wait ∈ new ->
      (exists pre ws4 ex4 post,
         new = pre ++ EvWait (to_int64 timeout) rc_wait :: post /\
         round ws4 ex4 rc ex1 post) /\
      (index ex = 0 -> rc = RCL_RET_OK).
Proof.
  intros Hwf Hrun.
  apply (spin_some_sound _ _ _ _ _ _ Hwf) in Hrun as (new & Hlog & Hrun).
  exists new. split; [done|]. intros t rc_wait Hwait.
  destruct (spin_some_run_shape _ _ _ _ _ Hrun Hwf)
    as [(exa & pre & rc_clear & regs & rest & -> & Hprep & Hregs%registration_stage & Hcases)
       |(Hvalid & Hrc & rc0 & ->)].
  - apply elem_of_app in Hwait as [Hwait|Hwait].
    { destruct Hprep; [by apply elem_of_nil in Hwait|].
      rewrite !elem_of_cons, elem_of_nil in Hwait. by destruct Hwait as [?|[?|?]]. }
    apply elem_of_cons in Hwait as [?|Hwait]; [done|].
    apply elem_of_app in Hwait as [Hwait|Hwait];
      [by apply (elem_of_stage _ _ _ Hregs) in Hwait|].
    destruct Hcases as [(_ & _ & _ & ->)|[(_ & -> & _)
      |(_ & _ & _ & rc_wait0 & ws4 & ex4 & post & -> & Hround & Hidx & _)]];
      try (by apply elem_of_nil in Hwait).
    apply elem_of_cons in Hwait as [[= -> ->]|Hwait];
      [|by apply (elem_of_stage _ _ _ (round_stage _ _ _ _ _ Hround)) in Hwait].
    split.
    + exists (pre ++ EvWaitSetClear rc_clear :: regs), ws4, ex4, post.
      split; [|done]. by rewrite <- app_assoc.
    + intros Hempty. apply (round_empty _ _ _ _ _ Hround). congruence.
  - rewrite !elem_of_cons, elem_of_nil in Hwait. by destruct Hwait as [?|[?|?]].
Qed.

(** ** C9: one period *)

Lemma to_uint64_small z : (0 <= z < 2 ^ 64)%Z -> to_uint64 z = z.
Proof. intros. unfold to_uint64. by apply Z.mod_small. Qed.

Lemma to_int64_small z : (- 2 ^ 63 <= z < 2 ^ 63)%Z -> to_int64 z = z.
Proof.
  intros Hz. unfold to_int64, to_uint64.
  change (2 ^ 63)%Z with 9223372036854775808%Z in *.
  change (2 ^ 64)%Z with 18446744073709551616%Z in *.
  destruct (decide (0 <= z)%Z) as [Hpos|Hneg].
  - rewrite Z.mod_small by lia.
    destruct (z <? 9223372036854775808)%Z eqn:Hlt; [done|].
    apply Z.ltb_ge in Hlt. lia.
  - assert (z mod 18446744073709551616 = z + 18446744073709551616)%Z as ->.
    { symmetry. apply (Z.mod_unique _ _ (-1)%Z); lia. }
    destruct (z + 18446744073709551616 <? 9223372036854775808)%Z eqn:Hlt; [|lia].
    apply Z.ltb_lt in Hlt. lia.
Qed.

Lemma to_useconds_small z : (0 <= z < 2 ^ 32)%Z -> to_useconds z = z.
Proof. intros. unfold to_useconds. by apply Z.mod_small. Qed.

Lemma wf_latched ex e ex0 e0 : wf ex -> latched ex e = (ex0, e0) -> wf ex0.
Proof.
  intros Hwf. unfold latched. destruct (invocation_time ex =? 0)%Z.
  - destruct (call_system_time_now e) as [[? now] ?].
    intros [= <- <-]. by apply wf_set_invocation_time.
  - by intros [= <- <-].
Qed.

(** C9, as the source has it.  A call of [spin_one_period] with period P
    whose round returns [RCL_RET_OK] or [RCL_RET_TIMEOUT] advances
    [invocation_time] by exactly P (on the first call [invocation_time] is
    first latched to the current time); if the round finishes before
    [invocation_time + P] the call sleeps for the remaining time, if it
    overruns there is no sleep.  A call whose round fails with another code
    returns that code at once: no sleep, [invocation_time] not advanced.
    (Times are 64-bit values; the statement is for times that do not
    overflow.) *)
Theorem spin_one_period_keeps_period ex period e ex0 e0 ret ex1 e1 :
  wf ex ->
  latched ex e = (ex0, e0) ->
  rcle_let_executor_spin_some ex0 (timeout_ns ex0) e0 = (ret, ex1, e1) ->
  period_kept ex period e ex0 ret ex1 e1.
Proof.
  intros Hwf Hlatch Hrun.
  pose proof (wf_latched _ _ _ _ Hwf Hlatch) as Hwf0.
  pose proof (spin_some_same_table _ _ _ _ _ _ Hwf0 Hrun)
    as (_ & _ & _ & _ & _ & _ & Hinv & _).
  assert (rcle_let_executor_spin_one_period ex period e =
    (if negb (ret_is ret RCL_RET_OK || ret_is ret RCL_RET_TIMEOUT)
     then (ret, ex1, e1)
     else
       let '(ret2, end_time_point, e2) := call_system_time_now e1 in
       let sleep_time :=
         to_int64 (to_uint64 (to_uint64 (invocation_time ex1) + period)
                   - to_uint64 end_time_point) in
       let e3 :=
         if (0 <? sleep_time)%Z
         then call_usleep (to_useconds (sleep_time `quot` 1000)) e2
         else e2 in
       (ret2,
        set_invocation_time ex1
          (to_int64 (to_uint64 (invocation_time ex1) + period)), e3))) as Hperiod.
  { unfold rcle_let_executor_spin_one_period. fold (latched ex e).
    by rewrite Hlatch, Hrun. }
  unfold period_kept. split_and!.
  - intros Hzero. unfold latched in Hlatch.
    rewrite (proj2 (Z.eqb_eq _ _) Hzero) in Hlatch.
    unfold call_system_time_now in Hlatch.
    destruct (rcutils_system_time_now (world e)) as [[rc now] w].
    injection Hlatch as <- <-. by exists rc, now, w.
  - intros Hnonzero. unfold latched in Hlatch.
    rewrite (proj2 (Z.eqb_neq _ _) Hnonzero) in Hlatch. by injection Hlatch as <- <-.
  - intros Hok Htimeout. rewrite Hperiod.
    rewrite (proj2 (ret_is_false _ _) Hok), (proj2 (ret_is_false _ _) Htimeout).
    done.
  - intros Hret rc2 end_time w2 Hnow Hinv0 Hperiod0 Hsum Hend.
    rewrite Hperiod.
    assert (ret_is ret RCL_RET_OK || ret_is ret RCL_RET_TIMEOUT = true) as ->.
    { apply orb_true_iff. by rewrite !ret_is_true. }
    simpl negb. cbv iota. unfold call_system_time_now. rewrite Hnow. cbv zeta.
    rewrite Hinv.
    change (2 ^ 63)%Z with 9223372036854775808%Z in *.
    rewrite (to_uint64_small (invocation_time ex0))
      by (change (2 ^ 64)%Z with 18446744073709551616%Z; lia).
    rewrite (to_uint64_small (invocation_time ex0 + period))
      by (change (2 ^ 64)%Z with 18446744073709551616%Z; lia).
    rewrite (to_uint64_small end_time)
      by (change (2 ^ 64)%Z with 18446744073709551616%Z; lia).
    rewrite !to_int64_small
      by (change (2 ^ 63)%Z with 9223372036854775808%Z; lia).
    eexists _, _. split; [done|]. split; [done|]. split.
    + intros Hleft Hfits.
      rewrite (proj2 (Z.ltb_lt _ _)) by lia.
      rewrite to_useconds_small; [simpl; by rewrite <- app_assoc|].
      split; [|done]. apply Z.quot_pos; lia.
    + intros Hover. by rewrite (proj2 (Z.ltb_ge _ _)) by lia.
Qed.

End Proofs.

Section UsageProofs.

Context {W : Type} `{api : RclApi W} `{layout : Layout}.

Implicit Types (ex : rcle_let_executor_t) (e : env W) (ws : rcl_wait_set_t).
Implicit Types (rc : rcl_ret_t) (h : rcle_handle_t) (i j k n fuel : nat).

(** Case analysis on the disjunctions and conjunctions at hand. *)
Ltac decompose_cases :=
  repeat match goal with
         | H : _ \/ _ |- _ => destruct H
         | H : _ /\ _ |- _ => destruct H
         | H : is_Some None |- _ => by destruct H
         end.

(** ** Construction *)

(** When the size of the table does not wrap, [init] asks the allocator
    for the bytes that the table takes. *)
Lemma table_bytes_fits n :
  table_fits n -> table_bytes n = (Z.of_nat n * sizeof_rcle_handle_t)%Z.
Proof.
  unfold table_fits, table_bytes. intros Hfits. apply to_uint64_small.
  split; [|done]. apply Z.mul_nonneg_nonneg; [lia|].
  pose proof sizeof_rcle_handle_t_positive. lia.
Qed.

(** X1.  For a capacity whose table size does not wrap,
    [rcle_let_executor_init] returns [RCL_RET_INVALID_ARGUMENT] exactly
    when the context is NULL, the allocator does not pass its check or the
    number of handles is 0, and then the executor is as it was;
    [RCL_RET_BAD_ALLOC] exactly when the arguments pass and the allocator
    has no memory for the table; [RCL_RET_OK] exactly when the arguments
    pass and the allocator returns memory for the table. *)
Theorem init_checks_arguments ex ctx n alloc :
  table_fits n ->
  ((rcle_let_executor_init ex ctx n alloc).1 = RCL_RET_INVALID_ARGUMENT <->
   ctx = None \/ allocator_accepted alloc = false \/ n = 0) /\
  ((rcle_let_executor_init ex ctx n alloc).1 = RCL_RET_BAD_ALLOC <->
   is_Some ctx /\ allocator_accepted alloc = true /\ n <> 0 /\
   allocation_succeeds alloc n = false) /\
  ((rcle_let_executor_init ex ctx n alloc).1 = RCL_RET_OK <->
   is_Some ctx /\ allocator_accepted alloc = true /\ n <> 0 /\
   allocation_succeeds alloc n = true) /\
  (ctx = None \/ allocator_accepted alloc = false \/ n = 0 ->
   (rcle_let_executor_init ex ctx n alloc).2 = ex).
Proof.
  intros Hfits%table_bytes_fits.
  unfold rcle_let_executor_init, allocator_accepted, allocation_succeeds.
  rewrite Hfits.
  destruct ctx as [c|], alloc as [a|]; simpl;
    try destruct (allocator_is_valid a); simpl;
    try destruct (Nat.eqb_spec n 0) as [->|Hn]; simpl;
    try destruct (allocate_ok a _); simpl;
    (split_and!; [split|split|split|]; try done; intros; decompose_cases;
     try done; eauto 6).
Qed.

(** The table that [init] builds: no handle is initialized. *)
Lemma handle_fresh_table ex n i :
  handles ex = Some (replicate n (rcle_handle_init n)) ->
  handle ex i = rcle_handle_init n \/ handle ex i = rcle_handle_init 0.
Proof.
  intros Hhandles. unfold handle, handles_of. rewrite Hhandles. simpl.
  destruct (decide (i < n)) as [Hi|Hi].
  - left. by apply lookup_total_replicate_2.
  - right. rewrite list_lookup_total_alt.
    by rewrite (proj1 (lookup_replicate_None _ _ _)) by lia.
Qed.

(** X2.  After a successful [rcle_let_executor_init] the executor is valid
    and holds an empty table of the requested capacity: no handle is
    registered, the counts are zero, there is no wait set, and the timeout
    is the default.  The invocation time is not touched. *)
Theorem init_gives_empty_table ex ctx n alloc ex' :
  rcle_let_executor_init ex ctx n alloc = (RCL_RET_OK, ex') ->
  _rcle_let_executor_is_valid ex' = true /\ wf ex' /\
  max_handles ex' = n /\ 0 < n /\ index ex' = 0 /\ registered ex' = [] /\
  (forall i, h_initialized (handle ex' i) = false) /\
  info ex' = rcle_handle_size_zero_init /\
  rcl_wait_set_is_valid (wait_set ex') = false /\
  timeout_ns ex' = DEFAULT_WAIT_TIMEOUT_MS /\
  context ex' = ctx /\ allocator ex' = alloc /\
  invocation_time ex' = invocation_time ex.
Proof.
  unfold rcle_let_executor_init.
  destruct ctx as [c|], alloc as [a|]; try done.
  destruct (allocator_is_valid a); simpl; [|done].
  destruct (Nat.eqb_spec n 0) as [->|Hn]; [done|].
  destruct (allocate_ok a (table_bytes n)); [|done].
  intros [= <-].
  pose proof (handle_fresh_table
    (set_info
       (set_handles
          {| context := Some c; handles := handles ex; max_handles := n;
             index := 0; allocator := Some a;
             wait_set := rcl_get_zero_initialized_wait_set; info := info ex;
             timeout_ns := DEFAULT_WAIT_TIMEOUT_MS;
             invocation_time := invocation_time ex |}
          (Some (replicate n (rcle_handle_init n))))
       rcle_handle_size_zero_init) n) as Hh.
  assert (forall i, h_initialized (handle
    (set_info
       (set_handles
          {| context := Some c; handles := handles ex; max_handles := n;
             index := 0; allocator := Some a;
             wait_set := rcl_get_zero_initialized_wait_set; info := info ex;
             timeout_ns := DEFAULT_WAIT_TIMEOUT_MS;
             invocation_time := invocation_time ex |}
          (Some (replicate n (rcle_handle_init n))))
       rcle_handle_size_zero_init) i) = false) as Hnone.
  { intros i. by destruct (Hh i eq_refl) as [-> | ->]. }
  split.
  { unfold _rcle_let_executor_is_valid. simpl.
    by destruct (Nat.eqb_spec n 0). }
  split.
  { split; simpl; try lia; try done.
    - unfold handles_of. simpl. apply length_replicate.
    - intros i. by destruct (Hh i eq_refl) as [-> | ->]. }
  split_and!; try done; lia.
Qed.

(** X3.  When the allocation fails, [rcle_let_executor_init] leaves an
    executor that has recorded the capacity but has no table.  It is not
    valid: [set_timeout] refuses it and [fini] does nothing to it. *)
Theorem init_bad_alloc_leaves_invalid ex ctx n alloc ex' :
  rcle_let_executor_init ex ctx n alloc = (RCL_RET_BAD_ALLOC, ex') ->
  handles ex' = None /\ max_handles ex' = n /\ 0 < n /\ index ex' = 0 /\
  _rcle_let_executor_is_valid ex' = false /\
  (forall t, rcle_let_executor_set_timeout ex' t = (RCL_RET_ERROR, ex')) /\
  (forall e, rcle_let_executor_fini ex' e = (RCL_RET_OK, ex', e)).
Proof.
  unfold rcle_let_executor_init.
  destruct ctx as [c|], alloc as [a|]; try done.
  destruct (allocator_is_valid a); simpl; [|done].
  destruct (Nat.eqb_spec n 0) as [->|Hn]; [done|].
  destruct (allocate_ok a (table_bytes n)); [done|].
  intros [= <-].
  unfold rcle_let_executor_set_timeout, rcle_let_executor_fini,
    _rcle_let_executor_is_valid. simpl.
  split_and!; try done; lia.
Qed.

(** ** Destruction *)

Lemma fini_leaves_invalid ex e :
  _rcle_let_executor_is_valid ex = true ->
  _rcle_let_executor_is_valid (rcle_let_executor_fini ex e).1.2 = false /\
  max_handles (rcle_let_executor_fini ex e).1.2 = 0.
Proof.
  intros Hvalid. unfold rcle_let_executor_fini. rewrite Hvalid. simpl.
  destruct (rcl_wait_set_is_valid (wait_set ex)); [|done].
  by destruct (call_wait_set_fini _ _) as [[rc0 ws0] e0].
Qed.

(** X4.  [rcle_let_executor_fini] on a valid executor returns
    [RCL_RET_OK] and releases it: the table is gone, capacity, fill mark
    and counts are zero, the timeout is the default again, and there is no
    valid wait set.  [rcl_wait_set_fini] is called exactly when the wait
    set was valid.  Context, allocator and invocation time stay. *)
Theorem fini_releases_executor ex e :
  _rcle_let_executor_is_valid ex = true ->
  exists ex' e',
    rcle_let_executor_fini ex e = (RCL_RET_OK, ex', e') /\
    handles ex' = None /\ max_handles ex' = 0 /\ index ex' = 0 /\
    info ex' = rcle_handle_size_zero_init /\
    timeout_ns ex' = DEFAULT_WAIT_TIMEOUT_MS /\
    rcl_wait_set_is_valid (wait_set ex') = false /\
    _rcle_let_executor_is_valid ex' = false /\
    context ex' = context ex /\ allocator ex' = allocator ex /\
    invocation_time ex' = invocation_time ex /\
    (rcl_wait_set_is_valid (wait_set ex) = true ->
     exists rc0, log e' = log e ++ [EvWaitSetFini rc0]) /\
    (rcl_wait_set_is_valid (wait_set ex) = false ->
     e' = e /\ wait_set ex' = wait_set ex).
Proof.
  intros Hvalid. unfold rcle_let_executor_fini. rewrite Hvalid. simpl.
  destruct (rcl_wait_set_is_valid (wait_set ex)) eqn:Hws.
  - pose proof (rcl_wait_set_fini_invalid (wait_set ex) (world e)) as Hgone.
    unfold call_wait_set_fini.
    destruct (rcl_wait_set_fini (wait_set ex) (world e)) as [[rc0 ws0] w0].
    simpl in Hgone. eexists _, _. split; [done|]. simpl.
    split_and!; try done. intros _. by exists rc0.
  - eexists _, _. split; [done|]. simpl. by split_and!.
Qed.

(** X5.  [rcle_let_executor_fini] always returns [RCL_RET_OK], and a
    second call changes nothing and calls nothing: what the first call
    returned is what the second returns. *)
Theorem fini_twice_is_noop ex e :
  (rcle_let_executor_fini ex e).1.1 = RCL_RET_OK /\
  rcle_let_executor_fini (rcle_let_executor_fini ex e).1.2
    (rcle_let_executor_fini ex e).2 = rcle_let_executor_fini ex e /\
  (forall e0, rcle_let_executor_fini
     rcle_let_executor_get_zero_initialized_executor e0 =
     (RCL_RET_OK, rcle_let_executor_get_zero_initialized_executor, e0)).
Proof.
  assert ((rcle_let_executor_fini ex e).1.1 = RCL_RET_OK) as Hok.
  { unfold rcle_let_executor_fini.
    destruct (_rcle_let_executor_is_valid ex); [|done]. simpl.
    destruct (rcl_wait_set_is_valid (wait_set ex)); [|done].
    by destruct (call_wait_set_fini _ _) as [[rc0 ws0] e0]. }
  split_and!; [done| |done].
  destruct (_rcle_let_executor_is_valid ex) eqn:Hvalid.
  - destruct (fini_leaves_invalid ex e Hvalid) as [Hinvalid _].
    destruct (rcle_let_executor_fini ex e) as [[rc ex'] e'] eqn:Hfini.
    simpl in *. subst rc. unfold rcle_let_executor_fini. by rewrite Hinvalid.
  - unfold rcle_let_executor_fini. rewrite Hvalid. simpl. by rewrite Hvalid.
Qed.

(** X6.  An executor without a table, zero-initialized or finalized,
    refuses configuration and registration: [set_timeout],
    [add_subscription] and [add_timer] return [RCL_RET_ERROR] and change
    nothing. *)
Theorem released_executor_rejects_use ex :
  released ex ->
  (forall t, rcle_let_executor_set_timeout ex t = (RCL_RET_ERROR, ex)) /\
  (forall s m cb inv e,
     rcle_let_executor_add_subscription ex (Some s) (Some m) (Some cb) inv e =
       (RCL_RET_ERROR, ex, e)) /\
  (forall t e, rcle_let_executor_add_timer ex (Some t) e = (RCL_RET_ERROR, ex, e)).
Proof.
  intros Hreleased.
  assert (_rcle_let_executor_is_valid ex = false /\ max_handles ex = 0)
    as [Hinvalid Hmax].
  { destruct Hreleased as [->|(ex0 & e0 & e1 & Hvalid & Hfini)]; [done|].
    destruct (fini_leaves_invalid ex0 e0 Hvalid) as [Hinvalid Hmax].
    by rewrite Hfini in Hinvalid, Hmax. }
  split_and!.
  - intros t. unfold rcle_let_executor_set_timeout. by rewrite Hinvalid.
  - intros. apply add_subscription_full. lia.
  - intros. apply add_timer_full. lia.
Qed.

(** ** Registration: the argument checks *)

(** X7.  [add_subscription] returns [RCL_RET_INVALID_ARGUMENT] exactly
    when the subscription, the message or the callback is NULL, and
    [add_timer] exactly when the timer is NULL; the executor is then as it
    was and nothing is called.  The check comes before the bound check: it
    decides also on a full table. *)
Theorem add_rejects_null_arguments ex e :
  (forall s m cb inv,
     (rcle_let_executor_add_subscription ex s m cb inv e).1.1 =
       RCL_RET_INVALID_ARGUMENT <->
     s = None \/ m = None \/ cb = None) /\
  (forall s m cb inv, s = None \/ m = None \/ cb = None ->
     rcle_let_executor_add_subscription ex s m cb inv e =
       (RCL_RET_INVALID_ARGUMENT, ex, e)) /\
  (forall t,
     (rcle_let_executor_add_timer ex t e).1.1 = RCL_RET_INVALID_ARGUMENT <->
     t = None) /\
  rcle_let_executor_add_timer ex None e = (RCL_RET_INVALID_ARGUMENT, ex, e).
Proof.
  split_and!; [| |intros [t|]|done].
  - intros s m cb inv. split.
    + destruct s, m, cb; eauto.
      intros Hrc. exfalso. revert Hrc.
      unfold rcle_let_executor_add_subscription.
      destruct (max_handles ex <=? index ex); [done|].
      by destruct (invalidate_wait_set _ _).
    + intros Hnull. destruct s, m, cb; by decompose_cases.
  - intros s m cb inv Hnull. destruct s, m, cb; by decompose_cases.
  - split; [|done]. unfold rcle_let_executor_add_timer.
    destruct (max_handles ex <=? index ex); [done|].
    by destruct (invalidate_wait_set _ _).
  - done.
Qed.

(** ** The counts and the table *)

Lemma kinds_seq ex :
  index ex <= length (handles_of ex) ->
  kinds ex = (fun j => h_type (handle ex j)) <$> seq 0 (index ex).
Proof.
  intros Hlen. unfold kinds, registered.
  by rewrite <- (fmap_handle_seq ex (index ex)), <- list_fmap_compose.
Qed.

Lemma kinds_same_table ex ex' :
  wf ex -> same_table ex ex' -> kinds ex' = kinds ex.
Proof.
  intros Hwf Hsame. pose proof (wf_same_table _ _ Hwf Hsame) as Hwf'.
  rewrite !kinds_seq
    by (rewrite wf_length; [apply wf_index|]; done).
  pose proof Hsame as (_ & -> & _). apply list_fmap_ext. intros _ j _.
  by apply (same_table_field h_type ex ex' j).
Qed.

Lemma accounted_same_table ex ex' :
  wf ex -> same_table ex ex' -> accounted ex -> accounted ex'.
Proof.
  intros Hwf Hsame [Hs Ht Hc Hsv Hg Hev Ha].
  pose proof (kinds_same_table _ _ Hwf Hsame) as Hkinds.
  destruct Hsame as (Hmax & _ & Hinfo & _ & Halloc & _ & _ & _ & Hnone & _).
  split; unfold count_kind in *; rewrite ?Hkinds, ?Hinfo, ?Hmax, ?Halloc; try done.
  intros Hsome. apply Ha. destruct (handles ex); [done|].
  destruct Hsome as [l Hl]. rewrite (proj2 Hnone) in Hl; done.
Qed.

Lemma accounted_set_invocation_time ex t :
  accounted ex -> accounted (set_invocation_time ex t).
Proof. intros []. by split. Qed.

Lemma accounted_appended f g ex ex' kind :
  wf ex -> index ex < max_handles ex ->
  appended f g ex ex' ->
  (forall h0, h_type (f h0) = kind) ->
  accounted ex ->
  kinds ex' = kinds ex ++ [kind] /\
  (is_Some (handles ex') -> is_Some (allocator ex') /\ 0 < max_handles ex').
Proof.
  intros Hwf Hroom Happ Hkind Hacc.
  split.
  - unfold kinds. rewrite (registered_appended f g ex ex'); [|by rewrite wf_length|done].
    by rewrite fmap_app; simpl; rewrite Hkind.
  - destruct Happ as (_ & -> & _ & _ & _ & _ & _ & _ & -> & _).
    intros _. apply Hacc. destruct (handles ex) eqn:Hh; [done|].
    pose proof (wf_length _ Hwf) as Hlen. unfold handles_of in Hlen.
    rewrite Hh in Hlen. simpl in Hlen. lia.
Qed.

Lemma count_kind_snoc (l : list rcle_handle_type_t) kind kind' :
  length (filter (fun t => t = kind) (l ++ [kind'])) =
  length (filter (fun t => t = kind) l) + (if decide (kind' = kind) then 1 else 0).
Proof.
  rewrite filter_app, length_app. f_equal.
  rewrite filter_cons, filter_nil. by destruct (decide (kind' = kind)).
Qed.

Lemma accounted_add_subscription ex s m cb inv e rc ex' e' :
  wf ex -> accounted ex ->
  rcle_let_executor_add_subscription ex s m cb inv e = (rc, ex', e') ->
  accounted ex'.
Proof.
  intros Hwf Hacc Hadd.
  destruct (add_subscription_cases _ _ _ _ _ _ _ _ _ Hadd) as [->|[-> _]]; [|done].
  apply add_subscription_ok in Hadd
    as (s' & m' & cb' & -> & -> & -> & Hroom & Happ); [|apply Hwf].
  destruct (accounted_appended _ _ _ _ SUBSCRIPTION Hwf Hroom Happ) as [Hkinds Ha];
    [done..|].
  destruct Hacc as [Hs Ht Hc Hsv Hg Hev _].
  destruct Happ as (_ & _ & _ & _ & _ & Hinfo & _).
  split; unfold count_kind in *; rewrite ?Hkinds, ?count_kind_snoc, ?Hinfo;
    simpl; try done; lia.
Qed.

Lemma accounted_add_timer ex t e rc ex' e' :
  wf ex -> accounted ex ->
  rcle_let_executor_add_timer ex t e = (rc, ex', e') ->
  accounted ex'.
Proof.
  intros Hwf Hacc Hadd.
  destruct (add_timer_cases _ _ _ _ _ _ Hadd) as [->|[-> _]]; [|done].
  apply add_timer_ok in Hadd as (t' & -> & Hroom & Happ); [|apply Hwf].
  destruct (accounted_appended _ _ _ _ TIMER Hwf Hroom Happ) as [Hkinds Ha];
    [done..|].
  destruct Hacc as [Hs Ht Hc Hsv Hg Hev _].
  destruct Happ as (_ & _ & _ & _ & _ & Hinfo & _).
  split; unfold count_kind in *; rewrite ?Hkinds, ?count_kind_snoc, ?Hinfo;
    simpl; try done; lia.
Qed.

Lemma accounted_empty ex :
  index ex = 0 -> info ex = rcle_handle_size_zero_init ->
  (is_Some (handles ex) -> is_Some (allocator ex) /\ 0 < max_handles ex) ->
  accounted ex.
Proof.
  intros Hidx Hinfo Ha.
  split; unfold count_kind, kinds, registered; rewrite ?Hidx, ?Hinfo; done.
Qed.

Lemma accounted_init ex ctx n alloc rc ex' :
  accounted ex ->
  rcle_let_executor_init ex ctx n alloc = (rc, ex') ->
  rc <> RCL_RET_BAD_ALLOC -> accounted ex'.
Proof.
  intros Hacc. unfold rcle_let_executor_init.
  destruct ctx as [c|], alloc as [a|]; try (by intros [= <- <-]).
  destruct (allocator_is_valid a); simpl; [|by intros [= <- <-]].
  destruct (Nat.eqb_spec n 0) as [->|Hn]; [by intros [= <- <-]|].
  destruct (allocate_ok a (table_bytes n)); [|by intros [= <- <-]].
  intros [= <- <-] _. apply accounted_empty; simpl; try done.
  intros _. split; [done|lia].
Qed.

Lemma accounted_fini ex e rc ex' e' :
  accounted ex -> rcle_let_executor_fini ex e = (rc, ex', e') -> accounted ex'.
Proof.
  intros Hacc. unfold rcle_let_executor_fini.
  destruct (_rcle_let_executor_is_valid ex); [|by intros [= <- <- <-]].
  simpl. destruct (rcl_wait_set_is_valid (wait_set ex)).
  - destruct (call_wait_set_fini _ _) as [[rc0 ws] e0].
    intros [= <- <- <-]. apply accounted_empty; simpl; try done; by intros [? ?].
  - intros [= <- <- <-]. apply accounted_empty; simpl; try done; by intros [? ?].
Qed.

(** [spin_one_period] keeps the table, up to the invocation time. *)
Lemma spin_one_period_same_table ex period e rc ex' e' :
  wf ex ->
  rcle_let_executor_spin_one_period ex period e = (rc, ex', e') ->
  exists t, same_table (set_invocation_time ex t) ex'.
Proof.
  intros Hwf. unfold rcle_let_executor_spin_one_period.
  destruct (if (invocation_time ex =? 0)%Z then _ else _) as [ex0 e0] eqn:Hlatch.
  assert (exists t, ex0 = set_invocation_time ex t) as [t0 ->].
  { destruct (invocation_time ex =? 0)%Z.
    - destruct (call_system_time_now e) as [[? now] ?].
      injection Hlatch as <- <-. by eexists.
    - injection Hlatch as <- <-. exists (invocation_time ex). by destruct ex. }
  destruct (rcle_let_executor_spin_some _ _ _) as [[ret ex1] e1] eqn:Hrun.
  apply spin_some_same_table in Hrun; [|by apply wf_set_invocation_time].
  destruct (negb _); [intros [= <- <- <-]; by exists t0|].
  destruct (call_system_time_now e1) as [[ret2 end_time_point] e2].
  intros [= <- <- <-].
  exists (to_int64 (to_uint64 (invocation_time ex1) + period)).
  destruct Hrun as (? & ? & ? & ? & ? & ? & ? & ? & ? & ?).
  by split_and!.
Qed.

Lemma accounted_do_call c ex e rc ex' e' :
  wf ex -> accounted ex ->
  do_call c ex e = (rc, ex', e') -> allocated c rc -> accounted ex'.
Proof.
  intros Hwf Hacc. destruct c; simpl.
  - destruct (rcle_let_executor_init _ _ _ _) as [rc0 ex0] eqn:Hinit.
    intros [= <- <- <-]. by eapply accounted_init.
  - unfold rcle_let_executor_set_timeout.
    destruct (_rcle_let_executor_is_valid ex); intros [= <- <- <-] _; [|done].
    destruct Hacc. by split.
  - intros Hcall _. by eapply accounted_fini.
  - intros Hcall _. by eapply accounted_add_subscription.
  - intros Hcall _. by eapply accounted_add_timer.
  - intros Hcall _. eapply accounted_same_table; [done| |done].
    by eapply spin_some_same_table.
  - intros Hcall _.
    destruct (spin_one_period_same_table _ _ _ _ _ _ Hwf Hcall) as [t Hsame].
    eapply accounted_same_table; [|done|].
    + by apply wf_set_invocation_time.
    + by apply accounted_set_invocation_time.
Qed.

Lemma reachable_accounted ex : reachable ex -> accounted ex.
Proof.
  induction 1 as [|c ex e rc ex' e' Hreach IH Hcall Hrc].
  - apply accounted_empty; simpl; try done; by intros [? ?].
  - eapply accounted_do_call; [|done..]. by apply reachable_wf.
Qed.

(** X8.  For every executor a program can hold, the counts that size the
    wait set account for the table: the number of subscriptions and the
    number of timers are the numbers of registered handles of these kinds,
    they add up to the fill mark, and no client, service, guard condition
    or event is ever counted. *)
Theorem reachable_counts_match_table ex :
  reachable ex ->
  number_of_subscriptions (info ex) = count_kind SUBSCRIPTION ex /\
  number_of_timers (info ex) = count_kind TIMER ex /\
  count_kind SUBSCRIPTION ex + count_kind TIMER ex = index ex /\
  count_kind NONE ex = 0 /\
  number_of_clients (info ex) = 0 /\ number_of_services (info ex) = 0 /\
  number_of_guard_conditions (info ex) = 0 /\ number_of_events (info ex) = 0.
Proof.
  intros Hreach. pose proof (reachable_wf _ Hreach) as Hwf.
  destruct (reachable_accounted _ Hreach) as [Hs Ht Hc Hsv Hg Hev _].
  split_and!; try done.
  - rewrite <- Hs, <- Ht. apply Hwf.
  - unfold count_kind. rewrite kinds_seq by (rewrite wf_length; [apply wf_index|]; done).
    destruct (filter _ _) as [|t l] eqn:Hfilter; [done|]. exfalso.
    assert (t ∈ filter (fun t => t = NONE)
              ((fun j => h_type (handle ex j)) <$> seq 0 (index ex))) as Hin
      by (rewrite Hfilter; left).
    apply list_elem_of_filter in Hin as [-> Hin].
    apply list_elem_of_fmap in Hin as (j & Hj & Hseq).
    apply elem_of_seq in Hseq. by apply (wf_kind _ Hwf j); [lia|].
Qed.

(** X9.  For every executor a program can hold, the three checks of
    [_rcle_let_executor_is_valid] agree: the executor is valid exactly when
    it has a table, and exactly when its capacity is not zero.  An executor
    that is not valid has nothing registered. *)
Theorem reachable_valid_iff_has_table ex :
  reachable ex ->
  (_rcle_let_executor_is_valid ex = true <-> is_Some (handles ex)) /\
  (_rcle_let_executor_is_valid ex = true <-> 0 < max_handles ex) /\
  (_rcle_let_executor_is_valid ex = false -> index ex = 0 /\ registered ex = []).
Proof.
  intros Hreach. pose proof (reachable_wf _ Hreach) as Hwf.
  destruct (reachable_accounted _ Hreach) as [_ _ _ _ _ _ Ha].
  pose proof (wf_length _ Hwf) as Hlen. pose proof (wf_index _ Hwf) as Hidx.
  unfold _rcle_let_executor_is_valid, registered, handles_of in *.
  destruct (handles ex) as [l|] eqn:Hh; simpl in *.
  - destruct (Ha (mk_is_Some _ _ eq_refl)) as [[a Halloc] Hmax]. rewrite Halloc.
    destruct (Nat.eqb_spec (max_handles ex) 0) as [Hzero|Hpos]; [lia|].
    simpl. split_and!; try done.
  - split_and!.
    + split; [done|]. by intros [? ?].
    + split; [done|lia].
    + intros _. split; [lia|]. by rewrite take_nil.
Qed.

(** ** Sizing the wait set *)

Lemma prepared_init_event ex exa pre sizes ctx rc_init :
  prepared ex exa pre -> EvWaitSetInit sizes ctx rc_init ∈ pre ->
  sizes = info ex /\ ctx = context ex.
Proof.
  destruct 1 as [|rc0 ws Hws]; intros Hin.
  - by apply elem_of_nil in Hin.
  - apply elem_of_cons in Hin as [[=]|Hin].
    apply list_elem_of_singleton in Hin. by injection Hin as -> -> _.
Qed.

Lemma spin_some_run_init_event ex timeout rc ex1 new sizes ctx rc_init :
  spin_some_run ex timeout rc ex1 new ->
  EvWaitSetInit sizes ctx rc_init ∈ new ->
  sizes = info ex /\ ctx = context ex.
Proof.
  destruct 1 as [rc0 rc ws Hws Hrc|exa pre rc ws Hpre Hrc
                 |exa pre ws rc ex3 regs Hpre Hregs
                 |exa pre ws ex3 regs rc_wait ws4 rc ex5 new Hpre Hregs Hround];
    intros Hin.
  - apply elem_of_cons in Hin as [[=]|Hin].
    apply list_elem_of_singleton in Hin. by injection Hin as -> -> _.
  - apply elem_of_app in Hin as [Hin|Hin]; [by eapply prepared_init_event|].
    by apply list_elem_of_singleton in Hin.
  - apply elem_of_app in Hin as [Hin|Hin]; [by eapply prepared_init_event|].
    apply elem_of_cons in Hin as [[=]|Hin].
    exfalso. eapply registration_event_not; [|done|done].
    by eapply registration_phase_events.
  - apply elem_of_app in Hin as [Hin|Hin]; [by eapply prepared_init_event|].
    apply elem_of_cons in Hin as [[=]|Hin].
    apply elem_of_app in Hin as [Hin|Hin].
    + exfalso. eapply registration_event_not; [|done|done].
      by eapply registration_phase_events.
    + apply elem_of_cons in Hin as [[=]|Hin].
      exfalso. by eapply round_event_not.
Qed.

(** X10.  Whenever [spin_some] builds the wait set, it asks
    [rcl_wait_set_init] for exactly one subscription slot per registered
    subscription and one timer slot per registered timer, for no client,
    service, guard condition or event, and with the context of the
    executor. *)
Theorem spin_some_sizes_wait_set_for_table ex timeout e rc ex1 e1 :
  reachable ex ->
  rcle_let_executor_spin_some ex timeout e = (rc, ex1, e1) ->
  exists new, log e1 = log e ++ new /\
    forall sizes ctx rc_init, EvWaitSetInit sizes ctx rc_init ∈ new ->
      ctx = context ex /\
      number_of_subscriptions sizes = count_kind SUBSCRIPTION ex /\
      number_of_timers sizes = count_kind TIMER ex /\
      number_of_clients sizes = 0 /\ number_of_services sizes = 0 /\
      number_of_guard_conditions sizes = 0 /\ number_of_events sizes = 0.
Proof.
  intros Hreach Hspin. pose proof (reachable_wf _ Hreach) as Hwf.
  destruct (reachable_accounted _ Hreach) as [Hs Ht Hc Hsv Hg Hev _].
  destruct (spin_some_sound _ _ _ _ _ _ Hwf Hspin) as (new & Hlog & Hrun).
  exists new. split; [done|]. intros sizes ctx rc_init Hin.
  destruct (spin_some_run_init_event _ _ _ _ _ _ _ _ Hrun Hin) as [-> ->].
  by split_and!.
Qed.

(** ** Filling the table *)

Lemma register_cases r ex e :
  wf ex ->
  (index ex < max_handles ex /\
   exists ex' e', register r ex e = (RCL_RET_OK, ex', e') /\
     wf ex' /\ index ex' = S (index ex) /\ max_handles ex' = max_handles ex /\
     kinds ex' = kinds ex ++ [requested_kind r]) \/
  (max_handles ex <= index ex /\ register r ex e = (RCL_RET_ERROR, ex, e)).
Proof.
  intros Hwf. destruct (decide (index ex < max_handles ex)) as [Hroom|Hfull].
  - left. split; [done|]. destruct r as [s m cb inv|t]; simpl.
    + destruct (add_subscription_room ex s m cb inv e Hroom (wf_length _ Hwf))
        as (ex' & e' & Hadd & Happ).
      exists ex', e'. split; [done|].
      split; [by eapply wf_add_subscription|].
      pose proof Happ as (Hidx & Hmax & _).
      split_and!; [done..|].
      unfold kinds.
      rewrite (registered_appended _ _ ex ex' (eq_ind_r _ Hroom (wf_length _ Hwf)) Happ).
      by rewrite fmap_app.
    + destruct (add_timer_room ex t e Hroom (wf_length _ Hwf))
        as (ex' & e' & Hadd & Happ).
      exists ex', e'. split; [done|].
      split; [by eapply wf_add_timer|].
      pose proof Happ as (Hidx & Hmax & _).
      split_and!; [done..|].
      unfold kinds.
      rewrite (registered_appended _ _ ex ex' (eq_ind_r _ Hroom (wf_length _ Hwf)) Happ).
      by rewrite fmap_app.
  - right. split; [lia|]. destruct r as [s m cb inv|t]; simpl.
    + apply add_subscription_full. lia.
    + apply add_timer_full. lia.
Qed.

(** X11.  Registrations fill the table in the order of the calls until it
    is full: of a sequence of registrations with valid arguments, the
    first ones, as many as there is room for, return [RCL_RET_OK] and are
    appended in order; every later one returns [RCL_RET_ERROR] and is
    dropped. *)
Theorem registrations_fill_capacity rs : forall ex e rcs ex' e',
  wf ex ->
  register_all rs ex e = (rcs, ex', e') ->
  rcs = replicate (length rs `min` (max_handles ex - index ex)) RCL_RET_OK ++
        replicate (length rs - (max_handles ex - index ex)) RCL_RET_ERROR /\
  index ex' = (index ex + length rs) `min` max_handles ex /\
  max_handles ex' = max_handles ex /\
  kinds ex' =
    kinds ex ++ (requested_kind <$> take (max_handles ex - index ex) rs).
Proof.
  induction rs as [|r rs IH]; intros ex e rcs ex' e' Hwf; simpl.
  - intros [= <- <- <-]. pose proof (wf_index _ Hwf).
    rewrite take_nil, app_nil_r. split_and!; [done|lia|done..].
  - destruct (register_cases r ex e Hwf)
      as [(Hroom & ex1 & e1 & -> & Hwf1 & Hidx1 & Hmax1 & Hkinds1)
         |(Hfull & ->)].
    + destruct (register_all rs ex1 e1) as [[rcs2 ex2] e2] eqn:Hrest.
      intros [= <- <- <-].
      destruct (IH _ _ _ _ _ Hwf1 Hrest) as (-> & Hidx & Hmax & Hkinds).
      rewrite Hidx, Hmax, Hkinds, Hidx1, Hmax1, Hkinds1.
      replace (max_handles ex - index ex) with (S (max_handles ex - S (index ex)))
        by lia.
      split_and!; [done| |done|].
      * cbn [length]. lia.
      * simpl. by rewrite <- app_assoc.
    + destruct (register_all rs ex e) as [[rcs2 ex2] e2] eqn:Hrest.
      intros [= <- <- <-].
      destruct (IH _ _ _ _ _ Hwf Hrest) as (-> & Hidx & Hmax & Hkinds).
      rewrite Hidx, Hmax, Hkinds.
      replace (max_handles ex - index ex) with 0 by lia.
      rewrite !Nat.min_0_r, !Nat.sub_0_r, !take_0.
      split_and!; [done| |done..].
      cbn [length]. lia.
Qed.

(** ** The round: first all input, then all callbacks *)

(** X12.  A round takes all its input before it runs the first callback:
    its calls are the calls of the intake (fetches and expiry checks)
    followed by the calls of the execution (callbacks and timer calls).
    When anything is executed at all, the intake has read every registered
    handle and none of its calls has failed. *)
Theorem let_scheduling_reads_before_executing ex ws e rc ex1 e1 :
  wf ex ->
  _rcle_let_scheduling ex ws e = (rc, ex1, e1) ->
  exists reads runs,
    log e1 = log e ++ reads ++ runs /\
    Forall (fun ev => is_intake_event ev = true) reads /\
    Forall (fun ev => is_execution_event ev = true) runs /\
    (runs <> [] ->
     read_positions reads = seq 0 (index ex) /\
     Forall (fun ev => abort_code ev = None) reads).
Proof.
  intros Hwf Hround.
  apply (let_scheduling_sound _ _ _ _ _ _ Hwf) in Hround as (new & Hlog & Hround).
  apply round_intake in Hround as (fl & reads & runs & -> & Hin & Hruns & Hfl).
  exists reads, runs. split_and!; [done| |done|].
  - eapply Forall_impl; [by apply (intake_phase_events _ _ _ _ _ _ _ _ Hin)|].
    by intros ev [-> _].
  - intros Hrun. destruct fl as [rc1|rc1]; [by destruct Hfl|].
    pose proof (intake_phase_positions _ _ _ _ _ _ _ _ Hin (Nat.le_0_l _)) as [_ Hall].
    rewrite Nat.sub_0_r in Hall. split; [by eapply Hall|].
    exact (intake_phase_aborts _ _ _ _ _ _ _ _ Hin Hwf (le_n _)).
Qed.

(** The intake leaves a handle that it does not read as it is. *)
Lemma intake_phase_unread ws n i rc ex fl ex1 new :
  intake_phase ws n i rc ex fl ex1 new ->
  forall j, EvReadInput j ∉ new -> handle ex1 j = handle ex j.
Proof.
  induction 1 as [|i rc ex rc1 b evs Hi Hin Hf
                  |i rc ex rc1 b evs fl ex2 new Hi Hin Hf Hphase IH];
    intros j Hj; [done| |].
  - apply handle_update_handle_ne. intros ->. apply Hj. by left.
  - rewrite IH.
    + apply handle_update_handle_ne. intros ->. apply Hj. by left.
    + intros Hnew. apply Hj. right. apply elem_of_app. by right.
Qed.

(** X13.  A round changes nothing of the executor but the
    [data_available] flags of the handles it reads: capacity, fill mark,
    counts, wait set, timeout and invocation time stay, every handle keeps
    its kind, its resource, its callback, its policy and its slot, and a
    handle that is not read is not touched at all. *)
Theorem let_scheduling_touches_flags_only ex ws e rc ex1 e1 :
  wf ex ->
  _rcle_let_scheduling ex ws e = (rc, ex1, e1) ->
  max_handles ex1 = max_handles ex /\ index ex1 = index ex /\
  wait_set ex1 = wait_set ex /\ info ex1 = info ex /\
  context ex1 = context ex /\ allocator ex1 = allocator ex /\
  timeout_ns ex1 = timeout_ns ex /\ invocation_time ex1 = invocation_time ex /\
  (forall j, with_data_available false (handle ex1 j) =
             with_data_available false (handle ex j)) /\
  exists new, log e1 = log e ++ new /\
    forall j, EvReadInput j ∉ new -> handle ex1 j = handle ex j.
Proof.
  intros Hwf Hround.
  apply (let_scheduling_sound _ _ _ _ _ _ Hwf) in Hround as (new & Hlog & Hround).
  apply round_intake in Hround as (fl & reads & runs & -> & Hin & _ & _).
  destruct (intake_phase_frame _ _ _ _ _ _ _ _ Hin)
    as (Hmax & Hidx & Hws & Hinfo & Hctx & Halloc & Htime & Hinv & _).
  destruct (intake_phase_handles _ _ _ _ _ _ _ _ Hin) as (_ & Hflags & _).
  split_and!; try done.
  exists (reads ++ runs). split; [done|]. intros j Hj.
  apply (intake_phase_unread _ _ _ _ _ _ _ _ Hin).
  intros Hread. apply Hj, elem_of_app. by left.
Qed.

(** X14.  A timer call that fails ends the round on the spot: it is the
    last call of the round, its code is what the round returns, and the
    handles behind the timer are not executed.  Nothing else fails a round
    once the execution has begun: the callback of a subscription cannot. *)
Theorem let_scheduling_failed_timer_call_ends_round ex ws e rc ex1 e1 :
  wf ex ->
  _rcle_let_scheduling ex ws e = (rc, ex1, e1) ->
  exists new, log e1 = log e ++ new /\
    (forall i t rc_call, EvTimerCall i t rc_call ∈ new ->
       rc_call <> RCL_RET_OK ->
       rc = rc_call /\ (exists pre, new = pre ++ [EvTimerCall i t rc_call]) /\
       execute_positions new = seq 0 (S i)) /\
    (rc <> RCL_RET_OK -> execute_positions new <> [] ->
     exists pre i t, new = pre ++ [EvTimerCall i t rc]).
Proof.
  intros Hwf Hround.
  apply (let_scheduling_sound _ _ _ _ _ _ Hwf) in Hround as (new & Hlog & Hround).
  exists new. split; [done|].
  apply round_intake in Hround as (fl & reads & runs & -> & Hin & Hruns & Hfl).
  pose proof (intake_phase_events _ _ _ _ _ _ _ _ Hin) as Hreads.
  pose proof (intake_events_execute_positions _ _ Hreads) as Hnone.
  pose proof (intake_phase_frame _ _ _ _ _ _ _ _ Hin)
    as (_ & Hidx & _ & _ & _ & _ & _ & _ & Hwf1).
  specialize (Hwf1 Hwf).
  rewrite execute_positions_app, Hnone. simpl.
  destruct fl as [rc1|rc1].
  { destruct Hfl as [-> ->]. rewrite app_nil_r. split; [|done].
    intros i t rc_call Hcall _. exfalso.
    by pose proof (elem_of_kind _ _ _ _ Hreads Hcall). }
  destruct Hfl as (fl2 & Hex & ->). split.
  - intros i t rc_call Hcall Hfail.
    apply elem_of_app in Hcall as [Hcall|Hcall].
    { exfalso. by pose proof (elem_of_kind _ _ _ _ Hreads Hcall). }
    destruct (execution_phase_failed_timer _ _ _ _ _ _ _ _ _ Hex Hcall Hfail)
      as (-> & _ & [pre ->] & Hpos).
    rewrite Nat.sub_0_r in Hpos.
    split_and!; [done| |done]. exists (reads ++ pre). by rewrite <- app_assoc.
  - intros Hrc Hstarted.
    pose proof (execution_phase_result _ _ _ _ _ _ Hex) as Hres.
    destruct fl2 as [rc2|rc2]; simpl in *.
    + destruct (execution_phase_failed_call _ _ _ _ _ _ Hex) as (j & t & Hcall & Hne).
      { intros j Hj. apply (wf_kind _ Hwf1). lia. }
      destruct (execution_phase_failed_timer _ _ _ _ _ _ _ _ _ Hex Hcall Hne)
        as (_ & _ & [pre ->] & _).
      exists (reads ++ pre), j, t. by rewrite <- app_assoc.
    + destruct Hres as [[Hempty ->]|[_ ->]]; [|done].
      rewrite <- Hempty in Hex. exfalso. apply Hstarted.
      by inversion Hex; subst; [|lia..].
Qed.

(** ** One call of [spin_some] *)

(** X15.  A call of [spin_some] either fails while it sets the wait set
    up, and then it never waits, or it calls [rcl_wait] exactly once, with
    the timeout it was given, converted to the [int64_t] that [rcl_wait]
    takes: after the construction, the clearing and the
    registrations, which have all succeeded and have registered every
    handle of the table afresh, in table order, and before the first
    handle is read.  After the wait come only calls of the round. *)
Theorem spin_some_waits_once ex timeout e rc ex1 e1 :
  wf ex ->
  rcle_let_executor_spin_some ex timeout e = (rc, ex1, e1) ->
  exists new, log e1 = log e ++ new /\
    ((exists setup rc_wait run,
        new = setup ++ EvWait (to_int64 timeout) rc_wait :: run /\
        Forall (fun ev => is_setup_event ev = true /\ setup_failure ev = None) setup /\
        registration_positions setup = seq 0 (index ex) /\
        Forall (fun ev => stage_of ev = Running) run) \/
     (rc <> RCL_RET_OK /\
      Forall (fun ev => is_setup_event ev = true) new /\
      exists pre ev, new = pre ++ [ev] /\ setup_failure ev = Some rc)).
Proof.
  intros Hwf Hspin.
  destruct (spin_some_sound _ _ _ _ _ _ Hwf Hspin) as (new & Hlog & Hrun).
  exists new. split; [done|].
  destruct (spin_some_run_shape _ _ _ _ _ Hrun Hwf)
    as [(exa & pre & rc_clear & regs & rest & -> & Hpre & Hregs & Hcases)
       |(Hws & Hrc & rc0 & ->)].
  - destruct (prepared_setup _ _ _ Hpre) as [Hsetup Hstage].
    destruct Hcases as [(Hclear & -> & -> & ->)
                       |[(-> & -> & pre' & ev & -> & Hev & Hpre')
                        |(-> & Hpos & Hok & rc_wait & ws4 & ex4 & post & -> & Hround & _)]].
    + right. split; [done|]. split.
      * apply Forall_app. split; [|by repeat constructor].
        eapply Forall_impl; [exact Hsetup|]. by intros ev [? _].
      * exists pre, (EvWaitSetClear rc_clear). split; [done|]. simpl.
        by rewrite (proj2 (ret_is_false _ _) Hclear).
    + right. split; [by eapply setup_failure_code|]. split.
      * apply Forall_app. split; [eapply Forall_impl; [exact Hsetup|]; by intros ? [? _]|].
        constructor; [done|]. rewrite app_nil_r. by apply registration_setup.
      * exists (pre ++ EvWaitSetClear RCL_RET_OK :: pre'), ev.
        split; [|done]. rewrite app_nil_r, <- app_assoc. done.
    + left. exists (pre ++ EvWaitSetClear RCL_RET_OK :: regs), rc_wait, post.
      split_and!.
      * by rewrite <- app_assoc.
      * apply Forall_app. split; [done|]. constructor; [done|].
        apply Forall_and. split; [by apply registration_setup|done].
      * change (EvWaitSetClear RCL_RET_OK :: regs)
          with ([EvWaitSetClear RCL_RET_OK] ++ regs).
        rewrite !registration_positions_app, Hpos.
        rewrite (registration_positions_other pre); [done|].
        eapply Forall_impl; [exact Hstage|]. by intros [].
      * by eapply round_stage.
  - right. split; [done|]. split; [by repeat constructor|].
    exists [EvWaitSetFini rc0], (EvWaitSetInit (info ex) (context ex) rc).
    split; [done|]. simpl. by rewrite (proj2 (ret_is_false _ _) Hrc).
Qed.

(** X16.  [spin_some] leaves the table as it is: capacity, fill mark,
    counts, context, allocator, timeout and invocation time stay, and every
    handle keeps its kind, its policy, its resource, its message buffer and
    its callback.  What it changes is the wait set, the slots recorded in
    the handles and the [data_available] flags. *)
Theorem spin_some_keeps_table ex timeout e rc ex1 e1 :
  wf ex ->
  rcle_let_executor_spin_some ex timeout e = (rc, ex1, e1) ->
  max_handles ex1 = max_handles ex /\ index ex1 = index ex /\
  info ex1 = info ex /\ context ex1 = context ex /\
  allocator ex1 = allocator ex /\ timeout_ns ex1 = timeout_ns ex /\
  invocation_time ex1 = invocation_time ex /\
  length (registered ex1) = length (registered ex) /\
  forall j,
    h_type (handle ex1 j) = h_type (handle ex j) /\
    h_invocation (handle ex1 j) = h_invocation (handle ex j) /\
    h_subscription (handle ex1 j) = h_subscription (handle ex j) /\
    h_timer (handle ex1 j) = h_timer (handle ex j) /\
    h_data (handle ex1 j) = h_data (handle ex j) /\
    h_callback (handle ex1 j) = h_callback (handle ex j) /\
    h_initialized (handle ex1 j) = h_initialized (handle ex j).
Proof.
  intros Hwf Hspin.
  pose proof (spin_some_same_table _ _ _ _ _ _ Hwf Hspin) as Hsame.
  pose proof Hsame as (Hmax & Hidx & Hinfo & Hctx & Halloc & Htime & Hinv & Hlen & _).
  split_and!; try done.
  - unfold registered. by rewrite !length_take, Hidx, Hlen.
  - intros j.
    split_and!; by apply (same_table_field _ ex ex1 j).
Qed.

(** X17.  [spin_some] on an executor without handles: it makes no call
    for a handle; it clears the wait set (after building it when there is
    none), waits once and returns [RCL_RET_OK], unless the construction or
    the clearing fails. *)
Theorem spin_some_empty_table ex timeout e rc ex1 e1 :
  wf ex -> index ex = 0 ->
  rcle_let_executor_spin_some ex timeout e = (rc, ex1, e1) ->
  exists new, log e1 = log e ++ new /\
    Forall (fun ev => event_position ev = None) new /\
    ((rc = RCL_RET_OK /\
      exists pre rc_wait,
        new = pre ++
          [EvWaitSetClear RCL_RET_OK; EvWait (to_int64 timeout) rc_wait] /\
        Forall (fun ev => stage_of ev = Preparing) pre) \/
     (rc <> RCL_RET_OK /\
      exists pre ev, new = pre ++ [ev] /\ setup_failure ev = Some rc /\
        (stage_of ev = Preparing \/ stage_of ev = Clearing))).
Proof.
  intros Hwf Hempty Hspin.
  destruct (spin_some_sound _ _ _ _ _ _ Hwf Hspin) as (new & Hlog & Hrun).
  exists new. split; [done|].
  destruct Hrun as [rc0 rc ws Hws Hrc|exa pre rc ws Hpre Hrc
                    |exa pre ws rc ex3 regs Hpre Hregs
                    |exa pre ws ex3 regs rc_wait ws4 rc ex5 new Hpre Hregs Hround].
  - split; [by repeat constructor|]. right. split; [done|].
    exists [EvWaitSetFini rc0], (EvWaitSetInit (info ex) (context ex) rc).
    split; [done|]. simpl. rewrite (proj2 (ret_is_false _ _) Hrc). by split; [|left].
  - destruct (prepared_setup _ _ _ Hpre) as [_ Hstage]. split.
    + apply Forall_app. split; [|by repeat constructor].
      eapply Forall_impl; [done|]. by intros [].
    + right. split; [done|]. exists pre, (EvWaitSetClear rc).
      split; [done|]. simpl. rewrite (proj2 (ret_is_false _ _) Hrc). by split; [|right].
  - exfalso. rewrite Hempty in Hregs. inversion Hregs; lia.
  - destruct (prepared_setup _ _ _ Hpre) as [_ Hstage].
    rewrite Hempty in Hregs.
    assert (index exa = 0) as Hidxa.
    { destruct (prepared_same_table _ _ _ Hpre) as (_ & Hidxa & _). by rewrite Hidxa. }
    assert (regs = [] /\ index ex3 = 0) as [-> Hidx3].
    { inversion Hregs; subst; [done|lia..]. }
    destruct (round_empty _ _ _ _ _ Hround Hidx3) as [-> ->]. split.
    + apply Forall_app. split; [|by repeat constructor].
      eapply Forall_impl; [done|]. by intros [].
    + left. split; [done|]. by exists pre, rc_wait.
Qed.

(** ** The drivers *)

Lemma spin_loop_unfold rounds ret0 ex e :
  spin_loop rounds ret0 ex e =
  if rcl_context_is_valid (context ex) (world e) then
    match rounds with
    | 0 => None
    | S rounds' =>
      let '(ret1, ex1, e1) := rcle_let_executor_spin_some ex (timeout_ns ex) e in
      if negb (ret_is ret1 RCL_RET_OK || ret_is ret1 RCL_RET_TIMEOUT)
      then Some (ret1, ex1, e1)
      else spin_loop rounds' ret1 ex1 e1
    end
  else Some (ret0, ex, e).
Proof. by destruct rounds. Qed.

Lemma spin_period_unfold rounds ex period e :
  rcle_let_executor_spin_period rounds ex period e =
  if rcl_context_is_valid (context ex) (world e) then
    match rounds with
    | 0 => None
    | S rounds' =>
      let '(_, ex1, e1) := rcle_let_executor_spin_one_period ex period e in
      rcle_let_executor_spin_period rounds' ex1 period e1
    end
  else Some (RCL_RET_OK, ex, e).
Proof. by destruct rounds. Qed.

Lemma tolerated_code ret :
  negb (ret_is ret RCL_RET_OK || ret_is ret RCL_RET_TIMEOUT) = false <->
  ret = RCL_RET_OK \/ ret = RCL_RET_TIMEOUT.
Proof.
  rewrite negb_false_iff, orb_true_iff. by rewrite !ret_is_true.
Qed.

Lemma fatal_code ret :
  negb (ret_is ret RCL_RET_OK || ret_is ret RCL_RET_TIMEOUT) = true <->
  ret <> RCL_RET_OK /\ ret <> RCL_RET_TIMEOUT.
Proof.
  rewrite negb_true_iff, orb_false_iff. by rewrite !ret_is_false.
Qed.

Lemma spin_loop_result rounds : forall ret0 ex e ret ex1 e1,
  spin_loop rounds ret0 ex e = Some (ret, ex1, e1) ->
  (rcl_context_is_valid (context ex1) (world e1) = false /\
   (ret = ret0 \/ ret = RCL_RET_OK \/ ret = RCL_RET_TIMEOUT)) \/
  (ret <> RCL_RET_OK /\ ret <> RCL_RET_TIMEOUT /\
   exists ex0 e0,
     rcl_context_is_valid (context ex0) (world e0) = true /\
     rcle_let_executor_spin_some ex0 (timeout_ns ex0) e0 = (ret, ex1, e1)).
Proof.
  induction rounds as [|rounds IH]; intros ret0 ex e ret ex1 e1;
    rewrite spin_loop_unfold;
    destruct (rcl_context_is_valid (context ex) (world e)) eqn:Hvalid;
    try done; try (intros [= <- <- <-]; left; by split; [|left]).
  destruct (rcle_let_executor_spin_some ex (timeout_ns ex) e)
    as [[ret1 ex2] e2] eqn:Hspin.
  destruct (negb _) eqn:Hstop.
  - intros [= <- <- <-]. apply fatal_code in Hstop as [? ?].
    right. split_and!; [done..|]. by exists ex, e.
  - intros Hloop. apply tolerated_code in Hstop.
    destruct (IH _ _ _ _ _ _ Hloop) as [[Hinvalid Hret]|Hfatal]; [|by right].
    left. split; [done|]. right. destruct Hret as [->|Hret]; done.
Qed.

Lemma spin_loop_more rounds : forall k ret0 ex e r,
  spin_loop rounds ret0 ex e = Some r ->
  spin_loop (rounds + k) ret0 ex e = Some r.
Proof.
  induction rounds as [|rounds IH]; intros k ret0 ex e r;
    rewrite (spin_loop_unfold (_ + k)), spin_loop_unfold;
    destruct (rcl_context_is_valid (context ex) (world e)); try done.
  simpl.
  destruct (rcle_let_executor_spin_some ex (timeout_ns ex) e) as [[ret1 ex2] e2].
  destruct (negb _); [done|]. apply IH.
Qed.

(** X18.  [rcle_let_executor_spin] returns only for one of two reasons:
    the context is no longer valid, and then it returns [RCL_RET_OK] or
    [RCL_RET_TIMEOUT]; or a call of [spin_some] has returned another code,
    and then it returns that code and the executor as that call left it.
    With a context that is not valid at the start it returns [RCL_RET_OK]
    without a single call.  The bound on the number of rounds does not
    matter for the result. *)
Theorem spin_ends_on_error_or_invalid_context rounds ex e :
  (rcl_context_is_valid (context ex) (world e) = false ->
   rcle_let_executor_spin rounds ex e = Some (RCL_RET_OK, ex, e)) /\
  (forall ret ex1 e1,
     rcle_let_executor_spin rounds ex e = Some (ret, ex1, e1) ->
     (rcl_context_is_valid (context ex1) (world e1) = false /\
      (ret = RCL_RET_OK \/ ret = RCL_RET_TIMEOUT)) \/
     (ret <> RCL_RET_OK /\ ret <> RCL_RET_TIMEOUT /\
      exists ex0 e0,
        rcl_context_is_valid (context ex0) (world e0) = true /\
        rcle_let_executor_spin_some ex0 (timeout_ns ex0) e0 = (ret, ex1, e1))) /\
  (forall k r,
     rcle_let_executor_spin rounds ex e = Some r ->
     rcle_let_executor_spin (rounds + k) ex e = Some r).
Proof.
  unfold rcle_let_executor_spin. split_and!.
  - intros Hinvalid. rewrite spin_loop_unfold. by rewrite Hinvalid.
  - intros ret ex1 e1 Hloop.
    destruct (spin_loop_result _ _ _ _ _ _ _ Hloop) as [[Hinvalid Hret]|Hfatal];
      [|by right].
    left. split; [done|]. destruct Hret as [->|Hret]; [by left|done].
  - intros k r. apply spin_loop_more.
Qed.

(** X19.  [rcle_let_executor_spin_period] returns only when the context
    is no longer valid, and then always [RCL_RET_OK]: what a period
    returns is dropped, so a period that fails does not end the loop.
    The bound on the number of periods does not matter for the result. *)
Theorem spin_period_ends_on_invalid_context_only rounds : forall ex period e,
  (rcl_context_is_valid (context ex) (world e) = false ->
   rcle_let_executor_spin_period rounds ex period e = Some (RCL_RET_OK, ex, e)) /\
  (forall rc ex1 e1,
     rcle_let_executor_spin_period rounds ex period e = Some (rc, ex1, e1) ->
     rc = RCL_RET_OK /\
     rcl_context_is_valid (context ex1) (world e1) = false) /\
  (rcl_context_is_valid (context ex) (world e) = true ->
   rcle_let_executor_spin_period (S rounds) ex period e =
   rcle_let_executor_spin_period rounds
     (rcle_let_executor_spin_one_period ex period e).1.2 period
     (rcle_let_executor_spin_one_period ex period e).2) /\
  (forall k r,
     rcle_let_executor_spin_period rounds ex period e = Some r ->
     rcle_let_executor_spin_period (rounds + k) ex period e = Some r).
Proof.
  induction rounds as [|rounds IH]; intros ex period e.
  - split_and!.
    + intros Hinvalid. rewrite spin_period_unfold. by rewrite Hinvalid.
    + intros rc ex1 e1. rewrite spin_period_unfold.
      destruct (rcl_context_is_valid (context ex) (world e)) eqn:Hvalid; [done|].
      by intros [= <- <- <-].
    + intros Hvalid. rewrite spin_period_unfold, Hvalid.
      by destruct (rcle_let_executor_spin_one_period ex period e) as [[? ?] ?].
    + intros k r. rewrite (spin_period_unfold (_ + k)), spin_period_unfold.
      by destruct (rcl_context_is_valid (context ex) (world e)).
  - split_and!.
    + intros Hinvalid. rewrite spin_period_unfold. by rewrite Hinvalid.
    + intros rc ex1 e1. rewrite spin_period_unfold.
      destruct (rcl_context_is_valid (context ex) (world e)) eqn:Hvalid;
        [|by intros [= <- <- <-]].
      destruct (rcle_let_executor_spin_one_period ex period e) as [[ret ex2] e2].
      apply IH.
    + intros Hvalid. rewrite spin_period_unfold, Hvalid.
      by destruct (rcle_let_executor_spin_one_period ex period e) as [[? ?] ?].
    + intros k r. rewrite (spin_period_unfold (_ + k)), spin_period_unfold.
      destruct (rcl_context_is_valid (context ex) (world e)); [|done].
      simpl.
      destruct (rcle_let_executor_spin_one_period ex period e) as [[ret ex2] e2].
      apply IH.
Qed.

(** *** The timeout handed to [rcl_wait] *)

Lemma spin_some_run_wait_event ex timeout rc ex1 new t rc_wait :
  spin_some_run ex timeout rc ex1 new ->
  EvWait t rc_wait ∈ new -> t = timeout.
Proof.
  destruct 1 as [rc0 rc ws Hws Hrc|exa pre rc ws Hpre Hrc
                 |exa pre ws rc ex3 regs Hpre Hregs
                 |exa pre ws ex3 regs rc_wait' ws4 rc ex5 new Hpre Hregs Hround];
    intros Hin.
  - apply elem_of_cons in Hin as [[=]|Hin].
    by apply list_elem_of_singleton in Hin.
  - apply elem_of_app in Hin as [Hin|Hin].
    + destruct (prepared_setup _ _ _ Hpre) as [_ Hstage].
      by pose proof (elem_of_stage _ _ _ Hstage Hin).
    + by apply list_elem_of_singleton in Hin.
  - apply elem_of_app in Hin as [Hin|Hin].
    + destruct (prepared_setup _ _ _ Hpre) as [_ Hstage].
      by pose proof (elem_of_stage _ _ _ Hstage Hin).
    + apply elem_of_cons in Hin as [[=]|Hin].
      exfalso. eapply registration_event_not; [|done|done].
      by eapply registration_phase_events.
  - apply elem_of_app in Hin as [Hin|Hin].
    + destruct (prepared_setup _ _ _ Hpre) as [_ Hstage].
      by pose proof (elem_of_stage _ _ _ Hstage Hin).
    + apply elem_of_cons in Hin as [[=]|Hin].
      apply elem_of_app in Hin as [Hin|Hin].
      * exfalso. eapply registration_event_not; [|done|done].
        by eapply registration_phase_events.
      * apply elem_of_cons in Hin as [[= -> _]|Hin]; [done|].
        exfalso. by eapply round_event_not.
Qed.

Lemma spin_some_wait_events ex timeout e rc ex1 e1 :
  wf ex ->
  rcle_let_executor_spin_some ex timeout e = (rc, ex1, e1) ->
  exists new, log e1 = log e ++ new /\
    forall t rc_wait, EvWait t rc_wait ∈ new -> t = to_int64 timeout.
Proof.
  intros Hwf Hspin.
  destruct (spin_some_sound _ _ _ _ _ _ Hwf Hspin) as (new & Hlog & Hrun).
  exists new. split; [done|]. intros t rc_wait.
  by apply (spin_some_run_wait_event _ _ _ _ _ _ _ Hrun).
Qed.

Lemma spin_loop_wait_events rounds : forall ret0 ex e ret ex1 e1,
  wf ex ->
  spin_loop rounds ret0 ex e = Some (ret, ex1, e1) ->
  exists new, log e1 = log e ++ new /\
    forall t rc_wait, EvWait t rc_wait ∈ new -> t = to_int64 (timeout_ns ex).
Proof.
  induction rounds as [|rounds IH]; intros ret0 ex e ret ex1 e1 Hwf;
    rewrite spin_loop_unfold;
    destruct (rcl_context_is_valid (context ex) (world e)); try done;
    try (intros [= <- <- <-]; exists []; split; [by rewrite app_nil_r|];
         intros t rc_wait Hin; by apply elem_of_nil in Hin).
  destruct (rcle_let_executor_spin_some ex (timeout_ns ex) e)
    as [[ret1 ex2] e2] eqn:Hspin.
  destruct (spin_some_wait_events _ _ _ _ _ _ Hwf Hspin) as (new & Hlog & Hnew).
  destruct (negb _).
  - intros [= <- <- <-]. by exists new.
  - intros Hloop.
    pose proof (spin_some_same_table _ _ _ _ _ _ Hwf Hspin)
      as (_ & _ & _ & _ & _ & Htime & _).
    destruct (IH _ _ _ _ _ _ (wf_spin_some _ _ _ _ _ _ Hwf Hspin) Hloop)
      as (new' & Hlog' & Hnew').
    exists (new ++ new'). split; [by rewrite Hlog', Hlog, app_assoc|].
    intros t rc_wait [Hin|Hin]%elem_of_app; [by eapply Hnew|].
    rewrite <- Htime. by eapply Hnew'.
Qed.

Lemma spin_one_period_wait_events ex period e ret ex1 e1 :
  wf ex ->
  rcle_let_executor_spin_one_period ex period e = (ret, ex1, e1) ->
  exists new, log e1 = log e ++ new /\
    forall t rc_wait, EvWait t rc_wait ∈ new -> t = to_int64 (timeout_ns ex).
Proof.
  intros Hwf. unfold rcle_let_executor_spin_one_period.
  destruct (if (invocation_time ex =? 0)%Z then _ else _) as [ex0 e0] eqn:Hlatch.
  assert (wf ex0 /\ timeout_ns ex0 = timeout_ns ex /\
          exists pre, log e0 = log e ++ pre /\
            Forall (fun ev => stage_of ev = Other) pre) as (Hwf0 & Htime0 & pre & Hlog0 & Hpre).
  { destruct (invocation_time ex =? 0)%Z.
    - unfold call_system_time_now in Hlatch.
      destruct (rcutils_system_time_now (world e)) as [[rc0 now] w0].
      injection Hlatch as <- <-.
      split; [by apply wf_set_invocation_time|]. split; [done|].
      eexists. split; [done|]. by repeat constructor.
    - injection Hlatch as <- <-. split_and!; [done..|].
      exists []. split; [by rewrite app_nil_r|constructor]. }
  destruct (rcle_let_executor_spin_some _ _ _) as [[ret1 ex2] e2] eqn:Hspin.
  destruct (spin_some_wait_events _ _ _ _ _ _ Hwf0 Hspin) as (new & Hlog & Hnew).
  rewrite Htime0 in Hnew.
  assert (forall post, Forall (fun ev => stage_of ev = Other) post ->
            forall t rc_wait, EvWait t rc_wait ∈ pre ++ new ++ post ->
              t = to_int64 (timeout_ns ex)) as Hall.
  { intros post Hpost t rc_wait [Hin|[Hin|Hin]%elem_of_app]%elem_of_app.
    - by pose proof (elem_of_stage _ _ _ Hpre Hin).
    - by eapply Hnew.
    - by pose proof (elem_of_stage _ _ _ Hpost Hin). }
  destruct (negb _).
  - intros [= <- <- <-]. exists (pre ++ new ++ []).
    split; [by rewrite app_nil_r, Hlog, Hlog0, app_assoc|].
    apply Hall. constructor.
  - unfold call_system_time_now.
    destruct (rcutils_system_time_now (world e2)) as [[ret2 end_time_point] w2].
    destruct (0 <? _)%Z; intros [= <- <- <-]; simpl.
    + eexists (pre ++ new ++ [_; _]).
      split; [by rewrite Hlog, Hlog0, <- !app_assoc|].
      apply Hall. by repeat constructor.
    + eexists (pre ++ new ++ [_]).
      split; [by rewrite Hlog, Hlog0, <- !app_assoc|].
      apply Hall. by repeat constructor.
Qed.

Lemma to_int64_to_uint64 z : to_int64 (to_uint64 z) = to_int64 z.
Proof. unfold to_int64, to_uint64. by rewrite Z.mod_mod. Qed.

(** X20.  The timeout that [rcle_let_executor_set_timeout] stores is the
    timeout that the drivers hand to [rcl_wait]: after a successful
    [set_timeout], every wait that [spin] or [spin_one_period] makes is
    made with the stored 64-bit value, converted to the [int64_t] that
    [rcl_wait] takes.  Below 2^63 that is the value itself; a value from
    2^63 on arrives as the value minus 2^64, a negative timeout. *)
Theorem spin_waits_with_configured_timeout ex0 timeout ex :
  wf ex0 ->
  rcle_let_executor_set_timeout ex0 timeout = (RCL_RET_OK, ex) ->
  timeout_ns ex = to_uint64 timeout /\
  (forall rounds e ret ex1 e1,
     rcle_let_executor_spin rounds ex e = Some (ret, ex1, e1) ->
     exists new, log e1 = log e ++ new /\
       forall t rc_wait, EvWait t rc_wait ∈ new -> t = to_int64 timeout) /\
  (forall period e ret ex1 e1,
     rcle_let_executor_spin_one_period ex period e = (ret, ex1, e1) ->
     exists new, log e1 = log e ++ new /\
       forall t rc_wait, EvWait t rc_wait ∈ new -> t = to_int64 timeout) /\
  ((0 <= timeout < 2 ^ 63)%Z ->
   timeout_ns ex = timeout /\ to_int64 timeout = timeout) /\
  ((2 ^ 63 <= timeout < 2 ^ 64)%Z ->
   timeout_ns ex = timeout /\ to_int64 timeout = (timeout - 2 ^ 64)%Z).
Proof.
  intros Hwf0 Hset.
  assert (wf ex /\ timeout_ns ex = to_uint64 timeout) as [Hwf Htime].
  { split; [by eapply wf_set_timeout|].
    revert Hset. unfold rcle_let_executor_set_timeout.
    destruct (_rcle_let_executor_is_valid ex0); [|done]. by intros [= <-]. }
  split; [done|]. rewrite <- to_int64_to_uint64, <- Htime. split_and!.
  - intros rounds e ret ex1 e1. by apply spin_loop_wait_events.
  - intros period e ret ex1 e1. by apply spin_one_period_wait_events.
  - intros Hsmall. rewrite Htime, to_int64_to_uint64.
    change (2 ^ 63)%Z with 9223372036854775808%Z in Hsmall.
    split.
    + apply to_uint64_small.
      change (2 ^ 64)%Z with 18446744073709551616%Z. lia.
    + apply to_int64_small.
      change (2 ^ 63)%Z with 9223372036854775808%Z. lia.
  - intros Hlarge. rewrite Htime, to_int64_to_uint64.
    change (2 ^ 63)%Z with 9223372036854775808%Z in Hlarge.
    change (2 ^ 64)%Z with 18446744073709551616%Z in *.
    split.
    + apply to_uint64_small.
      change (2 ^ 64)%Z with 18446744073709551616%Z. lia.
    + unfold to_int64, to_uint64.
      change (2 ^ 63)%Z with 9223372036854775808%Z.
      change (2 ^ 64)%Z with 18446744073709551616%Z.
      rewrite Z.mod_small by lia.
      destruct (timeout <? 9223372036854775808)%Z eqn:Hlt; [|done].
      apply Z.ltb_lt in Hlt. lia.
Qed.

End UsageProofs.


Lemma pair_eta {A B} (p : A * B) : p = (p.1, p.2).
Proof. by destruct p. Qed.

(** ** Concrete runs

    The executors of [Demo] are well formed, and reachable. *)

Lemma wf_two_handles : wf Demo.two_handles.
Proof. apply wf_check_sound. vm_compute. reflexivity. Qed.

Lemma wf_after_spin : wf Demo.after_spin.
Proof. apply wf_check_sound. vm_compute. reflexivity. Qed.

Lemma wf_full : wf Demo.full.
Proof. apply wf_check_sound. vm_compute. reflexivity. Qed.

Lemma wf_fresh : wf (Sim.fresh 2).
Proof. apply wf_check_sound. vm_compute. reflexivity. Qed.

Lemma wf_in_period : wf Demo.in_period.
Proof. apply wf_check_sound. vm_compute. reflexivity. Qed.

Lemma reachable_two_handles : reachable (W := Sim.machine) Demo.two_handles.
Proof.
  eapply (reachable_call
            (CallAddSubscription (Some 3) (Some 30) (Some 300) ON_NEW_DATA)
            _ (Sim.start Sim.quiet 0)).
  - eapply (reachable_call (CallAddTimer (Some 7)) _ (Sim.start Sim.quiet 0)).
    + eapply (reachable_call (CallInit (Some 1) 2 (Some Sim.malloc)) _ (Sim.start Sim.quiet 0)).
      * apply reachable_zero.
      * reflexivity.
      * done.
    + reflexivity.
    + done.
  - reflexivity.
  - done.
Qed.

(** *** The theorems at concrete inputs *)

(** C1 at the table with a timer and a subscription, both ready. *)
Lemma let_scheduling_in_registration_order_witness :
  wf Demo.after_spin /\
  ((exists new,
      log (Demo.round_of Sim.busy).2 = log (Sim.start Sim.busy 0) ++ new /\
      in_table_order Demo.after_spin (Demo.round_of Sim.busy).1.1
        (Demo.round_of Sim.busy).1.2 new) /\
   appends_in_order (W := Sim.machine) Demo.after_spin).
Proof.
  split; [exact wf_after_spin|].
  exact (let_scheduling_in_registration_order Demo.after_spin
           (wait_set Demo.after_spin) (Sim.start Sim.busy 0) _ _ _
           wf_after_spin (triple_eta (Demo.round_of Sim.busy))).
Defined.


(** The same round, evaluated: the expiry of the timer is confirmed and the
    message of the subscription is fetched, then the timer is called and
    the callback of the subscription is run. *)
Example busy_round_invokes_both :
  log (Demo.round_of Sim.busy).2 =
    [EvReadInput 0; EvTimerIsReady 0 (Some 7) RCL_RET_OK true;
     EvReadInput 1; EvTake 1 (Some 3) (Some 30) RCL_RET_OK;
     EvExecute 0; EvTimerCall 0 (Some 7) RCL_RET_OK;
     EvExecute 1; EvCallback 1 (Some 300) (Some 30)] /\
  Sim.calls (world (Demo.round_of Sim.busy).2) = 2.
Proof. vm_compute. by split. Qed.

(** C3 at a round in which the fetch reports no data. *)
Lemma let_scheduling_subscription_intake_witness :
  wf Demo.after_spin /\
  exists new,
    log (Demo.round_of Demo.no_data).2 = log (Sim.start Demo.no_data 0) ++ new /\
    replay new (wait_set Demo.after_spin, world (Sim.start Demo.no_data 0)) =
      Some (wait_set Demo.after_spin, world (Demo.round_of Demo.no_data).2) /\
    intake_reaches Demo.after_spin new /\
    subscription_intake (wait_set Demo.after_spin) Demo.after_spin
      (Demo.round_of Demo.no_data).1.1 (Demo.round_of Demo.no_data).1.2 new.
Proof.
  split; [exact wf_after_spin|].
  exact (let_scheduling_subscription_intake Demo.after_spin
           (wait_set Demo.after_spin) (Sim.start Demo.no_data 0) _ _ _
           wf_after_spin (triple_eta (Demo.round_of Demo.no_data))).
Defined.

(** The same round, evaluated: the fetch is made and reports no data, the
    flag of the subscription stays false, and the round goes on: both
    handles are executed, the timer is called, the callback of the
    subscription is not, and the round returns [RCL_RET_OK]. *)
Example no_data_round :
  log (Demo.round_of Demo.no_data).2 =
    [EvReadInput 0; EvTimerIsReady 0 (Some 7) RCL_RET_OK true;
     EvReadInput 1;
     EvTake 1 (Some 3) (Some 30) RCL_RET_SUBSCRIPTION_TAKE_FAILED;
     EvExecute 0; EvTimerCall 0 (Some 7) RCL_RET_OK; EvExecute 1] /\
  h_data_available (handle (Demo.round_of Demo.no_data).1.2 1) = false /\
  (Demo.round_of Demo.no_data).1.1 = RCL_RET_OK.
Proof. vm_compute. by split_and!. Qed.

(** C4 at a full table of capacity one and at an empty table of capacity
    two. *)
Lemma add_handle_capacity_witness :
  rcle_let_executor_add_subscription Demo.full (Some 3) (Some 30) (Some 300)
    ALWAYS (Sim.start Sim.quiet 0) =
    (RCL_RET_ERROR, Demo.full, Sim.start Sim.quiet 0) /\
  rcle_let_executor_add_timer Demo.full (Some 8) (Sim.start Sim.quiet 0) =
    (RCL_RET_ERROR, Demo.full, Sim.start Sim.quiet 0) /\
  (exists ex' e',
     rcle_let_executor_add_subscription (Sim.fresh 2) (Some 3) (Some 30)
       (Some 300) ALWAYS (Sim.start Sim.quiet 0) = (RCL_RET_OK, ex', e') /\
     h_initialized (handle ex' 0) = true /\ index ex' = 1) /\
  (exists ex' e',
     rcle_let_executor_add_timer (Sim.fresh 2) (Some 7)
       (Sim.start Sim.quiet 0) = (RCL_RET_OK, ex', e') /\
     h_initialized (handle ex' 0) = true /\ index ex' = 1).
Proof.
  destruct (add_handle_capacity Demo.full (Sim.start Sim.quiet 0))
    as (Hsub & Htimer & _ & _).
  destruct (add_handle_capacity (Sim.fresh 2) (Sim.start Sim.quiet 0))
    as (_ & _ & Hsub' & Htimer').
  split; [apply Hsub; reflexivity|].
  split; [apply Htimer; reflexivity|].
  split.
  - destruct (Hsub' 3 30 300 ALWAYS) as (ex' & e' & Hadd & _ & Hinit & _ & _ & _ & Hidx & _);
      [simpl; lia|reflexivity|].
    exists ex', e'. split; [exact Hadd|]. split; [exact Hinit|exact Hidx].
  - destruct (Htimer' 7) as (ex' & e' & Hadd & _ & Hinit & _ & _ & _ & Hidx & _);
      [simpl; lia|reflexivity|].
    exists ex', e'. split; [exact Hadd|]. split; [exact Hinit|exact Hidx].
Defined.

(** C5 at an empty table of capacity two that receives a timer. *)
Lemma registration_forces_rebuild_witness :
  wf (Sim.fresh 2) /\
  next_spin_rebuilds (W := Sim.machine)
    (rcle_let_executor_add_timer (Sim.fresh 2) (Some 7) (Sim.start Sim.quiet 0)).1.2.
Proof.
  split; [exact wf_fresh|].
  apply (proj2 (registration_forces_rebuild (Sim.fresh 2) wf_fresh)
           (Some 7) (Sim.start Sim.quiet 0) _
           (rcle_let_executor_add_timer (Sim.fresh 2) (Some 7)
              (Sim.start Sim.quiet 0)).2).
  reflexivity.
Defined.

(** C6, the claim as stated, fails: the slot of the timer is ready and its
    expiry check fails, with the code [RCL_RET_SUBSCRIPTION_TAKE_FAILED];
    the round is not aborted: the subscription behind the timer is read
    and fetched, both handles are executed, the callback of the
    subscription is run, and the round returns [RCL_RET_OK]. *)
Lemma failed_timer_check_does_not_end_round :
  log (Demo.round_of Demo.timer_check_take_failed).2 =
    [EvReadInput 0;
     EvTimerIsReady 0 (Some 7) RCL_RET_SUBSCRIPTION_TAKE_FAILED false;
     EvReadInput 1; EvTake 1 (Some 3) (Some 30) RCL_RET_OK;
     EvExecute 0; EvExecute 1; EvCallback 1 (Some 300) (Some 30)] /\
  (Demo.round_of Demo.timer_check_take_failed).1.1 = RCL_RET_OK.
Proof. vm_compute. by split. Qed.

(** C6 as amended, at a round in which the slot of the timer is ready and
    the timer denies the expiry. *)
Lemma let_scheduling_timer_intake_witness :
  wf Demo.after_spin /\
  exists new,
    log (Demo.round_of Demo.timer_denies).2 =
      log (Sim.start Demo.timer_denies 0) ++ new /\
    replay new (wait_set Demo.after_spin, world (Sim.start Demo.timer_denies 0)) =
      Some (wait_set Demo.after_spin, world (Demo.round_of Demo.timer_denies).2) /\
    intake_reaches Demo.after_spin new /\
    timer_intake (wait_set Demo.after_spin) Demo.after_spin
      (Demo.round_of Demo.timer_denies).1.1
      (Demo.round_of Demo.timer_denies).1.2 new.
Proof.
  split; [exact wf_after_spin|].
  exact (let_scheduling_timer_intake Demo.after_spin
           (wait_set Demo.after_spin) (Sim.start Demo.timer_denies 0) _ _ _
           wf_after_spin (triple_eta (Demo.round_of Demo.timer_denies))).
Defined.

(** The same round, evaluated: the check is consulted and denies the
    expiry, which ends the round with [RCL_RET_ERROR]. *)
Example timer_denies_round :
  log (Demo.round_of Demo.timer_denies).2 =
    [EvReadInput 0; EvTimerIsReady 0 (Some 7) RCL_RET_OK false] /\
  h_data_available (handle (Demo.round_of Demo.timer_denies).1.2 0) = false /\
  (Demo.round_of Demo.timer_denies).1.1 = RCL_RET_ERROR.
Proof. vm_compute. by split_and!. Qed.

(** C7, the claim as stated, fails: the registration of the subscription
    fails after the timer has been registered; [spin_some] returns the
    error, and the executor is left with a valid wait set that holds the
    timer only. *)
Lemma spin_some_keeps_wait_set_on_failed_registration :
  (rcle_let_executor_spin_some Demo.two_handles 100
     (Sim.start Demo.registration_fails 0)).1.1 = RCL_RET_ERROR /\
  rcl_wait_set_is_valid
    (wait_set (rcle_let_executor_spin_some Demo.two_handles 100
                 (Sim.start Demo.registration_fails 0)).1.2) = true /\
  timers
    (wait_set (rcle_let_executor_spin_some Demo.two_handles 100
                 (Sim.start Demo.registration_fails 0)).1.2) = [Some 7].
Proof. vm_compute. by split_and!. Qed.

(** C7 as amended, at the same call. *)
Lemma spin_some_setup_failure_witness :
  wf Demo.two_handles /\
  exists new,
    log (rcle_let_executor_spin_some Demo.two_handles 100
           (Sim.start Demo.registration_fails 0)).2 =
      log (Sim.start Demo.registration_fails 0) ++ new /\
    setup_failure_reported Demo.two_handles
      (rcle_let_executor_spin_some Demo.two_handles 100
         (Sim.start Demo.registration_fails 0)).1.1 new /\
    setup_failure_leaves Demo.two_handles
      (wait_set Demo.two_handles, world (Sim.start Demo.registration_fails 0))
      (rcle_let_executor_spin_some Demo.two_handles 100
         (Sim.start Demo.registration_fails 0)).1.2
      (world (rcle_let_executor_spin_some Demo.two_handles 100
                (Sim.start Demo.registration_fails 0)).2) new /\
    next_spin_some_restarts (W := Sim.machine) Demo.two_handles
      (rcle_let_executor_spin_some Demo.two_handles 100
         (Sim.start Demo.registration_fails 0)).1.2.
Proof.
  split; [exact wf_two_handles|].
  exact (spin_some_setup_failure Demo.two_handles 100
           (Sim.start Demo.registration_fails 0) _ _ _
           wf_two_handles (triple_eta _)).
Defined.

(** The executor after that call, in the next call: the wait set is
    valid, so the call starts by clearing it and registers the timer again
    before it comes to the subscription. *)
Example spin_some_after_failed_registration :
  log (rcle_let_executor_spin_some
         (rcle_let_executor_spin_some Demo.two_handles 100
            (Sim.start Demo.registration_fails 0)).1.2
         100 (Sim.start Demo.registration_fails 0)).2 =
    [EvWaitSetClear RCL_RET_OK; EvWaitSetAddTimer 0 (Some 7) RCL_RET_OK 0;
     EvWaitSetAddSubscription 1 (Some 3) RCL_RET_ERROR 0].
Proof. by vm_compute. Qed.

(** C8, the code at a failing input: [rcl_wait] fails with
    [RCL_RET_ERROR], and [spin_some] returns [RCL_RET_OK]. *)
Theorem spin_some_swallows_wait_error :
  (rcle_let_executor_spin_some Demo.two_handles 100
     (Sim.start Demo.wait_fails 0)).1.1 = RCL_RET_OK /\
  EvWait 100 RCL_RET_ERROR ∈
    log (rcle_let_executor_spin_some Demo.two_handles 100
           (Sim.start Demo.wait_fails 0)).2.
Proof.
  split; [by vm_compute|].
  apply list_elem_of_In. vm_compute. tauto.
Qed.

(** C9, the claim as stated, fails: the round fails (the fetch of the
    ready subscription returns [RCL_RET_ERROR]); the call returns the
    error and [invocation_time] is still 5000, not 5000 plus the period. *)
Lemma spin_one_period_failed_round_keeps_invocation_time :
  invocation_time Demo.in_period = 5000%Z /\
  (rcle_let_executor_spin_one_period Demo.in_period 1000000
     (Sim.start Demo.take_fails 6000)).1.1 = RCL_RET_ERROR /\
  invocation_time
    (rcle_let_executor_spin_one_period Demo.in_period 1000000
       (Sim.start Demo.take_fails 6000)).1.2 = 5000%Z.
Proof. vm_compute. by split_and!. Qed.

(** C9 as amended, at a first call with nothing ready. *)
Lemma spin_one_period_keeps_period_witness :
  wf Demo.two_handles /\
  period_kept Demo.two_handles 1000000 (Sim.start Sim.quiet 6000)
    (latched Demo.two_handles (Sim.start Sim.quiet 6000)).1
    (rcle_let_executor_spin_some
       (latched Demo.two_handles (Sim.start Sim.quiet 6000)).1
       (timeout_ns (latched Demo.two_handles (Sim.start Sim.quiet 6000)).1)
       (latched Demo.two_handles (Sim.start Sim.quiet 6000)).2).1.1
    (rcle_let_executor_spin_some
       (latched Demo.two_handles (Sim.start Sim.quiet 6000)).1
       (timeout_ns (latched Demo.two_handles (Sim.start Sim.quiet 6000)).1)
       (latched Demo.two_handles (Sim.start Sim.quiet 6000)).2).1.2
    (rcle_let_executor_spin_some
       (latched Demo.two_handles (Sim.start Sim.quiet 6000)).1
       (timeout_ns (latched Demo.two_handles (Sim.start Sim.quiet 6000)).1)
       (latched Demo.two_handles (Sim.start Sim.quiet 6000)).2).2.
Proof.
  split; [exact wf_two_handles|].
  exact (spin_one_period_keeps_period Demo.two_handles 1000000
           (Sim.start Sim.quiet 6000) _ _ _ _ _
           wf_two_handles (pair_eta _) (triple_eta _)).
Defined.

(** The same call, evaluated: the invocation time is latched at 6000 and
    moved to 1006000; the round ends at 7000 and the call sleeps for the
    999 microseconds that are left. *)
Example spin_one_period_first_call :
  invocation_time
    (rcle_let_executor_spin_one_period Demo.two_handles 1000000
       (Sim.start Sim.quiet 6000)).1.2 = 1006000%Z /\
  last (log (rcle_let_executor_spin_one_period Demo.two_handles 1000000
               (Sim.start Sim.quiet 6000)).2) = Some (EvUsleep 999).
Proof. vm_compute. by split. Qed.

(** C10 at the table with a timer and a subscription, and at its first
    call of [spin_some] with both sources ready. *)
Lemma timers_run_on_expiry_only_witness :
  (reachable (W := Sim.machine) Demo.two_handles /\
   after_calls (W := Sim.machine) Demo.two_handles /\
   wf Demo.two_handles /\ timers_on_new_data Demo.two_handles) /\
  exists new,
    log (rcle_let_executor_spin_some Demo.two_handles 100
           (Sim.start Sim.busy 0)).2 = log (Sim.start Sim.busy 0) ++ new /\
    replay new (wait_set Demo.two_handles, world (Sim.start Sim.busy 0)) =
      Some (wait_set (rcle_let_executor_spin_some Demo.two_handles 100
                        (Sim.start Sim.busy 0)).1.2,
            world (rcle_let_executor_spin_some Demo.two_handles 100
                     (Sim.start Sim.busy 0)).2) /\
    spin_timer_calls_confirmed Demo.two_handles (to_int64 100)
      (wait_set Demo.two_handles, world (Sim.start Sim.busy 0))
      (rcle_let_executor_spin_some Demo.two_handles 100
         (Sim.start Sim.busy 0)).1.2 new.
Proof.
  split.
  - split; [exact reachable_two_handles|].
    destruct (proj1 (proj2 timers_run_on_expiry_only) Demo.two_handles
                reachable_two_handles) as [Hcalls Hwf].
    split; [exact Hcalls|]. split; [exact Hwf|].
    exact (proj1 (proj1 timers_run_on_expiry_only Demo.two_handles Hcalls)).
  - exact (proj2 (proj2 (proj2 (proj2 timers_run_on_expiry_only)))
             Demo.two_handles 100%Z (Sim.start Sim.busy 0) _ _ _
             wf_two_handles (triple_eta _)).
Defined.

(** The same call, evaluated: the timer is registered in slot 0, its
    expiry is confirmed after the wait, and then it is called. *)
Example busy_spin_some_calls_timer :
  log (rcle_let_executor_spin_some Demo.two_handles 100
         (Sim.start Sim.busy 0)).2 =
    [EvWaitSetFini RCL_RET_OK;
     EvWaitSetInit (info Demo.two_handles) (Some 1) RCL_RET_OK;
     EvWaitSetClear RCL_RET_OK;
     EvWaitSetAddTimer 0 (Some 7) RCL_RET_OK 0;
     EvWaitSetAddSubscription 1 (Some 3) RCL_RET_OK 0;
     EvWait 100 RCL_RET_OK;
     EvReadInput 0; EvTimerIsReady 0 (Some 7) RCL_RET_OK true;
     EvReadInput 1; EvTake 1 (Some 3) (Some 30) RCL_RET_OK;
     EvExecute 0; EvTimerCall 0 (Some 7) RCL_RET_OK;
     EvExecute 1; EvCallback 1 (Some 300) (Some 30)].
Proof. by vm_compute. Qed.

(** *** The further properties at concrete inputs *)

(** X1 at a table for two handles: its 112 bytes are granted, and a call
    without a context is refused. *)
Lemma init_checks_arguments_witness :
  table_fits 2 /\
  (rcle_let_executor_init rcle_let_executor_get_zero_initialized_executor
     (Some 1) 2 (Some Sim.malloc)).1 = RCL_RET_OK /\
  (rcle_let_executor_init rcle_let_executor_get_zero_initialized_executor
     None 2 (Some Sim.malloc)).2 =
    rcle_let_executor_get_zero_initialized_executor.
Proof.
  assert (table_fits 2) as Hfits by reflexivity.
  split; [exact Hfits|].
  destruct (init_checks_arguments
              rcle_let_executor_get_zero_initialized_executor
              (Some 1) 2 (Some Sim.malloc) Hfits) as (_ & _ & [_ Hok] & _).
  destruct (init_checks_arguments
              rcle_let_executor_get_zero_initialized_executor
              None 2 (Some Sim.malloc) Hfits) as (_ & _ & _ & Hsame).
  split.
  - apply Hok. split; [by eexists|]. by split_and!.
  - apply Hsame. by left.
Defined.

(** X2 at the construction of a table for two handles. *)
Lemma init_gives_empty_table_witness :
  rcle_let_executor_init rcle_let_executor_get_zero_initialized_executor
    (Some 1) 2 (Some Sim.malloc) = (RCL_RET_OK, Sim.fresh 2) /\
  _rcle_let_executor_is_valid (Sim.fresh 2) = true /\
  registered (Sim.fresh 2) = [] /\
  timeout_ns (Sim.fresh 2) = DEFAULT_WAIT_TIMEOUT_MS.
Proof.
  split; [reflexivity|].
  destruct (init_gives_empty_table
              rcle_let_executor_get_zero_initialized_executor
              (Some 1) 2 (Some Sim.malloc) (Sim.fresh 2) eq_refl)
    as (Hvalid & _ & _ & _ & _ & Hregistered & _ & _ & _ & Htimeout & _).
  exact (conj Hvalid (conj Hregistered Htimeout)).
Defined.

(** X3 at an allocator without memory. *)
Lemma init_bad_alloc_leaves_invalid_witness :
  rcle_let_executor_init rcle_let_executor_get_zero_initialized_executor
    (Some 1) 2 (Some Demo.no_memory) = (RCL_RET_BAD_ALLOC, Demo.unallocated) /\
  handles Demo.unallocated = None /\ max_handles Demo.unallocated = 2 /\
  rcle_let_executor_set_timeout Demo.unallocated 5000 =
    (RCL_RET_ERROR, Demo.unallocated).
Proof.
  split; [reflexivity|].
  destruct (init_bad_alloc_leaves_invalid
              rcle_let_executor_get_zero_initialized_executor
              (Some 1) 2 (Some Demo.no_memory) Demo.unallocated eq_refl)
    as (Hnone & Hmax & _ & _ & _ & Hset & _).
  exact (conj Hnone (conj Hmax (Hset 5000%Z))).
Defined.

(** X4 at the table with two handles after a call of [spin_some], which
    has left it a valid wait set. *)
Lemma fini_releases_executor_witness :
  _rcle_let_executor_is_valid Demo.after_spin = true /\
  exists ex' e',
    rcle_let_executor_fini Demo.after_spin (Sim.start Sim.quiet 0) =
      (RCL_RET_OK, ex', e') /\
    handles ex' = None /\ _rcle_let_executor_is_valid ex' = false /\
    exists rc0, log e' = log (Sim.start Sim.quiet 0) ++ [EvWaitSetFini rc0].
Proof.
  split; [reflexivity|].
  destruct (fini_releases_executor Demo.after_spin (Sim.start Sim.quiet 0) eq_refl)
    as (ex' & e' & Hfini & Hnone & _ & _ & _ & _ & _ & Hinvalid & _ & _ & _ & Hcall & _).
  exists ex', e'. exact (conj Hfini (conj Hnone (conj Hinvalid (Hcall eq_refl)))).
Defined.

(** X6 at the zero-initialized executor. *)
Lemma released_executor_rejects_use_witness :
  released (W := Sim.machine) rcle_let_executor_get_zero_initialized_executor /\
  rcle_let_executor_add_timer rcle_let_executor_get_zero_initialized_executor
    (Some 7) (Sim.start Sim.quiet 0) =
    (RCL_RET_ERROR, rcle_let_executor_get_zero_initialized_executor,
     Sim.start Sim.quiet 0).
Proof.
  split; [by left|].
  exact (proj2 (proj2 (released_executor_rejects_use (W := Sim.machine)
                         rcle_let_executor_get_zero_initialized_executor
                         (or_introl eq_refl))) 7 (Sim.start Sim.quiet 0)).
Defined.

(** X8 at the table with a timer and a subscription. *)
Lemma reachable_counts_match_table_witness :
  reachable (W := Sim.machine) Demo.two_handles /\
  number_of_subscriptions (info Demo.two_handles) = 1 /\
  number_of_timers (info Demo.two_handles) = 1 /\
  count_kind SUBSCRIPTION Demo.two_handles = 1 /\
  count_kind TIMER Demo.two_handles = 1.
Proof.
  split; [exact reachable_two_handles|].
  destruct (reachable_counts_match_table (W := Sim.machine) Demo.two_handles
              reachable_two_handles) as (Hs & Ht & _).
  split_and!; [reflexivity|reflexivity| |].
  - by rewrite <- Hs.
  - by rewrite <- Ht.
Defined.

(** X9 at the same table. *)
Lemma reachable_valid_iff_has_table_witness :
  reachable (W := Sim.machine) Demo.two_handles /\
  (_rcle_let_executor_is_valid Demo.two_handles = true <->
   0 < max_handles Demo.two_handles).
Proof.
  split; [exact reachable_two_handles|].
  exact (proj1 (proj2 (reachable_valid_iff_has_table (W := Sim.machine)
                         Demo.two_handles reachable_two_handles))).
Defined.

(** X10 at the first call of [spin_some] for that table. *)
Lemma spin_some_sizes_wait_set_for_table_witness :
  reachable (W := Sim.machine) Demo.two_handles /\
  exists new,
    log (rcle_let_executor_spin_some Demo.two_handles 100
           (Sim.start Sim.busy 0)).2 = log (Sim.start Sim.busy 0) ++ new /\
    forall sizes ctx rc_init, EvWaitSetInit sizes ctx rc_init ∈ new ->
      ctx = context Demo.two_handles /\
      number_of_subscriptions sizes = count_kind SUBSCRIPTION Demo.two_handles /\
      number_of_timers sizes = count_kind TIMER Demo.two_handles /\
      number_of_clients sizes = 0 /\ number_of_services sizes = 0 /\
      number_of_guard_conditions sizes = 0 /\ number_of_events sizes = 0.
Proof.
  split; [exact reachable_two_handles|].
  exact (spin_some_sizes_wait_set_for_table Demo.two_handles 100
           (Sim.start Sim.busy 0) _ _ _ reachable_two_handles (triple_eta _)).
Defined.

(** X11 at three registrations for a table with room for two. *)
Lemma registrations_fill_capacity_witness :
  wf (Sim.fresh 2) /\
  (register_all Demo.requests (Sim.fresh 2) (Sim.start Sim.quiet 0)).1.1 =
    [RCL_RET_OK; RCL_RET_OK; RCL_RET_ERROR] /\
  kinds (register_all Demo.requests (Sim.fresh 2) (Sim.start Sim.quiet 0)).1.2 =
    [TIMER; SUBSCRIPTION].
Proof.
  split; [exact wf_fresh|].
  destruct (registrations_fill_capacity Demo.requests (Sim.fresh 2)
              (Sim.start Sim.quiet 0) _ _ _ wf_fresh (triple_eta _))
    as (Hcodes & _ & _ & Hkinds).
  exact (conj Hcodes Hkinds).
Defined.

(** X12 at the round with a timer and a subscription, both ready. *)
Lemma let_scheduling_reads_before_executing_witness :
  wf Demo.after_spin /\
  exists reads runs,
    log (Demo.round_of Sim.busy).2 = log (Sim.start Sim.busy 0) ++ reads ++ runs /\
    Forall (fun ev => is_intake_event ev = true) reads /\
    Forall (fun ev => is_execution_event ev = true) runs /\
    (runs <> [] ->
     read_positions reads = seq 0 (index Demo.after_spin) /\
     Forall (fun ev => abort_code ev = None) reads).
Proof.
  split; [exact wf_after_spin|].
  exact (let_scheduling_reads_before_executing Demo.after_spin
           (wait_set Demo.after_spin) (Sim.start Sim.busy 0) _ _ _
           wf_after_spin (triple_eta (Demo.round_of Sim.busy))).
Defined.

(** X13 at the same round. *)
Lemma let_scheduling_touches_flags_only_witness :
  wf Demo.after_spin /\
  wait_set (Demo.round_of Sim.busy).1.2 = wait_set Demo.after_spin /\
  forall j,
    with_data_available false (handle (Demo.round_of Sim.busy).1.2 j) =
    with_data_available false (handle Demo.after_spin j).
Proof.
  split; [exact wf_after_spin|].
  destruct (let_scheduling_touches_flags_only Demo.after_spin
              (wait_set Demo.after_spin) (Sim.start Sim.busy 0) _ _ _
              wf_after_spin (triple_eta (Demo.round_of Sim.busy)))
    as (_ & _ & Hws & _ & _ & _ & _ & _ & Hflags & _).
  exact (conj Hws Hflags).
Defined.

(** X14 at the round in which the call of the timer fails. *)
Lemma let_scheduling_failed_timer_call_ends_round_witness :
  wf Demo.after_spin /\
  exists new,
    log (Demo.round_of Demo.timer_call_fails).2 =
      log (Sim.start Demo.timer_call_fails 0) ++ new /\
    (forall i t rc_call, EvTimerCall i t rc_call ∈ new ->
       rc_call <> RCL_RET_OK ->
       (Demo.round_of Demo.timer_call_fails).1.1 = rc_call /\
       (exists pre, new = pre ++ [EvTimerCall i t rc_call]) /\
       execute_positions new = seq 0 (S i)) /\
    ((Demo.round_of Demo.timer_call_fails).1.1 <> RCL_RET_OK ->
     execute_positions new <> [] ->
     exists pre i t,
       new = pre ++ [EvTimerCall i t (Demo.round_of Demo.timer_call_fails).1.1]).
Proof.
  split; [exact wf_after_spin|].
  exact (let_scheduling_failed_timer_call_ends_round Demo.after_spin
           (wait_set Demo.after_spin) (Sim.start Demo.timer_call_fails 0) _ _ _
           wf_after_spin (triple_eta (Demo.round_of Demo.timer_call_fails))).
Defined.

(** The same round, evaluated: the timer is at position 0, its call fails,
    and the subscription behind it is not executed. *)
Example failed_timer_call_round :
  (Demo.round_of Demo.timer_call_fails).1.1 = RCL_RET_ERROR /\
  execute_positions (log (Demo.round_of Demo.timer_call_fails).2) = [0] /\
  last (log (Demo.round_of Demo.timer_call_fails).2) =
    Some (EvTimerCall 0 (Some 7) RCL_RET_ERROR).
Proof. vm_compute. by split_and!. Qed.

(** X15 at the first call of [spin_some] for the table with two handles. *)
Lemma spin_some_waits_once_witness :
  wf Demo.two_handles /\
  exists new,
    log (rcle_let_executor_spin_some Demo.two_handles 100
           (Sim.start Sim.busy 0)).2 = log (Sim.start Sim.busy 0) ++ new /\
    ((exists setup rc_wait run,
        new = setup ++ EvWait 100 rc_wait :: run /\
        Forall (fun ev => is_setup_event ev = true /\ setup_failure ev = None) setup /\
        registration_positions setup = seq 0 (index Demo.two_handles) /\
        Forall (fun ev => stage_of ev = Running) run) \/
     ((rcle_let_executor_spin_some Demo.two_handles 100
         (Sim.start Sim.busy 0)).1.1 <> RCL_RET_OK /\
      Forall (fun ev => is_setup_event ev = true) new /\
      exists pre ev, new = pre ++ [ev] /\
        setup_failure ev =
          Some (rcle_let_executor_spin_some Demo.two_handles 100
                  (Sim.start Sim.busy 0)).1.1)).
Proof.
  split; [exact wf_two_handles|].
  exact (spin_some_waits_once Demo.two_handles 100 (Sim.start Sim.busy 0) _ _ _
           wf_two_handles (triple_eta _)).
Defined.

(** X16 at the same call. *)
Lemma spin_some_keeps_table_witness :
  wf Demo.two_handles /\
  index (rcle_let_executor_spin_some Demo.two_handles 100
           (Sim.start Sim.busy 0)).1.2 = index Demo.two_handles /\
  info (rcle_let_executor_spin_some Demo.two_handles 100
          (Sim.start Sim.busy 0)).1.2 = info Demo.two_handles /\
  forall j,
    h_type (handle (rcle_let_executor_spin_some Demo.two_handles 100
                      (Sim.start Sim.busy 0)).1.2 j) =
    h_type (handle Demo.two_handles j).
Proof.
  split; [exact wf_two_handles|].
  destruct (spin_some_keeps_table Demo.two_handles 100 (Sim.start Sim.busy 0) _ _ _
              wf_two_handles (triple_eta _))
    as (_ & Hidx & Hinfo & _ & _ & _ & _ & _ & Hhandles).
  exact (conj Hidx (conj Hinfo (fun j => proj1 (Hhandles j)))).
Defined.

(** X17 at an empty table with room for two handles. *)
Lemma spin_some_empty_table_witness :
  wf (Sim.fresh 2) /\ index (Sim.fresh 2) = 0 /\
  exists new,
    log (rcle_let_executor_spin_some (Sim.fresh 2) 100 (Sim.start Sim.quiet 0)).2 =
      log (Sim.start Sim.quiet 0) ++ new /\
    Forall (fun ev => event_position ev = None) new.
Proof.
  split; [exact wf_fresh|]. split; [reflexivity|].
  destruct (spin_some_empty_table (Sim.fresh 2) 100 (Sim.start Sim.quiet 0) _ _ _
              wf_fresh eq_refl (triple_eta _)) as (new & Hlog & Hnone & _).
  exists new. exact (conj Hlog Hnone).
Defined.

(** The drivers, evaluated: [spin] ends with the error of the first round
    when the fetch fails, and is still spinning after three rounds when
    nothing fails; [spin_period] goes on where [spin] ends. *)
Example spin_stops_at_failed_round :
  (fun r => r.1.1) <$>
    rcle_let_executor_spin 3 Demo.two_handles (Sim.start Demo.take_fails 0) =
    Some RCL_RET_ERROR /\
  rcle_let_executor_spin 3 Demo.two_handles (Sim.start Sim.quiet 0) = None /\
  rcle_let_executor_spin_period 3 Demo.two_handles 1000000
    (Sim.start Demo.take_fails 0) = None.
Proof. vm_compute. by split_and!. Qed.

(** X20 at a timeout of 5000 ns. *)
Lemma spin_waits_with_configured_timeout_witness :
  wf Demo.two_handles /\
  rcle_let_executor_set_timeout Demo.two_handles 5000 =
    (RCL_RET_OK, Demo.configured) /\
  exists new,
    log (rcle_let_executor_spin_one_period Demo.configured 1000000
           (Sim.start Sim.quiet 6000)).2 = log (Sim.start Sim.quiet 6000) ++ new /\
    forall t rc_wait, EvWait t rc_wait ∈ new -> t = 5000%Z.
Proof.
  split; [exact wf_two_handles|]. split; [reflexivity|].
  exact (proj1 (proj2 (proj2 (spin_waits_with_configured_timeout
                                (W := Sim.machine)
                                Demo.two_handles 5000 Demo.configured
                                wf_two_handles eq_refl)))
           1000000%Z (Sim.start Sim.quiet 6000) _ _ _ (triple_eta _)).
Defined.

(** The largest timeout, evaluated: it is stored as it is, and [rcl_wait]
    receives -1. *)
Example spin_some_largest_timeout :
  timeout_ns
    (rcle_let_executor_set_timeout Demo.two_handles (2 ^ 64 - 1)).2 =
    (2 ^ 64 - 1)%Z /\
  EvWait (-1) RCL_RET_TIMEOUT ∈
    log (rcle_let_executor_spin_some Demo.two_handles (2 ^ 64 - 1)
           (Sim.start Sim.quiet 0)).2.
Proof.
  split; [by vm_compute|].
  apply list_elem_of_In. vm_compute. tauto.
Qed.
